(** * Pathfinding visualizer: the multi-algorithm shortest-path engine

    A shallow embedding of [src/algorithms/dijkstra.ts], [astar.ts],
    [greedyBfs.ts], [bidirectionalSwarm.ts] and [bmssp.ts], and the
    properties of the engine stated in the specification.

    Conventions of the embedding.
    - A JavaScript number that the engine computes is a natural number or
      [Infinity]: every value is obtained from [0], [+ 1], Manhattan
      distances and sums of those.  The type [num] has exactly these values.
    - A node object is referred to by its grid position: the driver builds
      one object per cell and never re-identifies it, so object identity
      ([===], [includes], [Set] membership) is equality of positions.
    - The grid [NodeData[][]] is a list of rows; in-place mutation of a node
      is explicit state passing of the grid.
    - A [while] loop is a loop body iterated under a fuel bound; running out
      of fuel is [None] ("has not returned yet"), never a result. *)

From stdpp Require Import base option list sorting gmap strings pretty.
From Stdlib Require Import Lia.

Open Scope nat_scope.

(** ** Numbers *)

Inductive num : Type :=
| Fin (n : nat)
| Infinity.

#[global] Instance num_eq_dec : EqDecision num.
Proof. solve_decision. Defined.

(** [a < b] *)
Definition num_ltb (a b : num) : bool :=
  match a, b with
  | Fin x, Fin y => x <? y
  | Fin _, Infinity => true
  | Infinity, _ => false
  end.

(** [a <= b] *)
Definition num_leb (a b : num) : bool :=
  match a, b with
  | Fin x, Fin y => x <=? y
  | _, Infinity => true
  | Infinity, Fin _ => false
  end.

(** [a >= b] *)
Definition num_geb (a b : num) : bool := num_leb b a.

(** [a + b] *)
Definition num_add (a b : num) : num :=
  match a, b with
  | Fin x, Fin y => Fin (x + y)
  | _, _ => Infinity
  end.

(** [Math.min(a, b)] *)
Definition num_min (a b : num) : num := if num_ltb b a then b else a.

(** [a === Infinity] *)
Definition is_infinity (a : num) : bool :=
  match a with Infinity => true | Fin _ => false end.

(** ** The grid model ([types.ts]) *)

(** A node reference: (row, col). *)
Abbreviation NodeRef := (nat * nat)%type.

Record NodeData : Type := mkNodeData {
  isStart : bool;
  isFinish : bool;
  distance : num;
  isVisited : bool;
  isWall : bool;
  previousNode : option NodeRef;
  totalDistance : num;
  heuristicDistance : num;
}.

Abbreviation Grid := (list (list NodeData)).

Definition set_distance (d : num) (n : NodeData) : NodeData :=
  mkNodeData (isStart n) (isFinish n) d (isVisited n) (isWall n)
             (previousNode n) (totalDistance n) (heuristicDistance n).
Definition set_isVisited (b : bool) (n : NodeData) : NodeData :=
  mkNodeData (isStart n) (isFinish n) (distance n) b (isWall n)
             (previousNode n) (totalDistance n) (heuristicDistance n).
Definition set_previousNode (p : option NodeRef) (n : NodeData) : NodeData :=
  mkNodeData (isStart n) (isFinish n) (distance n) (isVisited n) (isWall n)
             p (totalDistance n) (heuristicDistance n).
Definition set_totalDistance (d : num) (n : NodeData) : NodeData :=
  mkNodeData (isStart n) (isFinish n) (distance n) (isVisited n) (isWall n)
             (previousNode n) d (heuristicDistance n).
Definition set_heuristicDistance (d : num) (n : NodeData) : NodeData :=
  mkNodeData (isStart n) (isFinish n) (distance n) (isVisited n) (isWall n)
             (previousNode n) (totalDistance n) d.
Definition set_isWall (b : bool) (n : NodeData) : NodeData :=
  mkNodeData (isStart n) (isFinish n) (distance n) (isVisited n) b
             (previousNode n) (totalDistance n) (heuristicDistance n).

(** A freshly created node ([createNode]): every search field reset. *)
Definition createNode (start finish : NodeRef) (p : NodeRef) : NodeData :=
  mkNodeData (bool_decide (p = start)) (bool_decide (p = finish))
             Infinity false false None Infinity Infinity.

(** [grid[row][col]]; positions outside the grid (where JavaScript would
    throw) read as a blank wall-free node, and are never read by the engine
    on a rectangular grid. *)
Definition blankNode : NodeData :=
  mkNodeData false false Infinity false false None Infinity Infinity.

Definition getNode (g : Grid) (p : NodeRef) : NodeData :=
  default blankNode (g !! p.1 ≫= λ r, r !! p.2).

(** In-place update of the fields of the node at [p]. *)
Definition updNode (g : Grid) (p : NodeRef) (f : NodeData → NodeData) : Grid :=
  alter (alter f p.2) p.1 g.

(** [grid.length] and [grid[0].length]. *)
Definition rows (g : Grid) : nat := length g.
Definition cols (g : Grid) : nat := length (default [] (g !! 0)).

(** The four pushes shared by every neighbour enumeration: up, down, left,
    right, each guarded by its bound check. *)
Definition gridNeighbors (node : NodeRef) (g : Grid) : list NodeRef :=
  let '(row, col) := node in
  (if 0 <? row then [(row - 1, col)] else []) ++
  (if row <? rows g - 1 then [(row + 1, col)] else []) ++
  (if 0 <? col then [(row, col - 1)] else []) ++
  (if col <? cols g - 1 then [(row, col + 1)] else []).

(** [Math.abs(a.row - b.row) + Math.abs(a.col - b.col)] *)
Definition absdiff (a b : nat) : nat := (a - b) + (b - a).
Definition getManhattanDistance (a b : NodeRef) : num :=
  Fin (absdiff a.1 b.1 + absdiff a.2 b.2).

(** [Array.prototype.sort] is stable; for a comparator that orders by a key
    its result is the unique stable arrangement, computed here by insertion.
    [lt a b] stands for "the comparator is negative on (a, b)".  A comparator
    value of [NaN] (Infinity - Infinity) counts as [0], which is what [lt]
    being false both ways expresses. *)
Section StableSort.
Context {A : Type} (lt : A → A → bool).

Fixpoint sort_insert (x : A) (l : list A) : list A :=
  match l with
  | [] => [x]
  | y :: l' => if lt y x then y :: sort_insert x l' else x :: y :: l'
  end.

Definition stable_sort (l : list A) : list A := foldr sort_insert [] l.
End StableSort.

(** [array.includes(x)] *)
Definition includes (x : NodeRef) (l : list NodeRef) : bool :=
  bool_decide (x ∈ l).

(** ** Results and loop states shared by the single-frontier strategies *)

Record Result : Type := mkResult {
  visitedNodesInOrder : list NodeRef;
  nodesInShortestPathOrder : list NodeRef;
}.

(** The variables live across iterations of a strategy's [while] loop. *)
Record Loop : Type := mkLoop {
  lgrid : Grid;
  lopen : list NodeRef;
  lvisited : list NodeRef;
}.

(** One pass through a loop body: either the loop goes round again, or the
    function returns.  A path of [None] is a reconstruction walk that did
    not finish within the fuel. *)
Inductive Step (St : Type) : Type :=
| Next (s : St)
| Done (g : Grid) (visited : list NodeRef) (path : option (list NodeRef)).
Arguments Next {St} s.
Arguments Done {St} g visited path.

Fixpoint run_loop {St : Type} (body : St → Step St) (fuel : nat) (s : St)
  : option (Grid * Result) :=
  match fuel with
  | 0 => None
  | S fuel' =>
      match body s with
      | Next s' => run_loop body fuel' s'
      | Done g v (Some p) => Some (g, mkResult v p)
      | Done _ _ None => None
      end
  end.

(** The state after [n] full iterations, if the loop is still running. *)
Fixpoint iterate_loop {St : Type} (body : St → Step St) (n : nat) (s : St)
  : option St :=
  match n with
  | 0 => Some s
  | S n' =>
      match body s with
      | Next s' => iterate_loop body n' s'
      | Done _ _ _ => None
      end
  end.

(** [getNodesInShortestPathOrder]: walk [previousNode] from the finish node,
    unshifting each node, until [null]. *)
Fixpoint walkPrevious (fuel : nat) (g : Grid) (currentNode : option NodeRef)
    (acc : list NodeRef) : option (list NodeRef) :=
  match currentNode with
  | None => Some acc
  | Some c =>
      match fuel with
      | 0 => None
      | S fuel' => walkPrevious fuel' g (previousNode (getNode g c)) (c :: acc)
      end
  end.

Definition getNodesInShortestPathOrder (fuel : nat) (g : Grid)
    (finishNode : NodeRef) : option (list NodeRef) :=
  walkPrevious fuel g (Some finishNode) [].

(** ** Dijkstra ([dijkstra.ts]) *)
Module Dijkstra.

Definition sortNodesByDistance (g : Grid) (unvisitedNodes : list NodeRef)
  : list NodeRef :=
  stable_sort (λ a b, num_ltb (distance (getNode g a)) (distance (getNode g b)))
              unvisitedNodes.

Definition getUnvisitedNeighbors (node : NodeRef) (g : Grid) : list NodeRef :=
  filter (λ n, isVisited (getNode g n) = false) (gridNeighbors node g).

(** Body of the [for] loop of [updateUnvisitedNeighbors]. *)
Definition relax (node : NodeRef) (acc : Grid * list NodeRef)
    (neighbor : NodeRef) : Grid * list NodeRef :=
  let '(g, openSet) := acc in
  let newDistance := num_add (distance (getNode g node)) (Fin 1) in
  if num_ltb newDistance (distance (getNode g neighbor)) then
    let g' := updNode g neighbor
                (λ n, set_previousNode (Some node) (set_distance newDistance n)) in
    (g', if includes neighbor openSet then openSet else openSet ++ [neighbor])
  else (g, openSet).

Definition updateUnvisitedNeighbors (node : NodeRef) (g : Grid)
    (openSet : list NodeRef) : Grid * list NodeRef :=
  foldl (relax node) (g, openSet) (getUnvisitedNeighbors node g).

Definition body (finishNode : NodeRef) (fuel : nat) (s : Loop) : Step Loop :=
  match sortNodesByDistance (lgrid s) (lopen s) with
  | [] => Done (lgrid s) (lvisited s) (Some [])
  | closestNode :: openSet =>
      let g := lgrid s in
      if isWall (getNode g closestNode) then Next (mkLoop g openSet (lvisited s))
      else if is_infinity (distance (getNode g closestNode)) then
        Done g (lvisited s) (Some [])
      else if isVisited (getNode g closestNode) then
        Next (mkLoop g openSet (lvisited s))
      else
        let g1 := updNode g closestNode (set_isVisited true) in
        let visited := lvisited s ++ [closestNode] in
        if bool_decide (closestNode = finishNode) then
          Done g1 visited (getNodesInShortestPathOrder fuel g1 finishNode)
        else
          let '(g2, openSet2) := updateUnvisitedNeighbors closestNode g1 openSet in
          Next (mkLoop g2 openSet2 visited)
  end.

Definition init (g : Grid) (startNode : NodeRef) : Loop :=
  mkLoop (updNode g startNode (set_distance (Fin 0))) [startNode] [].

Definition dijkstra (fuel : nat) (g : Grid) (startNode finishNode : NodeRef)
  : option (Grid * Result) :=
  run_loop (body finishNode fuel) fuel (init g startNode).

End Dijkstra.

(** ** A-star ([astar.ts]) *)
Module AStar.

(** Total distance first; on equal totals, the heuristic distance. *)
Definition sortNodesByTotalDistance (g : Grid) (nodes : list NodeRef)
  : list NodeRef :=
  stable_sort
    (λ a b,
       let na := getNode g a in
       let nb := getNode g b in
       if bool_decide (totalDistance na = totalDistance nb)
       then num_ltb (heuristicDistance na) (heuristicDistance nb)
       else num_ltb (totalDistance na) (totalDistance nb))
    nodes.

Definition getUnvisitedNeighbors (node : NodeRef) (g : Grid) : list NodeRef :=
  filter (λ n, isVisited (getNode g n) = false) (gridNeighbors node g).

Definition relax (node finishNode : NodeRef) (acc : Grid * list NodeRef)
    (neighbor : NodeRef) : Grid * list NodeRef :=
  let '(g, openSet) := acc in
  let newDistance := num_add (distance (getNode g node)) (Fin 1) in
  if num_ltb newDistance (distance (getNode g neighbor)) then
    let h := getManhattanDistance neighbor finishNode in
    let g' := updNode g neighbor
                (λ n, set_previousNode (Some node)
                        (set_totalDistance (num_add newDistance h)
                           (set_heuristicDistance h
                              (set_distance newDistance n)))) in
    (g', if includes neighbor openSet then openSet else openSet ++ [neighbor])
  else (g, openSet).

Definition updateUnvisitedNeighbors (node finishNode : NodeRef) (g : Grid)
    (openSet : list NodeRef) : Grid * list NodeRef :=
  foldl (relax node finishNode) (g, openSet) (getUnvisitedNeighbors node g).

Definition body (finishNode : NodeRef) (fuel : nat) (s : Loop) : Step Loop :=
  match sortNodesByTotalDistance (lgrid s) (lopen s) with
  | [] => Done (lgrid s) (lvisited s) (Some [])
  | closestNode :: openSet =>
      let g := lgrid s in
      if isWall (getNode g closestNode) then Next (mkLoop g openSet (lvisited s))
      else if isVisited (getNode g closestNode) then
        Next (mkLoop g openSet (lvisited s))
      else
        let g1 := updNode g closestNode (set_isVisited true) in
        let visited := lvisited s ++ [closestNode] in
        if bool_decide (closestNode = finishNode) then
          Done g1 visited (getNodesInShortestPathOrder fuel g1 finishNode)
        else
          let '(g2, openSet2) :=
            updateUnvisitedNeighbors closestNode finishNode g1 openSet in
          Next (mkLoop g2 openSet2 visited)
  end.

Definition init (g : Grid) (startNode finishNode : NodeRef) : Loop :=
  let h := getManhattanDistance startNode finishNode in
  mkLoop (updNode g startNode
            (λ n, set_totalDistance (num_add (Fin 0) h)
                    (set_heuristicDistance h (set_distance (Fin 0) n))))
         [startNode] [].

Definition astar (fuel : nat) (g : Grid) (startNode finishNode : NodeRef)
  : option (Grid * Result) :=
  run_loop (body finishNode fuel) fuel (init g startNode finishNode).

End AStar.

(** ** Greedy best-first ([greedyBfs.ts]) *)
Module Greedy.

Definition sortNodesByHeuristic (g : Grid) (nodes : list NodeRef)
  : list NodeRef :=
  stable_sort (λ a b, num_ltb (heuristicDistance (getNode g a))
                              (heuristicDistance (getNode g b)))
              nodes.

Definition getUnvisitedNeighbors (node : NodeRef) (g : Grid) : list NodeRef :=
  filter (λ n, isVisited (getNode g n) = false) (gridNeighbors node g).

Definition relax (node finishNode : NodeRef) (acc : Grid * list NodeRef)
    (neighbor : NodeRef) : Grid * list NodeRef :=
  let '(g, openSet) := acc in
  if is_infinity (distance (getNode g neighbor)) then
    let d := num_add (distance (getNode g node)) (Fin 1) in
    let h := getManhattanDistance neighbor finishNode in
    let g' := updNode g neighbor
                (λ n, set_previousNode (Some node)
                        (set_heuristicDistance h (set_distance d n))) in
    (g', openSet ++ [neighbor])
  else (g, openSet).

Definition updateUnvisitedNeighbors (node finishNode : NodeRef) (g : Grid)
    (openSet : list NodeRef) : Grid * list NodeRef :=
  foldl (relax node finishNode) (g, openSet) (getUnvisitedNeighbors node g).

Definition body (finishNode : NodeRef) (fuel : nat) (s : Loop) : Step Loop :=
  match sortNodesByHeuristic (lgrid s) (lopen s) with
  | [] => Done (lgrid s) (lvisited s) (Some [])
  | closestNode :: openSet =>
      let g := lgrid s in
      if isWall (getNode g closestNode) then Next (mkLoop g openSet (lvisited s))
      else if isVisited (getNode g closestNode) then
        Next (mkLoop g openSet (lvisited s))
      else
        let g1 := updNode g closestNode (set_isVisited true) in
        let visited := lvisited s ++ [closestNode] in
        if bool_decide (closestNode = finishNode) then
          Done g1 visited (getNodesInShortestPathOrder fuel g1 finishNode)
        else
          let '(g2, openSet2) :=
            updateUnvisitedNeighbors closestNode finishNode g1 openSet in
          Next (mkLoop g2 openSet2 visited)
  end.

Definition init (g : Grid) (startNode finishNode : NodeRef) : Loop :=
  let h := getManhattanDistance startNode finishNode in
  mkLoop (updNode g startNode
            (λ n, set_heuristicDistance h (set_distance (Fin 0) n)))
         [startNode] [].

Definition greedyBfs (fuel : nat) (g : Grid) (startNode finishNode : NodeRef)
  : option (Grid * Result) :=
  run_loop (body finishNode fuel) fuel (init g startNode finishNode).

End Greedy.

(** ** Grids for the scenarios *)

(** [getInitialGrid] followed by the wall copy of [runAlgorithm]: a
    [nrows] x [ncols] grid, every search field reset, walls as listed. *)
Definition makeGrid (nrows ncols : nat) (walls : list NodeRef)
    (start finish : NodeRef) : Grid :=
  map (λ r, map (λ c, set_isWall (bool_decide ((r, c) ∈ walls))
                        (createNode start finish (r, c)))
                (seq 0 ncols))
      (seq 0 nrows).


(** ** Bidirectional swarm ([bidirectionalSwarm.ts]) *)
Module Swarm.

(** [`${node.row}-${node.col}`] *)
Definition getNodeId (node : NodeRef) : string :=
  pretty node.1 +:+ "-" +:+ pretty node.2.

(** All grid neighbours, visited or not, walls included. *)
Definition getNeighbors (node : NodeRef) (g : Grid) : list NodeRef :=
  gridNeighbors node g.

(** [map.get(id) ?? Infinity] *)
Definition score (m : gmap string num) (node : NodeRef) : num :=
  default Infinity (m !! getNodeId node).

Definition sortNodes (nodes : list NodeRef) (fScoreMap : gmap string num)
  : list NodeRef :=
  stable_sort (λ a b, num_ltb (score fScoreMap a) (score fScoreMap b)) nodes.

(** The per-direction search state: g-scores, f-scores, parents, open set. *)
Record Side : Type := mkSide {
  gScore : gmap string num;
  fScore : gmap string num;
  parents : gmap string NodeRef;
  openSet : list NodeRef;
}.

Definition updateNeighbor (g : Grid) (current targetNode : NodeRef)
    (sd : Side) (neighbor : NodeRef) : Side :=
  if isWall (getNode g neighbor) then sd
  else
    let tentativeG := num_add (score (gScore sd) current) (Fin 1) in
    let neighborId := getNodeId neighbor in
    if num_ltb tentativeG (score (gScore sd) neighbor) then
      let h := getManhattanDistance neighbor targetNode in
      mkSide (<[neighborId := tentativeG]> (gScore sd))
             (<[neighborId := num_add tentativeG h]> (fScore sd))
             (<[neighborId := current]> (parents sd))
             (if includes neighbor (openSet sd) then openSet sd
              else openSet sd ++ [neighbor])
    else sd.

(** First loop of [reconstructBidirectionalPathRevisited]. *)
Fixpoint backtrackToStart (fuel : nat) (startParents : gmap string NodeRef)
    (startNode curr : NodeRef) (path : list NodeRef) : option (list NodeRef) :=
  if bool_decide (curr = startNode) then Some path
  else
    match fuel with
    | 0 => None
    | S fuel' =>
        match startParents !! getNodeId curr with
        | None => Some (curr :: path)
        | Some parent =>
            backtrackToStart fuel' startParents startNode parent (curr :: path)
        end
    end.

(** Second loop of [reconstructBidirectionalPathRevisited], with the final
    push of the finish node. *)
Fixpoint forwardToFinish (fuel : nat) (finishParents : gmap string NodeRef)
    (finishNode : NodeRef) (curr : option NodeRef) (path : list NodeRef)
  : option (list NodeRef) :=
  match curr with
  | None => Some path
  | Some c =>
      if bool_decide (c = finishNode) then Some (path ++ [finishNode])
      else
        match fuel with
        | 0 => None
        | S fuel' =>
            forwardToFinish fuel' finishParents finishNode
              (finishParents !! getNodeId c) (path ++ [c])
        end
  end.

Definition reconstructBidirectionalPathRevisited (fuel : nat)
    (meetingNode : NodeRef) (startParents finishParents : gmap string NodeRef)
    (startNode finishNode : NodeRef) : option (list NodeRef) :=
  path ← backtrackToStart fuel startParents startNode meetingNode [];
  forwardToFinish fuel finishParents finishNode
    (finishParents !! getNodeId meetingNode) (startNode :: path).

Record SwarmLoop : Type := mkSwarmLoop {
  sgrid : Grid;
  sstart : Side;
  sfinish : Side;
  svisited : list NodeRef;
}.

(** Marks the popped node visited once and records it. *)
Definition track (g : Grid) (visited : list NodeRef) (current : NodeRef)
  : Grid * list NodeRef :=
  if isVisited (getNode g current) then (g, visited)
  else (updNode g current (set_isVisited true), visited ++ [current]).

Definition body (startNode finishNode : NodeRef) (fuel : nat) (s : SwarmLoop)
  : Step SwarmLoop :=
  match sortNodes (openSet (sstart s)) (fScore (sstart s)),
        sortNodes (openSet (sfinish s)) (fScore (sfinish s)) with
  | currentStart :: startRest, currentFinish :: finishRest =>
      let g := sgrid s in
      let sideS := mkSide (gScore (sstart s)) (fScore (sstart s))
                          (parents (sstart s)) startRest in
      let sideF := mkSide (gScore (sfinish s)) (fScore (sfinish s))
                          (parents (sfinish s)) finishRest in
      (* --- expand start side --- *)
      let afterStart : Grid * list NodeRef * Side + Step SwarmLoop :=
        if isWall (getNode g currentStart) then inl (g, svisited s, sideS)
        else
          let '(g1, visited1) := track g (svisited s) currentStart in
          if bool_decide (is_Some (gScore (sfinish s) !! getNodeId currentStart))
          then inr (Done g1 visited1
                      (reconstructBidirectionalPathRevisited fuel currentStart
                         (parents sideS) (parents (sfinish s))
                         startNode finishNode))
          else inl (g1, visited1,
                    foldl (updateNeighbor g1 currentStart finishNode) sideS
                          (getNeighbors currentStart g1)) in
      match afterStart with
      | inr r => r
      | inl (g1, visited1, sideS1) =>
          (* --- expand finish side: the start side has touched neither the
             finish open set nor its f-scores, so the order found above is
             the order of the second sort --- *)
          if isWall (getNode g1 currentFinish) then
            Next (mkSwarmLoop g1 sideS1 sideF visited1)
          else
            let '(g2, visited2) := track g1 visited1 currentFinish in
            if bool_decide (is_Some (gScore sideS1 !! getNodeId currentFinish))
            then Done g2 visited2
                   (reconstructBidirectionalPathRevisited fuel currentFinish
                      (parents sideS1) (parents sideF) startNode finishNode)
            else
              Next (mkSwarmLoop g2 sideS1
                      (foldl (updateNeighbor g2 currentFinish startNode) sideF
                             (getNeighbors currentFinish g2))
                      visited2)
      end
  | _, _ => Done (sgrid s) (svisited s) (Some [])
  end.

Definition init (g : Grid) (startNode finishNode : NodeRef) : SwarmLoop :=
  mkSwarmLoop g
    (mkSide {[ getNodeId startNode := Fin 0 ]}
            {[ getNodeId startNode := getManhattanDistance startNode finishNode ]}
            {[ getNodeId startNode := startNode ]}
            [startNode])
    (mkSide {[ getNodeId finishNode := Fin 0 ]}
            {[ getNodeId finishNode := getManhattanDistance finishNode startNode ]}
            {[ getNodeId finishNode := finishNode ]}
            [finishNode])
    [].

Definition bidirectionalSwarm (fuel : nat) (g : Grid)
    (startNode finishNode : NodeRef) : option (Grid * Result) :=
  run_loop (body startNode finishNode fuel) fuel (init g startNode finishNode).

End Swarm.

(** ** BMSSP ([bmssp.ts]) *)
Module BMSSP.

(** Non-wall grid neighbours. *)
Definition getNeighbors (node : NodeRef) (g : Grid) : list NodeRef :=
  filter (λ n, isWall (getNode g n) = false) (gridNeighbors node g).

Definition getAllNodes (g : Grid) : list NodeRef :=
  flat_map (λ '(r, row), map (λ c, (r, c)) (seq 0 (length row))) (imap pair g).

(** A JavaScript [Set] of nodes: insertion order, no duplicates. *)
Definition set_add (x : NodeRef) (s : list NodeRef) : list NodeRef :=
  if includes x s then s else s ++ [x].
Definition set_of (l : list NodeRef) : list NodeRef := foldl (λ s x, set_add x s) [] l.

(** *** [MinHeap]: the array [elements] of (node, dist) entries *)
Abbreviation Heap := (list (NodeRef * num)).

Fixpoint bubbleUp (fuel : nat) (elements : Heap) (n : nat)
    (element : NodeRef * num) : Heap :=
  match fuel with
  | 0 => elements
  | S fuel' =>
      if 0 <? n then
        let parentIdx := (n + 1) / 2 - 1 in
        match elements !! parentIdx with
        | None => elements
        | Some parent =>
            if num_geb element.2 parent.2 then elements
            else bubbleUp fuel' (<[n := parent]> (<[parentIdx := element]> elements))
                          parentIdx element
        end
      else elements
  end.

(** The index [n] strictly decreases, so [n] rounds always suffice. *)
Definition bubbleUpAt (elements : Heap) (n : nat) : Heap :=
  match elements !! n with
  | None => elements
  | Some element => bubbleUp (S n) elements n element
  end.

Definition heap_push (elements : Heap) (node : NodeRef) (dist : num) : Heap :=
  let elements' := elements ++ [(node, dist)] in
  bubbleUpAt elements' (length elements' - 1).

Fixpoint bubbleDown (fuel : nat) (elements : Heap) (n : nat)
    (element : NodeRef * num) : Heap :=
  match fuel with
  | 0 => elements
  | S fuel' =>
      let child2N := (n + 1) * 2 in
      let child1N := child2N - 1 in
      let swap1 : option nat :=
        match elements !! child1N with
        | Some child1 => if num_ltb child1.2 element.2 then Some child1N else None
        | None => None
        end in
      let swap : option nat :=
        match elements !! child2N with
        | Some child2 =>
            let bound := match swap1 with
                         | None => element.2
                         | Some _ => default Infinity (snd <$> elements !! child1N)
                         end in
            if num_ltb child2.2 bound then Some child2N else swap1
        | None => swap1
        end in
      match swap with
      | None => elements
      | Some sw =>
          match elements !! sw with
          | None => elements
          | Some c => bubbleDown fuel' (<[sw := element]> (<[n := c]> elements))
                                 sw element
          end
      end
  end.

(** [pop]: [None] for [undefined]. The index grows at every round of
    [bubbleDown], so [length] rounds always suffice. *)
Definition heap_pop (elements : Heap) : option ((NodeRef * num) * Heap) :=
  match elements with
  | [] => None
  | min :: _ =>
      let end_ := last elements in
      let elements' := removelast elements in
      match elements', end_ with
      | _ :: _, Some e =>
          let elements'' := <[0 := e]> elements' in
          Some (min, bubbleDown (length elements'') elements'' 0 e)
      | _, _ => Some (min, elements')
      end
  end.

Definition heap_contains (elements : Heap) (node : NodeRef) : bool :=
  existsb (λ e, bool_decide (e.1 = node)) elements.

(** [findIndex]: [None] for [-1]. *)
Fixpoint findIndex {A} (f : A → bool) (l : list A) : option nat :=
  match l with
  | [] => None
  | x :: l' => if f x then Some 0 else S <$> findIndex f l'
  end.

Definition heap_decreaseKey (elements : Heap) (node : NodeRef) (dist : num)
  : Heap :=
  match findIndex (λ e, bool_decide (e.1 = node)) elements with
  | None => elements
  | Some idx =>
      match elements !! idx with
      | None => elements
      | Some e =>
          if num_ltb dist e.2 then
            bubbleUpAt (<[idx := (e.1, dist)]> elements) idx
          else elements
      end
  end.

(** *** [StructureD]: sorted [items], batch size [M], outer bound [B] *)
Record StructureD : Type := mkD {
  items : list (NodeRef * num);
  dM : nat;
  dB : num;
}.

Definition D_initialize (M : nat) (B : num) : StructureD := mkD [] M B.

(** The binary search of [insert]; the interval halves at each round. *)
Fixpoint bsearch (fuel : nat) (its : list (NodeRef * num)) (val : num)
    (low high : nat) : nat :=
  match fuel with
  | 0 => low
  | S fuel' =>
      if low <? high then
        let mid := (low + high) / 2 in
        if num_ltb (default Infinity (snd <$> its !! mid)) val
        then bsearch fuel' its val (mid + 1) high
        else bsearch fuel' its val low mid
      else low
  end.

(** [items.splice(i, 1)] and [items.splice(i, 0, x)] *)
Definition splice_out {A} (i : nat) (l : list A) : list A :=
  take i l ++ drop (S i) l.
Definition splice_in {A} (i : nat) (x : A) (l : list A) : list A :=
  take i l ++ x :: drop i l.

Definition D_insert (d : StructureD) (node : NodeRef) (val : num)
  : StructureD :=
  let place (its : list (NodeRef * num)) :=
    let low := bsearch (S (length its)) its val 0 (length its) in
    mkD (splice_in low (node, val) its) (dM d) (dB d) in
  match findIndex (λ i, bool_decide (i.1 = node)) (items d) with
  | Some existingIdx =>
      if num_ltb val (default Infinity (snd <$> items d !! existingIdx))
      then place (splice_out existingIdx (items d))
      else d
  | None => place (items d)
  end.

(** [pull]: the new structure, [Bi] and [Si]. *)
Definition D_pull (d : StructureD) : StructureD * num * list NodeRef :=
  match items d with
  | [] => (d, dB d, [])
  | _ =>
      let count := Nat.min (length (items d)) (dM d) in
      let subset := take count (items d) in
      let rest := drop count (items d) in
      let Bi := match rest with
                | [] => dB d
                | i :: _ => i.2
                end in
      (mkD rest (dM d) (dB d), Bi, map fst subset)
  end.

Definition D_batchPrepend (d : StructureD) (its : list (NodeRef * num))
  : StructureD :=
  foldl (λ d' i, D_insert d' i.1 i.2) d its.

Definition D_isEmpty (d : StructureD) : bool :=
  match items d with [] => true | _ => false end.

(** *** The module-level context *)

(** [k_param] and [t_param] are set once per run and only read after. *)
Record Params : Type := mkParams {
  k_param : nat;
  t_param : nat;
}.

(** [gridRef] and the module-level [visitedNodesInOrder] trace.
    [history] is a ghost variable, written at every mutation of a node and
    never read: the earlier values of the grid, most recent first.  It is
    what "at every point of a run" refers to. *)
Record State : Type := mkState {
  gridRef : Grid;
  trace : list NodeRef;
  history : list Grid;
}.

(** A mutation of the grid, with the new value of the trace. *)
Definition store (st : State) (g' : Grid) (tr : list NodeRef) : State :=
  mkState g' tr (gridRef st :: history st).

(** Every value the grid has taken so far, most recent first. *)
Definition points (st : State) : list Grid := gridRef st :: history st.

Definition markVisited (st : State) (u : NodeRef) : State :=
  if isVisited (getNode (gridRef st) u) then st
  else store st (updNode (gridRef st) u (set_isVisited true)) (trace st ++ [u]).

(** The two writes of every relaxation site. *)
Definition writeDistance (g : Grid) (u v : NodeRef) : Grid :=
  updNode g v
    (λ n, set_previousNode (Some u)
            (set_distance (num_add (distance (getNode g u)) (Fin 1)) n)).

(** *** Algorithm 1: [findPivots] *)

Definition fp_relax (B : num) (u : NodeRef) (acc : State * list NodeRef)
    (v : NodeRef) : State * list NodeRef :=
  let '(st, W_curr) := acc in
  let g := gridRef st in
  let nd := num_add (distance (getNode g u)) (Fin 1) in
  if num_leb nd (distance (getNode g v)) then
    let g' := writeDistance g u v in
    let tr := if isVisited (getNode g' v) then trace st else trace st ++ [v] in
    (store st g' tr, if num_ltb nd B then set_add v W_curr else W_curr)
  else (st, W_curr).

Definition fp_round (B : num) (st : State) (W_prev : list NodeRef)
  : State * list NodeRef :=
  foldl (λ acc u, foldl (fp_relax B u) acc (getNeighbors u (gridRef acc.1)))
        (st, []) W_prev.

Definition fp_merge (W W_list W_curr : list NodeRef)
  : list NodeRef * list NodeRef :=
  foldl (λ '(W, Wl) node,
           if includes node W then (W, Wl) else (W ++ [node], Wl ++ [node]))
        (W, W_list) W_curr.

Fixpoint fp_rounds (P : Params) (rounds : nat) (B : num) (S : list NodeRef)
    (st : State) (W W_prev W_list : list NodeRef) : State * list NodeRef :=
  match rounds with
  | 0 => (st, W_list)
  | Datatypes.S rounds' =>
      let '(st', W_curr) := fp_round B st W_prev in
      let '(W', W_list') := fp_merge W W_list W_curr in
      if k_param P * length S <? length W' then (st', W_list')
      else if length W_curr =? 0 then (st', W_list')
      else fp_rounds P rounds' B S st' W' W_curr W_list'
  end.

(** Returns the state, the pivots [P] (always [S]) and the witnesses [W]. *)
Definition findPivots (P : Params) (B : num) (S : list NodeRef) (st : State)
  : State * list NodeRef * list NodeRef :=
  let '(st', W_list) := fp_rounds P (k_param P) B S st (set_of S) (set_of S) S in
  (st', S, W_list).

(** *** Algorithm 2: [baseCase] *)

Definition bc_relax (B : num) (u : NodeRef) (acc : State * Heap) (v : NodeRef)
  : State * Heap :=
  let '(st, heap) := acc in
  let g := gridRef st in
  let nd := num_add (distance (getNode g u)) (Fin 1) in
  if num_leb nd (distance (getNode g v)) && num_ltb nd B then
    let st' := store st (writeDistance g u v) (trace st ++ [v]) in
    (st', if heap_contains heap v then heap_decreaseKey heap v nd
          else heap_push heap v nd)
  else (st, heap).

Fixpoint bc_loop (P : Params) (fuel : nat) (B : num) (st : State)
    (U0 : list NodeRef) (heap : Heap) : option (State * list NodeRef) :=
  match heap_pop heap with
  | None => Some (st, U0)
  | Some ((u, dist), heap') =>
      if length U0 <? k_param P + 1 then
        match fuel with
        | 0 => None
        | S fuel' =>
            if num_geb dist B then Some (st, U0)
            else
              let U0' := set_add u U0 in
              let st1 := markVisited st u in
              let '(st2, heap2) :=
                foldl (bc_relax B u) (st1, heap') (getNeighbors u (gridRef st1)) in
              bc_loop P fuel' B st2 U0' heap2
        end
      else Some (st, U0)
  end.

(** The maximum finite distance found by the scan that starts from [0]. *)
Definition maxFiniteDistance (g : Grid) (U0 : list NodeRef) : nat :=
  foldl (λ maxDist node,
           match distance (getNode g node) with
           | Fin d => if maxDist <? d then d else maxDist
           | Infinity => maxDist
           end) 0 U0.

Definition baseCase (P : Params) (fuel : nat) (B : num) (S : list NodeRef)
    (st : State) : option (State * num * list NodeRef) :=
  let heap := foldl (λ h node, heap_push h node (distance (getNode (gridRef st) node)))
                    [] S in
  '(st', U0) ← bc_loop P fuel B st (set_of S) heap;
  if length U0 <=? k_param P then Some (st', B, U0)
  else
    let maxDist := maxFiniteDistance (gridRef st') U0 in
    Some (st', Fin maxDist,
          filter (λ n, num_ltb (distance (getNode (gridRef st') n)) (Fin maxDist) = true) U0).

(** *** Algorithm 3: [bmsspRecursive] *)

(** Relaxation of one edge out of a node of [Ui]. *)
Definition rec_relax (B Bi B_prime_i : num) (u : NodeRef)
    (acc : State * StructureD * list (NodeRef * num)) (v : NodeRef)
  : State * StructureD * list (NodeRef * num) :=
  let '(st, D, K) := acc in
  let g := gridRef st in
  let newDist := num_add (distance (getNode g u)) (Fin 1) in
  if num_leb newDist (distance (getNode g v)) then
    let st' := store st (writeDistance g u v) (trace st) in
    if num_geb newDist Bi && num_ltb newDist B then (st', D_insert D v newDist, K)
    else if num_geb newDist B_prime_i && num_ltb newDist Bi
         then (st', D, K ++ [(v, newDist)])
         else (st', D, K)
  else (st, D, K).

Definition minDistance (g : Grid) (P : list NodeRef) : num :=
  foldl (λ b x, if num_ltb (distance (getNode g x)) b
                then distance (getNode g x) else b) Infinity P.

(** The [while] loop of [bmsspRecursive]; [recurse] is the call one level
    down. *)
Fixpoint rec_loop
    (recurse : num → list NodeRef → State → option (State * num * list NodeRef))
    (fuel : nat) (sizeLimit : nat) (B : num) (st : State) (D : StructureD)
    (U : list NodeRef) (B_prime : num)
  : option (State * list NodeRef * num) :=
  if (length U <? sizeLimit) && negb (D_isEmpty D) then
    match fuel with
    | 0 => None
    | S fuel' =>
        let '(D1, Bi, Si) := D_pull D in
        '(st1, B_prime_i, Ui) ← recurse Bi Si st;
        let '(st2, U2) :=
          foldl (λ '(s, U') node, (markVisited s node, set_add node U'))
                (st1, U) Ui in
        let '(st3, D3, K) :=
          foldl (λ acc u,
                   foldl (rec_relax B Bi B_prime_i u) acc
                         (getNeighbors u (gridRef acc.1.1)))
                (st2, D1, []) Ui in
        let prependList :=
          K ++ omap (λ x, let d := distance (getNode (gridRef st3) x) in
                          if num_geb d B_prime_i && num_ltb d Bi
                          then Some (x, d) else None) Si in
        let D4 := D_batchPrepend D3 prependList in
        rec_loop recurse fuel' sizeLimit B st3 D4 U2 (num_min B_prime_i B)
    end
  else Some (st, U, B_prime).

Fixpoint bmsspRecursive (P : Params) (fuel : nat) (l : nat) (B : num)
    (S : list NodeRef) (st : State) : option (State * num * list NodeRef) :=
  match l with
  | 0 => baseCase P fuel B S st
  | Datatypes.S l' =>
      let '(st1, Pv, W) := findPivots P B S st in
      let M := 2 ^ (l' * t_param P) in
      let D := foldl (λ d x, D_insert d x (distance (getNode (gridRef st1) x)))
                     (D_initialize M B) Pv in
      let B_prime := match Pv with
                     | [] => B
                     | _ => minDistance (gridRef st1) Pv
                     end in
      let sizeLimit := k_param P * 2 ^ (l * t_param P) in
      '(st2, U, B_prime') ←
        rec_loop (bmsspRecursive P fuel l') fuel sizeLimit B st1 D [] B_prime;
      let '(st3, U3) :=
        foldl (λ '(s, U') x,
                 if num_ltb (distance (getNode (gridRef s) x)) B_prime'
                 then (markVisited s x, set_add x U') else (s, U'))
              (st2, U) W in
      Some (st3, B_prime', U3)
  end.

(** *** Parameters

    [k = max(2, floor(log2(N)^(1/3)))], [t = max(2, floor(log2(N)^(2/3)))]
    and [l = ceil(log2(N) / t)] are computed in double precision.  The
    tables below are the values of those expressions: [k] changes first at
    [N = 2^27], [t] at the listed node counts (the step to [4] comes at
    [257], since [Math.pow(8, 2/3)] is [3.9999999999999996]), and [l] is
    the least [l] with [N <= 2^(l*t)].  They cover every grid below
    [375971] cells. *)
Definition k_of (N : nat) : nat := 2.

Definition t_of (N : nat) : nat :=
  if N <? 37 then 2
  else if N <? 257 then 3
  else if N <? 2321 then 4
  else if (N.of_nat N <? 26560)%N then 5
  else 6.

Fixpoint least_level (fuel : nat) (N t l : nat) : nat :=
  match fuel with
  | 0 => l
  | S fuel' => if N <=? 2 ^ (l * t) then l else least_level fuel' N t (S l)
  end.
Definition l_of (N t : nat) : nat := least_level (S (Nat.log2 N)) N t 0.

(** *** The exported [bmssp] *)

Definition resetNode (n : NodeData) : NodeData :=
  set_previousNode None (set_isVisited false (set_distance Infinity n)).

Definition resetAll (g : Grid) : Grid := map (map resetNode) g.

(** The search proper: the reset, the source at distance [0], and the
    top-level call. *)
Definition bmsspSearch (P : Params) (l : nat) (fuel : nat) (g : Grid)
    (startNode : NodeRef) : option State :=
  let g0 := updNode (resetAll g) startNode (set_distance (Fin 0)) in
  '(st, _, _) ← bmsspRecursive P fuel l Infinity [startNode] (mkState g0 [] []);
  Some st.

(** [bmssp] with its three parameters given. *)
Definition bmsspWith (P : Params) (l : nat) (fuel : nat) (g : Grid)
    (startNode finishNode : NodeRef) : option (Grid * Result) :=
  st ← bmsspSearch P l fuel g startNode;
  let g1 := gridRef st in
  path ← (if is_infinity (distance (getNode g1 finishNode)) then Some []
          else getNodesInShortestPathOrder fuel g1 finishNode);
  Some (g1, mkResult (trace st) path).

Definition bmssp (fuel : nat) (g : Grid) (startNode finishNode : NodeRef)
  : option (Grid * Result) :=
  let N := length (getAllNodes g) in
  bmsspWith (mkParams (k_of N) (t_of N)) (l_of N (t_of N)) fuel g
            startNode finishNode.

End BMSSP.

(** ** The strategy switch of [runAlgorithm] *)

Inductive AlgorithmType : Type :=
| algDijkstra | algAstar | algGreedyBfs | algBidirectionalSwarm | algBmssp.

Definition runStrategy (a : AlgorithmType) (fuel : nat) (g : Grid)
    (startNode finishNode : NodeRef) : option (Grid * Result) :=
  match a with
  | algDijkstra => Dijkstra.dijkstra fuel g startNode finishNode
  | algAstar => AStar.astar fuel g startNode finishNode
  | algGreedyBfs => Greedy.greedyBfs fuel g startNode finishNode
  | algBidirectionalSwarm => Swarm.bidirectionalSwarm fuel g startNode finishNode
  | algBmssp => BMSSP.bmssp fuel g startNode finishNode
  end.

(** ** The contract of section 4.1, as predicates on a grid *)

(** Rectangular, at least 1 x 1. *)
Definition rectangular (g : Grid) : Prop :=
  0 < rows g ∧ 0 < cols g ∧ ∀ row, row ∈ g → length row = cols g.

Definition inGrid (g : Grid) (p : NodeRef) : Prop :=
  p.1 < rows g ∧ p.2 < cols g.

(** Every search field of every node reset. *)
Definition searchReset (g : Grid) : Prop :=
  ∀ p, distance (getNode g p) = Infinity ∧ isVisited (getNode g p) = false ∧
       previousNode (getNode g p) = None.

Record contract (g : Grid) (startNode finishNode : NodeRef) : Prop := mkContract {
  c_rect : rectangular g;
  c_start : inGrid g startNode;
  c_finish : inGrid g finishNode;
  c_distinct : startNode ≠ finishNode;
  c_start_open : isWall (getNode g startNode) = false;
  c_finish_open : isWall (getNode g finishNode) = false;
  c_reset : searchReset g;
}.

(** 4-adjacency of two cells. *)
Definition adjacent (a b : NodeRef) : Prop :=
  absdiff a.1 b.1 + absdiff a.2 b.2 = 1.


(** * Properties *)

(** ** Numbers *)

Lemma num_ltb_lt a b : num_ltb (Fin a) (Fin b) = true ↔ a < b.
Proof. simpl. apply Nat.ltb_lt. Qed.

Lemma num_leb_le a b : num_leb (Fin a) (Fin b) = true ↔ a ≤ b.
Proof. simpl. apply Nat.leb_le. Qed.

Lemma num_ltb_irrefl a : num_ltb a a = false.
Proof. destruct a; simpl; [apply Nat.ltb_irrefl | done]. Qed.

Lemma num_ltb_leb a b : num_ltb a b = true → num_leb a b = true.
Proof.
  destruct a, b; simpl; try done.
  intros ?%Nat.ltb_lt. apply Nat.leb_le. lia.
Qed.

Lemma num_ltb_Fin_r a n :
  num_ltb a (Fin n) = true → ∃ m, a = Fin m ∧ m < n.
Proof.
  destruct a as [m|]; simpl; [|done].
  intros ?%Nat.ltb_lt. eauto.
Qed.

(** ** Reading and writing the grid *)

Lemma getNode_updNode_ne g p q f :
  q ≠ p → getNode (updNode g p f) q = getNode g q.
Proof.
  intros Hne. unfold getNode, updNode.
  destruct (decide (q.1 = p.1)) as [E1|N1].
  - rewrite E1, list_lookup_alter_eq.
    destruct (g !! p.1) as [row|]; simpl; [|done].
    rewrite list_lookup_alter_ne; [done|].
    intros E2. apply Hne. destruct p, q; simpl in *; congruence.
  - rewrite list_lookup_alter_ne by done. done.
Qed.

Lemma getNode_updNode_cases g p q f :
  getNode (updNode g p f) q = getNode g q ∨
  (q = p ∧ getNode (updNode g p f) q = f (getNode g q)).
Proof.
  destruct (decide (q = p)) as [->|Hne].
  - unfold getNode, updNode. rewrite list_lookup_alter_eq.
    destruct (g !! p.1) as [row|]; simpl; [|by left].
    rewrite list_lookup_alter_eq.
    destruct (row !! p.2); simpl; [by right | by left].
  - left. by apply getNode_updNode_ne.
Qed.

Lemma rows_updNode g p f : rows (updNode g p f) = rows g.
Proof. unfold rows, updNode. by rewrite length_alter. Qed.

Lemma cols_updNode g p f : cols (updNode g p f) = cols g.
Proof.
  unfold cols, updNode.
  destruct (decide (p.1 = 0)) as [->|Hne].
  - rewrite list_lookup_alter_eq. destruct (g !! 0); simpl; [|done].
    by rewrite length_alter.
  - by rewrite list_lookup_alter_ne.
Qed.

Lemma gridNeighbors_updNode g p f n :
  gridNeighbors n (updNode g p f) = gridNeighbors n g.
Proof. unfold gridNeighbors. by rewrite rows_updNode, cols_updNode. Qed.

Lemma rectangular_updNode g p f : rectangular g → rectangular (updNode g p f).
Proof.
  intros (Hr & Hc & Hrow). unfold rectangular.
  rewrite rows_updNode, cols_updNode. split_and!; [done..|].
  intros row Hin. unfold updNode in Hin.
  apply list_elem_of_lookup in Hin as [i Hi].
  destruct (decide (i = p.1)) as [->|Hne].
  - rewrite list_lookup_alter_eq in Hi.
    destruct (g !! p.1) as [row0|] eqn:E; simplify_eq/=.
    rewrite length_alter. apply Hrow. by eapply list_elem_of_lookup_2.
  - rewrite list_lookup_alter_ne in Hi by done.
    apply Hrow. by eapply list_elem_of_lookup_2.
Qed.

Lemma inGrid_updNode g p f q : inGrid (updNode g p f) q ↔ inGrid g q.
Proof. unfold inGrid. by rewrite rows_updNode, cols_updNode. Qed.

Lemma getNode_updNode_eq g p f :
  rectangular g → inGrid g p → getNode (updNode g p f) p = f (getNode g p).
Proof.
  intros (_ & _ & Hrow) [Hr Hc]. unfold getNode, updNode.
  rewrite list_lookup_alter_eq.
  destruct (lookup_lt_is_Some_2 g p.1 Hr) as [row Hrow'].
  rewrite Hrow'. simpl. rewrite list_lookup_alter_eq.
  assert (length row = cols g) as Hlen
    by (apply Hrow; by eapply list_elem_of_lookup_2).
  destruct (lookup_lt_is_Some_2 row p.2) as [n Hn]; [lia|].
  by rewrite Hn.
Qed.

Lemma gridNeighbors_spec g p q :
  inGrid g p → q ∈ gridNeighbors p g ↔ adjacent p q ∧ inGrid g q.
Proof.
  destruct p as [r c], q as [r' c'].
  unfold inGrid, gridNeighbors, adjacent, absdiff. simpl. intros [Hr Hc].
  rewrite !elem_of_app.
  repeat case_match; rewrite ?elem_of_nil, ?list_elem_of_singleton;
    repeat match goal with
           | H : (_ <? _) = true |- _ => apply Nat.ltb_lt in H
           | H : (_ <? _) = false |- _ => apply Nat.ltb_ge in H
           end;
    (split; [intros H'; destruct_or!; simplify_eq; lia|]);
    intros [Hadj [Hr' Hc']];
    assert (r' = r - 1 ∧ c' = c ∧ 0 < r ∨ r' = r + 1 ∧ c' = c ∨
            r' = r ∧ c' = c - 1 ∧ 0 < c ∨ r' = r ∧ c' = c + 1) as Hcases by lia;
    destruct Hcases as [(-> & -> & ?)|[(-> & ->)|[(-> & -> & ?)|(-> & ->)]]];
    first [ lia | tauto ].
Qed.

(** ** Loops: states reached, and invariants *)

(** The grids a loop shows at its iteration boundaries and when it returns. *)
Definition loop_point {St : Type} (body : St → Step St) (proj : St → Grid)
    (s0 : St) (g' : Grid) : Prop :=
  (∃ n st, iterate_loop body n s0 = Some st ∧ proj st = g') ∨
  (∃ n st v p, iterate_loop body n s0 = Some st ∧ body st = Done g' v p).

Lemma iterate_loop_inv {St : Type} (body : St → Step St) (I : St → Prop) :
  (∀ s s', I s → body s = Next s' → I s') →
  ∀ n s0 st, I s0 → iterate_loop body n s0 = Some st → I st.
Proof.
  intros Hstep n. induction n as [|n IH]; intros s0 st H0 Hit; simpl in Hit.
  - by simplify_eq.
  - destruct (body s0) as [s'|] eqn:Hb; [|done]. eauto.
Qed.

Lemma run_loop_iterate {St : Type} (body : St → Step St) fuel s0 g r :
  run_loop body fuel s0 = Some (g, r) →
  ∃ n st, n < fuel ∧ iterate_loop body n s0 = Some st ∧
          body st = Done g (visitedNodesInOrder r) (Some (nodesInShortestPathOrder r)).
Proof.
  revert s0. induction fuel as [|fuel IH]; intros s0 Hrun; simpl in Hrun; [done|].
  destruct (body s0) as [s'|g1 v [p|]] eqn:Hb.
  - destruct (IH _ Hrun) as (n & st & Hn & Hit & Hd).
    exists (S n), st. split; [lia|]. simpl. by rewrite Hb.
  - simplify_eq. exists 0, s0. split; [lia|]. done.
  - done.
Qed.

Lemma iterate_loop_run {St : Type} (body : St → Step St) n s0 st g v p fuel :
  iterate_loop body n s0 = Some st → body st = Done g v (Some p) → n < fuel →
  run_loop body fuel s0 = Some (g, mkResult v p).
Proof.
  revert s0 fuel. induction n as [|n IH]; intros s0 fuel Hit Hd Hlt; simpl in Hit.
  - simplify_eq. destruct fuel; [lia|]. simpl. by rewrite Hd.
  - destruct (body s0) as [s'|] eqn:Hb; [|done].
    destruct fuel; [lia|]. simpl. rewrite Hb. apply IH; [done..|lia].
Qed.

(** ** Bidirectional swarm writes nothing but [isVisited] *)

(** [g'] is [g] up to the [isVisited] flags. *)
Definition only_isVisited (g g' : Grid) : Prop :=
  ∀ p, getNode g' p = set_isVisited (isVisited (getNode g' p)) (getNode g p).

Lemma only_isVisited_refl g : only_isVisited g g.
Proof. intros p. by destruct (getNode g p). Qed.

Lemma only_isVisited_mark g g' p :
  only_isVisited g g' → only_isVisited g (updNode g' p (set_isVisited true)).
Proof.
  intros H q.
  destruct (getNode_updNode_cases g' p q (set_isVisited true)) as [->|[-> ->]].
  - apply H.
  - rewrite (H p). by destruct (getNode g p).
Qed.

Lemma only_isVisited_track g g0 visited current :
  only_isVisited g0 g → only_isVisited g0 (Swarm.track g visited current).1.
Proof.
  intros H. unfold Swarm.track.
  destruct (isVisited (getNode g current)); simpl; [done|].
  by apply only_isVisited_mark.
Qed.

Lemma swarm_body_frame g0 startNode finishNode fuel s :
  only_isVisited g0 (Swarm.sgrid s) →
  match Swarm.body startNode finishNode fuel s with
  | Next s' => only_isVisited g0 (Swarm.sgrid s')
  | Done g' _ _ => only_isVisited g0 g'
  end.
Proof.
  intros H. unfold Swarm.body.
  destruct (Swarm.sortNodes _ _) as [|currentStart startRest]; [done|].
  destruct (Swarm.sortNodes _ _) as [|currentFinish finishRest]; [done|].
  destruct (isWall (getNode (Swarm.sgrid s) currentStart)).
  - destruct (isWall (getNode (Swarm.sgrid s) currentFinish)); [done|].
    pose proof (only_isVisited_track _ _ (Swarm.svisited s) currentFinish H) as H2.
    destruct (Swarm.track _ _ currentFinish) as [g2 visited2].
    by case_bool_decide.
  - pose proof (only_isVisited_track _ _ (Swarm.svisited s) currentStart H) as H1.
    destruct (Swarm.track _ _ currentStart) as [g1 visited1]. simpl in H1.
    case_bool_decide; [done|].
    destruct (isWall (getNode g1 currentFinish)); [done|].
    pose proof (only_isVisited_track _ _ visited1 currentFinish H1) as H2.
    destruct (Swarm.track _ _ currentFinish) as [g2 visited2].
    by case_bool_decide.
Qed.

(** C10. At every iteration boundary of [bidirectionalSwarm] and when it
    returns, every node of the grid has the [distance], [totalDistance],
    [heuristicDistance] and [previousNode] (and the wall, start and finish
    flags) it had when the function was called: the grid differs from the
    input grid in [isVisited] flags only. *)
Theorem swarm_only_mutates_isVisited fuel g startNode finishNode g' :
  loop_point (Swarm.body startNode finishNode fuel) Swarm.sgrid
             (Swarm.init g startNode finishNode) g' →
  only_isVisited g g' ∧
  ∀ p, distance (getNode g' p) = distance (getNode g p) ∧
       totalDistance (getNode g' p) = totalDistance (getNode g p) ∧
       heuristicDistance (getNode g' p) = heuristicDistance (getNode g p) ∧
       previousNode (getNode g' p) = previousNode (getNode g p).
Proof.
  intros Hpt.
  assert (only_isVisited g g') as H.
  { assert (∀ n st, iterate_loop (Swarm.body startNode finishNode fuel) n
                      (Swarm.init g startNode finishNode) = Some st →
                    only_isVisited g (Swarm.sgrid st)) as Hinv.
    { intros n st.
      apply (iterate_loop_inv _ (λ st, only_isVisited g (Swarm.sgrid st)));
        [|apply only_isVisited_refl].
      intros s s' Hs Hb.
      pose proof (swarm_body_frame g startNode finishNode fuel s Hs) as Hf.
      by rewrite Hb in Hf. }
    destruct Hpt as [(n & st & Hit & <-)|(n & st & v & p & Hit & Hd)]; [eauto|].
    pose proof (swarm_body_frame g startNode finishNode fuel st (Hinv _ _ Hit)) as Hf.
    by rewrite Hd in Hf. }
  split; [done|]. intros p. rewrite (H p). by destruct (getNode g p).
Qed.

Lemma swarm_returns_point fuel g startNode finishNode g' r :
  Swarm.bidirectionalSwarm fuel g startNode finishNode = Some (g', r) →
  loop_point (Swarm.body startNode finishNode fuel) Swarm.sgrid
             (Swarm.init g startNode finishNode) g'.
Proof.
  intros (n & st & _ & Hit & Hd)%run_loop_iterate. right. eauto 6.
Qed.

Definition grid_1x2 : Grid := makeGrid 1 2 [] (0, 0) (0, 1).

Lemma swarm_only_mutates_isVisited_witness :
  only_isVisited grid_1x2
    (updNode (updNode grid_1x2 (0, 0) (set_isVisited true)) (0, 1)
             (set_isVisited true)).
Proof.
  apply (swarm_only_mutates_isVisited 5 grid_1x2 (0, 0) (0, 1)).
  right. exists 0, (Swarm.init grid_1x2 (0, 0) (0, 1)), [(0, 0); (0, 1)],
           (Some [(0, 0); (0, 1); (0, 1)]).
  split; vm_compute; reflexivity.
Defined.

(** ** The 1 x 2 scenario *)

(** The scenario as the specification states it: every strategy returns a
    path of exactly 2 nodes and at most 2 visited nodes. *)
Definition scenario_1x2_as_stated : Prop :=
  ∀ a fuel g' r,
    runStrategy a fuel grid_1x2 (0, 0) (0, 1) = Some (g', r) →
    length (nodesInShortestPathOrder r) = 2 ∧ length (visitedNodesInOrder r) ≤ 2.

Ltac spend_fuel :=
  match goal with
  | f : nat |- _ => destruct f as [|f]; [lia|]
  end.

(** C6, counterexample.  On the 1 x 2 grid [bmssp] returns a trace of 4
    entries, and [bidirectionalSwarm] a path of 3 nodes; so the scenario as
    stated fails. *)
Lemma scenario_1x2_counterexample :
  (∃ g', runStrategy algBmssp 6 grid_1x2 (0, 0) (0, 1) =
           Some (g', mkResult [(0, 1); (0, 0); (0, 1); (0, 1)] [(0, 0); (0, 1)])) ∧
  (∃ g', runStrategy algBidirectionalSwarm 6 grid_1x2 (0, 0) (0, 1) =
           Some (g', mkResult [(0, 0); (0, 1)] [(0, 0); (0, 1); (0, 1)])) ∧
  ¬ scenario_1x2_as_stated.
Proof.
  assert (∃ g', runStrategy algBmssp 6 grid_1x2 (0, 0) (0, 1) =
           Some (g', mkResult [(0, 1); (0, 0); (0, 1); (0, 1)] [(0, 0); (0, 1)]))
    as Hb by (eexists; vm_compute; reflexivity).
  split_and!; [done| eexists; vm_compute; reflexivity |].
  intros Hclaim. destruct Hb as [g' Hb].
  destruct (Hclaim _ _ _ _ Hb) as [_ Hlen]. simpl in Hlen. lia.
Qed.

(** C6, as amended.  On the wall-free 1 x 2 grid with start (0,0) and finish
    (0,1): [dijkstra], [astar], [greedyBfs] and [bmssp] return the path
    start, finish (exactly 2 nodes); [dijkstra], [astar], [greedyBfs] and
    [bidirectionalSwarm] return a [visitedNodesInOrder] of exactly the 2
    nodes start, finish; the trace of [bmssp] has 4 entries, which name only
    those 2 nodes. *)
Theorem scenario_1x2 fuel :
  6 ≤ fuel →
  (∀ a, a = algDijkstra ∨ a = algAstar ∨ a = algGreedyBfs →
     ∃ g', runStrategy a fuel grid_1x2 (0, 0) (0, 1) =
             Some (g', mkResult [(0, 0); (0, 1)] [(0, 0); (0, 1)])) ∧
  (∃ g', runStrategy algBmssp fuel grid_1x2 (0, 0) (0, 1) =
           Some (g', mkResult [(0, 1); (0, 0); (0, 1); (0, 1)] [(0, 0); (0, 1)])) ∧
  (∃ g' r, runStrategy algBidirectionalSwarm fuel grid_1x2 (0, 0) (0, 1) =
             Some (g', r) ∧ visitedNodesInOrder r = [(0, 0); (0, 1)]).
Proof.
  intros H. do 6 spend_fuel. split_and!.
  - intros a [Ha|[Ha|Ha]]; subst a; eexists; vm_compute; reflexivity.
  - eexists; vm_compute; reflexivity.
  - do 2 eexists. split; vm_compute; reflexivity.
Qed.

Lemma scenario_1x2_witness :
  ∃ g', runStrategy algBmssp 8 grid_1x2 (0, 0) (0, 1) =
          Some (g', mkResult [(0, 1); (0, 0); (0, 1); (0, 1)] [(0, 0); (0, 1)]).
Proof.
  refine (proj1 (proj2 (scenario_1x2 8 _))). lia.
Defined.

(** ** Path contiguity fails for the bidirectional stitch *)

(** C3, the failing run.  On the wall-free 1 x 2 grid the finish side pops
    the finish node, which the start side has already scored; the stitch
    then pushes the finish node a second time.  The returned path ends
    finish, finish: two consecutive elements that are not 4-adjacent. *)
Theorem swarm_path_repeats_finish fuel :
  2 ≤ fuel →
  ∃ g', Swarm.bidirectionalSwarm fuel grid_1x2 (0, 0) (0, 1) =
          Some (g', mkResult [(0, 0); (0, 1)] [(0, 0); (0, 1); (0, 1)]) ∧
        ¬ adjacent (0, 1) (0, 1).
Proof.
  intros H. do 2 spend_fuel. eexists. split; [vm_compute; reflexivity|].
  unfold adjacent, absdiff. simpl. lia.
Qed.

Lemma swarm_path_repeats_finish_witness :
  ∃ g', Swarm.bidirectionalSwarm 2 grid_1x2 (0, 0) (0, 1) =
          Some (g', mkResult [(0, 0); (0, 1)] [(0, 0); (0, 1); (0, 1)]) ∧
        ¬ adjacent (0, 1) (0, 1).
Proof. apply (swarm_path_repeats_finish 2). lia. Defined.

(** ** The single-frontier skeleton

    [dijkstra], [astar] and [greedyBfs] are one loop with a different sort
    comparator, relaxation test, set of fields written, and push policy.
    [Frontier.body] is that loop with the four as parameters; each strategy
    is an instance of it (lemmas [dijkstra_is_frontier] and the like), and
    the invariants below are proved once. *)
Module Frontier.
Section Frontier.
Context (lt : Grid → NodeRef → NodeRef → bool)
      (stopAtInfinity : bool)
      (cond : num → num → bool)
      (extra : NodeRef → num → NodeData → NodeData)
      (dedup : bool).

Definition relax (node : NodeRef) (acc : Grid * list NodeRef)
  (neighbor : NodeRef) : Grid * list NodeRef :=
let '(g, openSet) := acc in
let newDistance := num_add (distance (getNode g node)) (Fin 1) in
if cond newDistance (distance (getNode g neighbor)) then
  (updNode g neighbor
     (λ n, set_previousNode (Some node)
             (extra neighbor newDistance (set_distance newDistance n))),
   if dedup && includes neighbor openSet then openSet
   else openSet ++ [neighbor])
else (g, openSet).

Definition unvisitedNeighbors (node : NodeRef) (g : Grid) : list NodeRef :=
filter (λ n, isVisited (getNode g n) = false) (gridNeighbors node g).

Definition body (finishNode : NodeRef) (fuel : nat) (s : Loop) : Step Loop :=
match stable_sort (lt (lgrid s)) (lopen s) with
| [] => Done (lgrid s) (lvisited s) (Some [])
| closestNode :: openSet =>
    let g := lgrid s in
    if isWall (getNode g closestNode) then Next (mkLoop g openSet (lvisited s))
    else if stopAtInfinity && is_infinity (distance (getNode g closestNode)) then
      Done g (lvisited s) (Some [])
    else if isVisited (getNode g closestNode) then
      Next (mkLoop g openSet (lvisited s))
    else
      let g1 := updNode g closestNode (set_isVisited true) in
      let visited := lvisited s ++ [closestNode] in
      if bool_decide (closestNode = finishNode) then
        Done g1 visited (getNodesInShortestPathOrder fuel g1 finishNode)
      else
        let '(g2, openSet2) :=
          foldl (relax closestNode) (g1, openSet)
                (unvisitedNeighbors closestNode g1) in
        Next (mkLoop g2 openSet2 visited)
end.
End Frontier.
End Frontier.

Definition dijkstra_lt (g : Grid) (a b : NodeRef) : bool :=
  num_ltb (distance (getNode g a)) (distance (getNode g b)).
Definition astar_lt (g : Grid) (a b : NodeRef) : bool :=
  if bool_decide (totalDistance (getNode g a) = totalDistance (getNode g b))
  then num_ltb (heuristicDistance (getNode g a)) (heuristicDistance (getNode g b))
  else num_ltb (totalDistance (getNode g a)) (totalDistance (getNode g b)).
Definition greedy_lt (g : Grid) (a b : NodeRef) : bool :=
  num_ltb (heuristicDistance (getNode g a)) (heuristicDistance (getNode g b)).

Definition astar_extra (finishNode neighbor : NodeRef) (nd : num) (n : NodeData)
  : NodeData :=
  set_totalDistance (num_add nd (getManhattanDistance neighbor finishNode))
    (set_heuristicDistance (getManhattanDistance neighbor finishNode) n).
Definition greedy_extra (finishNode neighbor : NodeRef) (nd : num) (n : NodeData)
  : NodeData :=
  set_heuristicDistance (getManhattanDistance neighbor finishNode) n.

Lemma dijkstra_is_frontier finishNode fuel s :
  Dijkstra.body finishNode fuel s =
  Frontier.body dijkstra_lt true num_ltb (λ _ _ n, n) true finishNode fuel s.
Proof. reflexivity. Qed.

Lemma astar_is_frontier finishNode fuel s :
  AStar.body finishNode fuel s =
  Frontier.body astar_lt false num_ltb (astar_extra finishNode) true
                finishNode fuel s.
Proof. reflexivity. Qed.

Lemma greedy_is_frontier finishNode fuel s :
  Greedy.body finishNode fuel s =
  Frontier.body greedy_lt false (λ _ old, is_infinity old)
                (greedy_extra finishNode) false finishNode fuel s.
Proof. reflexivity. Qed.

(** ** Stable sort *)

Lemma sort_insert_perm {A} (lt : A → A → bool) x l :
  sort_insert lt x l ≡ₚ x :: l.
Proof.
  induction l as [|y l IH]; simpl; [done|].
  destruct (lt y x); [|done]. rewrite IH. apply Permutation_swap.
Qed.

Lemma stable_sort_perm {A} (lt : A → A → bool) l : stable_sort lt l ≡ₚ l.
Proof.
  induction l as [|x l IH]; simpl; [done|].
  rewrite sort_insert_perm. by rewrite IH.
Qed.

Lemma stable_sort_cons_elem {A} (lt : A → A → bool) l c rest :
  stable_sort lt l = c :: rest → c ∈ l ∧ (∀ x, x ∈ rest → x ∈ l) ∧
                                 length l = S (length rest).
Proof.
  intros E. pose proof (stable_sort_perm lt l) as Hp. rewrite E in Hp.
  split_and!.
  - rewrite <- Hp. by left.
  - intros x Hx. rewrite <- Hp. by right.
  - by rewrite <- Hp.
Qed.

Lemma foldl_inv {A B} (f : A → B → A) (I : A → Prop) l a :
  I a → (∀ a x, x ∈ l → I a → I (f a x)) → I (foldl f a l).
Proof.
  revert a. induction l as [|x l IH]; intros a Ha Hstep; simpl; [done|].
  apply IH.
  - apply Hstep; [by left|done].
  - intros a' x' Hx'. apply Hstep. by right.
Qed.

(** ** Invariants of the single-frontier loop *)

(** A node the search may expand: in the grid, not a wall, reached. *)
Definition reached (g : Grid) (x : NodeRef) : Prop :=
  ∃ d, distance (getNode g x) = Fin d.

(** How the grid may change from one point of a run to a later one: a
    visited node is left as it is, no distance grows, and a node changes
    predecessor only together with a strictly smaller distance. *)
Definition monotone_step (g g' : Grid) : Prop :=
  ∀ x, (isVisited (getNode g x) = true → getNode g' x = getNode g x) ∧
       num_leb (distance (getNode g' x)) (distance (getNode g x)) = true ∧
       (previousNode (getNode g' x) ≠ previousNode (getNode g x) →
        num_ltb (distance (getNode g' x)) (distance (getNode g x)) = true).

Lemma num_leb_refl a : num_leb a a = true.
Proof. destruct a; simpl; [apply Nat.leb_refl|done]. Qed.

Lemma num_leb_trans a b c :
  num_leb a b = true → num_leb b c = true → num_leb a c = true.
Proof.
  destruct a, b, c; simpl; try done.
  intros ?%Nat.leb_le ?%Nat.leb_le. apply Nat.leb_le. lia.
Qed.

Lemma num_ltb_leb_trans a b c :
  num_ltb a b = true → num_leb b c = true → num_ltb a c = true.
Proof.
  destruct a, b, c; simpl; try done.
  intros ?%Nat.ltb_lt ?%Nat.leb_le. apply Nat.ltb_lt. lia.
Qed.

Lemma num_leb_ltb_trans a b c :
  num_leb a b = true → num_ltb b c = true → num_ltb a c = true.
Proof.
  destruct a, b, c; simpl; try done.
  intros ?%Nat.leb_le ?%Nat.ltb_lt. apply Nat.ltb_lt. lia.
Qed.

Arguments num_ltb : simpl never.
Arguments num_leb : simpl never.
Arguments num_add : simpl never.

Lemma monotone_step_refl g : monotone_step g g.
Proof. intros x. split_and!; [done|apply num_leb_refl|done]. Qed.

Lemma monotone_step_trans g1 g2 g3 :
  monotone_step g1 g2 → monotone_step g2 g3 → monotone_step g1 g3.
Proof.
  intros H12 H23 x.
  destruct (H12 x) as (A1 & A2 & A3), (H23 x) as (B1 & B2 & B3).
  split_and!.
  - intros Hv. rewrite <- (A1 Hv). apply B1. by rewrite (A1 Hv).
  - by eapply num_leb_trans.
  - intros Hp.
    destruct (decide (previousNode (getNode g2 x) = previousNode (getNode g1 x)))
      as [E|N].
    + eapply num_ltb_leb_trans; [|done]. apply B3. by rewrite E.
    + eapply num_leb_ltb_trans; [done|]. by apply A3.
Qed.

Lemma monotone_step_close g c :
  isVisited (getNode g c) = false →
  monotone_step g (updNode g c (set_isVisited true)).
Proof.
  intros Hc x.
  destruct (getNode_updNode_cases g c x (set_isVisited true)) as [->|[-> ->]].
  - split_and!; [done|apply num_leb_refl|done].
  - split_and!; [congruence|apply num_leb_refl|done].
Qed.

Section FrontierInv.
Context (lt : Grid → NodeRef → NodeRef → bool)
        (stopAtInfinity : bool)
        (cond : num → num → bool)
        (extra : NodeRef → num → NodeData → NodeData)
        (dedup : bool).
Context (g0 : Grid) (startNode finishNode : NodeRef).

(** What the relaxation test and the extra writes must satisfy. *)
Hypothesis cond_lt :
  ∀ nd old, cond (Fin nd) old = true → num_ltb (Fin nd) old = true.
Hypothesis extra_frame :
  ∀ v nd n, isVisited (extra v nd n) = isVisited n ∧
            isWall (extra v nd n) = isWall n ∧
            distance (extra v nd n) = distance n ∧
            previousNode (extra v nd n) = previousNode n.

Hypothesis g0_contract : contract g0 startNode finishNode.

Record finv (g : Grid) (openSet visited : list NodeRef) : Prop := mkFinv {
  fi_rect : rectangular g;
  fi_rows : rows g = rows g0;
  fi_cols : cols g = cols g0;
  fi_wall : ∀ p, isWall (getNode g p) = isWall (getNode g0 p);
  fi_open : ∀ x, x ∈ openSet → inGrid g0 x ∧ reached g x;
  fi_vis : ∀ x, isVisited (getNode g x) = true ↔ x ∈ visited;
  fi_vis_good : ∀ x, x ∈ visited →
                     inGrid g0 x ∧ isWall (getNode g x) = false ∧ reached g x;
  fi_nodup : NoDup visited;
  fi_start : distance (getNode g startNode) = Fin 0 ∧
             previousNode (getNode g startNode) = None;
  fi_chain : ∀ v u, previousNode (getNode g v) = Some u →
                    isVisited (getNode g u) = true ∧ adjacent u v ∧ inGrid g0 v ∧
                    ∃ d, distance (getNode g u) = Fin d ∧
                         distance (getNode g v) = Fin (d + 1);
  fi_root : ∀ v, reached g v → v = startNode ∨ is_Some (previousNode (getNode g v));
}.

Definition finv_loop (s : Loop) : Prop := finv (lgrid s) (lopen s) (lvisited s).

Local Abbreviation relax := (Frontier.relax cond extra dedup).
Local Abbreviation body := (Frontier.body lt stopAtInfinity cond extra dedup).

Lemma finv_init (f : NodeData → NodeData) :
  (∀ n, distance (f n) = Fin 0 ∧ isVisited (f n) = isVisited n ∧
        isWall (f n) = isWall n ∧ previousNode (f n) = previousNode n) →
  finv (updNode g0 startNode f) [startNode] [].
Proof.
  intros Hf. destruct g0_contract as [Hrect Hs Hfin Hne Hso Hfo Hreset].
  assert (∀ p, getNode (updNode g0 startNode f) p = getNode g0 p ∨
               p = startNode ∧ getNode (updNode g0 startNode f) p = f (getNode g0 p))
    as Hc by (intros p; apply getNode_updNode_cases).
  assert (getNode (updNode g0 startNode f) startNode = f (getNode g0 startNode))
    as Hst by (by apply getNode_updNode_eq).
  constructor.
  - by apply rectangular_updNode.
  - apply rows_updNode.
  - apply cols_updNode.
  - intros p. destruct (Hc p) as [->|[-> ->]]; [done|]. apply Hf.
  - intros x ->%list_elem_of_singleton. split; [done|].
    exists 0. rewrite Hst. apply Hf.
  - intros x. rewrite elem_of_nil. split; [|done].
    destruct (Hc x) as [->|[-> ->]].
    + by rewrite (proj1 (proj2 (Hreset x))).
    + destruct (Hf (getNode g0 startNode)) as (_ & -> & _).
      by rewrite (proj1 (proj2 (Hreset startNode))).
  - intros x []%elem_of_nil.
  - constructor.
  - rewrite Hst. destruct (Hf (getNode g0 startNode)) as (-> & _ & _ & ->).
    split; [done|]. apply Hreset.
  - intros v u. destruct (Hc v) as [->|[-> ->]].
    + by rewrite (proj2 (proj2 (Hreset v))).
    + destruct (Hf (getNode g0 startNode)) as (_ & _ & _ & ->).
      by rewrite (proj2 (proj2 (Hreset startNode))).
  - intros v [d Hd]. destruct (Hc v) as [E|[-> _]]; [|by left].
    rewrite E, (proj1 (Hreset v)) in Hd. done.
Qed.

Lemma finv_inGrid g openSet visited x :
  finv g openSet visited → inGrid g0 x → inGrid g x.
Proof. intros H. unfold inGrid. by rewrite (fi_rows _ _ _ H), (fi_cols _ _ _ H). Qed.

Lemma finv_open_sub g openSet openSet' visited :
  finv g openSet visited → (∀ x, x ∈ openSet' → x ∈ openSet) →
  finv g openSet' visited.
Proof. intros [] Hsub. constructor; auto. Qed.

(** Closing the popped node. *)
Lemma finv_close g openSet visited c :
  finv g openSet visited → inGrid g0 c → reached g c →
  isWall (getNode g c) = false → isVisited (getNode g c) = false →
  finv (updNode g c (set_isVisited true)) openSet (visited ++ [c]).
Proof.
  intros H Hin Hre Hw Hv.
  set (g' := updNode g c (set_isVisited true)).
  assert (∀ x, x ≠ c → getNode g' x = getNode g x) as Hne
    by (intros x ?; by apply getNode_updNode_ne).
  assert (getNode g' c = set_isVisited true (getNode g c)) as Heq
    by (apply getNode_updNode_eq; [apply H | by eapply finv_inGrid]).
  assert (∀ x, distance (getNode g' x) = distance (getNode g x) ∧
               previousNode (getNode g' x) = previousNode (getNode g x) ∧
               isWall (getNode g' x) = isWall (getNode g x)) as Hsame.
  { intros x. destruct (decide (x = c)) as [->|Hx]; [by rewrite Heq|by rewrite Hne]. }
  assert (∀ x, reached g' x ↔ reached g x) as Hre'
    by (intros x; unfold reached; by rewrite (proj1 (Hsame x))).
  assert (c ∉ visited) as Hnv
    by (intros Hc%(fi_vis _ _ _ H); congruence).
  constructor.
  - apply rectangular_updNode, H.
  - unfold g'. rewrite rows_updNode. apply H.
  - unfold g'. rewrite cols_updNode. apply H.
  - intros p. rewrite (proj2 (proj2 (Hsame p))). apply H.
  - intros x Hx. rewrite Hre'. by apply (fi_open _ _ _ H).
  - intros x. rewrite elem_of_app, list_elem_of_singleton.
    destruct (decide (x = c)) as [->|Hx].
    + rewrite Heq. simpl. tauto.
    + rewrite Hne by done. rewrite (fi_vis _ _ _ H). tauto.
  - intros x [Hx| ->%list_elem_of_singleton]%elem_of_app.
    + rewrite Hre', (proj2 (proj2 (Hsame x))). by apply (fi_vis_good _ _ _ H).
    + rewrite Hre', (proj2 (proj2 (Hsame c))). done.
  - apply NoDup_app. split_and!; [apply H| |apply NoDup_singleton].
    intros x Hx ->%list_elem_of_singleton. done.
  - rewrite (proj1 (Hsame _)), (proj1 (proj2 (Hsame _))). apply H.
  - intros v u. rewrite (proj1 (proj2 (Hsame v))). intros Hp.
    destruct (fi_chain _ _ _ H _ _ Hp) as (Hu & Hadj & Hv' & d & Hdu & Hdv).
    split_and!; [|done|done|].
    + destruct (decide (u = c)) as [->|Hx]; [by rewrite Heq|by rewrite Hne].
    + exists d. by rewrite !(proj1 (Hsame _)).
  - intros v. rewrite Hre', (proj1 (proj2 (Hsame v))). apply H.
Qed.

(** Relaxing one unvisited neighbour of the node being expanded. *)
Lemma finv_relax g openSet visited c dc v :
  finv g openSet visited →
  c ∈ visited → distance (getNode g c) = Fin dc →
  adjacent c v → inGrid g0 v → isVisited (getNode g v) = false →
  finv (relax c (g, openSet) v).1 (relax c (g, openSet) v).2 visited ∧
  (∀ x, isVisited (getNode (relax c (g, openSet) v).1 x) = isVisited (getNode g x)) ∧
  distance (getNode (relax c (g, openSet) v).1 c) = Fin dc.
Proof.
  intros H Hc Hdc Hadj Hin Hv. unfold Frontier.relax. rewrite Hdc.
  change (num_add (Fin dc) (Fin 1)) with (Fin (dc + 1)).
  destruct (cond _ _) eqn:Hcond; simpl; [|done].
  apply cond_lt in Hcond.
  set (upd := λ n, set_previousNode (Some c)
                     (extra v (Fin (dc + 1)) (set_distance (Fin (dc + 1)) n))).
  set (g' := updNode g v upd).
  assert (∀ n, isVisited (upd n) = isVisited n ∧ isWall (upd n) = isWall n ∧
               distance (upd n) = Fin (dc + 1) ∧ previousNode (upd n) = Some c)
    as Hupd.
  { intros n. unfold upd.
    destruct (extra_frame v (Fin (dc + 1)) (set_distance (Fin (dc + 1)) n))
      as (E1 & E2 & E3 & E4). simpl. by rewrite E1, E2, E3. }
  assert (∀ x, x ≠ v → getNode g' x = getNode g x) as Hne
    by (intros x ?; by apply getNode_updNode_ne).
  assert (getNode g' v = upd (getNode g v)) as Heq
    by (apply getNode_updNode_eq; [apply H | by eapply finv_inGrid]).
  assert (∀ x, isVisited (getNode g' x) = isVisited (getNode g x) ∧
               isWall (getNode g' x) = isWall (getNode g x)) as Hsame.
  { intros x. destruct (decide (x = v)) as [->|Hx]; [|by rewrite Hne].
    rewrite Heq. split; apply Hupd. }
  assert (v ≠ startNode) as Hvs.
  { intros ->. rewrite (proj1 (fi_start _ _ _ H)) in Hcond.
    apply num_ltb_lt in Hcond. lia. }
  assert (∀ u, isVisited (getNode g u) = true → u ≠ v) as Hvis_ne
    by (intros u Hu ->; congruence).
  assert (c ≠ v) as Hcv by (apply Hvis_ne; by apply (fi_vis _ _ _ H)).
  assert (∀ x, reached g x → reached g' x) as Hre.
  { intros x [d Hd]. destruct (decide (x = v)) as [->|Hx].
    - exists (dc + 1). rewrite Heq. apply Hupd.
    - exists d. by rewrite Hne. }
  split_and!; [|intros x; apply Hsame|by rewrite Hne].
  constructor.
  - apply rectangular_updNode, H.
  - unfold g'. rewrite rows_updNode. apply H.
  - unfold g'. rewrite cols_updNode. apply H.
  - intros p. rewrite (proj2 (Hsame p)). apply H.
  - intros x Hx.
    assert (x ∈ openSet ∨ x = v) as [Hx'| ->].
    { destruct (dedup && includes v openSet); [by left|].
      apply elem_of_app in Hx as [?|?%list_elem_of_singleton]; auto. }
    + destruct (fi_open _ _ _ H x Hx'). auto.
    + split; [done|]. exists (dc + 1). rewrite Heq. apply Hupd.
  - intros x. rewrite (proj1 (Hsame x)). apply H.
  - intros x Hx. rewrite (proj2 (Hsame x)).
    destruct (fi_vis_good _ _ _ H x Hx) as (? & ? & ?). auto.
  - apply H.
  - rewrite Hne by done. apply H.
  - intros w u Hp. destruct (decide (w = v)) as [->|Hw].
    + rewrite Heq, (proj2 (proj2 (proj2 (Hupd _)))) in Hp. simplify_eq.
      split_and!; [|done|done|].
      * rewrite (proj1 (Hsame _)). by apply (fi_vis _ _ _ H).
      * exists dc. rewrite Hne by done. split; [done|]. rewrite Heq. apply Hupd.
    + rewrite Hne in Hp by done.
      destruct (fi_chain _ _ _ H _ _ Hp) as (Hu & Hadj' & Hv' & d & Hdu & Hdv).
      split_and!; [by rewrite (proj1 (Hsame _))|done|done|].
      exists d. rewrite !Hne; [done|done|by apply Hvis_ne].
  - intros w Hw. destruct (decide (w = v)) as [->|Hwv].
    + right. rewrite Heq, (proj2 (proj2 (proj2 (Hupd _)))). by eexists.
    + rewrite Hne by done. apply (fi_root _ _ _ H).
      destruct Hw as [d Hd]. exists d. by rewrite Hne in Hd.
Qed.

Lemma relax_monotone g openSet c dc v :
  distance (getNode g c) = Fin dc → isVisited (getNode g v) = false →
  monotone_step g (relax c (g, openSet) v).1.
Proof.
  intros Hdc Hv. unfold Frontier.relax. rewrite Hdc.
  change (num_add (Fin dc) (Fin 1)) with (Fin (dc + 1)).
  destruct (cond _ _) eqn:Hcond; simpl; [|apply monotone_step_refl].
  apply cond_lt in Hcond. intros x.
  match goal with
  | |- context [updNode g v ?f] =>
      destruct (getNode_updNode_cases g v x f) as [->|[-> ->]]
  end.
  - split_and!; [done|apply num_leb_refl|done].
  - destruct (extra_frame v (Fin (dc + 1))
                (set_distance (Fin (dc + 1)) (getNode g v))) as (_ & _ & E3 & _).
    simpl. rewrite E3. simpl.
    split_and!; [congruence|by apply num_ltb_leb|done].
Qed.

Lemma finv_expand g openSet visited c :
  finv g openSet (visited ++ [c]) →
  finv (foldl (relax c) (g, openSet) (Frontier.unvisitedNeighbors c g)).1
       (foldl (relax c) (g, openSet) (Frontier.unvisitedNeighbors c g)).2
       (visited ++ [c]) ∧
  monotone_step g (foldl (relax c) (g, openSet) (Frontier.unvisitedNeighbors c g)).1.
Proof.
  intros H.
  assert (c ∈ visited ++ [c]) as Hc by (apply elem_of_app; right; by left).
  destruct (fi_vis_good _ _ _ H c Hc) as (Hin & Hw & dc & Hdc).
  set (J := λ acc : Grid * list NodeRef,
         finv acc.1 acc.2 (visited ++ [c]) ∧
         (∀ x, isVisited (getNode acc.1 x) = isVisited (getNode g x)) ∧
         distance (getNode acc.1 c) = Fin dc ∧
         monotone_step g acc.1).
  enough (J (foldl (relax c) (g, openSet) (Frontier.unvisitedNeighbors c g)))
    as (? & _ & _ & ?) by done.
  apply (foldl_inv (relax c) J);
    [split_and!; [done..|apply monotone_step_refl]|].
  intros [g' open'] v Hv (HJ & Hvis & Hd & Hm). simpl in *.
  apply list_elem_of_filter in Hv as [Hv Hnb].
  apply gridNeighbors_spec in Hnb as [Hadj Hin']; [|by eapply finv_inGrid].
  assert (inGrid g0 v) as Hin0.
  { unfold inGrid in *. by rewrite <- (fi_rows _ _ _ H), <- (fi_cols _ _ _ H). }
  assert (isVisited (getNode g' v) = false) as Hv' by (by rewrite Hvis).
  destruct (finv_relax g' open' (visited ++ [c]) c dc v HJ Hc Hd Hadj Hin0 Hv')
    as (H1 & H2 & H3).
  split_and!; [done| |done|].
  - intros x. by rewrite H2.
  - eapply monotone_step_trans; [done|]. by eapply relax_monotone.
Qed.

(** What [body] returns when it returns. *)
Inductive returned (s : Loop) (fuel : nat) : Grid → list NodeRef →
                                            option (list NodeRef) → Prop :=
| ret_exhausted : returned s fuel (lgrid s) (lvisited s) (Some [])
| ret_found g' :
    finv g' [] (lvisited s ++ [finishNode]) →
    monotone_step (lgrid s) g' →
    returned s fuel g' (lvisited s ++ [finishNode])
             (getNodesInShortestPathOrder fuel g' finishNode).

Lemma finv_body s fuel :
  finv_loop s →
  match body finishNode fuel s with
  | Next s' => finv_loop s' ∧ monotone_step (lgrid s) (lgrid s') ∧
               (lvisited s' = lvisited s ∨ ∃ c, lvisited s' = lvisited s ++ [c])
  | Done g' v p => returned s fuel g' v p
  end.
Proof.
  intros H. unfold finv_loop in *. unfold Frontier.body.
  destruct (stable_sort _ _) as [|c rest] eqn:Hsort; [constructor|].
  apply stable_sort_cons_elem in Hsort as (Hc & Hrest & _).
  assert (finv (lgrid s) rest (lvisited s)) as Hr by (by eapply finv_open_sub).
  destruct (isWall (getNode (lgrid s) c)) eqn:Hw;
    [simpl; split_and!; [done|apply monotone_step_refl|auto]|].
  destruct (stopAtInfinity && is_infinity _); [constructor|].
  destruct (isVisited (getNode (lgrid s) c)) eqn:Hv;
    [simpl; split_and!; [done|apply monotone_step_refl|auto]|].
  destruct (fi_open _ _ _ H c Hc) as [Hin Hre].
  pose proof (finv_close _ _ _ c Hr Hin Hre Hw Hv) as H1.
  pose proof (monotone_step_close _ _ Hv) as Hm1.
  case_bool_decide as Hfin.
  - subst c. constructor; [|done].
    eapply finv_open_sub; [done|]. by intros x ?%elem_of_nil.
  - destruct (finv_expand _ _ _ c H1) as [H2 Hm2].
    destruct (foldl _ _ _) as [g2 open2]. simpl in *.
    split_and!; [done| |eauto]. by eapply monotone_step_trans.
Qed.

Lemma finv_iterate (f : NodeData → NodeData) fuel n s :
  (∀ n, distance (f n) = Fin 0 ∧ isVisited (f n) = isVisited n ∧
        isWall (f n) = isWall n ∧ previousNode (f n) = previousNode n) →
  iterate_loop (body finishNode fuel) n
               (mkLoop (updNode g0 startNode f) [startNode] []) = Some s →
  finv_loop s.
Proof.
  intros Hf. apply (iterate_loop_inv _ finv_loop).
  - intros s1 s2 H1 Hb. pose proof (finv_body s1 fuel H1) as Hbody.
    rewrite Hb in Hbody. apply Hbody.
  - by apply finv_init.
Qed.
End FrontierInv.

(** ** Predecessor chains *)

(** [chain_to g v p]: [p] lists the nodes met by following [previousNode]
    from [v] down to a node without predecessor, in reverse order (root
    first, [v] last). *)
Inductive chain_to (g : Grid) : NodeRef → list NodeRef → Prop :=
| chain_root r : previousNode (getNode g r) = None → chain_to g r [r]
| chain_snoc u v p :
    chain_to g u p → previousNode (getNode g v) = Some u →
    chain_to g v (p ++ [v]).

(** The reconstruction walk returns exactly the chain, as soon as the fuel
    covers its length. *)
Lemma walkPrevious_chain g v p :
  chain_to g v p →
  ∀ fuel acc, length p ≤ fuel → walkPrevious fuel g (Some v) acc = Some (p ++ acc).
Proof.
  induction 1 as [r Hr|u v p Hch IH Hp]; intros fuel acc Hlen.
  - destruct fuel; simpl in *; [lia|]. rewrite Hr. by destruct fuel.
  - rewrite length_app in Hlen. destruct fuel; simpl in *; [lia|].
    rewrite Hp, IH by lia. by rewrite <- app_assoc.
Qed.

Lemma chain_to_last g v p : chain_to g v p → last p = Some v.
Proof. destruct 1; [done|apply last_snoc]. Qed.

(** Consecutive elements are 4-adjacent. *)
Fixpoint contiguous (p : list NodeRef) : Prop :=
  match p with
  | a :: (b :: _) as t => adjacent a b ∧ contiguous t
  | _ => True
  end.

Lemma contiguous_snoc p u v :
  contiguous p → last p = Some u → adjacent u v → contiguous (p ++ [v]).
Proof.
  induction p as [|a [|b t] IH]; intros Hc Hl Hadj; simpl in *; [done| |].
  - by simplify_eq.
  - destruct Hc as [Hab Hc]. split; [done|]. by apply IH.
Qed.

Definition dist_of (g : Grid) (x : NodeRef) : nat :=
  match distance (getNode g x) with Fin d => d | Infinity => 0 end.

(** The shape of the predecessor links that every strategy storing them on
    the nodes maintains: the start node is the only root, and a link goes
    from a reached node to an adjacent node strictly farther from the start. *)
Record chained (g0 : Grid) (startNode : NodeRef) (g : Grid) : Prop := mkChained {
  ch_start_in : inGrid g0 startNode;
  ch_start : previousNode (getNode g startNode) = None;
  ch_link : ∀ v u, previousNode (getNode g v) = Some u →
                   adjacent u v ∧ inGrid g0 v ∧ reached g u ∧ reached g v ∧
                   dist_of g u < dist_of g v;
  ch_root : ∀ v, reached g v → v = startNode ∨ is_Some (previousNode (getNode g v));
}.

Lemma chain_to_props g0 startNode g v p :
  chained g0 startNode g → chain_to g v p → reached g v →
  head p = Some startNode ∧ contiguous p ∧ Forall (inGrid g0) p ∧ NoDup p ∧
  ∀ x, x ∈ p → reached g x ∧ dist_of g x ≤ dist_of g v.
Proof.
  intros Hch. induction 1 as [r Hr|u v p Hc IH Hp]; intros Hre.
  - destruct (ch_root _ _ _ Hch r Hre) as [->|[? ?]]; [|congruence].
    split_and!; [done|done| |apply NoDup_singleton|].
    + constructor; [apply Hch|constructor].
    + by intros x ->%list_elem_of_singleton.
  - destruct (ch_link _ _ _ Hch _ _ Hp) as (Hadj & Hin & Hu & _ & Hlt).
    destruct (IH Hu) as (Hhd & Hcont & Hall & Hnd & Hle).
    split_and!.
    + destruct p; [done|]. done.
    + eapply contiguous_snoc; [done|by eapply chain_to_last|done].
    + apply Forall_app. split; [done|]. by constructor.
    + apply NoDup_app. split_and!; [done| |apply NoDup_singleton].
      intros x Hx ->%list_elem_of_singleton. specialize (Hle _ Hx). lia.
    + intros x [Hx| ->%list_elem_of_singleton]%elem_of_app; [|done].
      destruct (Hle _ Hx). split; [done|lia].
Qed.

Lemma chained_chain g0 startNode g v :
  chained g0 startNode g → reached g v → ∃ p, chain_to g v p.
Proof.
  intros Hch Hre. remember (dist_of g v) as d eqn:Hd.
  revert v Hre Hd. induction d as [d IH] using lt_wf_ind. intros v Hre ->.
  destruct (previousNode (getNode g v)) as [u|] eqn:Hp.
  - destruct (ch_link _ _ _ Hch _ _ Hp) as (_ & _ & Hu & _ & Hlt).
    destruct (IH _ Hlt u Hu eq_refl) as [p Hc].
    exists (p ++ [v]). by econstructor.
  - exists [v]. by constructor.
Qed.

(** Pigeonhole on the cells of the grid. *)
Lemma inGrid_NoDup_length g0 (p : list NodeRef) :
  Forall (inGrid g0) p → NoDup p → length p ≤ rows g0 * cols g0.
Proof.
  intros Hall Hnd.
  assert (length (list_prod (seq 0 (rows g0)) (seq 0 (cols g0))) =
          rows g0 * cols g0) as <- by (by rewrite length_prod, !length_seq).
  apply submseteq_length, NoDup_submseteq; [done|].
  intros [r c] Hx. rewrite Forall_forall in Hall. destruct (Hall _ Hx) as [Hr Hc].
  apply list_elem_of_In, in_prod_iff. simpl in *.
  split; apply in_seq; lia.
Qed.

(** Following [previousNode] from a reached node arrives at the start node
    within the number of cells. *)
Theorem chained_walk g0 startNode g v :
  chained g0 startNode g → reached g v →
  ∃ p, walkPrevious (rows g0 * cols g0) g (Some v) [] = Some p ∧
       length p ≤ rows g0 * cols g0 ∧
       head p = Some startNode ∧ last p = Some v ∧ contiguous p ∧
       Forall (inGrid g0) p ∧ chain_to g v p.
Proof.
  intros Hch Hre. destruct (chained_chain _ _ _ _ Hch Hre) as [p Hc].
  destruct (chain_to_props _ _ _ _ _ Hch Hc Hre) as (Hhd & Hcont & Hall & Hnd & _).
  pose proof (inGrid_NoDup_length _ _ Hall Hnd) as Hlen.
  exists p. split_and!; try done.
  - rewrite (walkPrevious_chain _ _ _ Hc) by done. by rewrite app_nil_r.
  - by eapply chain_to_last.
Qed.

(** A point of a run, and a point at or after it. *)
Definition loop_later {St : Type} (body : St → Step St) (proj : St → Grid)
    (s0 : St) (g g' : Grid) : Prop :=
  ∃ n st, iterate_loop body n s0 = Some st ∧ proj st = g ∧
          loop_point body proj st g'.

Section FrontierRuns.
Context (lt : Grid → NodeRef → NodeRef → bool)
        (stopAtInfinity : bool)
        (cond : num → num → bool)
        (extra : NodeRef → num → NodeData → NodeData)
        (dedup : bool).
Context (g0 : Grid) (startNode finishNode : NodeRef).
Hypothesis cond_lt :
  ∀ nd old, cond (Fin nd) old = true → num_ltb (Fin nd) old = true.
Hypothesis extra_frame :
  ∀ v nd n, isVisited (extra v nd n) = isVisited n ∧
            isWall (extra v nd n) = isWall n ∧
            distance (extra v nd n) = distance n ∧
            previousNode (extra v nd n) = previousNode n.
Hypothesis g0_contract : contract g0 startNode finishNode.

Local Abbreviation body := (Frontier.body lt stopAtInfinity cond extra dedup).
Local Abbreviation finv := (finv g0 startNode).

Lemma finv_chained g openSet visited :
  finv g openSet visited → chained g0 startNode g.
Proof.
  intros H. constructor.
  - apply g0_contract.
  - apply H.
  - intros v u Hp.
    destruct (fi_chain _ _ _ _ _ H _ _ Hp) as (Hu & Hadj & Hin & d & Hdu & Hdv).
    split_and!; [done|done|by exists d|by exists (d + 1)|].
    unfold dist_of. rewrite Hdu, Hdv. lia.
  - apply H.
Qed.

Lemma finv_step_point s fuel g' :
  finv_loop g0 startNode s → loop_point (body finishNode fuel) lgrid s g' →
  (∃ openSet visited, finv g' openSet visited) ∧ monotone_step (lgrid s) g'.
Proof.
  intros Hs Hpt.
  assert (∀ n st, iterate_loop (body finishNode fuel) n s = Some st →
                  finv_loop g0 startNode st ∧ monotone_step (lgrid s) (lgrid st))
    as Hit.
  { clear Hpt. intros n. revert s Hs.
    induction n as [|n IH]; intros s Hs st Hit; simpl in Hit.
    - simplify_eq. split; [done|apply monotone_step_refl].
    - pose proof (finv_body lt stopAtInfinity cond extra dedup g0 startNode
                    finishNode cond_lt extra_frame s fuel Hs) as Hb.
      destruct (body finishNode fuel s) as [s1|] eqn:E; [|done].
      destruct Hb as (H1 & Hm & _). destruct (IH _ H1 _ Hit) as [H2 Hm2].
      split; [done|]. by eapply monotone_step_trans. }
  destruct Hpt as [(n & st & Hn & <-)|(n & st & v & p & Hn & Hd)].
  - destruct (Hit _ _ Hn) as [H1 Hm]. split; [|done]. by do 2 eexists.
  - destruct (Hit _ _ Hn) as [H1 Hm].
    pose proof (finv_body lt stopAtInfinity cond extra dedup g0 startNode
                  finishNode cond_lt extra_frame st fuel H1) as Hb.
    rewrite Hd in Hb. inversion Hb; subst.
    + split; [|done]. by do 2 eexists.
    + split; [by do 2 eexists|]. by eapply monotone_step_trans.
Qed.

Context (f : NodeData → NodeData).
Hypothesis f_init :
  ∀ n, distance (f n) = Fin 0 ∧ isVisited (f n) = isVisited n ∧
       isWall (f n) = isWall n ∧ previousNode (f n) = previousNode n.

Local Abbreviation init := (mkLoop (updNode g0 startNode f) [startNode] []).

(** Every point of a run satisfies the invariant. *)
Lemma frontier_point_finv fuel g' :
  loop_point (body finishNode fuel) lgrid init g' →
  ∃ openSet visited, finv g' openSet visited.
Proof.
  intros Hpt. eapply finv_step_point; [|done].
  by eapply finv_init.
Qed.

(** Between a point of a run and a later one the grid changes monotonely. *)
Lemma frontier_later_monotone fuel g g' :
  loop_later (body finishNode fuel) lgrid init g g' → monotone_step g g'.
Proof.
  intros (n & st & Hn & <- & Hpt).
  eapply finv_step_point; [|done].
  eapply finv_iterate; [done..|]. done.
Qed.

(** At every point, every visited node is an open cell whose predecessor
    chain leads to the start node within the number of cells. *)
Lemma frontier_point_walk fuel g' v :
  loop_point (body finishNode fuel) lgrid init g' →
  isVisited (getNode g' v) = true →
  isWall (getNode g' v) = false ∧
  ∃ p, walkPrevious (rows g0 * cols g0) g' (Some v) [] = Some p ∧
       length p ≤ rows g0 * cols g0 ∧
       head p = Some startNode ∧ last p = Some v.
Proof.
  intros Hpt Hv. destruct (frontier_point_finv _ _ Hpt) as (o & vis & H).
  apply (fi_vis _ _ _ _ _ H) in Hv.
  destruct (fi_vis_good _ _ _ _ _ H v Hv) as (Hin & Hw & Hre).
  split; [done|].
  destruct (chained_walk g0 startNode g' v (finv_chained _ _ _ H) Hre)
    as (p & ? & ? & ? & ? & _).
  eauto.
Qed.
End FrontierRuns.

(** ** The three single-frontier strategies as instances *)

Lemma ltb_cond_lt nd old : num_ltb (Fin nd) old = true → num_ltb (Fin nd) old = true.
Proof. done. Qed.

Lemma greedy_cond_lt nd old : is_infinity old = true → num_ltb (Fin nd) old = true.
Proof. by destruct old. Qed.

Lemma id_extra_frame (v : NodeRef) (nd : num) (n : NodeData) :
  isVisited n = isVisited n ∧ isWall n = isWall n ∧
  distance n = distance n ∧ previousNode n = previousNode n.
Proof. done. Qed.

Lemma astar_extra_frame finishNode v nd n :
  isVisited (astar_extra finishNode v nd n) = isVisited n ∧
  isWall (astar_extra finishNode v nd n) = isWall n ∧
  distance (astar_extra finishNode v nd n) = distance n ∧
  previousNode (astar_extra finishNode v nd n) = previousNode n.
Proof. done. Qed.

Lemma greedy_extra_frame finishNode v nd n :
  isVisited (greedy_extra finishNode v nd n) = isVisited n ∧
  isWall (greedy_extra finishNode v nd n) = isWall n ∧
  distance (greedy_extra finishNode v nd n) = distance n ∧
  previousNode (greedy_extra finishNode v nd n) = previousNode n.
Proof. done. Qed.

Definition dijkstra_f : NodeData → NodeData := set_distance (Fin 0).
Definition astar_f (startNode finishNode : NodeRef) (n : NodeData) : NodeData :=
  set_totalDistance (num_add (Fin 0) (getManhattanDistance startNode finishNode))
    (set_heuristicDistance (getManhattanDistance startNode finishNode)
       (set_distance (Fin 0) n)).
Definition greedy_f (startNode finishNode : NodeRef) (n : NodeData) : NodeData :=
  set_heuristicDistance (getManhattanDistance startNode finishNode)
    (set_distance (Fin 0) n).

Lemma dijkstra_f_init n :
  distance (dijkstra_f n) = Fin 0 ∧ isVisited (dijkstra_f n) = isVisited n ∧
  isWall (dijkstra_f n) = isWall n ∧ previousNode (dijkstra_f n) = previousNode n.
Proof. done. Qed.
Lemma astar_f_init s f n :
  distance (astar_f s f n) = Fin 0 ∧ isVisited (astar_f s f n) = isVisited n ∧
  isWall (astar_f s f n) = isWall n ∧ previousNode (astar_f s f n) = previousNode n.
Proof. done. Qed.
Lemma greedy_f_init s f n :
  distance (greedy_f s f n) = Fin 0 ∧ isVisited (greedy_f s f n) = isVisited n ∧
  isWall (greedy_f s f n) = isWall n ∧ previousNode (greedy_f s f n) = previousNode n.
Proof. done. Qed.

(** The grids that a run of a single-frontier strategy shows at its
    iteration boundaries and at its return; and pairs of them in order. *)
Definition frontier_point (a : AlgorithmType) (fuel : nat) (g0 : Grid)
    (startNode finishNode : NodeRef) (g : Grid) : Prop :=
  match a with
  | algDijkstra =>
      loop_point (Dijkstra.body finishNode fuel) lgrid (Dijkstra.init g0 startNode) g
  | algAstar =>
      loop_point (AStar.body finishNode fuel) lgrid
                 (AStar.init g0 startNode finishNode) g
  | algGreedyBfs =>
      loop_point (Greedy.body finishNode fuel) lgrid
                 (Greedy.init g0 startNode finishNode) g
  | _ => False
  end.

Definition frontier_later (a : AlgorithmType) (fuel : nat) (g0 : Grid)
    (startNode finishNode : NodeRef) (g g' : Grid) : Prop :=
  match a with
  | algDijkstra =>
      loop_later (Dijkstra.body finishNode fuel) lgrid (Dijkstra.init g0 startNode) g g'
  | algAstar =>
      loop_later (AStar.body finishNode fuel) lgrid
                 (AStar.init g0 startNode finishNode) g g'
  | algGreedyBfs =>
      loop_later (Greedy.body finishNode fuel) lgrid
                 (Greedy.init g0 startNode finishNode) g g'
  | _ => False
  end.

Lemma frontier_point_inv a fuel g0 startNode finishNode g :
  contract g0 startNode finishNode →
  frontier_point a fuel g0 startNode finishNode g →
  ∃ openSet visited, finv g0 startNode g openSet visited.
Proof.
  intros Hc Hpt. destruct a; simpl in Hpt; try done.
  - eapply (frontier_point_finv dijkstra_lt true num_ltb (λ _ _ n, n) true
              g0 startNode finishNode ltb_cond_lt id_extra_frame Hc
              dijkstra_f dijkstra_f_init fuel g Hpt).
  - eapply (frontier_point_finv astar_lt false num_ltb (astar_extra finishNode) true
              g0 startNode finishNode ltb_cond_lt (astar_extra_frame finishNode) Hc
              (astar_f startNode finishNode) (astar_f_init _ _) fuel g Hpt).
  - eapply (frontier_point_finv greedy_lt false (λ _ old, is_infinity old)
              (greedy_extra finishNode) false
              g0 startNode finishNode greedy_cond_lt (greedy_extra_frame finishNode) Hc
              (greedy_f startNode finishNode) (greedy_f_init _ _) fuel g Hpt).
Qed.

Lemma frontier_later_step a fuel g0 startNode finishNode g g' :
  contract g0 startNode finishNode →
  frontier_later a fuel g0 startNode finishNode g g' → monotone_step g g'.
Proof.
  intros Hc Hpt. destruct a; simpl in Hpt; try done.
  - eapply (frontier_later_monotone dijkstra_lt true num_ltb (λ _ _ n, n) true
              g0 startNode finishNode ltb_cond_lt id_extra_frame Hc
              dijkstra_f dijkstra_f_init fuel g g' Hpt).
  - eapply (frontier_later_monotone astar_lt false num_ltb (astar_extra finishNode)
              true g0 startNode finishNode ltb_cond_lt (astar_extra_frame finishNode)
              Hc (astar_f startNode finishNode) (astar_f_init _ _) fuel g g' Hpt).
  - eapply (frontier_later_monotone greedy_lt false (λ _ old, is_infinity old)
              (greedy_extra finishNode) false
              g0 startNode finishNode greedy_cond_lt (greedy_extra_frame finishNode) Hc
              (greedy_f startNode finishNode) (greedy_f_init _ _) fuel g g' Hpt).
Qed.

(** ** BMSSP: containers keep their members *)

Section Containers.
Context (Q : NodeRef → Prop).
Local Abbreviation QE := (λ e : NodeRef * num, Q e.1).

Lemma set_add_Forall x s : Q x → Forall Q s → Forall Q (BMSSP.set_add x s).
Proof.
  intros Hx Hs. unfold BMSSP.set_add. destruct (includes x s); [done|].
  apply Forall_app. split; [done|]. by constructor.
Qed.

Lemma set_of_Forall l : Forall Q l → Forall Q (BMSSP.set_of l).
Proof.
  intros Hl. unfold BMSSP.set_of.
  apply (foldl_inv _ (Forall Q)); [constructor|].
  intros s x Hx Hs. apply set_add_Forall; [|done].
  rewrite Forall_forall in Hl. by apply Hl.
Qed.

Lemma bubbleUp_Forall fuel els n el :
  Forall QE els → QE el → Forall QE (BMSSP.bubbleUp fuel els n el).
Proof.
  revert els n. induction fuel as [|fuel IH]; intros els n Hels Hel; simpl; [done|].
  destruct (0 <? n); [|done].
  destruct (els !! _) as [parent|] eqn:Hp; [|done].
  destruct (num_geb _ _); [done|].
  apply IH; [|done]. apply Forall_insert; [by apply Forall_insert|].
  rewrite Forall_lookup in Hels. by eapply Hels.
Qed.

Lemma bubbleUpAt_Forall els n :
  Forall QE els → Forall QE (BMSSP.bubbleUpAt els n).
Proof.
  intros Hels. unfold BMSSP.bubbleUpAt. destruct (els !! n) as [el|] eqn:E; [|done].
  apply bubbleUp_Forall; [done|]. rewrite Forall_lookup in Hels. by eapply Hels.
Qed.

Lemma heap_push_Forall els node dist :
  Forall QE els → Q node → Forall QE (BMSSP.heap_push els node dist).
Proof.
  intros Hels Hn. unfold BMSSP.heap_push. apply bubbleUpAt_Forall.
  apply Forall_app. split; [done|]. by constructor.
Qed.

Lemma bubbleDown_Forall fuel els n el :
  Forall QE els → QE el → Forall QE (BMSSP.bubbleDown fuel els n el).
Proof.
  revert els n. induction fuel as [|fuel IH]; intros els n Hels Hel; simpl; [done|].
  repeat case_match; try done.
  all: apply IH; [|done]; apply Forall_insert; [|done]; apply Forall_insert; [done|];
    rewrite Forall_lookup in Hels; by eapply Hels.
Qed.

Lemma heap_pop_Forall els min els' :
  BMSSP.heap_pop els = Some (min, els') → Forall QE els →
  QE min ∧ Forall QE els'.
Proof.
  unfold BMSSP.heap_pop. intros Hpop Hels.
  destruct els as [|m rest] eqn:E; [done|]. rewrite <- E in *.
  assert (QE m) as Hm by (subst els; by inversion Hels).
  assert (Forall QE (removelast els)) as Hrl.
  { rewrite removelast_firstn_len. by apply Forall_take. }
  destruct (removelast els) as [|a l] eqn:Erl.
  - destruct (last els); by simplify_eq.
  - destruct (last els) as [e|] eqn:El; [|by simplify_eq].
    simplify_eq. split; [done|].
    assert (QE e) as He.
    { rewrite Forall_forall in Hels. apply Hels. by eapply last_Some_elem_of. }
    apply bubbleDown_Forall; [|done]. by apply Forall_insert.
Qed.

Lemma heap_decreaseKey_Forall els node dist :
  Forall QE els → Forall QE (BMSSP.heap_decreaseKey els node dist).
Proof.
  intros Hels. unfold BMSSP.heap_decreaseKey.
  destruct (BMSSP.findIndex _ _) as [idx|]; [|done].
  destruct (els !! idx) as [e|] eqn:E; [|done].
  destruct (num_ltb _ _); [|done].
  apply bubbleUpAt_Forall, Forall_insert; [done|].
  rewrite Forall_lookup in Hels. by apply (Hels _ _ E).
Qed.

Lemma D_insert_Forall d node val :
  Forall QE (BMSSP.items d) → Q node →
  Forall QE (BMSSP.items (BMSSP.D_insert d node val)).
Proof.
  intros Hd Hn. unfold BMSSP.D_insert.
  assert (∀ its, Forall QE its →
            Forall QE (BMSSP.splice_in
                         (BMSSP.bsearch (S (length its)) its val 0 (length its))
                         (node, val) its)) as Hplace.
  { intros its Hits. unfold BMSSP.splice_in. apply Forall_app. split.
    - by apply Forall_take.
    - constructor; [done|]. by apply Forall_drop. }
  destruct (BMSSP.findIndex _ _) as [idx|]; [|by apply Hplace].
  destruct (num_ltb _ _); [|done]. simpl. apply Hplace.
  unfold BMSSP.splice_out. apply Forall_app. split.
  - by apply Forall_take.
  - by apply Forall_drop.
Qed.

Lemma D_batchPrepend_Forall d its :
  Forall QE (BMSSP.items d) → Forall QE its →
  Forall QE (BMSSP.items (BMSSP.D_batchPrepend d its)).
Proof.
  intros Hd Hits. unfold BMSSP.D_batchPrepend.
  apply (foldl_inv _ (λ d', Forall QE (BMSSP.items d'))); [done|].
  intros d' i Hi Hd'. apply D_insert_Forall; [done|].
  rewrite Forall_forall in Hits. by apply Hits.
Qed.

Lemma D_pull_Forall d d' Bi Si :
  BMSSP.D_pull d = (d', Bi, Si) → Forall QE (BMSSP.items d) →
  Forall QE (BMSSP.items d') ∧ Forall Q Si.
Proof.
  unfold BMSSP.D_pull. intros Hp Hd.
  destruct (BMSSP.items d) as [|i its] eqn:E; [simplify_eq; by rewrite E|].
  simplify_eq. simpl BMSSP.items. split.
  - by apply Forall_drop.
  - apply Forall_fmap. by apply Forall_take.
Qed.
End Containers.

(** ** BMSSP: a run is a sequence of guarded writes *)

(** A node BMSSP may expand: a reached open cell of the grid. *)
Definition good (g0 g : Grid) (x : NodeRef) : Prop :=
  inGrid g0 x ∧ isWall (getNode g x) = false ∧ reached g x.

(** The grid keeps its shape and its walls. *)
Definition same_shape (g0 g : Grid) : Prop :=
  rectangular g ∧ rows g = rows g0 ∧ cols g = cols g0 ∧
  ∀ p, isWall (getNode g p) = isWall (getNode g0 p).

(** The two mutations BMSSP performs, with what is known where it performs
    them: a relaxation of the edge from a good node [u] to an open neighbour
    [v] whose recorded distance is not below the tentative one, and the
    closing of a good node. *)
Inductive bstep (g0 g : Grid) : Grid → Prop :=
| bs_write u v :
    good g0 g u → adjacent u v → inGrid g0 v → isWall (getNode g v) = false →
    num_leb (num_add (distance (getNode g u)) (Fin 1)) (distance (getNode g v)) = true →
    bstep g0 g (BMSSP.writeDistance g u v)
| bs_mark u :
    good g0 g u → isVisited (getNode g u) = false →
    bstep g0 g (updNode g u (set_isVisited true)).

(** [st'] comes from [st] by a sequence of such mutations. *)
Inductive bsteps (g0 : Grid) (st : BMSSP.State) : BMSSP.State → Prop :=
| bsteps_refl : bsteps g0 st st
| bsteps_store st1 g' tr :
    bsteps g0 st st1 → bstep g0 (BMSSP.gridRef st1) g' →
    bsteps g0 st (BMSSP.store st1 g' tr).

Lemma bsteps_trans g0 a b c : bsteps g0 a b → bsteps g0 b c → bsteps g0 a c.
Proof. intros Hab. induction 1; [done|]. by econstructor. Qed.

Lemma bsteps_one g0 st g' tr :
  bstep g0 (BMSSP.gridRef st) g' → bsteps g0 st (BMSSP.store st g' tr).
Proof. intros. econstructor; [constructor|done]. Qed.

Lemma bstep_node g0 g g' :
  bstep g0 g g' →
  ∀ x, isWall (getNode g' x) = isWall (getNode g x) ∧
       (reached g x → reached g' x) ∧
       (isVisited (getNode g x) = true → isVisited (getNode g' x) = true).
Proof.
  intros [u v (Hu & Hw & [du Hdu]) Hadj Hin Hwv Hle|u Hu Hv] x; unfold reached.
  - unfold BMSSP.writeDistance.
    match goal with
    | |- context [updNode g v ?f] =>
        destruct (getNode_updNode_cases g v x f) as [->|[-> ->]]
    end; [done|].
    simpl. split_and!; [done| |done].
    intros _. rewrite Hdu. by eexists.
  - destruct (getNode_updNode_cases g u x (set_isVisited true)) as [->|[-> ->]];
      [done|]. done.
Qed.

Lemma bstep_shape g0 g g' : bstep g0 g g' → same_shape g0 g → same_shape g0 g'.
Proof.
  intros Hs (Hrect & Hr & Hc & Hw).
  assert (rectangular g' ∧ rows g' = rows g ∧ cols g' = cols g) as (? & ? & ?).
  { destruct Hs; unfold BMSSP.writeDistance;
      rewrite rows_updNode, cols_updNode; split_and!; try done;
      by apply rectangular_updNode. }
  split_and!; [done|congruence|congruence|].
  intros p. rewrite <- Hw. by apply (bstep_node _ _ _ Hs).
Qed.

Lemma bstep_good g0 g g' x : bstep g0 g g' → good g0 g x → good g0 g' x.
Proof.
  intros Hs (Hin & Hw & Hre). destruct (bstep_node _ _ _ Hs x) as (E & Hr & _).
  split_and!; [done|congruence|auto].
Qed.

Lemma bsteps_shape g0 st st' :
  bsteps g0 st st' → same_shape g0 (BMSSP.gridRef st) →
  same_shape g0 (BMSSP.gridRef st').
Proof. induction 1; [done|]. intros. eapply bstep_shape; eauto. Qed.

Lemma bsteps_good g0 st st' x :
  bsteps g0 st st' → good g0 (BMSSP.gridRef st) x → good g0 (BMSSP.gridRef st') x.
Proof. induction 1; [done|]. intros. eapply bstep_good; eauto. Qed.

Lemma bsteps_Forall_good g0 st st' l :
  bsteps g0 st st' → Forall (good g0 (BMSSP.gridRef st)) l →
  Forall (good g0 (BMSSP.gridRef st')) l.
Proof. intros Hs Hl. eapply Forall_impl; [done|]. intros x. by apply bsteps_good. Qed.

(** The points of the later state extend those of the earlier one. *)
Lemma bsteps_points g0 st st' :
  bsteps g0 st st' → ∃ l, BMSSP.points st' = l ++ BMSSP.points st.
Proof.
  induction 1 as [|st1 g' tr _ [l IH] _]; [by exists []|].
  exists (g' :: l). unfold BMSSP.points in *. simpl. by rewrite IH.
Qed.

(** An invariant of the guarded writes holds at every point. *)
Lemma bsteps_invariant g0 (I : Grid → Prop) st st' :
  (∀ g g', I g → bstep g0 g g' → I g') →
  bsteps g0 st st' → Forall I (BMSSP.points st) → Forall I (BMSSP.points st').
Proof.
  intros Hstep. induction 1 as [|st1 g' tr _ IH Hs]; [done|].
  intros H0. specialize (IH H0). unfold BMSSP.points in *. simpl.
  constructor; [|done]. eapply Hstep; [|done]. by inversion IH.
Qed.

Lemma getNeighbors_good g0 g u v :
  same_shape g0 g → good g0 g u → v ∈ BMSSP.getNeighbors u g →
  adjacent u v ∧ inGrid g0 v ∧ isWall (getNode g v) = false.
Proof.
  intros (Hrect & Hr & Hc & Hw) (Hin & _ & _) Hv.
  apply list_elem_of_filter in Hv as [Hwv Hnb].
  apply gridNeighbors_spec in Hnb as [Hadj Hin'].
  - split_and!; [done| |done]. unfold inGrid in *. by rewrite <- Hr, <- Hc.
  - unfold inGrid in *. by rewrite Hr, Hc.
Qed.

Lemma write_good g0 g u v :
  good g0 g u → inGrid g0 v → isWall (getNode g v) = false →
  same_shape g0 g → good g0 (BMSSP.writeDistance g u v) v.
Proof.
  intros (_ & _ & [du Hdu]) Hin Hw (Hrect & Hr & Hc & _).
  unfold BMSSP.writeDistance, good, reached.
  rewrite getNode_updNode_eq; [|done|unfold inGrid in *; by rewrite Hr, Hc].
  simpl. rewrite Hdu. split_and!; [done|done|by eexists].
Qed.

Section BmsspSteps.
Context (g0 : Grid) (P : BMSSP.Params).

Local Abbreviation shape st := (same_shape g0 (BMSSP.gridRef st)).
Local Abbreviation goods st l := (Forall (good g0 (BMSSP.gridRef st)) l).
Local Abbreviation goodsE st l :=
  (Forall (λ e : NodeRef * num, good g0 (BMSSP.gridRef st) e.1) l).

Definition open_edge (u v : NodeRef) : Prop :=
  adjacent u v ∧ inGrid g0 v ∧ isWall (getNode g0 v) = false.

Lemma getNeighbors_open g u v :
  same_shape g0 g → good g0 g u → v ∈ BMSSP.getNeighbors u g → open_edge u v.
Proof.
  intros Hs Hu Hv. destruct (getNeighbors_good _ _ _ _ Hs Hu Hv) as (? & ? & Hw).
  split_and!; [done..|]. destruct Hs as (_ & _ & _ & E). by rewrite <- E.
Qed.

Lemma bsteps_goodsE st st' l : bsteps g0 st st' → goodsE st l → goodsE st' l.
Proof.
  intros Hs Hl. eapply Forall_impl; [done|]. intros x. by apply bsteps_good.
Qed.

Lemma markVisited_steps st u :
  good g0 (BMSSP.gridRef st) u → bsteps g0 st (BMSSP.markVisited st u).
Proof.
  intros Hu. unfold BMSSP.markVisited.
  destruct (isVisited _) eqn:Hv; [constructor|].
  apply bsteps_one. by constructor.
Qed.

(** One guarded write, as every relaxation site performs it. *)
Lemma write_step st u v tr :
  shape st → good g0 (BMSSP.gridRef st) u → open_edge u v →
  num_leb (num_add (distance (getNode (BMSSP.gridRef st) u)) (Fin 1))
          (distance (getNode (BMSSP.gridRef st) v)) = true →
  bsteps g0 st (BMSSP.store st (BMSSP.writeDistance (BMSSP.gridRef st) u v) tr) ∧
  good g0 (BMSSP.writeDistance (BMSSP.gridRef st) u v) v.
Proof.
  intros Hs Hu (Hadj & Hin & Hw) Hle.
  assert (isWall (getNode (BMSSP.gridRef st) v) = false) as Hw'
    by (destruct Hs as (_ & _ & _ & E); by rewrite E).
  split; [apply bsteps_one; by constructor|]. by apply write_good.
Qed.

Lemma fp_relax_steps B u st Wc v :
  shape st → good g0 (BMSSP.gridRef st) u → open_edge u v → goods st Wc →
  bsteps g0 st (BMSSP.fp_relax B u (st, Wc) v).1 ∧
  goods (BMSSP.fp_relax B u (st, Wc) v).1 (BMSSP.fp_relax B u (st, Wc) v).2.
Proof.
  intros Hs Hu He HW. unfold BMSSP.fp_relax.
  destruct (num_leb _ _) eqn:Hle; [|split; [constructor|done]].
  match goal with |- context [BMSSP.store st ?g ?tr] =>
    destruct (write_step st u v tr Hs Hu He Hle) as [H1 H2] end.
  simpl. split; [done|].
  assert (goods (BMSSP.store st (BMSSP.writeDistance (BMSSP.gridRef st) u v) [])
                Wc) as HW' by (eapply Forall_impl; [done|];
                               intros x; by apply (bsteps_good _ _ _ _ H1)).
  simpl in *. destruct (num_ltb _ B); [|done]. by apply set_add_Forall.
Qed.

(** A fold over the neighbours of a good node. *)
Lemma neighbors_fold {A : Type} (proj : A → BMSSP.State) (relax : A → NodeRef → A)
    (J : A → Prop) st0 u (acc : A) :
  (∀ a v, shape (proj a) → bsteps g0 st0 (proj a) →
          good g0 (BMSSP.gridRef (proj a)) u → open_edge u v → J a →
          bsteps g0 (proj a) (proj (relax a v)) ∧ J (relax a v)) →
  shape (proj acc) → bsteps g0 st0 (proj acc) →
  good g0 (BMSSP.gridRef (proj acc)) u → J acc →
  let r := foldl relax acc (BMSSP.getNeighbors u (BMSSP.gridRef (proj acc))) in
  bsteps g0 (proj acc) (proj r) ∧ J r.
Proof.
  intros Hrelax Hs H0 Hu HJ r. subst r.
  set (I := λ a : A, bsteps g0 (proj acc) (proj a) ∧ J a).
  apply (foldl_inv relax I); [split; [constructor|done]|].
  intros a v Hv [Hst HJ']. simpl in *.
  pose proof (getNeighbors_open _ _ _ Hs Hu Hv) as He.
  destruct (Hrelax a v) as [H1 H2]; try done.
  - by eapply bsteps_shape.
  - by eapply bsteps_trans.
  - by eapply bsteps_good.
  - split; [by eapply bsteps_trans|done].
Qed.

Lemma fp_round_steps B st W_prev :
  shape st → goods st W_prev →
  bsteps g0 st (BMSSP.fp_round B st W_prev).1 ∧
  goods (BMSSP.fp_round B st W_prev).1 (BMSSP.fp_round B st W_prev).2.
Proof.
  intros Hs HW. unfold BMSSP.fp_round.
  set (I := λ a : BMSSP.State * list NodeRef,
         bsteps g0 st a.1 ∧ goods a.1 a.2).
  apply (foldl_inv _ I); [split; [constructor|constructor]|].
  intros acc u Hu [Hst HWc].
  assert (good g0 (BMSSP.gridRef acc.1) u) as Hgu.
  { eapply bsteps_good; [done|]. rewrite Forall_forall in HW. by apply HW. }
  destruct (neighbors_fold fst (BMSSP.fp_relax B u) (λ a, goods a.1 a.2) st u acc)
    as [H1 H2]; try done.
  - intros [st1 c] v Hs1 _ Hu1 He Hc. by apply fp_relax_steps.
  - by eapply bsteps_shape.
  - split; [by eapply bsteps_trans|done].
Qed.

Lemma fp_merge_Forall (Q : NodeRef → Prop) W W_list W_curr :
  Forall Q W → Forall Q W_list → Forall Q W_curr →
  Forall Q (BMSSP.fp_merge W W_list W_curr).1 ∧
  Forall Q (BMSSP.fp_merge W W_list W_curr).2.
Proof.
  intros HW HWl HWc. unfold BMSSP.fp_merge.
  apply (foldl_inv _ (λ a : list NodeRef * list NodeRef,
                        Forall Q a.1 ∧ Forall Q a.2)); [done|].
  intros [W' Wl'] x Hx [H1 H2]. simpl in *.
  destruct (includes x W'); [done|]. simpl.
  rewrite Forall_forall in HWc.
  split; apply Forall_app; (split; [done|]); constructor; auto.
Qed.

Lemma fp_rounds_steps rounds B S st W W_prev W_list :
  shape st → goods st W → goods st W_prev → goods st W_list →
  bsteps g0 st (BMSSP.fp_rounds P rounds B S st W W_prev W_list).1 ∧
  goods (BMSSP.fp_rounds P rounds B S st W W_prev W_list).1
        (BMSSP.fp_rounds P rounds B S st W W_prev W_list).2.
Proof.
  revert st W W_prev W_list.
  induction rounds as [|rounds IH]; intros st W W_prev W_list Hs HW HWp HWl; simpl.
  { split; [constructor|done]. }
  destruct (fp_round_steps B st W_prev Hs HWp) as [H1 H2].
  destruct (BMSSP.fp_round B st W_prev) as [st' W_curr]. simpl in *.
  destruct (fp_merge_Forall (good g0 (BMSSP.gridRef st')) W W_list W_curr)
    as [H3 H4]; [by eapply bsteps_Forall_good|by eapply bsteps_Forall_good|done|].
  destruct (BMSSP.fp_merge W W_list W_curr) as [W' W_list']. simpl in *.
  destruct (_ <? _); [done|].
  destruct (_ =? _); [done|].
  destruct (IH st' W' W_curr W_list') as [H5 H6]; try done.
  - by eapply bsteps_shape.
  - split; [by eapply bsteps_trans|done].
Qed.

Lemma findPivots_steps B S st st' Pv W :
  shape st → goods st S → BMSSP.findPivots P B S st = (st', Pv, W) →
  bsteps g0 st st' ∧ Pv = S ∧ goods st' W.
Proof.
  intros Hs HS. unfold BMSSP.findPivots.
  destruct (fp_rounds_steps (BMSSP.k_param P) B S st (BMSSP.set_of S)
              (BMSSP.set_of S) S) as [H1 H2];
    [done|by apply set_of_Forall|by apply set_of_Forall|done|].
  destruct (BMSSP.fp_rounds _ _ _ _ _ _ _ _) as [st1 Wl]. intros [= <- <- <-].
  done.
Qed.

Lemma bc_relax_steps B u st heap v :
  shape st → good g0 (BMSSP.gridRef st) u → open_edge u v → goodsE st heap →
  bsteps g0 st (BMSSP.bc_relax B u (st, heap) v).1 ∧
  goodsE (BMSSP.bc_relax B u (st, heap) v).1 (BMSSP.bc_relax B u (st, heap) v).2.
Proof.
  intros Hs Hu He Hh. unfold BMSSP.bc_relax.
  destruct (num_leb _ _) eqn:Hle; simpl; [|split; [constructor|done]].
  destruct (num_ltb _ B); simpl; [|split; [constructor|done]].
  match goal with |- context [BMSSP.store st ?g ?tr] =>
    destruct (write_step st u v tr Hs Hu He Hle) as [H1 H2] end.
  split; [done|].
  pose proof (bsteps_goodsE _ _ _ H1 Hh) as Hh'. simpl in Hh'.
  destruct (BMSSP.heap_contains heap v).
  - by apply (heap_decreaseKey_Forall (good g0 _)).
  - by apply (heap_push_Forall (good g0 _)).
Qed.

Lemma bc_loop_steps fuel B st U0 heap st' U0' :
  shape st → goods st U0 → goodsE st heap →
  BMSSP.bc_loop P fuel B st U0 heap = Some (st', U0') →
  bsteps g0 st st' ∧ goods st' U0'.
Proof.
  revert st U0 heap.
  induction fuel as [|fuel IH]; intros st U0 heap Hs HU Hh Hrun; simpl in Hrun.
  - destruct (BMSSP.heap_pop heap) as [[[u dist] heap']|];
      [|simplify_eq; split; [constructor|done]].
    destruct (_ <? _); [done|]. simplify_eq. split; [constructor|done].
  - destruct (BMSSP.heap_pop heap) as [[[u dist] heap']|] eqn:Hpop;
      [|simplify_eq; split; [constructor|done]].
    destruct (_ <? _); [|simplify_eq; split; [constructor|done]].
    destruct (num_geb dist B); [simplify_eq; split; [constructor|done]|].
    destruct (heap_pop_Forall (good g0 (BMSSP.gridRef st)) _ _ _ Hpop Hh)
      as [Hu Hh']. simpl in Hu.
    pose proof (markVisited_steps st u Hu) as Hm.
    set (st1 := BMSSP.markVisited st u) in *.
    destruct (neighbors_fold fst (BMSSP.bc_relax B u) (λ a, goodsE a.1 a.2)
                st1 u (st1, heap')) as [H1 H2]; simpl; try done.
    + intros [st2 c] v Hs2 _ Hu2 He Hc. by apply bc_relax_steps.
    + by eapply bsteps_shape.
    + constructor.
    + by eapply bsteps_good.
    + by eapply bsteps_goodsE.
    + simpl in *. destruct (foldl _ _ _) as [st2 heap2]. simpl in *.
      destruct (IH st2 (BMSSP.set_add u U0) heap2) as [H3 H4]; try done.
      * eapply bsteps_shape; [|done]. by eapply bsteps_trans.
      * apply set_add_Forall.
        -- eapply bsteps_good; [|done]. by eapply bsteps_trans.
        -- eapply bsteps_Forall_good; [|done]. by eapply bsteps_trans.
      * split; [|done]. eapply bsteps_trans; [|done]. by eapply bsteps_trans.
Qed.

Lemma baseCase_steps fuel B S st st' B' U :
  shape st → goods st S →
  BMSSP.baseCase P fuel B S st = Some (st', B', U) →
  bsteps g0 st st' ∧ goods st' U.
Proof.
  intros Hs HS. unfold BMSSP.baseCase. intros Hrun.
  destruct (BMSSP.bc_loop _ _ _ _ _ _) as [[st1 U0]|] eqn:Hloop; [|done].
  simpl in Hrun.
  apply bc_loop_steps in Hloop as [H1 H2]; [|done|by apply set_of_Forall|].
  - destruct (_ <=? _); simplify_eq; (split; [done|]); [done|].
    rewrite Forall_forall in H2. apply Forall_forall.
    intros x [_ Hx]%list_elem_of_filter. by apply H2.
  - apply (foldl_inv _ (λ h, goodsE st h)); [constructor|].
    intros h x Hx Hh. apply (heap_push_Forall (good g0 _)); [done|].
    rewrite Forall_forall in HS. by apply HS.
Qed.

Lemma rec_relax_steps B Bi Bpi u st D K v :
  shape st → good g0 (BMSSP.gridRef st) u → open_edge u v →
  goodsE st (BMSSP.items D) → goodsE st K →
  let r := BMSSP.rec_relax B Bi Bpi u (st, D, K) v in
  bsteps g0 st r.1.1 ∧ goodsE r.1.1 (BMSSP.items r.1.2) ∧ goodsE r.1.1 r.2.
Proof.
  intros Hs Hu He HD HK. unfold BMSSP.rec_relax.
  destruct (num_leb _ _) eqn:Hle; simpl; [|split_and!; [constructor|done..]].
  match goal with |- context [BMSSP.store st ?g ?tr] =>
    destruct (write_step st u v tr Hs Hu He Hle) as [H1 H2] end.
  pose proof (bsteps_goodsE _ _ _ H1 HD) as HD'.
  pose proof (bsteps_goodsE _ _ _ H1 HK) as HK'. simpl in HD', HK'.
  destruct (_ && _); simpl; [split_and!; [done| |done]|].
  - by apply (D_insert_Forall (good g0 _)).
  - destruct (_ && _); simpl; (split_and!; [done|done|]); [|done].
    apply Forall_app. split; [done|]. by constructor.
Qed.

(** What a call one level down must guarantee. *)
Definition recurse_ok
    (recurse : num → list NodeRef → BMSSP.State →
               option (BMSSP.State * num * list NodeRef)) : Prop :=
  ∀ Bi Si st st' B' U,
    shape st → goods st Si → recurse Bi Si st = Some (st', B', U) →
    bsteps g0 st st' ∧ goods st' U.

Lemma mark_all_steps st U Ui :
  goods st Ui → goods st U →
  let r := foldl (λ '(s, U') node, (BMSSP.markVisited s node, BMSSP.set_add node U'))
                 (st, U) Ui in
  bsteps g0 st r.1 ∧ goods r.1 r.2.
Proof.
  intros HUi HU.
  apply (foldl_inv _ (λ a : BMSSP.State * list NodeRef,
                        bsteps g0 st a.1 ∧ goods a.1 a.2));
    [split; [constructor|done]|].
  intros [s U'] x Hx [H1 H2]. simpl in *.
  assert (good g0 (BMSSP.gridRef s) x) as Hgx.
  { eapply bsteps_good; [done|]. rewrite Forall_forall in HUi. by apply HUi. }
  pose proof (markVisited_steps s x Hgx) as Hm.
  split; [by eapply bsteps_trans|].
  apply set_add_Forall; [by eapply bsteps_good|by eapply bsteps_Forall_good].
Qed.

Lemma rec_relax_all_steps B Bi Bpi st D Ui :
  shape st → goods st Ui → goodsE st (BMSSP.items D) →
  let r := foldl (λ acc u,
                    foldl (BMSSP.rec_relax B Bi Bpi u) acc
                          (BMSSP.getNeighbors u (BMSSP.gridRef acc.1.1)))
                 (st, D, []) Ui in
  bsteps g0 st r.1.1 ∧ goodsE r.1.1 (BMSSP.items r.1.2) ∧ goodsE r.1.1 r.2.
Proof.
  intros Hs HUi HD.
  apply (foldl_inv _ (λ a : BMSSP.State * BMSSP.StructureD * list (NodeRef * num),
                        bsteps g0 st a.1.1 ∧ goodsE a.1.1 (BMSSP.items a.1.2) ∧
                        goodsE a.1.1 a.2));
    [split_and!; [constructor|done|constructor]|].
  intros [[s D'] K] u Hu (H1 & H2 & H3). simpl in *.
  assert (good g0 (BMSSP.gridRef s) u) as Hgu.
  { eapply bsteps_good; [done|]. rewrite Forall_forall in HUi. by apply HUi. }
  destruct (neighbors_fold (λ a, a.1.1) (BMSSP.rec_relax B Bi Bpi u)
              (λ a, goodsE a.1.1 (BMSSP.items a.1.2) ∧ goodsE a.1.1 a.2)
              s u (s, D', K)) as [H4 H5]; simpl; try done.
  - intros [[st1 D1] K1] v Hs1 _ Hu1 He [Hc1 Hc2]. simpl in *.
    destruct (rec_relax_steps B Bi Bpi u st1 D1 K1 v) as (? & ? & ?); done.
  - by eapply bsteps_shape.
  - constructor.
  - simpl in *. destruct H5 as [H5 H6].
    split_and!; [by eapply bsteps_trans|done|done].
Qed.

Lemma rec_loop_steps recurse fuel sizeLimit B st D U Bp st' U' Bp' :
  recurse_ok recurse →
  shape st → goodsE st (BMSSP.items D) → goods st U →
  BMSSP.rec_loop recurse fuel sizeLimit B st D U Bp = Some (st', U', Bp') →
  bsteps g0 st st' ∧ goods st' U'.
Proof.
  intros Hrec. revert st D U Bp.
  induction fuel as [|fuel IH]; intros st D U Bp Hs HD HU Hrun; simpl in Hrun.
  - destruct (_ && _); [done|]. simplify_eq. split; [constructor|done].
  - destruct (_ && _); [|simplify_eq; split; [constructor|done]].
    destruct (BMSSP.D_pull D) as [[D1 Bi] Si] eqn:Hpull.
    destruct (D_pull_Forall (good g0 (BMSSP.gridRef st)) _ _ _ _ Hpull HD)
      as [HD1 HSi].
    destruct (recurse Bi Si st) as [[[st1 Bpi] Ui]|] eqn:Hr; [|done].
    simpl in Hrun.
    destruct (Hrec _ _ _ _ _ _ Hs HSi Hr) as [H1 HUi].
    destruct (mark_all_steps st1 U Ui HUi) as [H2 HU2];
      [by eapply bsteps_Forall_good|].
    destruct (foldl _ (st1, U) Ui) as [st2 U2]. simpl in *.
    destruct (rec_relax_all_steps B Bi Bpi st2 D1 Ui) as (H3 & HD3 & HK).
    { eapply bsteps_shape; [|done]. by eapply bsteps_trans. }
    { by eapply bsteps_Forall_good. }
    { eapply bsteps_goodsE; [|done]. by eapply bsteps_trans. }
    destruct (foldl _ (st2, D1, []) Ui) as [[st3 D3] K]. simpl in *.
    assert (bsteps g0 st st3) as H03
      by (eapply bsteps_trans; [|done]; by eapply bsteps_trans).
    apply IH in Hrun as [H4 H5].
    + split; [by eapply bsteps_trans|done].
    + eapply bsteps_shape; [exact H03|done].
    + apply (D_batchPrepend_Forall (good g0 _)); [done|].
      apply Forall_app. split; [done|].
      apply Forall_forall. intros [x d] Hx.
      apply list_elem_of_omap in Hx as (y & Hy & Hxy).
      destruct (_ && _); simplify_eq. simpl.
      eapply bsteps_good; [exact H03|]. rewrite Forall_forall in HSi. by apply HSi.
    + eapply bsteps_Forall_good; [exact H3|done].
Qed.

Lemma bmsspRecursive_steps fuel l : recurse_ok (BMSSP.bmsspRecursive P fuel l).
Proof.
  induction l as [|l IH]; intros B S st st' B' U Hs HS Hrun; simpl in Hrun.
  - by eapply baseCase_steps.
  - destruct (BMSSP.findPivots P B S st) as [[st1 Pv] W] eqn:Hfp.
    destruct (findPivots_steps _ _ _ _ _ _ Hs HS Hfp) as (H1 & -> & HW).
    match type of Hrun with
    | context [BMSSP.rec_loop _ _ ?sl _ _ ?D _ ?Bp] =>
        destruct (BMSSP.rec_loop (BMSSP.bmsspRecursive P fuel l) fuel sl B st1 D [] Bp)
          as [[[st2 U2] Bp2]|] eqn:Hloop; [|done]
    end.
    simpl in Hrun.
    apply rec_loop_steps in Hloop as [H2 HU2]; [|done|by eapply bsteps_shape| |done].
    + match type of Hrun with
      | context [foldl ?f (st2, U2) W] =>
          assert (bsteps g0 st2 (foldl f (st2, U2) W).1 ∧
                  goods (foldl f (st2, U2) W).1 (foldl f (st2, U2) W).2) as [H3 H4]
      end.
      { apply (foldl_inv _ (λ a : BMSSP.State * list NodeRef,
                              bsteps g0 st2 a.1 ∧ goods a.1 a.2));
          [split; [constructor|done]|].
        intros [s U'] x Hx [Ha Hb]. simpl in *.
        destruct (num_ltb _ _); [|done]. simpl.
        assert (good g0 (BMSSP.gridRef s) x) as Hgx.
        { eapply bsteps_good; [exact Ha|]. eapply bsteps_good; [exact H2|].
          rewrite Forall_forall in HW. by apply HW. }
        pose proof (markVisited_steps s x Hgx) as Hm.
        split; [by eapply bsteps_trans|].
        apply set_add_Forall; [by eapply bsteps_good|by eapply bsteps_Forall_good]. }
      destruct (foldl _ (st2, U2) W) as [st3 U3]. simplify_eq. simpl in *.
      split; [|done]. eapply bsteps_trans; [|done]. by eapply bsteps_trans.
    + apply (foldl_inv _ (λ d, goodsE st1 (BMSSP.items d))); [constructor|].
      intros d x Hx Hd. apply (D_insert_Forall (good g0 _)); [done|].
      eapply bsteps_good; [done|]. rewrite Forall_forall in HS. by apply HS.
Qed.
End BmsspSteps.

(** ** BMSSP: the invariant of the guarded writes *)

Record binv (g0 : Grid) (startNode : NodeRef) (g : Grid) : Prop := mkBinv {
  bi_shape : same_shape g0 g;
  bi_walls : ∀ p, isWall (getNode g p) = true →
                  distance (getNode g p) = Infinity ∧ previousNode (getNode g p) = None;
  bi_start : good g0 g startNode ∧ distance (getNode g startNode) = Fin 0 ∧
             previousNode (getNode g startNode) = None;
  bi_link : ∀ v u, previousNode (getNode g v) = Some u →
                   adjacent u v ∧ good g0 g u ∧ good g0 g v ∧
                   dist_of g u < dist_of g v;
  bi_root : ∀ v, reached g v → v = startNode ∨ is_Some (previousNode (getNode g v));
  bi_vis : ∀ v, isVisited (getNode g v) = true → good g0 g v;
}.

Lemma adjacent_ne u v : adjacent u v → u ≠ v.
Proof. intros H ->. unfold adjacent, absdiff in H. lia. Qed.

Lemma binv_step g0 startNode g g' :
  binv g0 startNode g → bstep g0 g g' → binv g0 startNode g'.
Proof.
  intros H Hs.
  pose proof (bstep_shape _ _ _ Hs (bi_shape _ _ _ H)) as Hshape.
  assert (∀ x, good g0 g x → good g0 g' x) as Hgood
    by (intros x; by apply bstep_good).
  destruct Hs as [u v Hu Hadj Hin Hwv Hle|u Hu Hv].
  - destruct Hu as (Hinu & Hwu & [du Hdu]).
    assert (good g0 g u) as Hu by (split_and!; [done..|by exists du]).
    rewrite Hdu in Hle. change (num_add (Fin du) (Fin 1)) with (Fin (du + 1)) in Hle.
    set (g' := BMSSP.writeDistance g u v) in *.
    assert (∀ x, x ≠ v → getNode g' x = getNode g x) as Hne
      by (intros x ?; by apply getNode_updNode_ne).
    assert (getNode g' v = set_previousNode (Some u)
                             (set_distance (Fin (du + 1)) (getNode g v))) as Heq.
    { unfold g', BMSSP.writeDistance. rewrite getNode_updNode_eq, Hdu; [done| |].
      - apply H.
      - destruct (bi_shape _ _ _ H) as (_ & Hr & Hc & _).
        unfold inGrid in *. by rewrite Hr, Hc. }
    assert (v ≠ startNode) as Hvs.
    { intros ->. destruct (bi_start _ _ _ H) as (_ & Hd0 & _).
      rewrite Hd0 in Hle. apply num_leb_le in Hle. lia. }
    assert (u ≠ v) as Huv by (by apply adjacent_ne).
    assert (good g0 g' v) as Hgv by (apply write_good; [done..|apply H]).
    assert (∀ x, reached g x → dist_of g' x ≤ dist_of g x) as Hdle.
    { intros x [d Hd]. unfold dist_of. destruct (decide (x = v)) as [->|Hx].
      - rewrite Heq, Hd. simpl. rewrite Hd in Hle. apply num_leb_le in Hle. lia.
      - by rewrite Hne. }
    constructor; [done|..].
    + intros p Hp. destruct (decide (p = v)) as [->|Hpv].
      * rewrite Heq in Hp. simpl in Hp. congruence.
      * rewrite Hne in * by done. by apply (bi_walls _ _ _ H).
    + destruct (bi_start _ _ _ H) as (? & ? & ?).
      rewrite Hne by done. auto.
    + intros w x Hp. destruct (decide (w = v)) as [->|Hw].
      * rewrite Heq in Hp. simpl in Hp. simplify_eq.
        split_and!; [done|by apply Hgood|done|].
        unfold dist_of. rewrite Heq, Hne, Hdu by done. simpl. lia.
      * rewrite Hne in Hp by done.
        destruct (bi_link _ _ _ H _ _ Hp) as (? & Hgx & Hgw & Hlt).
        split_and!; [done|by apply Hgood|by apply Hgood|].
        assert (dist_of g' w = dist_of g w) as -> by (unfold dist_of; by rewrite Hne).
        destruct Hgx as (_ & _ & Hrx). specialize (Hdle _ Hrx). lia.
    + intros w Hw. destruct (decide (w = v)) as [->|Hwv'].
      * right. rewrite Heq. by eexists.
      * rewrite Hne by done. apply (bi_root _ _ _ H).
        destruct Hw as [d Hd]. rewrite Hne in Hd by done. by exists d.
    + intros w Hw. destruct (decide (w = v)) as [->|Hwv']; [done|].
      rewrite Hne in Hw by done. apply Hgood. by apply (bi_vis _ _ _ H).
  - set (g' := updNode g u (set_isVisited true)) in *.
    assert (∀ x, distance (getNode g' x) = distance (getNode g x) ∧
                 previousNode (getNode g' x) = previousNode (getNode g x) ∧
                 isWall (getNode g' x) = isWall (getNode g x)) as Hsame.
    { intros x. unfold g'.
      destruct (getNode_updNode_cases g u x (set_isVisited true)) as [->|[-> ->]];
        done. }
    assert (∀ x, dist_of g' x = dist_of g x) as Hd
      by (intros x; unfold dist_of; by rewrite (proj1 (Hsame x))).
    assert (∀ x, reached g' x ↔ reached g x) as Hre
      by (intros x; unfold reached; by rewrite (proj1 (Hsame x))).
    constructor; [done|..].
    + intros p. rewrite (proj1 (Hsame p)), (proj1 (proj2 (Hsame p))),
        (proj2 (proj2 (Hsame p))). apply H.
    + destruct (bi_start _ _ _ H) as (? & ? & ?).
      rewrite (proj1 (Hsame _)), (proj1 (proj2 (Hsame _))). auto.
    + intros w x. rewrite (proj1 (proj2 (Hsame w))), !Hd. intros Hp.
      destruct (bi_link _ _ _ H _ _ Hp) as (? & ? & ? & ?). auto.
    + intros w. rewrite Hre, (proj1 (proj2 (Hsame w))). apply H.
    + intros w Hw. unfold g' in Hw.
      destruct (getNode_updNode_cases g u w (set_isVisited true)) as [E|[-> _]].
      * apply Hgood, (bi_vis _ _ _ H). by rewrite <- E.
      * by apply Hgood.
Qed.

Lemma binv_chained g0 startNode g : binv g0 startNode g → chained g0 startNode g.
Proof.
  intros H. constructor.
  - apply (bi_start _ _ _ H).
  - apply (bi_start _ _ _ H).
  - intros v u Hp. destruct (bi_link _ _ _ H _ _ Hp) as (? & Hu & Hv & ?).
    split_and!; [done|apply Hv|apply Hu|apply Hv|done].
  - apply H.
Qed.

(** The reset at the head of [bmssp]. *)
Lemma getNode_resetAll g p :
  getNode (BMSSP.resetAll g) p = BMSSP.resetNode (getNode g p).
Proof.
  unfold getNode, BMSSP.resetAll. rewrite list_lookup_fmap.
  destruct (g !! p.1) as [row|]; simpl; [|done].
  rewrite list_lookup_fmap. by destruct (row !! p.2).
Qed.

Lemma rows_resetAll g : rows (BMSSP.resetAll g) = rows g.
Proof. unfold rows, BMSSP.resetAll. by rewrite length_map. Qed.

Lemma cols_resetAll g : cols (BMSSP.resetAll g) = cols g.
Proof.
  unfold cols, BMSSP.resetAll. rewrite list_lookup_fmap.
  destruct (g !! 0); simpl; [by rewrite length_map|done].
Qed.

Lemma rectangular_resetAll g : rectangular g → rectangular (BMSSP.resetAll g).
Proof.
  intros (Hr & Hc & Hrow). unfold rectangular.
  rewrite rows_resetAll, cols_resetAll. split_and!; [done..|].
  intros row Hin. unfold BMSSP.resetAll in Hin.
  apply list_elem_of_fmap in Hin as (row0 & -> & Hin).
  rewrite length_map. by apply Hrow.
Qed.

Definition bmssp_start (g : Grid) (startNode : NodeRef) : Grid :=
  updNode (BMSSP.resetAll g) startNode (set_distance (Fin 0)).

Lemma binv_start g startNode :
  rectangular g → inGrid g startNode → isWall (getNode g startNode) = false →
  binv g startNode (bmssp_start g startNode).
Proof.
  intros Hrect Hin Hw. unfold bmssp_start.
  set (g1 := BMSSP.resetAll g). set (g2 := updNode g1 startNode (set_distance (Fin 0))).
  assert (∀ x, x ≠ startNode → getNode g2 x = BMSSP.resetNode (getNode g x)) as Hne.
  { intros x Hx. unfold g2, g1. rewrite getNode_updNode_ne by done.
    apply getNode_resetAll. }
  assert (getNode g2 startNode =
          set_distance (Fin 0) (BMSSP.resetNode (getNode g startNode))) as Heq.
  { unfold g2, g1. rewrite getNode_updNode_eq.
    - by rewrite getNode_resetAll.
    - by apply rectangular_resetAll.
    - unfold inGrid, g1. by rewrite rows_resetAll, cols_resetAll. }
  assert (same_shape g g2) as Hshape.
  { split_and!.
    - by apply rectangular_updNode, rectangular_resetAll.
    - unfold g2, g1. by rewrite rows_updNode, rows_resetAll.
    - unfold g2, g1. by rewrite cols_updNode, cols_resetAll.
    - intros p. destruct (decide (p = startNode)) as [->|Hp].
      + by rewrite Heq.
      + by rewrite Hne. }
  assert (good g g2 startNode) as Hgs.
  { split_and!; [done| |exists 0]; by rewrite Heq. }
  constructor; [done|..].
  - intros p Hp. destruct (decide (p = startNode)) as [->|Hne'].
    + rewrite Heq in Hp. simpl in Hp. congruence.
    + by rewrite Hne.
  - rewrite Heq. done.
  - intros v u. destruct (decide (v = startNode)) as [->|Hv].
    + by rewrite Heq.
    + by rewrite Hne.
  - intros v [d Hd]. destruct (decide (v = startNode)) as [->|Hv]; [by left|].
    by rewrite Hne in Hd.
  - intros v. destruct (decide (v = startNode)) as [->|Hv].
    + by rewrite Heq.
    + by rewrite Hne.
Qed.

(** ** BMSSP: the points of a run *)

(** In the list of points (most recent first), a later point comes from an
    earlier one by guarded writes. *)
Definition ordered_points (g0 : Grid) (l : list Grid) : Prop :=
  ∀ i j a b, i ≤ j → l !! i = Some a → l !! j = Some b → rtc (bstep g0) b a.

Lemma bsteps_ordered g0 st st' :
  bsteps g0 st st' → ordered_points g0 (BMSSP.points st) →
  ordered_points g0 (BMSSP.points st').
Proof.
  induction 1 as [|st1 g' tr _ IH Hs]; [done|].
  intros H0. specialize (IH H0). unfold BMSSP.points in *. simpl.
  intros i j a b Hij Hi Hj. destruct i as [|i], j as [|j]; simpl in *; try lia.
  - simplify_eq. constructor.
  - simplify_eq. eapply rtc_r; [|done]. eapply (IH 0 j); [lia|done|done].
  - eapply (IH i j); [lia|done|done].
Qed.

Lemma bmsspSearch_steps P l fuel g startNode st :
  rectangular g → inGrid g startNode → isWall (getNode g startNode) = false →
  BMSSP.bmsspSearch P l fuel g startNode = Some st →
  bsteps g (BMSSP.mkState (bmssp_start g startNode) [] []) st.
Proof.
  intros Hrect Hin Hw. unfold BMSSP.bmsspSearch. fold (bmssp_start g startNode).
  destruct (BMSSP.bmsspRecursive _ _ _ _ _ _) as [[[st1 B'] U]|] eqn:Hrun; [|done].
  simpl. intros [= <-].
  pose proof (binv_start g startNode Hrect Hin Hw) as Hb.
  eapply (bmsspRecursive_steps g P fuel l); [| |done]; simpl.
  - apply Hb.
  - constructor; [|constructor]. apply Hb.
Qed.

(** Every point of a BMSSP run satisfies the invariant; later points come
    from earlier ones by guarded writes. *)
Lemma bmsspSearch_points P l fuel g startNode st :
  rectangular g → inGrid g startNode → isWall (getNode g startNode) = false →
  BMSSP.bmsspSearch P l fuel g startNode = Some st →
  Forall (binv g startNode) (BMSSP.points st) ∧
  ordered_points g (BMSSP.points st).
Proof.
  intros Hrect Hin Hw Hrun.
  pose proof (bmsspSearch_steps _ _ _ _ _ _ Hrect Hin Hw Hrun) as Hs.
  split.
  - eapply bsteps_invariant; [|done|].
    + intros ? ?. apply binv_step.
    + constructor; [|constructor]. by apply binv_start.
  - eapply bsteps_ordered; [done|].
    intros i j a b Hij Hi Hj. unfold BMSSP.points in *. simpl in *.
    destruct i, j; simplify_eq/=; try done.
Qed.

(** What a sequence of guarded writes does to one node. *)
Lemma bstep_monotone g0 startNode g g' :
  binv g0 startNode g → bstep g0 g g' →
  ∀ x, num_leb (distance (getNode g' x)) (distance (getNode g x)) = true ∧
       (isVisited (getNode g x) = true → isVisited (getNode g' x) = true) ∧
       (isWall (getNode g x) = true → getNode g' x = getNode g x).
Proof.
  intros H Hs x. destruct Hs as [u v (Hinu & Hwu & [du Hdu]) Hadj Hin Hwv Hle|u Hu Hv].
  - unfold BMSSP.writeDistance.
    match goal with
    | |- context [updNode g v ?f] =>
        destruct (getNode_updNode_cases g v x f) as [->|[-> ->]]
    end.
    + split_and!; [apply num_leb_refl|done|done].
    + simpl. split_and!; [done|done|congruence].
  - destruct (getNode_updNode_cases g u x (set_isVisited true)) as [->|[-> ->]].
    + split_and!; [apply num_leb_refl|done|done].
    + simpl. split_and!; [apply num_leb_refl|done|].
      destruct Hu as (_ & ? & _). congruence.
Qed.

Lemma rtc_bstep_monotone g0 startNode g g' :
  binv g0 startNode g → rtc (bstep g0) g g' →
  binv g0 startNode g' ∧
  ∀ x, num_leb (distance (getNode g' x)) (distance (getNode g x)) = true ∧
       (isVisited (getNode g x) = true → isVisited (getNode g' x) = true) ∧
       (isWall (getNode g x) = true → getNode g' x = getNode g x).
Proof.
  intros H Hr. induction Hr as [g|g g1 g2 Hs Hr IH].
  - split; [done|]. intros x. split_and!; [apply num_leb_refl|done|done].
  - pose proof (binv_step _ _ _ _ H Hs) as H1.
    destruct (IH H1) as [H2 Hm]. split; [done|]. intros x.
    destruct (bstep_monotone _ _ _ _ H Hs x) as (A1 & A2 & A3).
    destruct (Hm x) as (B1 & B2 & B3).
    split_and!; [by eapply num_leb_trans|auto|].
    intros Hw. rewrite <- (A3 Hw). apply B3. by rewrite (A3 Hw).
Qed.

(** ** Grids built by [makeGrid] meet the contract *)

Lemma getNode_makeGrid nr nc walls s f p :
  getNode (makeGrid nr nc walls s f) p =
  if decide (p.1 < nr ∧ p.2 < nc)
  then set_isWall (bool_decide (p ∈ walls)) (createNode s f p)
  else blankNode.
Proof.
  unfold getNode, makeGrid. destruct p as [r c]. simpl.
  rewrite list_lookup_fmap.
  destruct (decide (r < nr)) as [Hr|Hr].
  - rewrite lookup_seq_lt by done. simpl. rewrite list_lookup_fmap.
    destruct (decide (c < nc)) as [Hc|Hc].
    + rewrite lookup_seq_lt by done. simpl. by rewrite decide_True.
    + rewrite lookup_seq_ge by lia. simpl. rewrite decide_False; [done|lia].
  - rewrite lookup_seq_ge by lia. simpl. rewrite decide_False; [done|lia].
Qed.

Lemma rows_makeGrid nr nc walls s f : rows (makeGrid nr nc walls s f) = nr.
Proof. unfold rows, makeGrid. by rewrite length_map, length_seq. Qed.

Lemma cols_makeGrid nr nc walls s f :
  0 < nr → cols (makeGrid nr nc walls s f) = nc.
Proof.
  intros Hr. unfold cols, makeGrid. rewrite list_lookup_fmap, lookup_seq_lt by done.
  simpl. by rewrite length_map, length_seq.
Qed.

Lemma makeGrid_contract nr nc walls s f :
  s.1 < nr → s.2 < nc → f.1 < nr → f.2 < nc → s ≠ f → s ∉ walls → f ∉ walls →
  contract (makeGrid nr nc walls s f) s f.
Proof.
  intros Hs1 Hs2 Hf1 Hf2 Hne Hsw Hfw.
  assert (0 < nr) as Hnr by lia.
  constructor.
  - split_and!.
    + rewrite rows_makeGrid. lia.
    + rewrite cols_makeGrid by done. lia.
    + intros row Hrow. rewrite cols_makeGrid by done. unfold makeGrid in Hrow.
      apply list_elem_of_fmap in Hrow as (r & -> & _).
      by rewrite length_map, length_seq.
  - unfold inGrid. by rewrite rows_makeGrid, cols_makeGrid.
  - unfold inGrid. by rewrite rows_makeGrid, cols_makeGrid.
  - done.
  - rewrite getNode_makeGrid, decide_True by done. simpl. by rewrite bool_decide_false.
  - rewrite getNode_makeGrid, decide_True by done. simpl. by rewrite bool_decide_false.
  - intros p. rewrite getNode_makeGrid. by destruct (decide _).
Qed.

(** ** Points of a run, for the five strategies *)

#[global] Instance AlgorithmType_eq_dec : EqDecision AlgorithmType.
Proof. solve_decision. Defined.

(** The search of [bmssp], with the parameters it derives from the grid. *)
Definition bmssp_run (fuel : nat) (g0 : Grid) (startNode : NodeRef)
  : option BMSSP.State :=
  let N := length (BMSSP.getAllNodes g0) in
  BMSSP.bmsspSearch (BMSSP.mkParams (BMSSP.k_of N) (BMSSP.t_of N))
                    (BMSSP.l_of N (BMSSP.t_of N)) fuel g0 startNode.

(** [g] is a value the grid takes during the run: at an iteration boundary
    or at the return of a loop-shaped strategy, after any mutation of a
    BMSSP run. *)
Definition run_point (a : AlgorithmType) (fuel : nat) (g0 : Grid)
    (startNode finishNode : NodeRef) (g : Grid) : Prop :=
  match a with
  | algBidirectionalSwarm =>
      loop_point (Swarm.body startNode finishNode fuel) Swarm.sgrid
                 (Swarm.init g0 startNode finishNode) g
  | algBmssp =>
      ∃ st, bmssp_run fuel g0 startNode = Some st ∧ g ∈ BMSSP.points st
  | _ => frontier_point a fuel g0 startNode finishNode g
  end.

(** [g] is a point of the run and [g'] the same point or a later one. *)
Definition run_later (a : AlgorithmType) (fuel : nat) (g0 : Grid)
    (startNode finishNode : NodeRef) (g g' : Grid) : Prop :=
  match a with
  | algBidirectionalSwarm =>
      loop_later (Swarm.body startNode finishNode fuel) Swarm.sgrid
                 (Swarm.init g0 startNode finishNode) g g'
  | algBmssp =>
      ∃ st i j, bmssp_run fuel g0 startNode = Some st ∧ i ≤ j ∧
                BMSSP.points st !! j = Some g ∧ BMSSP.points st !! i = Some g'
  | _ => frontier_later a fuel g0 startNode finishNode g g'
  end.

Lemma bmssp_point_binv fuel g0 startNode finishNode g :
  contract g0 startNode finishNode →
  run_point algBmssp fuel g0 startNode finishNode g → binv g0 startNode g.
Proof.
  intros Hc (st & Hrun & Hg).
  destruct (bmsspSearch_points _ _ _ _ _ _ (c_rect _ _ _ Hc) (c_start _ _ _ Hc)
              (c_start_open _ _ _ Hc) Hrun) as [Hall _].
  rewrite Forall_forall in Hall. by apply Hall.
Qed.

Lemma bmssp_later_rtc fuel g0 startNode finishNode g g' :
  contract g0 startNode finishNode →
  run_later algBmssp fuel g0 startNode finishNode g g' →
  binv g0 startNode g ∧ rtc (bstep g0) g g'.
Proof.
  intros Hc (st & i & j & Hrun & Hij & Hj & Hi).
  destruct (bmsspSearch_points _ _ _ _ _ _ (c_rect _ _ _ Hc) (c_start _ _ _ Hc)
              (c_start_open _ _ _ Hc) Hrun) as [Hall Hord].
  split; [|by eapply Hord].
  rewrite Forall_forall in Hall. apply Hall. by eapply list_elem_of_lookup_2.
Qed.

Lemma swarm_point_frame fuel g0 startNode finishNode g :
  run_point algBidirectionalSwarm fuel g0 startNode finishNode g →
  only_isVisited g0 g.
Proof. intros H. by apply swarm_only_mutates_isVisited in H as [? _]. Qed.

(** ** Predecessor chains lead to the start node *)

(** The walk from [v] along [previousNode] ends within the number of cells,
    at the start node. *)
Definition chain_reaches_start (g0 : Grid) (startNode : NodeRef) (g : Grid)
    (v : NodeRef) : Prop :=
  ∃ p, walkPrevious (rows g0 * cols g0) g (Some v) [] = Some p ∧
       length p ≤ rows g0 * cols g0 ∧ head p = Some startNode ∧ last p = Some v.

(** C8 as stated: for every strategy, at every point, from every visited
    node. *)
Definition chains_as_stated (a : AlgorithmType) (fuel : nat) (g0 : Grid)
    (startNode finishNode : NodeRef) : Prop :=
  ∀ g v, run_point a fuel g0 startNode finishNode g →
         isVisited (getNode g v) = true → chain_reaches_start g0 startNode g v.

(** C8, counterexample.  [bidirectionalSwarm] keeps its predecessors in
    per-run maps and leaves [previousNode] null: on the 1 x 2 grid the walk
    from the visited finish node stops at the finish node. *)
Lemma chains_counterexample :
  ¬ chains_as_stated algBidirectionalSwarm 5 grid_1x2 (0, 0) (0, 1).
Proof.
  intros H.
  destruct (H (updNode (updNode grid_1x2 (0, 0) (set_isVisited true)) (0, 1)
                       (set_isVisited true)) (0, 1)) as (p & Hw & _ & Hhd & _).
  - right. exists 0, (Swarm.init grid_1x2 (0, 0) (0, 1)), [(0, 0); (0, 1)],
             (Some [(0, 0); (0, 1); (0, 1)]).
    split; vm_compute; reflexivity.
  - vm_compute. reflexivity.
  - vm_compute in Hw. by simplify_eq.
Qed.

(** C8, as amended.  For [dijkstra], [astar], [greedyBfs] and [bmssp], on a
    grid meeting the contract: at every point of a run, following
    [previousNode] from any visited node reaches the start node, through at
    most [rows * cols] nodes, so the reconstruction walk terminates.
    [bidirectionalSwarm] writes no [previousNode]: the field stays null on
    every node, and a walk from any node stops at that node. *)
Theorem chains_reach_start a fuel g0 startNode finishNode g v :
  contract g0 startNode finishNode →
  run_point a fuel g0 startNode finishNode g →
  isVisited (getNode g v) = true →
  if bool_decide (a = algBidirectionalSwarm)
  then previousNode (getNode g v) = None ∧
       walkPrevious (rows g0 * cols g0) g (Some v) [] = Some [v]
  else chain_reaches_start g0 startNode g v.
Proof.
  intros Hc Hpt Hv.
  assert (∀ g, chained g0 startNode g → reached g v →
               chain_reaches_start g0 startNode g v) as Hchain.
  { intros g1 Hch Hre.
    destruct (chained_walk _ _ _ _ Hch Hre) as (p & ? & ? & ? & ? & _).
    by exists p. }
  assert (∀ a, a = algDijkstra ∨ a = algAstar ∨ a = algGreedyBfs →
               frontier_point a fuel g0 startNode finishNode g →
               chain_reaches_start g0 startNode g v) as Hfront.
  { intros a' _ Hpt'.
    destruct (frontier_point_inv _ _ _ _ _ _ Hc Hpt') as (o & vis & Hinv).
    apply Hchain.
    - by eapply finv_chained.
    - apply (fi_vis _ _ _ _ _ Hinv) in Hv.
      by destruct (fi_vis_good _ _ _ _ _ Hinv v Hv) as (_ & _ & ?). }
  destruct a; simpl.
  - apply (Hfront algDijkstra); [auto|done].
  - apply (Hfront algAstar); [auto|done].
  - apply (Hfront algGreedyBfs); [auto|done].
  - pose proof (swarm_point_frame _ _ _ _ _ Hpt) as Hf.
    assert (previousNode (getNode g v) = None) as Hp.
    { rewrite (Hf v). simpl. apply (c_reset _ _ _ Hc). }
    split; [done|].
    destruct (c_rect _ _ _ Hc) as (Hr & Hcl & _).
    destruct (rows g0 * cols g0) as [|n] eqn:E; [nia|].
    simpl. rewrite Hp. by destruct n.
  - pose proof (bmssp_point_binv _ _ _ _ _ Hc Hpt) as Hb.
    apply Hchain; [by apply binv_chained|]. by apply (bi_vis _ _ _ Hb).
Qed.

Lemma chains_reach_start_witness :
  chain_reaches_start grid_1x2 (0, 0)
    (updNode
       (updNode
          (updNode (updNode grid_1x2 (0, 0) (set_distance (Fin 0))) (0, 0)
                   (set_isVisited true))
          (0, 1) (λ n, set_previousNode (Some (0, 0)) (set_distance (Fin 1) n)))
       (0, 1) (set_isVisited true))
    (0, 1).
Proof.
  refine (chains_reach_start algDijkstra 5 grid_1x2 (0, 0) (0, 1) _ (0, 1) _ _ _).
  - by apply makeGrid_contract; [simpl; lia..|done|apply not_elem_of_nil
                                                  |apply not_elem_of_nil].
  - right. exists 1. eexists _, _, _. split; vm_compute; reflexivity.
  - vm_compute. reflexivity.
Defined.

Lemma iterate_loop_add {St : Type} (body : St → Step St) n k s0 st :
  iterate_loop body n s0 = Some st →
  iterate_loop body (n + k) s0 = iterate_loop body k st.
Proof.
  revert s0. induction n as [|n IH]; intros s0 Hn; simpl in *; [by simplify_eq|].
  destruct (body s0); [|done]. by apply IH.
Qed.

Lemma loop_point_compose {St : Type} (body : St → Step St) proj n s0 st g' :
  iterate_loop body n s0 = Some st → loop_point body proj st g' →
  loop_point body proj s0 g'.
Proof.
  intros Hn [(k & st' & Hk & <-)|(k & st' & v & p & Hk & Hd)].
  - left. exists (n + k), st'. by rewrite (iterate_loop_add _ _ _ _ _ Hn).
  - right. exists (n + k), st', v, p. by rewrite (iterate_loop_add _ _ _ _ _ Hn).
Qed.

Lemma loop_later_points {St : Type} (body : St → Step St) proj s0 g g' :
  loop_later body proj s0 g g' →
  loop_point body proj s0 g ∧ loop_point body proj s0 g'.
Proof.
  intros (n & st & Hn & <- & Hpt). split.
  - left. by exists n, st.
  - by eapply loop_point_compose.
Qed.

(** ** Walls *)

(** [bidirectionalSwarm] never closes a wall. *)
Lemma swarm_point_walls fuel g0 startNode finishNode g :
  (∀ x, isVisited (getNode g0 x) = false) →
  run_point algBidirectionalSwarm fuel g0 startNode finishNode g →
  ∀ x, isVisited (getNode g x) = true → isWall (getNode g x) = false.
Proof.
  intros Hreset Hpt.
  set (I := λ g : Grid, ∀ x, isVisited (getNode g x) = true →
                             isWall (getNode g x) = false).
  assert (∀ g visited c, I g → isWall (getNode g c) = false →
                         I (Swarm.track g visited c).1) as Htrack.
  { intros g1 visited c HI Hw x. unfold Swarm.track.
    destruct (isVisited (getNode g1 c)); simpl; [apply HI|].
    destruct (getNode_updNode_cases g1 c x (set_isVisited true)) as [->|[-> ->]];
      [apply HI|done]. }
  assert (∀ s, I (Swarm.sgrid s) →
               match Swarm.body startNode finishNode fuel s with
               | Next s' => I (Swarm.sgrid s')
               | Done g' _ _ => I g'
               end) as Hbody.
  { intros s HI. unfold Swarm.body.
    destruct (Swarm.sortNodes _ _) as [|currentStart startRest]; [done|].
    destruct (Swarm.sortNodes _ _) as [|currentFinish finishRest]; [done|].
    destruct (isWall (getNode (Swarm.sgrid s) currentStart)) eqn:Hws.
    - destruct (isWall (getNode (Swarm.sgrid s) currentFinish)) eqn:Hwf; [done|].
      pose proof (Htrack _ (Swarm.svisited s) currentFinish HI Hwf) as H2.
      destruct (Swarm.track _ _ currentFinish) as [g2 visited2].
      by case_bool_decide.
    - pose proof (Htrack _ (Swarm.svisited s) currentStart HI Hws) as H1.
      destruct (Swarm.track _ _ currentStart) as [g1 visited1]. simpl in H1.
      case_bool_decide; [done|].
      destruct (isWall (getNode g1 currentFinish)) eqn:Hwf; [done|].
      pose proof (Htrack _ visited1 currentFinish H1 Hwf) as H2.
      destruct (Swarm.track _ _ currentFinish) as [g2 visited2].
      by case_bool_decide. }
  assert (∀ n st, iterate_loop (Swarm.body startNode finishNode fuel) n
                    (Swarm.init g0 startNode finishNode) = Some st →
                  I (Swarm.sgrid st)) as Hinv.
  { intros n st. apply (iterate_loop_inv _ (λ st, I (Swarm.sgrid st))).
    - intros s s' Hs Hb. specialize (Hbody s Hs). by rewrite Hb in Hbody.
    - intros x. simpl. by rewrite Hreset. }
  destruct Hpt as [(n & st & Hit & <-)|(n & st & v & p & Hit & Hd)];
    [by eapply Hinv|].
  specialize (Hbody st (Hinv _ _ Hit)). by rewrite Hd in Hbody.
Qed.

(** The neighbour enumeration of each strategy. *)
Definition enumerate (a : AlgorithmType) (node : NodeRef) (g : Grid) : list NodeRef :=
  match a with
  | algDijkstra => Dijkstra.getUnvisitedNeighbors node g
  | algAstar => AStar.getUnvisitedNeighbors node g
  | algGreedyBfs => Greedy.getUnvisitedNeighbors node g
  | algBidirectionalSwarm => Swarm.getNeighbors node g
  | algBmssp => BMSSP.getNeighbors node g
  end.

(** C5 as stated: the enumeration yields no wall, and a wall keeps an
    infinite distance and a null predecessor through the run. *)
Definition walls_as_stated (a : AlgorithmType) (fuel : nat) (g0 : Grid)
    (startNode finishNode : NodeRef) : Prop :=
  (∀ g u v, v ∈ enumerate a u g → isWall (getNode g v) = false) ∧
  (∀ g w, run_point a fuel g0 startNode finishNode g →
          isWall (getNode g0 w) = true →
          distance (getNode g w) = Infinity ∧ previousNode (getNode g w) = None).

Definition grid_1x3_wall : Grid := makeGrid 1 3 [(0, 1)] (0, 0) (0, 2).

(** C5, counterexample.  On the 1 x 3 grid with a wall in the middle,
    [getUnvisitedNeighbors] of [dijkstra] yields the wall, and the run
    leaves the wall with distance 1 and the start node as predecessor. *)
Lemma walls_counterexample :
  (0, 1) ∈ enumerate algDijkstra (0, 0) grid_1x3_wall ∧
  isWall (getNode grid_1x3_wall (0, 1)) = true ∧
  (∃ g, run_point algDijkstra 5 grid_1x3_wall (0, 0) (0, 2) g ∧
        distance (getNode g (0, 1)) = Fin 1 ∧
        previousNode (getNode g (0, 1)) = Some (0, 0)) ∧
  ¬ walls_as_stated algDijkstra 5 grid_1x3_wall (0, 0) (0, 2).
Proof.
  assert (∃ g, run_point algDijkstra 5 grid_1x3_wall (0, 0) (0, 2) g ∧
               distance (getNode g (0, 1)) = Fin 1 ∧
               previousNode (getNode g (0, 1)) = Some (0, 0)) as Hrun.
  { eexists. split_and!.
    - left. exists 1. eexists. split; [vm_compute; reflexivity|reflexivity].
    - vm_compute. reflexivity.
    - vm_compute. reflexivity. }
  split_and!; [vm_compute; by left|vm_compute; reflexivity|done|].
  intros [_ H]. destruct Hrun as (g & Hpt & Hd & _).
  destruct (H g (0, 1) Hpt) as [Hd' _]; [vm_compute; reflexivity|]. congruence.
Qed.

(** C5, as amended.  On a grid meeting the contract, at every point of a
    run of any strategy a wall stays a wall and is never marked visited.
    In [bmssp], whose [getNeighbors] filters walls out, and in
    [bidirectionalSwarm], which writes no distance at all and whose
    [updateNeighbor] returns at once on a wall, a wall keeps distance
    [Infinity] and a null [previousNode].  [dijkstra], [astar] and
    [greedyBfs] enumerate wall neighbours and may write a distance and a
    predecessor on them; the wall is discarded when it is popped. *)
Theorem walls_during_runs a fuel g0 startNode finishNode g w :
  contract g0 startNode finishNode →
  run_point a fuel g0 startNode finishNode g →
  isWall (getNode g0 w) = true →
  isWall (getNode g w) = true ∧ isVisited (getNode g w) = false ∧
  (a = algBmssp ∨ a = algBidirectionalSwarm →
   distance (getNode g w) = Infinity ∧ previousNode (getNode g w) = None) ∧
  (∀ g1 u v, v ∈ enumerate algBmssp u g1 → isWall (getNode g1 v) = false) ∧
  (∀ g1 current target sd, isWall (getNode g1 w) = true →
                           Swarm.updateNeighbor g1 current target sd w = sd).
Proof.
  intros Hc Hpt Hw.
  assert (∀ g1 u v, v ∈ enumerate algBmssp u g1 → isWall (getNode g1 v) = false)
    as Henum by (intros g1 u v [? _]%list_elem_of_filter; done).
  assert (∀ g1 current target sd, isWall (getNode g1 w) = true →
            Swarm.updateNeighbor g1 current target sd w = sd) as Hupd
    by (intros g1 current target sd Hw1; unfold Swarm.updateNeighbor;
        by rewrite Hw1).
  assert (∀ a, a = algDijkstra ∨ a = algAstar ∨ a = algGreedyBfs →
               frontier_point a fuel g0 startNode finishNode g →
               isWall (getNode g w) = true ∧ isVisited (getNode g w) = false)
    as Hfront.
  { intros a' _ Hpt'.
    destruct (frontier_point_inv _ _ _ _ _ _ Hc Hpt') as (o & vis & Hinv).
    assert (isWall (getNode g w) = true) as Hw'
      by (by rewrite (fi_wall _ _ _ _ _ Hinv)).
    split; [done|]. destruct (isVisited (getNode g w)) eqn:Hv; [|done].
    apply (fi_vis _ _ _ _ _ Hinv) in Hv.
    destruct (fi_vis_good _ _ _ _ _ Hinv w Hv) as (_ & ? & _). congruence. }
  destruct a; simpl in Hpt.
  - destruct (Hfront algDijkstra) as [? ?]; [auto|done|].
    split_and!; [done|done| |done|done]. by intros [?|?].
  - destruct (Hfront algAstar) as [? ?]; [auto|done|].
    split_and!; [done|done| |done|done]. by intros [?|?].
  - destruct (Hfront algGreedyBfs) as [? ?]; [auto|done|].
    split_and!; [done|done| |done|done]. by intros [?|?].
  - pose proof (swarm_point_frame _ _ _ _ _ Hpt) as Hf.
    assert (isWall (getNode g w) = true) as Hw' by (by rewrite (Hf w)).
    split_and!; [done| | |done|done].
    + destruct (isVisited (getNode g w)) eqn:Hv; [|done].
      eapply swarm_point_walls in Hv; [congruence| |done].
      intros x. apply (c_reset _ _ _ Hc).
    + intros _. rewrite (Hf w). simpl. split; apply (c_reset _ _ _ Hc).
  - pose proof (bmssp_point_binv _ _ _ _ _ Hc Hpt) as Hb.
    assert (isWall (getNode g w) = true) as Hw'.
    { destruct (bi_shape _ _ _ Hb) as (_ & _ & _ & E). by rewrite E. }
    split_and!; [done| | |done|done].
    + destruct (isVisited (getNode g w)) eqn:Hv; [|done].
      apply (bi_vis _ _ _ Hb) in Hv as (_ & ? & _). congruence.
    + intros _. by apply (bi_walls _ _ _ Hb).
Qed.

Lemma walls_during_runs_witness :
  ∃ g, isWall (getNode g (0, 1)) = true ∧ isVisited (getNode g (0, 1)) = false.
Proof.
  eexists.
  refine (let H := walls_during_runs algBmssp 10 grid_1x3_wall (0, 0) (0, 2) _ (0, 1)
                     _ _ _ in conj (proj1 H) (proj1 (proj2 H))).
  - apply makeGrid_contract; [simpl; lia..|done| |];
      intros ?%list_elem_of_singleton; simplify_eq.
  - eexists. split; [vm_compute; reflexivity|]. left.
  - vm_compute. reflexivity.
Defined.

(** ** Re-parenting *)

(** C4 as stated: between a point of a run and a later one, a node whose
    [previousNode] differs has a strictly smaller distance. *)
Definition reparent_as_stated (a : AlgorithmType) (fuel : nat) (g0 : Grid)
    (startNode finishNode : NodeRef) : Prop :=
  ∀ g g' x, run_later a fuel g0 startNode finishNode g g' →
            previousNode (getNode g' x) ≠ previousNode (getNode g x) →
            num_ltb (distance (getNode g' x)) (distance (getNode g x)) = true.

Definition grid_2x2 : Grid := makeGrid 2 2 [] (0, 0) (1, 1).

(** C4, counterexample.  In the run of [bmssp] on the wall-free 2 x 2 grid,
    [baseCase] relaxes (1,1) from (1,0) and then, with the same tentative
    distance 2, from (0,1): the test is [<=], and the node is re-parented
    while its distance stays 2. *)
Lemma reparent_counterexample :
  (∃ g g', run_later algBmssp 20 grid_2x2 (0, 0) (1, 1) g g' ∧
           previousNode (getNode g (1, 1)) = Some (1, 0) ∧
           previousNode (getNode g' (1, 1)) = Some (0, 1) ∧
           distance (getNode g (1, 1)) = Fin 2 ∧
           distance (getNode g' (1, 1)) = Fin 2) ∧
  ¬ reparent_as_stated algBmssp 20 grid_2x2 (0, 0) (1, 1).
Proof.
  assert (∃ g g', run_later algBmssp 20 grid_2x2 (0, 0) (1, 1) g g' ∧
           previousNode (getNode g (1, 1)) = Some (1, 0) ∧
           previousNode (getNode g' (1, 1)) = Some (0, 1) ∧
           distance (getNode g (1, 1)) = Fin 2 ∧
           distance (getNode g' (1, 1)) = Fin 2) as Hex.
  { do 2 eexists. split_and!.
    - eexists. exists 5, 6. split_and!; [vm_compute; reflexivity|lia|..];
        reflexivity.
    - vm_compute. reflexivity.
    - vm_compute. reflexivity.
    - vm_compute. reflexivity.
    - vm_compute. reflexivity. }
  split; [done|]. intros H.
  destruct Hex as (g & g' & Hl & Hp & Hp' & Hd & Hd').
  specialize (H g g' (1, 1) Hl). rewrite Hp, Hp', Hd, Hd' in H.
  discriminate H. congruence.
Qed.

(** C4, as amended.  On a grid meeting the contract, from a point of a run
    to a later one no recorded distance grows.  In [dijkstra], [astar] and
    [greedyBfs] a node whose [previousNode] has changed has a strictly
    smaller distance; [bidirectionalSwarm] never assigns [previousNode]; in
    [bmssp], where the three relaxation sites test [<=], a node whose
    [previousNode] has changed has a smaller or equal distance. *)
Theorem reparenting a fuel g0 startNode finishNode g g' x :
  contract g0 startNode finishNode →
  run_later a fuel g0 startNode finishNode g g' →
  num_leb (distance (getNode g' x)) (distance (getNode g x)) = true ∧
  (previousNode (getNode g' x) ≠ previousNode (getNode g x) →
   a = algBmssp ∨
   num_ltb (distance (getNode g' x)) (distance (getNode g x)) = true).
Proof.
  intros Hc Hl.
  assert (∀ a, a = algDijkstra ∨ a = algAstar ∨ a = algGreedyBfs →
               frontier_later a fuel g0 startNode finishNode g g' →
               num_leb (distance (getNode g' x)) (distance (getNode g x)) = true ∧
               (previousNode (getNode g' x) ≠ previousNode (getNode g x) →
                num_ltb (distance (getNode g' x)) (distance (getNode g x)) = true))
    as Hfront.
  { intros a' _ Hl'.
    destruct (frontier_later_step _ _ _ _ _ _ _ Hc Hl' x) as (_ & ? & ?). done. }
  destruct a; simpl in Hl.
  - destruct (Hfront algDijkstra) as [? ?]; auto.
  - destruct (Hfront algAstar) as [? ?]; auto.
  - destruct (Hfront algGreedyBfs) as [? ?]; auto.
  - apply loop_later_points in Hl as [H1 H2].
    apply swarm_only_mutates_isVisited in H1 as [H1 _].
    apply swarm_only_mutates_isVisited in H2 as [H2 _].
    rewrite (H1 x), (H2 x). simpl. split; [apply num_leb_refl|done].
  - destruct (bmssp_later_rtc _ _ _ _ _ _ Hc Hl) as [Hb Hr].
    destruct (rtc_bstep_monotone _ _ _ _ Hb Hr) as [_ Hm].
    destruct (Hm x) as (? & _). split; [done|]. by left.
Qed.

Lemma reparenting_witness :
  ∃ g g', num_leb (distance (getNode g' (1, 1))) (distance (getNode g (1, 1))) = true.
Proof.
  do 2 eexists.
  refine (proj1 (reparenting algBmssp 20 grid_2x2 (0, 0) (1, 1) _ _ (1, 1) _ _)).
  - apply makeGrid_contract; [simpl; lia..|done| |]; apply not_elem_of_nil.
  - eexists. exists 5, 6. split_and!; [vm_compute; reflexivity|lia|..]; reflexivity.
Defined.

(** ** The sort puts a minimal element first *)

Section SortMin.
Context {A : Type} (lt : A → A → bool).
Hypothesis lt_asym : ∀ a b, lt a b = true → lt b a = false.
Hypothesis le_trans :
  ∀ a b c, lt b a = false → lt c b = false → lt c a = false.

(** [a] may stand before [b]. *)
Local Abbreviation le := (λ a b, lt b a = false).

Lemma sort_insert_sorted x l :
  StronglySorted le l → StronglySorted le (sort_insert lt x l).
Proof.
  induction 1 as [|y l Hs IH Hy]; simpl; [repeat constructor|].
  destruct (lt y x) eqn:E.
  - constructor; [done|].
    rewrite Forall_forall. intros z Hz.
    rewrite sort_insert_perm in Hz.
    apply elem_of_cons in Hz as [->|Hz]; [by apply lt_asym|].
    rewrite Forall_forall in Hy. by apply Hy.
  - constructor; [by constructor|].
    constructor; [done|].
    rewrite Forall_forall in Hy |- *. intros z Hz.
    eapply le_trans; [exact E|]. by apply Hy.
Qed.

Lemma stable_sort_sorted l : StronglySorted le (stable_sort lt l).
Proof.
  induction l as [|x l IH]; simpl; [constructor|]. by apply sort_insert_sorted.
Qed.

Lemma stable_sort_head_min l c rest :
  stable_sort lt l = c :: rest → ∀ x, x ∈ rest → lt x c = false.
Proof.
  intros E x Hx. pose proof (stable_sort_sorted l) as Hs. rewrite E in Hs.
  inversion Hs as [|? ? _ Hall]; subst. rewrite Forall_forall in Hall. by apply Hall.
Qed.
End SortMin.

Lemma num_ltb_asym a b : num_ltb a b = true → num_ltb b a = false.
Proof.
  destruct a, b; unfold num_ltb; try done.
  intros ?%Nat.ltb_lt. apply Nat.ltb_ge. lia.
Qed.

Lemma num_ltb_false a b : num_ltb a b = false ↔ num_leb b a = true.
Proof.
  destruct a, b; unfold num_ltb, num_leb; try done.
  rewrite Nat.ltb_ge, Nat.leb_le. done.
Qed.

Lemma dijkstra_head_min g l c rest :
  stable_sort (dijkstra_lt g) l = c :: rest →
  ∀ x, x ∈ rest →
       num_leb (distance (getNode g c)) (distance (getNode g x)) = true.
Proof.
  intros E x Hx. apply num_ltb_false.
  eapply (stable_sort_head_min (dijkstra_lt g)); [| |exact E|exact Hx].
  - intros a b. apply num_ltb_asym.
  - intros a b d. unfold dijkstra_lt. rewrite !num_ltb_false.
    intros ? ?. by eapply num_leb_trans.
Qed.

Lemma astar_head_min g l c rest :
  stable_sort (astar_lt g) l = c :: rest →
  ∀ x, x ∈ rest →
       num_leb (totalDistance (getNode g c)) (totalDistance (getNode g x)) = true.
Proof.
  assert (∀ a b, astar_lt g b a = false →
                 num_leb (totalDistance (getNode g a)) (totalDistance (getNode g b))
                 = true) as Hle.
  { intros a b. unfold astar_lt. case_bool_decide as Ht.
    - intros _. rewrite Ht. apply num_leb_refl.
    - by rewrite num_ltb_false. }
  intros E x Hx. apply Hle.
  eapply (stable_sort_head_min (astar_lt g)); [| |exact E|exact Hx].
  - intros a b. unfold astar_lt.
    case_bool_decide as Ht.
    + rewrite bool_decide_true by done. apply num_ltb_asym.
    + rewrite bool_decide_false by done. apply num_ltb_asym.
  - intros a b d. unfold astar_lt.
    generalize (totalDistance (getNode g a)) (totalDistance (getNode g b))
               (totalDistance (getNode g d)) (heuristicDistance (getNode g a))
               (heuristicDistance (getNode g b)) (heuristicDistance (getNode g d)).
    intros ta tb td ha hb hd.
    destruct ta as [n1|], tb as [n2|], td as [n3|], ha as [n4|], hb as [n5|],
             hd as [n6|];
      unfold num_ltb; repeat case_bool_decide; rewrite ?Nat.ltb_ge;
      intros; simplify_eq; try done; try lia;
      exfalso; repeat match goal with
                      | H : Fin ?u ≠ Fin ?w |- _ =>
                          assert (u ≠ w) by congruence; clear H
                      end; lia.
Qed.

(** ** Shortest walks, and the optimality of Dijkstra and A-star *)

(** [walk g0 s k v]: [v] is reached from [s] by [k] moves between adjacent
    open cells of the grid. *)
Inductive walk (g0 : Grid) (startNode : NodeRef) : nat → NodeRef → Prop :=
| walk_start : walk g0 startNode 0 startNode
| walk_step k u v :
    walk g0 startNode k u → adjacent u v → inGrid g0 v →
    isWall (getNode g0 v) = false → walk g0 startNode (S k) v.

Lemma foldl_inv_prefix {A B} (f : A → B → A) (I : list B → A → Prop) l a :
  I [] a → (∀ pre x a, I pre a → x ∈ l → I (pre ++ [x]) (f a x)) →
  I l (foldl f a l).
Proof.
  intros H0 Hstep.
  enough (∀ pre suf a, l = pre ++ suf → I pre a → I l (foldl f a suf)) as Hgen
    by (by apply (Hgen [] l)).
  intros pre suf. revert pre. induction suf as [|x suf IH]; intros pre a' E HI; simpl.
  - by rewrite E, app_nil_r.
  - apply (IH (pre ++ [x])).
    + by rewrite <- app_assoc.
    + apply Hstep; [done|]. rewrite E. apply elem_of_app. right. by left.
Qed.

Lemma num_leb_Fin_r a d :
  num_leb a (Fin d) = true → ∃ d', a = Fin d' ∧ d' ≤ d.
Proof.
  destruct a as [d'|]; unfold num_leb; [|done].
  intros ?%Nat.leb_le. eauto.
Qed.

Section Optimal.
Context (lt : Grid → NodeRef → NodeRef → bool)
        (stopAtInfinity : bool)
        (cond : num → num → bool)
        (extra : NodeRef → num → NodeData → NodeData)
        (dedup : bool).
Context (g0 : Grid) (startNode finishNode : NodeRef).
Context (keyOf : NodeData → num) (h : NodeRef → nat).

Hypothesis cond_lt :
  ∀ nd old, cond (Fin nd) old = true → num_ltb (Fin nd) old = true.
Hypothesis cond_complete :
  ∀ nd old, cond (Fin nd) old = false → num_leb old (Fin nd) = true.
Hypothesis extra_frame :
  ∀ v nd n, isVisited (extra v nd n) = isVisited n ∧
            isWall (extra v nd n) = isWall n ∧
            distance (extra v nd n) = distance n ∧
            previousNode (extra v nd n) = previousNode n.
Hypothesis g0_contract : contract g0 startNode finishNode.
Hypothesis h_consistent : ∀ u v, adjacent u v → h u ≤ h v + 1.
Hypothesis head_min :
  ∀ g l c rest, stable_sort (lt g) l = c :: rest →
                ∀ x, x ∈ rest →
                     num_leb (keyOf (getNode g c)) (keyOf (getNode g x)) = true.
Hypothesis key_relax :
  ∀ u v nd n,
    keyOf (set_previousNode u (extra v (Fin nd) (set_distance (Fin nd) n))) =
    Fin (nd + h v).
Hypothesis key_visited : ∀ b n, keyOf (set_isVisited b n) = keyOf n.

Local Abbreviation relax := (Frontier.relax cond extra dedup).
Local Abbreviation body := (Frontier.body lt stopAtInfinity cond extra dedup).
Local Abbreviation finv := (finv g0 startNode).
Local Abbreviation walk := (walk g0 startNode).

(** The invariant of optimality.  [E u v] marks the edges out of closed
    nodes that have been relaxed so far. *)
Record oinv (E : NodeRef → NodeRef → Prop) (g : Grid)
    (openSet visited : list NodeRef) : Prop := mkOinv {
  oi_f : finv g openSet visited;
  oi_opt : ∀ v, v ∈ visited → ∀ k, walk k v → dist_of g v ≤ k;
  oi_real : ∀ v, v ∈ visited → walk (dist_of g v) v;
  oi_exp : ∀ u v, u ∈ visited → E u v → adjacent u v → inGrid g0 v →
                  isWall (getNode g0 v) = false →
                  reached g v ∧ dist_of g v ≤ dist_of g u + 1;
  oi_cover : ∀ v, inGrid g0 v → isWall (getNode g0 v) = false → reached g v →
                  v ∈ visited ∨ v ∈ openSet;
  oi_key : ∀ x, x ∈ openSet → keyOf (getNode g x) = Fin (dist_of g x + h x);
}.

Definition all_edges : NodeRef → NodeRef → Prop := λ _ _, True.

(** Every walk ends in a closed node, or passes a node of the open set
    that is at least as promising. *)
Lemma walk_frontier g openSet visited k v :
  oinv all_edges g openSet visited → walk k v →
  (v ∈ visited ∧ dist_of g v ≤ k) ∨
  (∃ w, w ∈ openSet ∧ dist_of g w + h w ≤ k + h v).
Proof.
  intros H. induction 1 as [|k u v Hw IH Hadj Hin Hwall].
  - assert (dist_of g startNode = 0) as Hd0.
    { unfold dist_of. by rewrite (proj1 (fi_start _ _ _ _ _ (oi_f _ _ _ _ H))). }
    destruct (oi_cover _ _ _ _ H startNode) as [Hv|Ho].
    + apply g0_contract.
    + apply g0_contract.
    + exists 0. apply (fi_start _ _ _ _ _ (oi_f _ _ _ _ H)).
    + left. split; [done|lia].
    + right. exists startNode. split; [done|lia].
  - destruct IH as [[Hu Hle]|(w & Hw1 & Hw2)].
    + destruct (oi_exp _ _ _ _ H u v Hu I Hadj Hin Hwall) as [Hre Hdv].
      destruct (oi_cover _ _ _ _ H v Hin Hwall Hre) as [Hv|Ho].
      * left. split; [done|lia].
      * right. exists v. split; [done|lia].
    + right. exists w. split; [done|].
      pose proof (h_consistent _ _ Hadj). lia.
Qed.

(** The node popped first is at its shortest distance. *)
Lemma pop_optimal g openSet visited c rest k :
  oinv all_edges g openSet visited →
  stable_sort (lt g) openSet = c :: rest → c ∉ visited →
  walk k c → dist_of g c ≤ k.
Proof.
  intros H Hsort Hc Hw.
  destruct (walk_frontier _ _ _ _ _ H Hw) as [[? _]|(w & Hw1 & Hw2)]; [done|].
  pose proof (stable_sort_cons_elem _ _ _ _ Hsort) as (Hco & _ & _).
  assert (num_leb (keyOf (getNode g c)) (keyOf (getNode g w)) = true) as Hle.
  { pose proof (stable_sort_perm (lt g) openSet) as Hp. rewrite Hsort in Hp.
    rewrite <- Hp in Hw1. apply elem_of_cons in Hw1 as [->|Hw1].
    - apply num_leb_refl.
    - by eapply head_min. }
  rewrite (oi_key _ _ _ _ H c Hco), (oi_key _ _ _ _ H w Hw1) in Hle.
  apply num_leb_le in Hle. lia.
Qed.

Lemma oinv_weaken (E E' : NodeRef → NodeRef → Prop) g openSet visited :
  (∀ u v, u ∈ visited → adjacent u v → inGrid g0 v →
          isWall (getNode g0 v) = false → E' u v → E u v) →
  oinv E g openSet visited → oinv E' g openSet visited.
Proof. intros HE []. constructor; eauto. Qed.

Lemma oinv_open_sub E g openSet openSet' visited :
  oinv E g openSet visited →
  (∀ x, x ∈ openSet' → x ∈ openSet) →
  (∀ x, x ∈ openSet → x ∈ openSet' ∨ x ∈ visited ∨ isWall (getNode g0 x) = true) →
  oinv E g openSet' visited.
Proof.
  intros [] Hsub Hsup. constructor; auto.
  - by eapply finv_open_sub.
  - intros v Hin Hw Hre. destruct (oi_cover0 v Hin Hw Hre) as [?|Ho]; [by left|].
    destruct (Hsup v Ho) as [?|[?|?]]; [by right|by left|congruence].
Qed.

Lemma oinv_close g openSet visited c rest :
  oinv all_edges g openSet visited →
  stable_sort (lt g) openSet = c :: rest →
  isWall (getNode g c) = false → isVisited (getNode g c) = false →
  oinv (λ u v, u ≠ c ∨ v ∈ visited ++ [c])
       (updNode g c (set_isVisited true)) rest (visited ++ [c]).
Proof.
  intros H Hsort Hw Hv.
  pose proof (stable_sort_cons_elem _ _ _ _ Hsort) as (Hco & Hrest & _).
  pose proof (oi_f _ _ _ _ H) as Hf.
  destruct (fi_open _ _ _ _ _ Hf c Hco) as [Hin Hre].
  assert (c ∉ visited) as Hcv by (intros ?%(fi_vis _ _ _ _ _ Hf); congruence).
  assert (isWall (getNode g0 c) = false) as Hw0
    by (by rewrite <- (fi_wall _ _ _ _ _ Hf)).
  set (g1 := updNode g c (set_isVisited true)).
  assert (∀ x, distance (getNode g1 x) = distance (getNode g x) ∧
               keyOf (getNode g1 x) = keyOf (getNode g x)) as Hsame.
  { intros x. unfold g1.
    destruct (getNode_updNode_cases g c x (set_isVisited true)) as [->|[-> ->]];
      [done|]. by rewrite key_visited. }
  assert (∀ x, dist_of g1 x = dist_of g x) as Hd
    by (intros x; unfold dist_of; by rewrite (proj1 (Hsame x))).
  assert (∀ x, reached g1 x ↔ reached g x) as Hr
    by (intros x; unfold reached; by rewrite (proj1 (Hsame x))).
  assert (∀ k, walk k c → dist_of g c ≤ k) as Hopt
    by (intros k; by eapply pop_optimal).
  assert (walk (dist_of g c) c) as Hreal.
  { destruct (fi_root _ _ _ _ _ Hf c Hre) as [->|[u Hu]].
    - unfold dist_of. rewrite (proj1 (fi_start _ _ _ _ _ Hf)). constructor.
    - destruct (fi_chain _ _ _ _ _ Hf _ _ Hu) as (Huv & Hadj & _ & d & Hdu & Hdc).
      apply (fi_vis _ _ _ _ _ Hf) in Huv.
      pose proof (oi_real _ _ _ _ H u Huv) as Hwu.
      unfold dist_of in *. rewrite Hdu in Hwu. rewrite Hdc.
      replace (d + 1) with (S d) by lia. by econstructor. }
  constructor.
  - apply (finv_close lt); [|done..]. by eapply finv_open_sub.
  - intros v [Hv'| ->%list_elem_of_singleton]%elem_of_app k Hk; rewrite Hd.
    + by apply (oi_opt _ _ _ _ H).
    + by apply Hopt.
  - intros v [Hv'| ->%list_elem_of_singleton]%elem_of_app; rewrite Hd.
    + by apply (oi_real _ _ _ _ H).
    + done.
  - intros u v Hu HE Hadj Hinv Hwv. rewrite Hr, !Hd.
    apply elem_of_app in Hu as [Hu| ->%list_elem_of_singleton].
    + by apply (oi_exp _ _ _ _ H u v Hu I).
    + destruct HE as [?|Hvv]; [done|].
      apply elem_of_app in Hvv as [Hvv| ->%list_elem_of_singleton];
        [|by apply adjacent_ne in Hadj].
      destruct (fi_vis_good _ _ _ _ _ Hf v Hvv) as (_ & _ & Hrev).
      split; [done|].
      replace (dist_of g c + 1) with (S (dist_of g c)) by lia.
      apply (oi_opt _ _ _ _ H v Hvv). by econstructor.
  - intros v Hinv Hwv Hrev. apply Hr in Hrev.
    destruct (oi_cover _ _ _ _ H v Hinv Hwv Hrev) as [?|Ho].
    + left. apply elem_of_app. by left.
    + pose proof (stable_sort_perm (lt g) openSet) as Hp. rewrite Hsort in Hp.
      rewrite <- Hp in Ho. apply elem_of_cons in Ho as [->|?]; [|by right].
      left. apply elem_of_app. right. by left.
  - intros x Hx. rewrite (proj2 (Hsame x)), Hd.
    apply (oi_key _ _ _ _ H). by apply Hrest.
Qed.

Lemma oinv_relax g openSet visited c done v :
  oinv (λ u v', u ≠ c ∨ v' ∈ visited ∨ v' ∈ done) g openSet visited →
  c ∈ visited → adjacent c v → inGrid g0 v → isVisited (getNode g v) = false →
  oinv (λ u v', u ≠ c ∨ v' ∈ visited ∨ v' ∈ done ++ [v])
       (relax c (g, openSet) v).1 (relax c (g, openSet) v).2 visited ∧
  ∀ x, isVisited (getNode (relax c (g, openSet) v).1 x) = isVisited (getNode g x).
Proof.
  intros H Hc Hadj Hin Hv.
  pose proof (oi_f _ _ _ _ H) as Hf.
  destruct (fi_vis_good _ _ _ _ _ Hf c Hc) as (Hinc & Hwc & dc & Hdc).
  destruct (finv_relax cond extra dedup g0 startNode
              cond_lt extra_frame g openSet visited c dc v Hf Hc Hdc Hadj Hin Hv)
    as (Hf' & Hflags & Hdc').
  pose proof (relax_monotone cond extra dedup cond_lt extra_frame
                g openSet c dc v Hdc Hv) as Hmono.
  split; [|done].
  assert (v ∉ visited) as Hvv by (intros ?%(fi_vis _ _ _ _ _ Hf); congruence).
  (* what the relaxation did *)
  assert ((∀ x, x ≠ v → getNode (relax c (g, openSet) v).1 x = getNode g x) ∧
          (∀ x, x ∈ openSet → x ∈ (relax c (g, openSet) v).2) ∧
          ((relax c (g, openSet) v = (g, openSet) ∧
            num_leb (distance (getNode g v)) (Fin (dc + 1)) = true) ∨
           (v ∈ (relax c (g, openSet) v).2 ∧
            (∀ x, x ∈ (relax c (g, openSet) v).2 → x ∈ openSet ∨ x = v) ∧
            distance (getNode (relax c (g, openSet) v).1 v) = Fin (dc + 1) ∧
            keyOf (getNode (relax c (g, openSet) v).1 v) = Fin (dc + 1 + h v))))
    as (Hne & Hsub & Hcases).
  { unfold Frontier.relax. rewrite Hdc.
    change (num_add (Fin dc) (Fin 1)) with (Fin (dc + 1)).
    destruct (cond _ _) eqn:Hcond; simpl.
    - split_and!.
      + intros x Hx. by apply getNode_updNode_ne.
      + intros x Hx. destruct (dedup && includes v openSet); [done|].
        apply elem_of_app. by left.
      + right.
        rewrite getNode_updNode_eq;
          [|apply Hf|by eapply (finv_inGrid g0 startNode)].
        split_and!.
        * destruct (dedup && includes v openSet) eqn:Hd.
          -- apply andb_true_iff in Hd as [_ Hd]. by apply bool_decide_eq_true in Hd.
          -- apply elem_of_app. right. by left.
        * intros x Hx. destruct (dedup && includes v openSet); [by left|].
          apply elem_of_app in Hx as [?| ->%list_elem_of_singleton]; auto.
        * destruct (extra_frame v (Fin (dc + 1))
                      (set_distance (Fin (dc + 1)) (getNode g v)))
            as (_ & _ & E3 & _). simpl. by rewrite E3.
        * apply key_relax.
    - split_and!; [done|done|]. left. split; [done|]. by apply cond_complete. }
  assert (∀ x, reached g x → reached (relax c (g, openSet) v).1 x ∧
               dist_of (relax c (g, openSet) v).1 x ≤ dist_of g x) as Hdle.
  { intros x [d Hd]. destruct (Hmono x) as (_ & Hle & _).
    rewrite Hd in Hle. apply num_leb_Fin_r in Hle as (d' & Hd' & ?).
    split; [by exists d'|]. unfold dist_of. by rewrite Hd', Hd. }
  assert (∀ x, x ∈ visited →
               getNode (relax c (g, openSet) v).1 x = getNode g x) as Hvis_same.
  { intros x Hx. apply Hne. intros ->. done. }
  assert (∀ x, x ∈ visited →
               dist_of (relax c (g, openSet) v).1 x = dist_of g x) as Hvis_d
    by (intros x Hx; unfold dist_of; by rewrite Hvis_same).
  constructor.
  - done.
  - intros x Hx k Hk. rewrite Hvis_d by done. by apply (oi_opt _ _ _ _ H).
  - intros x Hx. rewrite Hvis_d by done. by apply (oi_real _ _ _ _ H).
  - intros u v' Hu HE Hadj' Hin' Hw'. rewrite (Hvis_d u Hu).
    assert (u ≠ c ∨ v' ∈ visited ∨ v' ∈ done ∨ (u = c ∧ v' = v)) as HE'.
    { destruct HE as [?|[?|Hd]]; [auto..|].
      apply elem_of_app in Hd as [?| ->%list_elem_of_singleton]; [auto|].
      destruct (decide (u = c)); auto. }
    destruct HE' as [?|[?|[?|[-> ->]]]].
    1-3: destruct (oi_exp _ _ _ _ H u v' Hu) as [Hre Hle]; [auto..|];
         destruct (Hdle v' Hre); split; [done|lia].
    unfold dist_of at 2. rewrite Hdc.
    destruct Hcases as [[E Hle]|(_ & _ & Hd & _)].
    + rewrite E. simpl. apply num_leb_Fin_r in Hle as (d' & Hd' & ?).
      split; [by exists d'|]. unfold dist_of. by rewrite Hd'.
    + split; [by eexists|]. unfold dist_of. by rewrite Hd.
  - intros x Hinx Hwx Hrex.
    destruct (decide (x = v)) as [->|Hxv].
    + destruct Hcases as [[E _]|(Hvo & _)]; [|by right].
      rewrite E in Hrex |- *. simpl in *. by apply (oi_cover _ _ _ _ H).
    + assert (reached g x) as Hrex'.
      { destruct Hrex as [d Hd]. rewrite Hne in Hd by done. by exists d. }
      destruct (oi_cover _ _ _ _ H x Hinx Hwx Hrex'); [by left|right; auto].
  - intros x Hx. destruct (decide (x = v)) as [->|Hxv].
    + destruct Hcases as [[E _]|(_ & _ & Hd & Hk)].
      * rewrite E in Hx |- *. simpl in *. by apply (oi_key _ _ _ _ H).
      * rewrite Hk. unfold dist_of. by rewrite Hd.
    + unfold dist_of. rewrite Hne by done. apply (oi_key _ _ _ _ H).
      destruct Hcases as [[E _]|(_ & Hsup & _)].
      * by rewrite E in Hx.
      * destruct (Hsup x Hx); [done|congruence].
Qed.

Lemma oinv_expand g openSet visited c :
  oinv (λ u v, u ≠ c ∨ v ∈ visited ++ [c]) g openSet (visited ++ [c]) →
  oinv all_edges
       (foldl (relax c) (g, openSet) (Frontier.unvisitedNeighbors c g)).1
       (foldl (relax c) (g, openSet) (Frontier.unvisitedNeighbors c g)).2
       (visited ++ [c]).
Proof.
  intros H. pose proof (oi_f _ _ _ _ H) as Hf.
  assert (c ∈ visited ++ [c]) as Hc by (apply elem_of_app; right; by left).
  destruct (fi_vis_good _ _ _ _ _ Hf c Hc) as (Hin & _ & _).
  assert (inGrid g c) as Hing by (by eapply (finv_inGrid g0 startNode)).
  set (N := Frontier.unvisitedNeighbors c g).
  set (I := λ (done : list NodeRef) (acc : Grid * list NodeRef),
         oinv (λ u v', u ≠ c ∨ v' ∈ visited ++ [c] ∨ v' ∈ done)
              acc.1 acc.2 (visited ++ [c]) ∧
         ∀ x, isVisited (getNode acc.1 x) = isVisited (getNode g x)).
  assert (I N (foldl (relax c) (g, openSet) N)) as [HI _].
  { apply (foldl_inv_prefix (relax c) I).
    - split; [|done]. eapply oinv_weaken; [|done].
      intros u v _ _ _ _ [?|[?|[]%elem_of_nil]]; auto.
    - intros pre x [g' open'] [HI Hfl] Hx. simpl in *.
      apply list_elem_of_filter in Hx as [Hxv Hxn].
      apply gridNeighbors_spec in Hxn as [Hadj Hinx]; [|done].
      assert (inGrid g0 x) as Hinx0.
      { unfold inGrid in *.
        by rewrite <- (fi_rows _ _ _ _ _ Hf), <- (fi_cols _ _ _ _ _ Hf). }
      destruct (oinv_relax g' open' (visited ++ [c]) c pre x HI Hc Hadj Hinx0)
        as [H1 H2]; [by rewrite Hfl|].
      split; [done|]. intros y. by rewrite H2. }
  eapply oinv_weaken; [|done].
  intros u v Hu Hadj Hinv Hwv _.
  destruct (decide (u = c)) as [->|]; [|by left]. right.
  destruct (isVisited (getNode g v)) eqn:Hv.
  - left. by apply (fi_vis _ _ _ _ _ Hf).
  - right. apply list_elem_of_filter. split; [done|].
    apply gridNeighbors_spec; [done|]. split; [done|].
    unfold inGrid in *.
    by rewrite (fi_rows _ _ _ _ _ Hf), (fi_cols _ _ _ _ _ Hf).
Qed.
End Optimal.

(** ** Termination of the single-frontier loop *)

Definition cells (g0 : Grid) : list NodeRef :=
  list_prod (seq 0 (rows g0)) (seq 0 (cols g0)).

Lemma elem_of_cells g0 x : x ∈ cells g0 ↔ inGrid g0 x.
Proof.
  unfold cells, inGrid. destruct x as [r c].
  rewrite list_elem_of_In, in_prod_iff, !in_seq. simpl. lia.
Qed.

Lemma NoDup_list_prod {A B} (l : list A) (k : list B) :
  NoDup l → NoDup k → NoDup (list_prod l k).
Proof.
  intros Hl Hk. induction Hl as [|x l Hx Hl IH]; simpl; [constructor|].
  apply NoDup_app. split_and!; [|intros [a b] Hab Hab'|done].
  - by apply (NoDup_fmap_2 (pair x)).
  - apply list_elem_of_fmap in Hab as (b' & [= -> ->] & _).
    apply list_elem_of_In, in_prod_iff in Hab' as [Ha%list_elem_of_In _]. done.
Qed.

Lemma NoDup_cells g0 : NoDup (cells g0).
Proof. unfold cells. apply NoDup_list_prod; apply NoDup_seq. Qed.

(** A distance counts for itself; [Infinity] for the number of cells. *)
Definition weight (M : nat) (d : num) : nat :=
  match d with Fin n => n | Infinity => M end.

Definition potential (g0 g : Grid) : nat :=
  sum_list_with (λ x, weight (rows g0 * cols g0) (distance (getNode g x))) (cells g0).

(** What the loop has left to do: it pops one node at every iteration, and
    pushes one only when a distance drops. *)
Definition loop_measure (g0 : Grid) (s : Loop) : nat :=
  length (lopen s) + 2 * potential g0 (lgrid s).

Lemma sum_list_with_update `{EqDecision A} (F F' : A → nat) (l : list A) (v : A) :
  NoDup l → v ∈ l → (∀ x, x ≠ v → F' x = F x) →
  sum_list_with F' l + F v = sum_list_with F l + F' v.
Proof.
  intros Hnd Hv Hsame. induction l as [|y l IH]; [by apply elem_of_nil in Hv|].
  apply NoDup_cons in Hnd as [Hy Hnd]. simpl.
  destruct (decide (y = v)) as [->|Hyv].
  - assert (sum_list_with F' l = sum_list_with F l) as ->; [|lia].
    clear IH Hv. induction l as [|z l IH]; [done|]. simpl.
    apply not_elem_of_cons in Hy as [Hzv Hy]. apply NoDup_cons in Hnd as [_ Hnd].
    rewrite Hsame by done. by rewrite IH.
  - apply elem_of_cons in Hv as [->|Hv]; [done|].
    rewrite Hsame by done. specialize (IH Hnd Hv). lia.
Qed.

Lemma potential_same g0 g g' :
  (∀ x, distance (getNode g' x) = distance (getNode g x)) →
  potential g0 g' = potential g0 g.
Proof.
  intros H. unfold potential. induction (cells g0) as [|y l IH]; [done|].
  simpl. by rewrite H, IH.
Qed.

Lemma potential_bound g0 g :
  potential g0 g ≤
  length (cells g0) * Nat.max (rows g0 * cols g0)
                              (max_list_with (dist_of g) (cells g0)).
Proof.
  unfold potential. induction (cells g0) as [|y l IH]; simpl; [lia|].
  unfold weight at 1, dist_of at 1. destruct (distance (getNode g y)); nia.
Qed.

Section FrontierTermination.
Context (lt : Grid → NodeRef → NodeRef → bool)
        (stopAtInfinity : bool)
        (cond : num → num → bool)
        (extra : NodeRef → num → NodeData → NodeData)
        (dedup : bool).
Context (g0 : Grid) (startNode finishNode : NodeRef).
Hypothesis cond_lt :
  ∀ nd old, cond (Fin nd) old = true → num_ltb (Fin nd) old = true.
Hypothesis extra_frame :
  ∀ v nd n, isVisited (extra v nd n) = isVisited n ∧
            isWall (extra v nd n) = isWall n ∧
            distance (extra v nd n) = distance n ∧
            previousNode (extra v nd n) = previousNode n.
Hypothesis g0_contract : contract g0 startNode finishNode.

Local Abbreviation relax := (Frontier.relax cond extra dedup).
Local Abbreviation body := (Frontier.body lt stopAtInfinity cond extra dedup).
Local Abbreviation Inv := (finv g0 startNode).

(** In this loop a chain has one node per unit of distance. *)
Lemma finv_chain_length g openSet visited v p :
  Inv g openSet visited → chain_to g v p → reached g v →
  length p = dist_of g v + 1.
Proof.
  intros H. induction 1 as [r Hr|u v p Hc IH Hp]; intros Hre.
  - destruct (fi_root _ _ _ _ _ H r Hre) as [->|[? ?]]; [|congruence].
    unfold dist_of. by rewrite (proj1 (fi_start _ _ _ _ _ H)).
  - destruct (fi_chain _ _ _ _ _ H _ _ Hp) as (_ & _ & _ & d & Hdu & Hdv).
    rewrite length_app, IH by (by exists d). simpl.
    unfold dist_of. rewrite Hdu, Hdv. lia.
Qed.

Lemma finv_distance_bound g openSet visited v :
  Inv g openSet visited → reached g v → dist_of g v + 1 ≤ rows g0 * cols g0.
Proof.
  intros H Hre.
  pose proof (finv_chained g0 startNode finishNode g0_contract
                g openSet visited H) as Hch.
  destruct (chained_chain _ _ _ _ Hch Hre) as [p Hp].
  destruct (chain_to_props _ _ _ _ _ Hch Hp Hre) as (_ & _ & Hall & Hnd & _).
  rewrite <- (finv_chain_length _ _ _ _ _ H Hp Hre).
  by apply inGrid_NoDup_length.
Qed.

Lemma relax_measure g openSet visited c dc v :
  Inv g openSet visited →
  c ∈ visited → distance (getNode g c) = Fin dc →
  adjacent c v → inGrid g0 v → isVisited (getNode g v) = false →
  length (relax c (g, openSet) v).2 + 2 * potential g0 (relax c (g, openSet) v).1
  ≤ length openSet + 2 * potential g0 g.
Proof.
  intros H Hc Hdc Hadj Hin Hv.
  destruct (finv_relax cond extra dedup g0 startNode cond_lt extra_frame
              g openSet visited c dc v H Hc Hdc Hadj Hin Hv) as (H' & _ & _).
  revert H'. unfold Frontier.relax. rewrite Hdc.
  change (num_add (Fin dc) (Fin 1)) with (Fin (dc + 1)).
  destruct (cond _ _) eqn:Hcond; simpl; [|done]. intros H'.
  apply cond_lt in Hcond.
  match type of H' with
  | finv _ _ (updNode g v ?f) _ _ => set (upd := f) in *
  end.
  set (g' := updNode g v upd) in *.
  assert (getNode g' v = upd (getNode g v)) as Heq
    by (apply getNode_updNode_eq; [apply H | by eapply (finv_inGrid g0 startNode)]).
  assert (distance (getNode g' v) = Fin (dc + 1)) as Hd'.
  { rewrite Heq. unfold upd.
    destruct (extra_frame v (Fin (dc + 1))
                (set_distance (Fin (dc + 1)) (getNode g v))) as (_ & _ & E3 & _).
    simpl. by rewrite E3. }
  assert (dc + 1 + 1 ≤ rows g0 * cols g0) as Hbound.
  { pose proof (finv_distance_bound g' _ _ v H') as Hb.
    unfold dist_of in Hb. rewrite Hd' in Hb. apply Hb. by eexists. }
  pose proof (sum_list_with_update
                (λ x, weight (rows g0 * cols g0) (distance (getNode g x)))
                (λ x, weight (rows g0 * cols g0) (distance (getNode g' x)))
                (cells g0) v (NoDup_cells g0)) as Hsum.
  cbv beta in Hsum. rewrite Hd' in Hsum. simpl in Hsum. fold (potential g0 g) in Hsum.
  fold (potential g0 g') in Hsum.
  assert (dc + 1 < weight (rows g0 * cols g0) (distance (getNode g v))) as Hlt.
  { destruct (distance (getNode g v)) as [o|]; simpl; [|lia].
    apply num_ltb_lt in Hcond. lia. }
  assert (length (if dedup && includes v openSet then openSet else openSet ++ [v])
          ≤ length openSet + 1) as Hlen.
  { destruct (dedup && includes v openSet); [lia|]. rewrite length_app. simpl. lia. }
  assert (∀ x, x ≠ v →
            weight (rows g0 * cols g0) (distance (getNode g' x)) =
            weight (rows g0 * cols g0) (distance (getNode g x))) as Hne.
  { intros x Hx. unfold g'. by rewrite getNode_updNode_ne. }
  specialize (Hsum (proj2 (elem_of_cells g0 v) Hin) Hne).
  lia.
Qed.

Lemma expand_measure g openSet visited c :
  Inv g openSet (visited ++ [c]) →
  length (foldl (relax c) (g, openSet) (Frontier.unvisitedNeighbors c g)).2 +
  2 * potential g0 (foldl (relax c) (g, openSet) (Frontier.unvisitedNeighbors c g)).1
  ≤ length openSet + 2 * potential g0 g.
Proof.
  intros H.
  assert (c ∈ visited ++ [c]) as Hc by (apply elem_of_app; right; by left).
  destruct (fi_vis_good _ _ _ _ _ H c Hc) as (Hin & Hw & dc & Hdc).
  set (J := λ acc : Grid * list NodeRef,
         Inv acc.1 acc.2 (visited ++ [c]) ∧
         (∀ x, isVisited (getNode acc.1 x) = isVisited (getNode g x)) ∧
         distance (getNode acc.1 c) = Fin dc ∧
         length acc.2 + 2 * potential g0 acc.1 ≤ length openSet + 2 * potential g0 g).
  enough (J (foldl (relax c) (g, openSet) (Frontier.unvisitedNeighbors c g)))
    as (_ & _ & _ & ?) by done.
  apply (foldl_inv (relax c) J); [split_and!; done|].
  intros [g' open'] v Hv (HJ & Hvis & Hd & Hm). cbn [fst snd] in *.
  apply list_elem_of_filter in Hv as [Hv Hnb].
  apply gridNeighbors_spec in Hnb as [Hadj Hin'];
    [|by eapply (finv_inGrid g0 startNode)].
  assert (inGrid g0 v) as Hin0.
  { unfold inGrid in *.
    by rewrite <- (fi_rows _ _ _ _ _ H), <- (fi_cols _ _ _ _ _ H). }
  assert (isVisited (getNode g' v) = false) as Hv' by (by rewrite Hvis).
  destruct (finv_relax cond extra dedup g0 startNode cond_lt extra_frame
              g' open' (visited ++ [c]) c dc v HJ Hc Hd Hadj Hin0 Hv')
    as (H1 & H2 & H3).
  pose proof (relax_measure g' open' (visited ++ [c]) c dc v HJ Hc Hd Hadj Hin0 Hv')
    as H4.
  unfold J. split_and!; [done| |done|lia].
  intros x. by rewrite H2.
Qed.

(** Every iteration that goes round again lowers the measure. *)
Lemma body_measure s fuel s' :
  finv_loop g0 startNode s → body finishNode fuel s = Next s' →
  loop_measure g0 s' < loop_measure g0 s.
Proof.
  intros H. unfold finv_loop in H. unfold Frontier.body, loop_measure.
  destruct (stable_sort _ _) as [|c rest] eqn:Hsort; [done|].
  apply stable_sort_cons_elem in Hsort as (Hc & Hrest & Hlen).
  destruct (isWall (getNode (lgrid s) c)) eqn:Hw; [intros [= <-]; simpl; lia|].
  destruct (stopAtInfinity && is_infinity _); [done|].
  destruct (isVisited (getNode (lgrid s) c)) eqn:Hv; [intros [= <-]; simpl; lia|].
  case_bool_decide; [done|].
  destruct (fi_open _ _ _ _ _ H c Hc) as [Hin Hre].
  assert (Inv (lgrid s) rest (lvisited s)) as Hr by (by eapply finv_open_sub).
  pose proof (finv_close lt g0 startNode _ _ _ c Hr Hin Hre Hw Hv) as H1.
  pose proof (expand_measure _ _ _ c H1) as Hm.
  destruct (foldl _ _ _) as [g2 open2]. intros [= <-]. simpl in *.
  rewrite (potential_same g0 (lgrid s)
             (updNode (lgrid s) c (set_isVisited true))) in Hm; [lia|].
  intros x.
  by destruct (getNode_updNode_cases (lgrid s) c x (set_isVisited true))
    as [->|[-> ->]].
Qed.
End FrontierTermination.

Lemma stable_sort_nil {A} (lt : A → A → bool) l : stable_sort lt l = [] → l = [].
Proof.
  intros E. pose proof (stable_sort_perm lt l) as Hp. rewrite E in Hp.
  by apply Permutation_nil_l in Hp.
Qed.

Lemma stable_sort_cons_inv {A} (lt : A → A → bool) l c rest x :
  stable_sort lt l = c :: rest → x ∈ l → x = c ∨ x ∈ rest.
Proof.
  intros E Hx. rewrite <- (stable_sort_perm lt l), E in Hx.
  by apply elem_of_cons in Hx.
Qed.

(** [d] is the length of a shortest walk from the start to the finish. *)
Definition shortest (g0 : Grid) (startNode finishNode : NodeRef) (d : nat) : Prop :=
  walk g0 startNode d finishNode ∧ ∀ k, walk g0 startNode k finishNode → d ≤ k.

(** What a search that finds shortest paths returns: the empty path when no
    walk reaches the finish, and otherwise a path with one node more than
    the shortest walk has steps. *)
Definition shortest_outcome (g0 : Grid) (startNode finishNode : NodeRef)
    (path : list NodeRef) : Prop :=
  (path = [] ∧ ∀ k, ¬ walk g0 startNode k finishNode) ∨
  (∃ d, length path = d + 1 ∧ shortest g0 startNode finishNode d).

Lemma shortest_outcome_length g0 s f p q :
  shortest_outcome g0 s f p → shortest_outcome g0 s f q → length p = length q.
Proof.
  intros [[-> Hp]|(d & Hd & Hw & Hmin)] [[-> Hq]|(e & He & Hw' & Hmin')]; try done.
  - by destruct (Hp _ Hw').
  - by destruct (Hq _ Hw).
  - pose proof (Hmin _ Hw'). pose proof (Hmin' _ Hw). lia.
Qed.

(** Fuel that is enough for the loop and for the walk back along the
    predecessor links. *)
Definition search_fuel (g0 : Grid) : nat :=
  2 * (rows g0 * cols g0) * (rows g0 * cols g0) + 2.

Section FrontierOptimal.
Context (lt : Grid → NodeRef → NodeRef → bool)
        (stopAtInfinity : bool)
        (cond : num → num → bool)
        (extra : NodeRef → num → NodeData → NodeData)
        (dedup : bool).
Context (g0 : Grid) (startNode finishNode : NodeRef).
Context (keyOf : NodeData → num) (h : NodeRef → nat).
Hypothesis cond_lt :
  ∀ nd old, cond (Fin nd) old = true → num_ltb (Fin nd) old = true.
Hypothesis cond_complete :
  ∀ nd old, cond (Fin nd) old = false → num_leb old (Fin nd) = true.
Hypothesis extra_frame :
  ∀ v nd n, isVisited (extra v nd n) = isVisited n ∧
            isWall (extra v nd n) = isWall n ∧
            distance (extra v nd n) = distance n ∧
            previousNode (extra v nd n) = previousNode n.
Hypothesis g0_contract : contract g0 startNode finishNode.
Hypothesis h_consistent : ∀ u v, adjacent u v → h u ≤ h v + 1.
Hypothesis head_min :
  ∀ g l c rest, stable_sort (lt g) l = c :: rest →
    ∀ x, x ∈ rest → num_leb (keyOf (getNode g c)) (keyOf (getNode g x)) = true.
Hypothesis key_relax :
  ∀ u v nd n,
    keyOf (set_previousNode u (extra v (Fin nd) (set_distance (Fin nd) n))) =
    Fin (nd + h v).
Hypothesis key_visited : ∀ b n, keyOf (set_isVisited b n) = keyOf n.

Local Abbreviation body := (Frontier.body lt stopAtInfinity cond extra dedup).
Local Abbreviation Opt := (oinv g0 startNode keyOf h all_edges).

Definition oloop (s : Loop) : Prop :=
  Opt (lgrid s) (lopen s) (lvisited s) ∧ finishNode ∉ lvisited s.

Definition outcome (p : option (list NodeRef)) : Prop :=
  ∃ path, p = Some path ∧ shortest_outcome g0 startNode finishNode path.

Lemma oinv_init (f : NodeData → NodeData) :
  (∀ n, distance (f n) = Fin 0 ∧ isVisited (f n) = isVisited n ∧
        isWall (f n) = isWall n ∧ previousNode (f n) = previousNode n) →
  (∀ n, keyOf (f n) = Fin (h startNode)) →
  oloop (mkLoop (updNode g0 startNode f) [startNode] []).
Proof.
  intros Hf Hk.
  pose proof (finv_init g0 startNode finishNode g0_contract f Hf) as Hinv.
  assert (getNode (updNode g0 startNode f) startNode = f (getNode g0 startNode))
    as Hs by (apply getNode_updNode_eq; apply g0_contract).
  split; [|apply not_elem_of_nil]. simpl. split; try done.
  - by intros v ?%elem_of_nil.
  - by intros v ?%elem_of_nil.
  - by intros u v ?%elem_of_nil.
  - intros v _ _ [d Hd]. right. apply list_elem_of_singleton.
    destruct (decide (v = startNode)) as [|Hne]; [done|].
    rewrite getNode_updNode_ne in Hd by done.
    destruct (c_reset _ _ _ g0_contract v) as [E _]. congruence.
  - intros x ->%list_elem_of_singleton. rewrite Hs, Hk. unfold dist_of.
    rewrite Hs. by destruct (Hf (getNode g0 startNode)) as [-> _].
Qed.

Lemma oloop_body s fuel :
  oloop s → rows g0 * cols g0 ≤ fuel →
  match body finishNode fuel s with
  | Next s' => oloop s' ∧ loop_measure g0 s' < loop_measure g0 s
  | Done g' v p => outcome p
  end.
Proof.
  intros [Ho Hfin] Hfuel.
  pose proof (oi_f _ _ _ _ _ _ _ _ Ho) as Hf.
  pose proof (body_measure lt stopAtInfinity cond extra dedup g0 startNode
                finishNode cond_lt extra_frame g0_contract s fuel) as Hmeasure.
  unfold oloop. unfold Frontier.body in *.
  destruct (stable_sort _ _) as [|c rest] eqn:Hsort.
  { apply stable_sort_nil in Hsort. exists []. split; [done|]. left.
    split; [done|]. intros k Hw.
    destruct (walk_frontier g0 startNode finishNode keyOf h g0_contract
                h_consistent _ _ _ k finishNode Ho Hw) as [[? _]|(w & Hw' & _)];
      [done|]. rewrite Hsort in Hw'. by apply elem_of_nil in Hw'. }
  pose proof (stable_sort_cons_elem _ _ _ _ Hsort) as (Hc & Hrest & Hlen).
  destruct (fi_open _ _ _ _ _ Hf c Hc) as [Hin [dc Hdc]].
  destruct (isWall (getNode (lgrid s) c)) eqn:Hw.
  { split; [|by apply (Hmeasure _ Hf)]. simpl. split; [|done].
    apply (oinv_open_sub _ _ _ _ _ _ _ _ _ Ho Hrest).
    intros x Hx. destruct (stable_sort_cons_inv _ _ _ _ _ Hsort Hx) as [->|?];
      [|by left]. right; right. by rewrite <- (fi_wall _ _ _ _ _ Hf c). }
  rewrite Hdc in Hmeasure |- *. simpl is_infinity in *.
  rewrite andb_false_r in Hmeasure |- *.
  destruct (isVisited (getNode (lgrid s) c)) eqn:Hv.
  { split; [|by apply (Hmeasure _ Hf)]. simpl. split; [|done].
    apply (oinv_open_sub _ _ _ _ _ _ _ _ _ Ho Hrest).
    intros x Hx. destruct (stable_sort_cons_inv _ _ _ _ _ Hsort Hx) as [->|?];
      [|by left]. right; left. by apply (fi_vis _ _ _ _ _ Hf c). }
  pose proof (oinv_close lt g0 startNode finishNode keyOf h g0_contract
                h_consistent head_min key_visited _ _ _ c rest Ho Hsort Hw Hv)
    as Hclose.
  case_bool_decide as Hcf.
  { subst c.
    pose proof (oi_f _ _ _ _ _ _ _ _ Hclose) as Hf1.
    set (g1 := updNode (lgrid s) finishNode (set_isVisited true)) in *.
    assert (finishNode ∈ lvisited s ++ [finishNode]) as Hmem
      by (apply elem_of_app; right; by left).
    destruct (fi_vis_good _ _ _ _ _ Hf1 _ Hmem) as (_ & _ & Hre).
    pose proof (finv_chained g0 startNode finishNode g0_contract _ _ _ Hf1)
      as Hch.
    destruct (chained_chain _ _ _ _ Hch Hre) as [p Hp].
    pose proof (finv_chain_length g0 startNode _ _ _ _ _ Hf1 Hp Hre) as Hlen'.
    pose proof (finv_distance_bound g0 startNode finishNode g0_contract
                  _ _ _ _ Hf1 Hre) as Hb.
    exists p. split.
    - unfold getNodesInShortestPathOrder.
      rewrite (walkPrevious_chain _ _ _ Hp) by lia. by rewrite app_nil_r.
    - right. exists (dist_of g1 finishNode). split; [done|]. split.
      + by apply (oi_real _ _ _ _ _ _ _ _ Hclose).
      + by apply (oi_opt _ _ _ _ _ _ _ _ Hclose). }
  pose proof (oinv_expand cond extra dedup g0 startNode keyOf h cond_lt
                cond_complete extra_frame key_relax _ _ _ c Hclose) as Hexp.
  specialize (Hmeasure
    (let '(g2, openSet2) :=
       foldl (Frontier.relax cond extra dedup c)
         (updNode (lgrid s) c (set_isVisited true), rest)
         (Frontier.unvisitedNeighbors c
            (updNode (lgrid s) c (set_isVisited true))) in
     mkLoop g2 openSet2 (lvisited s ++ [c])) Hf).
  destruct (foldl _ _ _) as [g2 open2]. simpl in *.
  split; [|by apply Hmeasure]. split; [done|].
  intros [?|?%list_elem_of_singleton]%elem_of_app; by simplify_eq.
Qed.

(** The loop stops, after at most as many iterations as its measure. *)
Lemma oloop_terminates fuel n :
  rows g0 * cols g0 ≤ fuel →
  ∀ s, oloop s → loop_measure g0 s ≤ n →
  ∃ m st g v p, m ≤ n ∧ iterate_loop (body finishNode fuel) m s = Some st ∧
                body finishNode fuel st = Done g v p ∧ outcome p.
Proof.
  intros Hfuel. induction n as [|n IH]; intros s Hs Hm;
    pose proof (oloop_body s fuel Hs Hfuel) as Hb;
    destruct (body finishNode fuel s) as [s'|g v p] eqn:Hbody.
  - lia.
  - exists 0, s, g, v, p. by split_and!.
  - destruct Hb as [Hs' Hlt].
    destruct (IH s' Hs') as (m & st & g & v & p & Hle & Hit & Hd & Hout); [lia|].
    exists (S m), st, g, v, p. split_and!; [lia| |done|done].
    simpl. by rewrite Hbody.
  - exists 0, s, g, v, p. split_and!; [lia|done|done|done].
Qed.

Lemma oloop_result fuel s :
  oloop s → rows g0 * cols g0 ≤ fuel → loop_measure g0 s < fuel →
  ∃ g r, run_loop (body finishNode fuel) fuel s = Some (g, r) ∧
         shortest_outcome g0 startNode finishNode (nodesInShortestPathOrder r).
Proof.
  intros Hs Hfuel Hm.
  destruct (oloop_terminates fuel (loop_measure g0 s) Hfuel s Hs)
    as (m & st & g & v & p & Hle & Hit & Hd & path & -> & Hout); [done|].
  exists g, (mkResult v path). split; [|done].
  eapply iterate_loop_run; [exact Hit|exact Hd|lia].
Qed.
End FrontierOptimal.

Lemma length_cells g0 : length (cells g0) = rows g0 * cols g0.
Proof. unfold cells. by rewrite length_prod, !length_seq. Qed.

Lemma init_measure g0 startNode finishNode (f : NodeData → NodeData) :
  contract g0 startNode finishNode →
  (∀ n, distance (f n) = Fin 0) →
  loop_measure g0 (mkLoop (updNode g0 startNode f) [startNode] []) < search_fuel g0.
Proof.
  intros Hc Hf. unfold loop_measure, search_fuel. simpl length.
  cbn [lgrid].
  enough (potential g0 (updNode g0 startNode f)
          ≤ length (cells g0) * (rows g0 * cols g0)) as Hle
    by (rewrite length_cells in Hle; lia).
  unfold potential. induction (cells g0) as [|y l IH]; [simpl; lia|].
  cbn [sum_list_with length].
  enough (weight (rows g0 * cols g0) (distance (getNode (updNode g0 startNode f) y))
          ≤ rows g0 * cols g0) by lia.
  destruct (getNode_updNode_cases g0 startNode y f) as [->|[-> ->]].
  - by destruct (c_reset _ _ _ Hc y) as [-> _].
  - rewrite Hf. simpl. lia.
Qed.

(** ** Dijkstra and A* return shortest paths *)

(** The Manhattan distance to the finish, as A* adds it to a distance. *)
Definition manhattan (finishNode v : NodeRef) : nat :=
  absdiff v.1 finishNode.1 + absdiff v.2 finishNode.2.

Lemma manhattan_consistent finishNode u v :
  adjacent u v → manhattan finishNode u ≤ manhattan finishNode v + 1.
Proof. unfold adjacent, manhattan, absdiff. lia. Qed.

Lemma ltb_cond_complete nd old :
  num_ltb (Fin nd) old = false → num_leb old (Fin nd) = true.
Proof. apply num_ltb_false. Qed.

Lemma dijkstra_shortest g0 startNode finishNode fuel :
  contract g0 startNode finishNode → search_fuel g0 ≤ fuel →
  ∃ g r, Dijkstra.dijkstra fuel g0 startNode finishNode = Some (g, r) ∧
         shortest_outcome g0 startNode finishNode (nodesInShortestPathOrder r).
Proof.
  intros Hc Hfuel.
  apply (oloop_result dijkstra_lt true num_ltb (λ _ _ n, n) true g0 startNode
           finishNode distance (λ _, 0) ltb_cond_lt ltb_cond_complete
           id_extra_frame Hc).
  - intros; lia.
  - apply dijkstra_head_min.
  - intros. simpl. by rewrite Nat.add_0_r.
  - done.
  - apply (oinv_init g0 startNode finishNode distance (λ _, 0) Hc dijkstra_f).
    + apply dijkstra_f_init.
    + done.
  - unfold search_fuel in Hfuel. nia.
  - pose proof (init_measure g0 startNode finishNode dijkstra_f Hc) as Hm.
    unfold Dijkstra.init. fold dijkstra_f.
    eapply Nat.lt_le_trans; [apply Hm|done]. done.
Qed.

Lemma astar_shortest g0 startNode finishNode fuel :
  contract g0 startNode finishNode → search_fuel g0 ≤ fuel →
  ∃ g r, AStar.astar fuel g0 startNode finishNode = Some (g, r) ∧
         shortest_outcome g0 startNode finishNode (nodesInShortestPathOrder r).
Proof.
  intros Hc Hfuel.
  apply (oloop_result astar_lt false num_ltb (astar_extra finishNode) true g0
           startNode finishNode totalDistance (manhattan finishNode)
           ltb_cond_lt ltb_cond_complete (astar_extra_frame finishNode) Hc
           (manhattan_consistent finishNode)).
  - apply astar_head_min.
  - done.
  - done.
  - apply (oinv_init g0 startNode finishNode totalDistance (manhattan finishNode)
             Hc (astar_f startNode finishNode)).
    + apply astar_f_init.
    + done.
  - unfold search_fuel in Hfuel. nia.
  - pose proof (init_measure g0 startNode finishNode
                  (astar_f startNode finishNode) Hc) as Hm.
    eapply Nat.lt_le_trans; [apply Hm|done]. done.
Qed.

(** C1.  On every grid that meets the contract (rectangular, start and
    finish inside it, distinct and not walls, search fields reset), with
    fuel enough for the loops and the walk back, [dijkstra] and [astar] both
    return, and their paths have the same length: each is empty when no
    walk of open cells joins start and finish, and otherwise has one node
    more than the shortest such walk has steps. *)
Theorem astar_matches_dijkstra g0 startNode finishNode fuel :
  contract g0 startNode finishNode → search_fuel g0 ≤ fuel →
  ∃ gd rd ga ra,
    Dijkstra.dijkstra fuel g0 startNode finishNode = Some (gd, rd) ∧
    AStar.astar fuel g0 startNode finishNode = Some (ga, ra) ∧
    length (nodesInShortestPathOrder ra) = length (nodesInShortestPathOrder rd) ∧
    shortest_outcome g0 startNode finishNode (nodesInShortestPathOrder rd) ∧
    shortest_outcome g0 startNode finishNode (nodesInShortestPathOrder ra).
Proof.
  intros Hc Hfuel.
  destruct (dijkstra_shortest g0 startNode finishNode fuel Hc Hfuel)
    as (gd & rd & Hd & Hod).
  destruct (astar_shortest g0 startNode finishNode fuel Hc Hfuel)
    as (ga & ra & Ha & Hoa).
  exists gd, rd, ga, ra. split_and!; try done.
  by eapply shortest_outcome_length.
Qed.

Lemma astar_matches_dijkstra_witness :
  ∃ gd rd ga ra,
    Dijkstra.dijkstra 34 grid_2x2 (0, 0) (1, 1) = Some (gd, rd) ∧
    AStar.astar 34 grid_2x2 (0, 0) (1, 1) = Some (ga, ra) ∧
    length (nodesInShortestPathOrder ra) = length (nodesInShortestPathOrder rd) ∧
    shortest_outcome grid_2x2 (0, 0) (1, 1) (nodesInShortestPathOrder rd) ∧
    shortest_outcome grid_2x2 (0, 0) (1, 1) (nodesInShortestPathOrder ra).
Proof.
  apply astar_matches_dijkstra.
  - apply makeGrid_contract; [simpl; lia..|done| |]; apply not_elem_of_nil.
  - vm_compute. lia.
Defined.

(** ** The heap keeps its entries *)

Lemma insert_head_perm {A} (l : list A) j (a b : A) :
  l !! j = Some b → b :: <[j := a]> l ≡ₚ a :: l.
Proof.
  revert j. induction l as [|x l IH]; intros [|j] H; simplify_eq/=.
  - apply perm_swap.
  - rewrite (perm_swap x b), IH by done. apply perm_swap.
Qed.

Lemma insert_swap_perm {A} (l : list A) i j (a b : A) :
  l !! i = Some a → l !! j = Some b → <[j := a]> (<[i := b]> l) ≡ₚ l.
Proof.
  revert i j. induction l as [|x l IH]; intros [|i] [|j] Hi Hj; simplify_eq/=.
  - done.
  - by apply insert_head_perm.
  - by apply insert_head_perm.
  - f_equiv. by apply IH.
Qed.

Lemma bubbleUp_perm fuel (els : BMSSP.Heap) n el :
  els !! n = Some el → BMSSP.bubbleUp fuel els n el ≡ₚ els.
Proof.
  revert els n. induction fuel as [|fuel IH]; intros els n Hn;
    cbn [BMSSP.bubbleUp]; [done|].
  destruct (0 <? n) eqn:E0; [|done]. apply Nat.ltb_lt in E0.
  destruct (els !! ((n + 1) / 2 - 1)) as [parent|] eqn:Hp; [|done].
  destruct (num_geb _ _); [done|].
  assert ((n + 1) / 2 - 1 < n) as Hlt.
  { pose proof (Nat.Div0.div_le_upper_bound (n + 1) 2 n). lia. }
  rewrite IH.
  - by apply insert_swap_perm.
  - rewrite list_lookup_insert_ne by lia. apply list_lookup_insert_eq.
    by eapply lookup_lt_Some.
Qed.

Lemma bubbleUpAt_perm (els : BMSSP.Heap) n : BMSSP.bubbleUpAt els n ≡ₚ els.
Proof.
  unfold BMSSP.bubbleUpAt. destruct (els !! n) eqn:E; [|done].
  by apply bubbleUp_perm.
Qed.

Lemma heap_push_perm (els : BMSSP.Heap) node dist :
  BMSSP.heap_push els node dist ≡ₚ (node, dist) :: els.
Proof.
  unfold BMSSP.heap_push. rewrite bubbleUpAt_perm.
  by rewrite Permutation_app_comm.
Qed.

Lemma bubbleDown_perm fuel (els : BMSSP.Heap) n el :
  els !! n = Some el → BMSSP.bubbleDown fuel els n el ≡ₚ els.
Proof.
  revert els n. induction fuel as [|fuel IH]; intros els n Hn;
    cbn [BMSSP.bubbleDown]; [done|].
  match goal with |- context [match ?s with Some _ => _ | None => els end] =>
    destruct s as [sw|] eqn:Hsw end; [|done].
  destruct (els !! sw) as [c|] eqn:Hc; [|done].
  assert (sw ≠ n) as Hne.
  { repeat case_match; simplify_eq; lia. }
  rewrite IH.
  - rewrite insert_swap_perm; done.
  - apply list_lookup_insert_eq. rewrite length_insert. by eapply lookup_lt_Some.
Qed.

Lemma heap_pop_perm (els : BMSSP.Heap) min els' :
  BMSSP.heap_pop els = Some (min, els') → min :: els' ≡ₚ els.
Proof.
  unfold BMSSP.heap_pop. destruct els as [|m rest]; [done|].
  destruct (decide (rest = [])) as [->|Hne]; [simpl; by intros [= <- <-]|].
  destruct (exists_last Hne) as (rest' & e & ->).
  change (m :: rest' ++ [e]) with ((m :: rest') ++ [e]).
  rewrite removelast_last, last_snoc. cbn beta iota zeta.
  pose proof (bubbleDown_perm (length (<[0:=e]> (m :: rest')))
                (<[0:=e]> (m :: rest')) 0 e eq_refl) as Hp.
  set (bd := BMSSP.bubbleDown _ _ _ _) in *.
  intros [= <- <-]. rewrite Hp. simpl.
  f_equiv. apply Permutation_cons_append.
Qed.

Lemma heap_decreaseKey_nodes (els : BMSSP.Heap) node dist :
  (BMSSP.heap_decreaseKey els node dist).*1 ≡ₚ els.*1.
Proof.
  unfold BMSSP.heap_decreaseKey.
  destruct (BMSSP.findIndex _ _) as [idx|]; [|done].
  destruct (els !! idx) as [e|] eqn:E; [|done].
  destruct (num_ltb _ _); [|done].
  rewrite bubbleUpAt_perm, list_fmap_insert. simpl.
  rewrite list_insert_id; [done|]. by rewrite list_lookup_fmap, E.
Qed.

(** ** [baseCase] returns

    The loop of [baseCase] is entered with any bound, any sources and any
    recorded distances.  What it has left to do is measured by three
    numbers, in this order: the cells at distance [Infinity], the sum of the
    finite distances, and the entries of the heap, an entry counting for
    more the closer its node is to the start.  A relaxation that lowers a
    distance lowers one of the first two; one that only confirms a distance
    pushes an entry one level further out than the entry just popped. *)

Definition ninf (g0 g : Grid) : nat :=
  sum_list_with (λ x, if is_infinity (distance (getNode g x)) then 1 else 0)
                (cells g0).
Definition sfin (g0 g : Grid) : nat := sum_list_with (dist_of g) (cells g0).
Definition maxfin (g0 g : Grid) : nat := max_list_with (dist_of g) (cells g0).
Definition hweight (L : nat) (g : Grid) (nodes : list NodeRef) : nat :=
  sum_list_with (λ x, 5 ^ (L - dist_of g x)) nodes.

Definition lexlt (g0 g' g : Grid) : Prop :=
  ninf g0 g' < ninf g0 g ∨ (ninf g0 g' = ninf g0 g ∧ sfin g0 g' < sfin g0 g).
Definition samed (g' g : Grid) : Prop :=
  ∀ x, distance (getNode g' x) = distance (getNode g x).
Definition dims (g0 g : Grid) : Prop :=
  rectangular g ∧ rows g = rows g0 ∧ cols g = cols g0.

Lemma samed_refl g : samed g g.
Proof. done. Qed.

Lemma samed_trans g1 g2 g3 : samed g2 g1 → samed g3 g2 → samed g3 g1.
Proof. intros H1 H2 x. by rewrite H2. Qed.

Lemma samed_dist_of g' g x : samed g' g → dist_of g' x = dist_of g x.
Proof. intros H. unfold dist_of. by rewrite H. Qed.

Lemma ninf_samed g0 g' g : samed g' g → ninf g0 g' = ninf g0 g.
Proof.
  intros H. unfold ninf. induction (cells g0) as [|y l IH]; [done|].
  simpl. by rewrite H, IH.
Qed.

Lemma sfin_samed g0 g' g : samed g' g → sfin g0 g' = sfin g0 g.
Proof.
  intros H. unfold sfin. induction (cells g0) as [|y l IH]; [done|].
  simpl. by rewrite (samed_dist_of g' g), IH.
Qed.

Lemma maxfin_samed g0 g' g : samed g' g → maxfin g0 g' = maxfin g0 g.
Proof.
  intros H. unfold maxfin. induction (cells g0) as [|y l IH]; [done|].
  simpl. by rewrite (samed_dist_of g' g), IH.
Qed.

Lemma hweight_samed L g' g nodes : samed g' g → hweight L g' nodes = hweight L g nodes.
Proof.
  intros H. unfold hweight. induction nodes as [|y l IH]; [done|].
  simpl. by rewrite (samed_dist_of g' g), IH.
Qed.

Lemma hweight_perm L g l l' : l ≡ₚ l' → hweight L g l = hweight L g l'.
Proof. intros H. unfold hweight. by rewrite H. Qed.

Lemma lexlt_trans g0 g1 g2 g3 : lexlt g0 g2 g1 → lexlt g0 g3 g2 → lexlt g0 g3 g1.
Proof. unfold lexlt. lia. Qed.

Lemma lexlt_samed g0 g1 g2 g3 : lexlt g0 g2 g1 → samed g3 g2 → lexlt g0 g3 g1.
Proof.
  unfold lexlt. intros H1 H2.
  rewrite (ninf_samed g0 g3 g2), (sfin_samed g0 g3 g2) by done. done.
Qed.

Lemma samed_lexlt g0 g1 g2 g3 : samed g2 g1 → lexlt g0 g3 g2 → lexlt g0 g3 g1.
Proof.
  unfold lexlt. intros H1 H2.
  by rewrite <- (ninf_samed g0 g2 g1), <- (sfin_samed g0 g2 g1).
Qed.

Lemma dist_of_le_maxfin g0 g x : inGrid g0 x → dist_of g x ≤ maxfin g0 g.
Proof.
  intros Hx%elem_of_cells. unfold maxfin.
  induction Hx as [|y z l Hx IH]; simpl; lia.
Qed.

Lemma dims_updNode g0 g p f : dims g0 g → dims g0 (updNode g p f).
Proof.
  intros (Hrect & Hr & Hc). split_and!.
  - by apply rectangular_updNode.
  - by rewrite rows_updNode.
  - by rewrite cols_updNode.
Qed.

Lemma dims_inGrid g0 g x : dims g0 g → inGrid g0 x ↔ inGrid g x.
Proof. intros (_ & Hr & Hc). unfold inGrid. by rewrite Hr, Hc. Qed.

(** A guarded write lowers the first or the second number, or confirms the
    distance it finds. *)
Lemma writeDistance_measure g0 g u v du :
  dims g0 g → inGrid g0 v →
  distance (getNode g u) = Fin du →
  num_leb (Fin (du + 1)) (distance (getNode g v)) = true →
  lexlt g0 (BMSSP.writeDistance g u v) g ∨
  (samed (BMSSP.writeDistance g u v) g ∧ distance (getNode g v) = Fin (du + 1)).
Proof.
  intros Hd Hv Hu Hle.
  assert (inGrid g v) as Hv' by (by apply (dims_inGrid g0)).
  set (g' := BMSSP.writeDistance g u v).
  assert (distance (getNode g' v) = Fin (du + 1)) as Hnew.
  { unfold g', BMSSP.writeDistance. rewrite getNode_updNode_eq;
      [|apply Hd|done]. simpl. by rewrite Hu. }
  assert (∀ x, x ≠ v → getNode g' x = getNode g x) as Hne.
  { intros x Hx. unfold g', BMSSP.writeDistance. by rewrite getNode_updNode_ne. }
  pose proof (sum_list_with_update
    (λ x, if is_infinity (distance (getNode g x)) then 1 else 0)
    (λ x, if is_infinity (distance (getNode g' x)) then 1 else 0)
    (cells g0) v (NoDup_cells g0) (proj2 (elem_of_cells g0 v) Hv)) as Hn.
  pose proof (sum_list_with_update (dist_of g) (dist_of g')
    (cells g0) v (NoDup_cells g0) (proj2 (elem_of_cells g0 v) Hv)) as Hs.
  cbv beta in Hn. fold (ninf g0 g) (ninf g0 g') in Hn.
  fold (sfin g0 g) (sfin g0 g') in Hs.
  assert (ninf g0 g' + (if is_infinity (distance (getNode g v)) then 1 else 0)
          = ninf g0 g + 0) as Hn'.
  { rewrite Hn; [by rewrite Hnew|]. intros x Hx. by rewrite Hne. }
  assert (sfin g0 g' + dist_of g v = sfin g0 g + (du + 1)) as Hs'.
  { rewrite Hs; [f_equal; unfold dist_of; by rewrite Hnew|].
    intros x Hx. unfold dist_of. by rewrite Hne. }
  destruct (distance (getNode g v)) as [o|] eqn:Ho.
  - apply num_leb_le in Hle. unfold dist_of in Hs'. rewrite Ho in Hs'.
    simpl in Hn'. destruct (decide (o = du + 1)) as [->|Hneq].
    + right. split; [|done]. intros x. destruct (decide (x = v)) as [->|Hx].
      * by rewrite Hnew, Ho.
      * by rewrite Hne.
    + left. right. lia.
  - left. left. simpl in Hn'. lia.
Qed.

(** What one confirmed relaxation out of [u] may add to the third number. *)
Definition relax_bound (L : nat) (g : Grid) (u : NodeRef) : nat :=
  match distance (getNode g u) with
  | Fin du => if decide (du + 1 ≤ L) then 5 ^ (L - (du + 1)) else 0
  | Infinity => 0
  end.

Lemma relax_bound_samed L g' g u : samed g' g → relax_bound L g' u = relax_bound L g u.
Proof. intros H. unfold relax_bound. by rewrite H. Qed.

Lemma bc_relax_measure g0 B u st heap v :
  dims g0 (BMSSP.gridRef st) → inGrid g0 v → Forall (inGrid g0) heap.*1 →
  let g := BMSSP.gridRef st in
  let L := maxfin g0 g in
  let r := BMSSP.bc_relax B u (st, heap) v in
  dims g0 (BMSSP.gridRef r.1) ∧ Forall (inGrid g0) r.2.*1 ∧
  (lexlt g0 (BMSSP.gridRef r.1) g ∨
   (samed (BMSSP.gridRef r.1) g ∧
    hweight L g r.2.*1 ≤ hweight L g heap.*1 + relax_bound L g u)).
Proof.
  intros Hd Hv Hh g L r. subst r. unfold BMSSP.bc_relax. fold g.
  destruct (num_leb _ _ && num_ltb _ _) eqn:Hc; simpl;
    [|split_and!; [done..|right; split; [done|lia]]].
  apply andb_true_iff in Hc as [Hle Hlt].
  destruct (distance (getNode g u)) as [du|] eqn:Hu; [|done].
  change (num_add (Fin du) (Fin 1)) with (Fin (du + 1)) in *.
  assert (Forall (inGrid g0)
            (if BMSSP.heap_contains heap v
             then BMSSP.heap_decreaseKey heap v (Fin (du + 1))
             else BMSSP.heap_push heap v (Fin (du + 1))).*1) as Hh'.
  { destruct (BMSSP.heap_contains heap v).
    - by rewrite heap_decreaseKey_nodes.
    - rewrite heap_push_perm. simpl. by constructor. }
  split_and!; [by apply dims_updNode|done|].
  destruct (writeDistance_measure g0 g u v du Hd Hv Hu Hle) as [?|[Hs Hdv]];
    [by left|right]. split; [done|].
  destruct (BMSSP.heap_contains heap v).
  - rewrite (hweight_perm _ _ _ _ (heap_decreaseKey_nodes heap v _)). lia.
  - rewrite (hweight_perm _ _ _ (v :: heap.*1));
      [|by rewrite heap_push_perm].
    unfold hweight at 1. simpl. fold (hweight L g heap.*1).
    pose proof (dist_of_le_maxfin g0 g v Hv) as Hmax. fold L in Hmax.
    unfold relax_bound. rewrite Hu. unfold dist_of in *. rewrite Hdv in *.
    rewrite decide_True by done. lia.
Qed.

Lemma bc_relax_fold_measure g0 B u l :
  Forall (inGrid g0) l →
  ∀ st heap,
  dims g0 (BMSSP.gridRef st) → Forall (inGrid g0) heap.*1 →
  let g := BMSSP.gridRef st in
  let L := maxfin g0 g in
  let r := foldl (BMSSP.bc_relax B u) (st, heap) l in
  dims g0 (BMSSP.gridRef r.1) ∧ Forall (inGrid g0) r.2.*1 ∧
  (lexlt g0 (BMSSP.gridRef r.1) g ∨
   (samed (BMSSP.gridRef r.1) g ∧
    hweight L g r.2.*1 ≤ hweight L g heap.*1 + length l * relax_bound L g u)).
Proof.
  induction 1 as [|v l Hv Hl IH]; intros st heap Hd Hh; cbn [foldl length].
  { split_and!; [done..|]. right. split; [done|simpl; lia]. }
  destruct (bc_relax_measure g0 B u st heap v Hd Hv Hh) as (Hd1 & Hh1 & H1).
  destruct (BMSSP.bc_relax B u (st, heap) v) as [st1 heap1]. cbn [fst snd] in *.
  destruct (IH st1 heap1 Hd1 Hh1) as (Hd2 & Hh2 & H2).
  split_and!; [done..|].
  destruct H1 as [H1|[Hs1 Hw1]].
  - left. destruct H2 as [H2|[Hs2 _]].
    + by eapply lexlt_trans.
    + by eapply lexlt_samed.
  - destruct H2 as [H2|[Hs2 Hw2]].
    + left. by eapply samed_lexlt.
    + right. split; [by eapply samed_trans|].
      rewrite (maxfin_samed g0 _ _ Hs1), !(hweight_samed _ _ _ _ Hs1),
        (relax_bound_samed _ _ _ _ Hs1) in Hw2. lia.
Qed.

Lemma getNeighbors_inGrid g0 g u :
  dims g0 g → inGrid g0 u → Forall (inGrid g0) (BMSSP.getNeighbors u g).
Proof.
  intros Hd Hu. apply Forall_forall. intros v [_ Hv]%list_elem_of_filter.
  apply gridNeighbors_spec in Hv as [_ Hv]; by apply (dims_inGrid g0 g).
Qed.

Lemma getNeighbors_length u g : length (BMSSP.getNeighbors u g) ≤ 4.
Proof.
  unfold BMSSP.getNeighbors. etrans; [apply length_filter|].
  destruct u as [r c]. unfold gridNeighbors. rewrite !length_app.
  repeat case_match; simpl; lia.
Qed.

Lemma markVisited_samed st u :
  samed (BMSSP.gridRef (BMSSP.markVisited st u)) (BMSSP.gridRef st).
Proof.
  unfold BMSSP.markVisited. destruct (isVisited _); [done|]. simpl.
  intros x.
  by destruct (getNode_updNode_cases (BMSSP.gridRef st) u x (set_isVisited true))
    as [->|[_ ->]].
Qed.

Lemma markVisited_dims g0 st u :
  dims g0 (BMSSP.gridRef st) → dims g0 (BMSSP.gridRef (BMSSP.markVisited st u)).
Proof.
  unfold BMSSP.markVisited. destruct (isVisited _); [done|]. simpl.
  apply dims_updNode.
Qed.

Lemma pow5_pos n : 0 < 5 ^ n.
Proof. induction n; simpl; lia. Qed.

(** One round of the loop lowers the measure. *)
Lemma bc_round_measure g0 B u key st heap heap' :
  dims g0 (BMSSP.gridRef st) → Forall (inGrid g0) heap.*1 →
  BMSSP.heap_pop heap = Some ((u, key), heap') →
  let g := BMSSP.gridRef st in
  let L := maxfin g0 g in
  let st1 := BMSSP.markVisited st u in
  let r := foldl (BMSSP.bc_relax B u) (st1, heap')
                 (BMSSP.getNeighbors u (BMSSP.gridRef st1)) in
  dims g0 (BMSSP.gridRef r.1) ∧ Forall (inGrid g0) r.2.*1 ∧
  (lexlt g0 (BMSSP.gridRef r.1) g ∨
   (samed (BMSSP.gridRef r.1) g ∧ hweight L g r.2.*1 < hweight L g heap.*1)).
Proof.
  intros Hd Hh Hpop g L st1 r.
  pose proof (heap_pop_perm _ _ _ Hpop) as Hperm.
  assert ((u :: heap'.*1) ≡ₚ heap.*1) as Hnodes by (by rewrite <- Hperm).
  rewrite <- Hnodes in Hh. inversion Hh as [|? ? Hu Hh']; subst.
  pose proof (markVisited_samed st u) as Hs1.
  pose proof (markVisited_dims g0 st u Hd) as Hd1. fold st1 in Hs1, Hd1.
  destruct (bc_relax_fold_measure g0 B u _
              (getNeighbors_inGrid g0 _ u Hd1 Hu) st1 heap' Hd1 Hh')
    as (Hd2 & Hh2 & H2).
  fold r in Hd2, Hh2, H2. split_and!; [done..|].
  destruct H2 as [H2|[Hs2 Hw2]]; [left; by eapply samed_lexlt|right].
  split; [by eapply samed_trans|].
  rewrite (maxfin_samed g0 _ _ Hs1), !(hweight_samed _ _ _ _ Hs1),
    (relax_bound_samed _ _ _ _ Hs1) in Hw2. fold g L in Hw2.
  rewrite <- (hweight_perm _ _ _ _ Hnodes).
  unfold hweight at 2. simpl. fold (hweight L g heap'.*1).
  pose proof (getNeighbors_length u (BMSSP.gridRef st1)) as Hlen.
  assert (4 * relax_bound L g u < 5 ^ (L - dist_of g u)) as Hb.
  { unfold relax_bound, dist_of. destruct (distance (getNode g u)) as [du|].
    - case_decide as Hle.
      + replace (L - du) with (S (L - (du + 1))) by lia. simpl.
        pose proof (pow5_pos (L - (du + 1))). lia.
      + pose proof (pow5_pos (L - du)). lia.
    - pose proof (pow5_pos (L - 0)). lia. }
  nia.
Qed.

Lemma bc_loop_unfold P fuel B st U0 heap :
  BMSSP.bc_loop P (S fuel) B st U0 heap =
  match BMSSP.heap_pop heap with
  | None => Some (st, U0)
  | Some ((u, dist), heap') =>
      if length U0 <? BMSSP.k_param P + 1 then
        if num_geb dist B then Some (st, U0)
        else
          let st1 := BMSSP.markVisited st u in
          let r := foldl (BMSSP.bc_relax B u) (st1, heap')
                         (BMSSP.getNeighbors u (BMSSP.gridRef st1)) in
          BMSSP.bc_loop P fuel B r.1 (BMSSP.set_add u U0) r.2
      else Some (st, U0)
  end.
Proof.
  simpl. destruct (BMSSP.heap_pop heap) as [[[u dist] heap']|]; [|done].
  destruct (_ <? _); [|done]. destruct (num_geb dist B); [done|].
  by destruct (foldl _ _ _).
Qed.

(** The loop of [baseCase] stops, whatever the bound, the closed set, the
    heap and the recorded distances it is entered with. *)
Lemma bc_loop_total P B g0 :
  ∀ a b c st U0 heap,
  dims g0 (BMSSP.gridRef st) → Forall (inGrid g0) heap.*1 →
  ninf g0 (BMSSP.gridRef st) = a → sfin g0 (BMSSP.gridRef st) = b →
  hweight (maxfin g0 (BMSSP.gridRef st)) (BMSSP.gridRef st) heap.*1 = c →
  ∃ N, ∀ fuel, N ≤ fuel →
    ∃ st' U0', BMSSP.bc_loop P fuel B st U0 heap = Some (st', U0').
Proof.
  intros a. induction a as [a IHa] using lt_wf_ind.
  intros b. induction b as [b IHb] using lt_wf_ind.
  intros c. induction c as [c IHc] using lt_wf_ind.
  intros st U0 heap Hd Hh Ha Hb Hc.
  destruct (BMSSP.heap_pop heap) as [[[u key] heap']|] eqn:Hpop.
  2:{ exists 0. intros fuel _. destruct fuel; simpl; rewrite Hpop; eauto. }
  destruct (length U0 <? BMSSP.k_param P + 1) eqn:Hk.
  2:{ exists 0. intros fuel _. destruct fuel; simpl; rewrite Hpop, Hk; eauto. }
  destruct (num_geb key B) eqn:Hg.
  { exists 1. intros [|fuel] Hf; [lia|]. rewrite bc_loop_unfold, Hpop, Hk, Hg. eauto. }
  destruct (bc_round_measure g0 B u key st heap heap' Hd Hh Hpop) as (Hd2 & Hh2 & H2).
  set (r := foldl _ _ _) in *.
  assert (∃ N, ∀ fuel, N ≤ fuel →
            ∃ st' U0', BMSSP.bc_loop P fuel B r.1 (BMSSP.set_add u U0) r.2
                       = Some (st', U0')) as [N HN].
  { destruct H2 as [[Hlt|[Heq Hlt]]|[Hs Hlt]].
    - eapply (IHa (ninf g0 (BMSSP.gridRef r.1))); [lia|done..].
    - eapply (IHb (sfin g0 (BMSSP.gridRef r.1))); [lia|done|done|lia|done..].
    - eapply (IHc (hweight (maxfin g0 (BMSSP.gridRef r.1)) (BMSSP.gridRef r.1) r.2.*1));
        [|done|done| | |done].
      + rewrite (maxfin_samed g0 _ _ Hs), (hweight_samed _ _ _ _ Hs). lia.
      + by rewrite (ninf_samed g0 _ _ Hs).
      + by rewrite (sfin_samed g0 _ _ Hs). }
  exists (S N). intros [|fuel] Hf; [lia|].
  rewrite bc_loop_unfold, Hpop, Hk, Hg. cbv zeta. apply HN. lia.
Qed.

(** The maximum finite distance among the nodes of [U]; [0] when none of
    them has a finite distance. *)
Definition max_finite_distance (g : Grid) (U : list NodeRef) : nat :=
  max_list_with (dist_of g) U.

Lemma maxFiniteDistance_scan g U m :
  foldl (λ maxDist node,
           match distance (getNode g node) with
           | Fin d => if maxDist <? d then d else maxDist
           | Infinity => maxDist
           end) m U = Nat.max m (max_finite_distance g U).
Proof.
  revert m. induction U as [|x U IH]; intros m; simpl; [lia|].
  rewrite IH. unfold dist_of. destruct (distance (getNode g x)) as [d|]; [|lia].
  destruct (m <? d) eqn:E; [apply Nat.ltb_lt in E|apply Nat.ltb_ge in E]; lia.
Qed.

Lemma maxFiniteDistance_max g U :
  BMSSP.maxFiniteDistance g U = max_finite_distance g U.
Proof. unfold BMSSP.maxFiniteDistance. by rewrite maxFiniteDistance_scan. Qed.

Lemma max_finite_distance_spec g U :
  let m := max_finite_distance g U in
  (∀ x d, x ∈ U → distance (getNode g x) = Fin d → d ≤ m) ∧
  (m = 0 ∨ ∃ x, x ∈ U ∧ distance (getNode g x) = Fin m).
Proof.
  unfold max_finite_distance. induction U as [|y U [IH1 IH2]]; simpl.
  { split; [by intros x d ?%elem_of_nil|by left]. }
  split.
  - intros x d [->|Hx]%elem_of_cons Hd.
    + unfold dist_of. rewrite Hd. lia.
    + pose proof (IH1 x d Hx Hd). lia.
  - destruct (decide (max_list_with (dist_of g) U ≤ dist_of g y)) as [Hle|Hgt].
    + rewrite Nat.max_l by done. unfold dist_of in *.
      destruct (distance (getNode g y)) as [d|] eqn:Hd; [|by left].
      right. exists y. split; [by left|done].
    + rewrite Nat.max_r by lia. destruct IH2 as [E|(x & Hx & Hd)]; [lia|].
      right. exists x. split; [by right|done].
Qed.

(** The heap [baseCase] starts from: the sources, pushed in order. *)
Definition bc_heap (st : BMSSP.State) (S : list NodeRef) : BMSSP.Heap :=
  foldl (λ h node,
           BMSSP.heap_push h node (distance (getNode (BMSSP.gridRef st) node)))
        [] S.

Lemma bc_heap_inGrid g0 st S :
  Forall (inGrid g0) S → Forall (inGrid g0) (bc_heap st S).*1.
Proof.
  intros HS. unfold bc_heap.
  apply (foldl_inv _ (λ h : BMSSP.Heap, Forall (inGrid g0) h.*1)); [constructor|].
  intros h x Hx Hh. rewrite heap_push_perm. simpl. constructor; [|done].
  rewrite Forall_forall in HS. by apply HS.
Qed.

(** * The containers and the modules of BMSSP

    The binary heap and the sorted structure [D] keep their order; on a
    grid, where every edge has weight one, [findPivots] and [baseCase]
    record only lengths of shortest walks. *)

Lemma adjacent_sym u v : adjacent u v → adjacent v u.
Proof. unfold adjacent, absdiff. lia. Qed.


(** ** The containers of BMSSP *)

Lemma elem_of_set_add x y s : y ∈ BMSSP.set_add x s ↔ y = x ∨ y ∈ s.
Proof.
  unfold BMSSP.set_add, includes. case_bool_decide as Hx.
  - split; [by right|]. by intros [->|?].
  - rewrite elem_of_app, list_elem_of_singleton. tauto.
Qed.

Lemma NoDup_set_add x s : NoDup s → NoDup (BMSSP.set_add x s).
Proof.
  intros Hs. unfold BMSSP.set_add, includes. case_bool_decide as Hx; [done|].
  apply NoDup_app. split_and!; [done| |apply NoDup_singleton].
  intros y Hy ->%list_elem_of_singleton. done.
Qed.

Lemma set_add_elem x s : x ∈ s → BMSSP.set_add x s = s.
Proof. intros Hx. unfold BMSSP.set_add, includes. by rewrite bool_decide_eq_true_2. Qed.

Lemma set_add_new x s : x ∉ s → BMSSP.set_add x s = s ++ [x].
Proof. intros Hx. unfold BMSSP.set_add, includes. by rewrite bool_decide_eq_false_2. Qed.

Lemma set_add_fold_NoDup acc l :
  NoDup (acc ++ l) → foldl (λ s x, BMSSP.set_add x s) acc l = acc ++ l.
Proof.
  revert acc. induction l as [|x l IH]; intros acc Hnd; simpl.
  { by rewrite app_nil_r. }
  rewrite set_add_new.
  - rewrite IH; rewrite <- app_assoc; done.
  - apply NoDup_app in Hnd as (_ & Hd & _). intros Hx. apply (Hd x Hx). by left.
Qed.

Lemma set_of_NoDup l : NoDup l → BMSSP.set_of l = l.
Proof. intros H. unfold BMSSP.set_of. by rewrite set_add_fold_NoDup. Qed.

Lemma set_add_fold_elem acc l y :
  y ∈ foldl (λ s x, BMSSP.set_add x s) acc l ↔ y ∈ acc ∨ y ∈ l.
Proof.
  revert acc. induction l as [|x l IH]; intros acc; simpl.
  { rewrite elem_of_nil. tauto. }
  rewrite IH, elem_of_set_add, elem_of_cons. tauto.
Qed.

Lemma set_add_fold_nodup acc l :
  NoDup acc → NoDup (foldl (λ s x, BMSSP.set_add x s) acc l).
Proof.
  revert acc. induction l as [|x l IH]; intros acc H; simpl; [done|].
  apply IH. by apply NoDup_set_add.
Qed.

Lemma set_add_fold_app acc l :
  ∃ new, foldl (λ s x, BMSSP.set_add x s) acc l = acc ++ new ∧
         ∀ y, y ∈ new → y ∈ l ∧ y ∉ acc.
Proof.
  revert acc. induction l as [|x l IH]; intros acc; simpl.
  { exists []. split; [by rewrite app_nil_r|]. by intros y ?%elem_of_nil. }
  destruct (IH (BMSSP.set_add x acc)) as (new & -> & Hnew).
  destruct (decide (x ∈ acc)) as [Hx|Hx].
  - rewrite set_add_elem in Hnew |- * by done. exists new. split; [done|].
    intros y Hy. destruct (Hnew y Hy). split; [by right|done].
  - rewrite set_add_new in Hnew |- * by done. exists (x :: new).
    split; [by rewrite <- app_assoc|].
    intros y [->|Hy]%elem_of_cons; [split; [by left|done]|].
    destruct (Hnew y Hy) as [? Hn]. split; [by right|].
    intros ?. apply Hn, elem_of_app. by left.
Qed.

Lemma foldl_if_const {A B} (b : bool) (f : A → B → A) a l :
  foldl (λ a x, if b then f a x else a) a l = if b then foldl f a l else a.
Proof. destruct b; [done|]. by induction l. Qed.

Lemma StronglySorted_flat {A} (R : relation A) l :
  (∀ x y, x ∈ l → y ∈ l → R x y) → StronglySorted R l.
Proof.
  induction l as [|a l IH]; intros H; constructor.
  - apply IH. intros x y Hx Hy. apply H; by right.
  - apply Forall_forall. intros y Hy. apply H; [by left|by right].
Qed.

(** Entries ordered by their value. *)
Definition vle (e e' : NodeRef * num) : Prop := num_leb e.2 e'.2 = true.

Lemma num_leb_total a b : num_leb a b = true ∨ num_leb b a = true.
Proof. destruct a, b; unfold num_leb; try tauto. rewrite !Nat.leb_le. lia. Qed.

Lemma StronglySorted_lookup {A} (R : relation A) `{!Reflexive R} l i j a b :
  StronglySorted R l → l !! i = Some a → l !! j = Some b → i ≤ j → R a b.
Proof.
  intros Hs. revert i j. induction Hs as [|x l Hs IH Hx]; intros i j Hi Hj Hij.
  { done. }
  destruct i as [|i], j as [|j]; simplify_eq/=; try lia.
  - done.
  - rewrite Forall_forall in Hx. apply Hx. by eapply list_elem_of_lookup_2.
  - eapply IH; [done..|lia].
Qed.

Lemma findIndex_Some {A} (f : A → bool) l i :
  BMSSP.findIndex f l = Some i → ∃ x, l !! i = Some x ∧ f x = true.
Proof.
  revert i. induction l as [|y l IH]; intros i; simpl; [done|].
  destruct (f y) eqn:E.
  - intros [= <-]. by exists y.
  - destruct (BMSSP.findIndex f l) as [j|]; simpl; [|done].
    intros [= <-]. by apply IH.
Qed.

Lemma findIndex_None {A} (f : A → bool) l :
  BMSSP.findIndex f l = None → Forall (λ x, f x = false) l.
Proof.
  induction l as [|y l IH]; simpl; [by constructor|].
  destruct (f y) eqn:E; [done|].
  destruct (BMSSP.findIndex f l); simpl; [done|]. intros _. by constructor; auto.
Qed.

(** The binary search of [insert] returns a place where the value fits. *)
Lemma bsearch_spec its val fuel low high :
  low ≤ high → high ≤ length its → high - low < fuel →
  (∀ e, low ≠ 0 → its !! (low - 1) = Some e → num_ltb e.2 val = true) →
  (∀ e, its !! high = Some e → num_leb val e.2 = true) →
  let r := BMSSP.bsearch fuel its val low high in
  r ≤ length its ∧
  (∀ e, r ≠ 0 → its !! (r - 1) = Some e → num_ltb e.2 val = true) ∧
  (∀ e, its !! r = Some e → num_leb val e.2 = true).
Proof.
  revert low high. induction fuel as [|fuel IH]; intros low high Hlh Hlen Hf Hlo Hhi;
    [lia|]. cbn [BMSSP.bsearch].
  destruct (low <? high) eqn:E; [apply Nat.ltb_lt in E|apply Nat.ltb_ge in E].
  2:{ assert (low = high) as -> by lia. split_and!; [lia|done|done]. }
  assert (low ≤ (low + high) / 2 ∧ (low + high) / 2 < high) as [Hm1 Hm2].
  { split; [apply Nat.div_le_lower_bound; lia|apply Nat.Div0.div_lt_upper_bound; lia]. }
  set (mid := (low + high) / 2) in *.
  destruct (its !! mid) as [em|] eqn:Hem.
  2:{ apply lookup_ge_None in Hem. lia. }
  cbn [fmap option_fmap option_map default]. unfold id.
  destruct (num_ltb em.2 val) eqn:Hcmp.
  - apply IH; [lia|lia|lia| |done].
    intros e _. replace (mid + 1 - 1) with mid by lia.
    intros ?; by simplify_eq.
  - apply IH; [lia|lia|lia|done|].
    intros e ?; simplify_eq. by apply num_ltb_false.
Qed.

Global Instance vle_refl : Reflexive vle.
Proof. intros e. apply num_leb_refl. Qed.

Global Instance vle_trans : Transitive vle.
Proof. intros a b c. apply num_leb_trans. Qed.

Lemma splice_in_perm {A} i (x : A) l : BMSSP.splice_in i x l ≡ₚ x :: l.
Proof.
  unfold BMSSP.splice_in. rewrite <- Permutation_middle. by rewrite take_drop.
Qed.

Lemma splice_in_sorted its i e :
  StronglySorted vle its → i ≤ length its →
  (∀ e', i ≠ 0 → its !! (i - 1) = Some e' → num_ltb e'.2 e.2 = true) →
  (∀ e', its !! i = Some e' → num_leb e.2 e'.2 = true) →
  StronglySorted vle (BMSSP.splice_in i e its).
Proof.
  intros Hs Hi Hlo Hhi. unfold BMSSP.splice_in.
  pose proof Hs as Hs'. rewrite <- (take_drop i its) in Hs'.
  apply StronglySorted_app in Hs' as (Hcross & Hs1 & Hs2).
  apply StronglySorted_app_2; [|done|].
  - intros x1 x2 Hx1 [->|Hx2]%elem_of_cons; [|by apply Hcross].
    apply list_elem_of_lookup in Hx1 as [j Hj].
    pose proof (lookup_lt_Some _ _ _ Hj) as Hlt. rewrite length_take in Hlt.
    rewrite lookup_take_lt in Hj by lia.
    destruct (its !! (i - 1)) as [e'|] eqn:He'.
    2:{ apply lookup_ge_None in He'. lia. }
    assert (vle x1 e') as H1
      by (eapply (StronglySorted_lookup vle its j (i - 1)); [done..|lia]).
    apply num_ltb_leb. eapply num_leb_ltb_trans; [apply H1|]. apply Hlo; [lia|done].
  - constructor; [done|]. apply Forall_forall. intros y Hy.
    apply list_elem_of_lookup in Hy as [j Hj]. rewrite lookup_drop in Hj.
    destruct (its !! i) as [e'|] eqn:He'.
    2:{ apply lookup_ge_None in He'. apply lookup_lt_Some in Hj. lia. }
    assert (vle e' y) as H1
      by (eapply (StronglySorted_lookup vle its i (i + j)); [done..|lia]).
    unfold vle. eapply num_leb_trans; [by apply Hhi|done].
Qed.


(** ** The binary heap [MinHeap] *)

(** No entry is below its parent. *)
Definition heap_ok (els : BMSSP.Heap) : Prop :=
  ∀ i e p, 0 < i → els !! i = Some e → els !! ((i + 1) / 2 - 1) = Some p →
           num_leb p.2 e.2 = true.

Lemma parent_lt i : 0 < i → (i + 1) / 2 - 1 < i.
Proof. intros. pose proof (Nat.Div0.div_le_upper_bound (i + 1) 2 i). lia. Qed.

Lemma parent_child i n :
  0 < i → (i + 1) / 2 - 1 = n ↔ i = (n + 1) * 2 - 1 ∨ i = (n + 1) * 2.
Proof.
  intros Hi. pose proof (Nat.div_mod_eq (i + 1) 2) as E.
  pose proof (Nat.mod_upper_bound (i + 1) 2). lia.
Qed.

Lemma heap_ok_root els r i e :
  heap_ok els → els !! 0 = Some r → els !! i = Some e → num_leb r.2 e.2 = true.
Proof.
  intros Hh Hr. revert e. induction i as [i IH] using lt_wf_ind. intros e He.
  destruct (decide (i = 0)) as [->|Hi]; [simplify_eq; apply num_leb_refl|].
  pose proof (parent_lt i ltac:(lia)) as Hlt.
  destruct (els !! ((i + 1) / 2 - 1)) as [p|] eqn:Hp.
  2:{ apply lookup_ge_None in Hp. apply lookup_lt_Some in He. lia. }
  eapply num_leb_trans; [by apply (IH _ Hlt)|]. eapply Hh; [|done..]. lia.
Qed.

Lemma heap_push_last els node dist :
  Forall (λ e : NodeRef * num, num_leb e.2 dist = true) els →
  BMSSP.heap_push els node dist = els ++ [(node, dist)].
Proof.
  intros Hall. unfold BMSSP.heap_push, BMSSP.bubbleUpAt.
  rewrite length_app. simpl. replace (length els + 1 - 1) with (length els) by lia.
  rewrite lookup_app_r, Nat.sub_diag by lia. simpl.
  destruct (0 <? length els) eqn:E0; [|done].
  apply Nat.ltb_lt in E0. pose proof (parent_lt _ E0) as Hlt.
  rewrite lookup_app_l by done.
  destruct (els !! _) as [p|] eqn:Hp; [|done].
  rewrite Forall_forall in Hall. specialize (Hall p (list_elem_of_lookup_2 _ _ _ Hp)).
  unfold num_geb. simpl. by rewrite Hall.
Qed.

Lemma heap_ok_snoc els e :
  heap_ok els → Forall (λ e' : NodeRef * num, num_leb e'.2 e.2 = true) els →
  heap_ok (els ++ [e]).
Proof.
  intros Hh Hall i x p Hi Hx Hp. pose proof (parent_lt i Hi) as Hlt.
  destruct (decide (i < length els)) as [Hil|Hil].
  - rewrite lookup_app_l in Hx, Hp by lia. by eapply Hh.
  - assert (i = length els) as ->.
    { apply lookup_lt_Some in Hx. rewrite length_app in Hx. simpl in Hx. lia. }
    rewrite lookup_app_r, Nat.sub_diag in Hx by lia. simpl in Hx. simplify_eq.
    rewrite lookup_app_l in Hp by lia.
    rewrite Forall_forall in Hall. apply Hall. by eapply list_elem_of_lookup_2.
Qed.
(** The heap order holds everywhere but below position [n], whose parent
    is not above the children of [n]. *)
Definition sift_inv (els : BMSSP.Heap) (n : nat) : Prop :=
  (∀ i e p, 0 < i → (i + 1) / 2 - 1 ≠ n → els !! i = Some e →
            els !! ((i + 1) / 2 - 1) = Some p → num_leb p.2 e.2 = true) ∧
  (∀ c x gp, 0 < n → 0 < c → (c + 1) / 2 - 1 = n → els !! c = Some x →
             els !! ((n + 1) / 2 - 1) = Some gp → num_leb gp.2 x.2 = true).

Lemma sift_done els n el :
  sift_inv els n → els !! n = Some el →
  (∀ c x, c = (n + 1) * 2 - 1 ∨ c = (n + 1) * 2 → els !! c = Some x →
          num_leb el.2 x.2 = true) →
  heap_ok els.
Proof.
  intros [Ha _] Hn Hch i e p Hi He Hp.
  destruct (decide ((i + 1) / 2 - 1 = n)) as [Hq|Hq]; [|by eapply Ha].
  rewrite Hq in Hp. simplify_eq. eapply Hch; [|done]. by apply parent_child.
Qed.

Lemma sift_swap els n el sw c :
  sift_inv els n → els !! n = Some el → els !! sw = Some c →
  sw = (n + 1) * 2 - 1 ∨ sw = (n + 1) * 2 →
  num_ltb c.2 el.2 = true →
  (∀ s x, s = (n + 1) * 2 - 1 ∨ s = (n + 1) * 2 → els !! s = Some x →
          num_leb c.2 x.2 = true) →
  sift_inv (<[sw := el]> (<[n := c]> els)) sw.
Proof.
  intros [Ha Hb] Hn Hsw Hsw' Hlt Hsib.
  assert (n < sw) as Hnsw by lia.
  assert ((sw + 1) / 2 - 1 = n) as Hpsw by (apply parent_child; [lia|done]).
  pose proof (lookup_lt_Some _ _ _ Hn) as Hln.
  pose proof (lookup_lt_Some _ _ _ Hsw) as Hlsw.
  assert (∀ j, (<[sw := el]> (<[n := c]> els)) !! j =
               if decide (j = sw) then Some el
               else if decide (j = n) then Some c else els !! j) as Hlk.
  { intros j. destruct (decide (j = sw)) as [->|?].
    - apply list_lookup_insert_eq. by rewrite length_insert.
    - rewrite list_lookup_insert_ne by done. destruct (decide (j = n)) as [->|?].
      + by apply list_lookup_insert_eq.
      + by rewrite list_lookup_insert_ne. }
  split.
  - intros i e p Hi Hq. rewrite !Hlk. intros He Hp.
    pose proof (parent_lt i Hi) as Hpi.
    destruct (decide (i = sw)) as [->|Hisw].
    { rewrite Hpsw in Hp. rewrite decide_False, decide_True in Hp by lia.
      simplify_eq. by apply num_ltb_leb. }
    destruct (decide (i = n)) as [->|Hin].
    { rewrite decide_False, decide_False in Hp by lia. simplify_eq.
      eapply (Hb sw); [lia|lia|done|done|done]. }
    rewrite decide_False in Hp by done.
    destruct (decide ((i + 1) / 2 - 1 = n)) as [Hqn|Hqn].
    + simplify_eq. eapply Hsib; [|done]. by apply parent_child.
    + by eapply Ha.
  - intros gc x gp H0 Hgc Hpg. rewrite !Hlk, Hpsw.
    pose proof (parent_lt gc Hgc) as Hpgc.
    rewrite (decide_False (P := gc = sw)), (decide_False (P := gc = n)) by lia.
    rewrite (decide_False (P := n = sw)), (decide_True (P := n = n)) by lia.
    intros Hx [= <-]. eapply (Ha gc); [done|lia|done|]. by rewrite Hpg.
Qed.

Lemma bubbleDown_ok fuel els n el :
  els !! n = Some el → length els - n ≤ fuel → sift_inv els n →
  heap_ok (BMSSP.bubbleDown fuel els n el).
Proof.
  revert els n. induction fuel as [|fuel IH]; intros els n Hn Hf Hinv.
  { apply lookup_lt_Some in Hn. lia. }
  cbn [BMSSP.bubbleDown].
  set (c2N := (n + 1) * 2). set (c1N := c2N - 1).
  assert (∀ sw c, els !! sw = Some c → sw = c1N ∨ sw = c2N →
            num_ltb c.2 el.2 = true →
            (∀ s x, s = c1N ∨ s = c2N → els !! s = Some x →
                    num_leb c.2 x.2 = true) →
            heap_ok (BMSSP.bubbleDown fuel (<[sw := el]> (<[n := c]> els)) sw el))
    as Hstep.
  { intros sw c Hsw Hsw' Hlt Hsib. apply IH.
    - apply list_lookup_insert_eq. rewrite length_insert. by eapply lookup_lt_Some.
    - rewrite !length_insert. subst c1N c2N. lia.
    - by apply sift_swap. }
  destruct (els !! c1N) as [c1|] eqn:H1; destruct (els !! c2N) as [c2|] eqn:H2;
    cbn [fmap option_fmap option_map default snd]; unfold id.
  - destruct (num_ltb c1.2 el.2) eqn:E1.
    + destruct (num_ltb c2.2 c1.2) eqn:E2.
      * rewrite H2. apply Hstep; [done|by right| |].
        { eapply num_ltb_leb_trans; [done|by apply num_ltb_leb]. }
        intros s x [->| ->] Hx; simplify_eq; [by apply num_ltb_leb|apply num_leb_refl].
      * rewrite H1. apply Hstep; [done|by left|done|].
        intros s x [->| ->] Hx; simplify_eq; [apply num_leb_refl|by apply num_ltb_false].
    + destruct (num_ltb c2.2 el.2) eqn:E2.
      * rewrite H2. apply Hstep; [done|by right|done|].
        intros s x [->| ->] Hx; simplify_eq; [|apply num_leb_refl].
        apply num_ltb_leb. eapply num_ltb_leb_trans; [done|by apply num_ltb_false].
      * eapply sift_done; [done..|].
        intros c x [->| ->] Hx; fold c2N in Hx; fold c1N in Hx; simplify_eq;
          by apply num_ltb_false.
  - destruct (num_ltb c1.2 el.2) eqn:E1.
    + rewrite H1. apply Hstep; [done|by left|done|].
      intros s x [->| ->] Hx; simplify_eq. apply num_leb_refl.
    + eapply sift_done; [done..|].
      intros c x [->| ->] Hx; fold c2N in Hx; fold c1N in Hx; simplify_eq.
      by apply num_ltb_false.
  - apply lookup_ge_None in H1. apply lookup_lt_Some in H2. subst c1N. lia.
  - eapply sift_done; [done..|].
    intros c x [->| ->] Hx; fold c2N in Hx; fold c1N in Hx; simplify_eq.
Qed.
(** [pop] returns an entry of least key and leaves a heap. *)
Lemma heap_pop_ok (els : BMSSP.Heap) :
  heap_ok els → els ≠ [] →
  ∃ m els', BMSSP.heap_pop els = Some (m, els') ∧ m :: els' ≡ₚ els ∧
            heap_ok els' ∧ Forall (λ e, num_leb m.2 e.2 = true) els.
Proof.
  intros Hh Hne. destruct els as [|m rest]; [done|].
  assert (Forall (λ e : NodeRef * num, num_leb m.2 e.2 = true) (m :: rest)) as Hmin.
  { apply Forall_forall. intros e [i Hi]%list_elem_of_lookup.
    by eapply (heap_ok_root (m :: rest) m i). }
  destruct (BMSSP.heap_pop (m :: rest)) as [[m' els']|] eqn:Hpop.
  2:{ unfold BMSSP.heap_pop in Hpop. by repeat case_match. }
  pose proof (heap_pop_perm _ _ _ Hpop) as Hperm.
  exists m', els'. unfold BMSSP.heap_pop in Hpop.
  destruct (decide (rest = [])) as [->|Hrest].
  { simpl in Hpop. simplify_eq. split_and!; [done..| |done].
    intros i e p _ He. by rewrite lookup_nil in He. }
  destruct (exists_last Hrest) as (rest' & e & ->).
  change (m :: rest' ++ [e]) with ((m :: rest') ++ [e]) in *.
  rewrite removelast_last, last_snoc in Hpop. cbn beta iota zeta in Hpop.
  set (bd := BMSSP.bubbleDown _ _ _ _) in *.
  assert (heap_ok bd) as Hbd.
  { subst bd. apply bubbleDown_ok; [done|lia|]. split; [|lia].
    intros i x p Hi Hq Hx Hp. pose proof (parent_lt i Hi) as Hlt.
    apply (Hh i x p Hi).
    - destruct i; [lia|]. simpl in *. apply lookup_app_l_Some, Hx.
    - destruct ((i + 1) / 2 - 1) eqn:E; [done|]. simpl in *.
      apply lookup_app_l_Some, Hp. }
  by simplify_eq.
Qed.

Lemma heap_contains_elem (els : BMSSP.Heap) v :
  BMSSP.heap_contains els v = true ↔ v ∈ els.*1.
Proof.
  unfold BMSSP.heap_contains. rewrite existsb_exists, list_elem_of_fmap.
  split.
  - intros (e & He & Hv). apply bool_decide_eq_true in Hv. exists e.
    split; [done|]. by apply list_elem_of_In.
  - intros (e & -> & He). exists e. split; [by apply list_elem_of_In|].
    by apply bool_decide_eq_true.
Qed.

(** [decreaseKey] with the key the entry already has changes nothing. *)
Lemma heap_decreaseKey_same (els : BMSSP.Heap) v key :
  Forall (λ e : NodeRef * num, e.1 = v → e.2 = key) els →
  BMSSP.heap_decreaseKey els v key = els.
Proof.
  intros Hall. unfold BMSSP.heap_decreaseKey.
  destruct (BMSSP.findIndex _ _) as [idx|] eqn:Hfi; [|done].
  apply findIndex_Some in Hfi as (e & He & Hev). rewrite He.
  apply bool_decide_eq_true in Hev. rewrite Forall_forall in Hall.
  rewrite (Hall e) by (by eapply list_elem_of_lookup_2 || done).
  by rewrite num_ltb_irrefl.
Qed.

Lemma num_leb_false a b : num_leb a b = false → num_ltb b a = true.
Proof.
  destruct a, b; unfold num_leb, num_ltb; try done.
  intros ?%Nat.leb_gt. by apply Nat.ltb_lt.
Qed.

(** The heap order holds everywhere but between position [n] and its
    parent, which is not above the children of [n]. *)
Definition rise_inv (els : BMSSP.Heap) (n : nat) : Prop :=
  (∀ i e p, 0 < i → i ≠ n → els !! i = Some e →
            els !! ((i + 1) / 2 - 1) = Some p → num_leb p.2 e.2 = true) ∧
  (∀ c x gp, 0 < n → 0 < c → (c + 1) / 2 - 1 = n → els !! c = Some x →
             els !! ((n + 1) / 2 - 1) = Some gp → num_leb gp.2 x.2 = true).

Lemma bubbleUp_ok fuel : ∀ els n el,
  els !! n = Some el → n < fuel → rise_inv els n →
  heap_ok (BMSSP.bubbleUp fuel els n el).
Proof.
  induction fuel as [|fuel IH]; intros els n el Hn Hf [Ha Hb]; [lia|].
  cbn [BMSSP.bubbleUp]. destruct (0 <? n) eqn:E0.
  2:{ apply Nat.ltb_ge in E0. intros i e p Hi He Hp. eapply Ha; [done|lia|done..]. }
  apply Nat.ltb_lt in E0. pose proof (parent_lt n E0) as Hq.
  set (q := (n + 1) / 2 - 1) in *.
  destruct (els !! q) as [p|] eqn:Hp.
  2:{ apply lookup_ge_None in Hp. apply lookup_lt_Some in Hn. lia. }
  unfold num_geb. destruct (num_leb p.2 el.2) eqn:Hle.
  { intros i e p' Hi He Hp'. destruct (decide (i = n)) as [->|Hne].
    - fold q in Hp'. by simplify_eq.
    - by eapply Ha. }
  apply num_leb_false in Hle as Hlt.
  pose proof (lookup_lt_Some _ _ _ Hn) as Hln.
  set (els' := <[n := p]> (<[q := el]> els)).
  assert (els' !! n = Some p) as Hkn.
  { apply list_lookup_insert_eq. by rewrite length_insert. }
  assert (els' !! q = Some el) as Hkq.
  { unfold els'. rewrite list_lookup_insert_ne by lia. apply list_lookup_insert_eq. lia. }
  assert (∀ j, j ≠ n → j ≠ q → els' !! j = els !! j) as Hko.
  { intros j ? ?. unfold els'. by rewrite !list_lookup_insert_ne. }
  apply IH; [done|lia|]. split.
  - intros i e p' Hi Hiq He Hp'. pose proof (parent_lt i Hi) as Hpi.
    destruct (decide (i = n)) as [->|Hin].
    { fold q in Hp'. rewrite Hkq in Hp'. rewrite Hkn in He. simplify_eq.
      by apply num_ltb_leb. }
    rewrite Hko in He by done.
    destruct (decide ((i + 1) / 2 - 1 = n)) as [Hpn|Hpn].
    { rewrite Hpn, Hkn in Hp'. simplify_eq.
      eapply (Hb i); [done|done|done|done|]. fold q. done. }
    destruct (decide ((i + 1) / 2 - 1 = q)) as [Hpq|Hpq].
    { rewrite Hpq, Hkq in Hp'. simplify_eq.
      apply num_ltb_leb. eapply num_ltb_leb_trans; [done|].
      eapply (Ha i); [done|done|done|]. by rewrite Hpq. }
    rewrite Hko in Hp' by done. by eapply Ha.
  - intros c x gp H0 Hc Hpc Hx Hgp. pose proof (parent_lt q H0) as Hpq.
    rewrite Hko in Hgp by lia.
    assert (num_leb gp.2 p.2 = true) as Hgpp.
    { eapply (Ha q); [done|lia|done|done]. }
    destruct (decide (c = n)) as [->|Hcn]; [rewrite Hkn in Hx; by simplify_eq|].
    pose proof (parent_lt c Hc). rewrite Hko in Hx by lia.
    eapply num_leb_trans; [done|]. eapply (Ha c); [done|done|done|]. by rewrite Hpc.
Qed.

Lemma heap_push_ok (els : BMSSP.Heap) node dist :
  heap_ok els → heap_ok (BMSSP.heap_push els node dist).
Proof.
  intros Hh. unfold BMSSP.heap_push, BMSSP.bubbleUpAt.
  rewrite length_app. cbn [length].
  replace (length els + 1 - 1) with (length els) by lia.
  assert ((els ++ [(node, dist)]) !! length els = Some (node, dist)) as Hl
    by (by rewrite lookup_app_r, Nat.sub_diag by lia).
  rewrite Hl. apply bubbleUp_ok; [done|lia|].
  split.
  - intros i e p Hi Hin He Hp. pose proof (parent_lt i Hi).
    assert (i < length els).
    { apply lookup_lt_Some in He. rewrite length_app in He. simpl in He. lia. }
    rewrite lookup_app_l in He, Hp by lia. by eapply Hh.
  - intros c x gp _ Hc Hpc Hx. apply lookup_lt_Some in Hx.
    rewrite length_app in Hx. simpl in Hx. apply parent_child in Hpc; lia.
Qed.

Lemma heap_decreaseKey_ok (els : BMSSP.Heap) node dist :
  heap_ok els → heap_ok (BMSSP.heap_decreaseKey els node dist).
Proof.
  intros Hh. unfold BMSSP.heap_decreaseKey.
  destruct (BMSSP.findIndex _ _) as [idx|] eqn:Hfi; [|done].
  destruct (els !! idx) as [e|] eqn:He; [|done].
  destruct (num_ltb dist e.2) eqn:Hlt; [|done].
  pose proof (lookup_lt_Some _ _ _ He) as Hlen.
  unfold BMSSP.bubbleUpAt. rewrite list_lookup_insert_eq by done.
  apply bubbleUp_ok; [by rewrite list_lookup_insert_eq|lia|].
  split.
  - intros i x p Hi Hin Hx Hp. rewrite list_lookup_insert_ne in Hx by done.
    destruct (decide ((i + 1) / 2 - 1 = idx)) as [Hq|Hq].
    + assert (num_leb e.2 x.2 = true) as Hex.
      { eapply (Hh i); [done|done|]. by rewrite Hq. }
      rewrite Hq, list_lookup_insert_eq in Hp by done. injection Hp as <-. simpl.
      apply num_ltb_leb. by eapply num_ltb_leb_trans.
    + rewrite list_lookup_insert_ne in Hp by done. by eapply Hh.
  - intros c x gp H0 Hc Hpc Hx Hgp. pose proof (parent_lt idx H0).
    pose proof (parent_lt c Hc).
    rewrite list_lookup_insert_ne in Hx, Hgp by lia.
    eapply num_leb_trans; [by eapply (Hh idx)|].
    eapply (Hh c); [done|done|]. by rewrite Hpc.
Qed.

(** A heap of three entries, in heap order, for the examples. *)
Definition heap3 : BMSSP.Heap :=
  [((0, 0), Fin 1); ((0, 1), Fin 3); ((1, 0), Fin 2)].

Lemma heap3_ok : heap_ok heap3.
Proof.
  intros i e p Hi He Hp. destruct i as [|[|[|i]]]; [lia|..]; by simplify_eq/=.
Qed.

(** X1.  [MinHeap.pop] on a non-empty array that is in heap order returns
    an entry whose key is least among all entries, and leaves the other
    entries, again in heap order. *)
Theorem heap_pop_least (els : BMSSP.Heap) :
  heap_ok els → els ≠ [] →
  ∃ m els', BMSSP.heap_pop els = Some (m, els') ∧ m :: els' ≡ₚ els ∧
            heap_ok els' ∧ Forall (λ e, num_leb m.2 e.2 = true) els.
Proof. apply heap_pop_ok. Qed.

Lemma heap_pop_least_witness :
  ∃ m els', BMSSP.heap_pop heap3 = Some (m, els') ∧ m :: els' ≡ₚ heap3 ∧
            heap_ok els' ∧ Forall (λ e, num_leb m.2 e.2 = true) heap3.
Proof. apply heap_pop_least; [apply heap3_ok|done]. Defined.

(** X2.  [MinHeap.push] keeps the heap order, and the array holds the
    entries it held and the pushed one. *)
Theorem heap_push_order (els : BMSSP.Heap) node dist :
  heap_ok els →
  heap_ok (BMSSP.heap_push els node dist) ∧
  BMSSP.heap_push els node dist ≡ₚ (node, dist) :: els.
Proof. intros H. split; [by apply heap_push_ok|apply heap_push_perm]. Qed.

Lemma heap_push_order_witness :
  heap_ok (BMSSP.heap_push heap3 (1, 1) (Fin 0)) ∧
  BMSSP.heap_push heap3 (1, 1) (Fin 0) ≡ₚ ((1, 1), Fin 0) :: heap3.
Proof. apply heap_push_order, heap3_ok. Defined.

(** X3.  [MinHeap.decreaseKey] keeps the heap order and the nodes of the
    heap.  When the nodes of the heap are distinct: a key below the one
    recorded for the node is recorded in its place; with any other key, or
    for a node that the heap does not hold, the heap is left as it is. *)
Theorem heap_decreaseKey_order (els : BMSSP.Heap) node dist :
  heap_ok els → NoDup els.*1 →
  let els' := BMSSP.heap_decreaseKey els node dist in
  heap_ok els' ∧ els'.*1 ≡ₚ els.*1 ∧
  (node ∉ els.*1 → els' = els) ∧
  (∀ k, (node, k) ∈ els →
        if num_ltb dist k
        then (node, dist) ∈ els' ∧ (node, k) ∉ els'
        else els' = els).
Proof.
  intros Hh Hnd els'. split_and!.
  - by apply heap_decreaseKey_ok.
  - apply heap_decreaseKey_nodes.
  - intros Hn. subst els'. unfold BMSSP.heap_decreaseKey.
    destruct (BMSSP.findIndex _ _) as [idx|] eqn:Hfi; [|done].
    apply findIndex_Some in Hfi as (e & He & Hev).
    apply bool_decide_eq_true in Hev. destruct Hn.
    apply list_elem_of_fmap. exists e. split; [done|]. by eapply list_elem_of_lookup_2.
  - intros k Hk. subst els'. unfold BMSSP.heap_decreaseKey.
    destruct (BMSSP.findIndex _ _) as [idx|] eqn:Hfi.
    2:{ apply findIndex_None in Hfi. rewrite Forall_forall in Hfi.
        specialize (Hfi _ Hk). by apply bool_decide_eq_false in Hfi. }
    apply findIndex_Some in Hfi as (e & He & Hev).
    apply bool_decide_eq_true in Hev. rewrite He.
    assert (e = (node, k)) as ->.
    { apply list_elem_of_lookup in Hk as [j Hj].
      assert (idx = j) as ->; [|congruence].
      eapply NoDup_lookup; [done| |].
      - by rewrite list_lookup_fmap, He.
      - by rewrite list_lookup_fmap, Hj, Hev. }
    simpl. destruct (num_ltb dist k) eqn:Hlt; [|done].
    pose proof (lookup_lt_Some _ _ _ He) as Hlen.
    assert ((node, dist) ∈ <[idx := (node, dist)]> els) as Hin.
    { eapply list_elem_of_lookup_2. by apply list_lookup_insert_eq. }
    split; [by rewrite bubbleUpAt_perm|]. rewrite bubbleUpAt_perm.
    intros [j Hj]%list_elem_of_lookup.
    destruct (decide (j = idx)) as [->|Hne].
    + rewrite list_lookup_insert_eq in Hj by done.
      injection Hj as ->. by rewrite num_ltb_irrefl in Hlt.
    + rewrite list_lookup_insert_ne in Hj by done.
      apply Hne. eapply NoDup_lookup; [done| |].
      * by rewrite list_lookup_fmap, Hj.
      * by rewrite list_lookup_fmap, He.
Qed.

Lemma heap3_nodup : NoDup heap3.*1.
Proof. compute_done. Qed.

Lemma heap_decreaseKey_order_witness :
  let els' := BMSSP.heap_decreaseKey heap3 (1, 0) (Fin 0) in
  heap_ok els' ∧ els'.*1 ≡ₚ heap3.*1 ∧
  ((1, 0) ∉ heap3.*1 → els' = heap3) ∧
  (∀ k, ((1, 0), k) ∈ heap3 →
        if num_ltb (Fin 0) k
        then ((1, 0), Fin 0) ∈ els' ∧ ((1, 0), k) ∉ els'
        else els' = heap3).
Proof. apply heap_decreaseKey_order; [apply heap3_ok|apply heap3_nodup]. Defined.


Section BmsspExact.
Context (g0 : Grid) (startNode : NodeRef).
Hypothesis g0_rect : rectangular g0.
Hypothesis start_in : inGrid g0 startNode.
Hypothesis start_open : isWall (getNode g0 startNode) = false.

(** Every recorded distance is the length of a shortest walk. *)
Definition exact_dist (g : Grid) : Prop :=
  ∀ x k, distance (getNode g x) = Fin k → shortest g0 startNode x k.

(** A reached node with a neighbour that is not reached yet. *)
Definition pending (g : Grid) (w : NodeRef) : Prop :=
  good g0 g w ∧ ∃ v, open_edge g0 w v ∧ distance (getNode g v) = Infinity.

(** [u] may relax its edges: if it can discover a node, no pending node is
    nearer to the start. *)
Definition safe (g : Grid) (u : NodeRef) : Prop :=
  pending g u → ∀ w, pending g w → dist_of g u ≤ dist_of g w.

(** The distances recorded in [g] are still recorded in [g']. *)
Definition keeps (g g' : Grid) : Prop :=
  ∀ x, reached g x → distance (getNode g' x) = distance (getNode g x).

Record ginv (g : Grid) : Prop := mkGinv {
  gi_binv : binv g0 startNode g;
  gi_exact : exact_dist g;
}.

Lemma keeps_refl g : keeps g g.
Proof. done. Qed.

Lemma keeps_reached g g' x : keeps g g' → reached g x → reached g' x.
Proof. intros H [k Hk]. exists k. by rewrite H; [|exists k]. Qed.

Lemma keeps_trans g1 g2 g3 : keeps g1 g2 → keeps g2 g3 → keeps g1 g3.
Proof.
  intros H1 H2 x Hx. rewrite H2 by (by eapply keeps_reached). by apply H1.
Qed.

Lemma keeps_dist_of g g' x : keeps g g' → reached g x → dist_of g' x = dist_of g x.
Proof. intros H Hx. unfold dist_of. by rewrite H. Qed.

Lemma ginv_shape g : ginv g → same_shape g0 g.
Proof. intros H. apply (gi_binv _ H). Qed.

Lemma ginv_wall g x : ginv g → isWall (getNode g x) = isWall (getNode g0 x).
Proof. intros H. apply (ginv_shape g H). Qed.

Lemma good_keeps g g' x :
  ginv g → ginv g' → keeps g g' → good g0 g x → good g0 g' x.
Proof.
  intros H H' Hk (Hin & Hw & Hre). split_and!; [done| |by eapply keeps_reached].
  by rewrite ginv_wall, <- (ginv_wall g).
Qed.

Lemma walk_open k x :
  walk g0 startNode k x → inGrid g0 x ∧ isWall (getNode g0 x) = false.
Proof. by induction 1. Qed.

Lemma reached_dist g x : reached g x → distance (getNode g x) = Fin (dist_of g x).
Proof. intros [k Hk]. unfold dist_of. by rewrite Hk. Qed.

Lemma good_dist g x : good g0 g x → distance (getNode g x) = Fin (dist_of g x).
Proof. intros (_ & _ & Hre). by apply reached_dist. Qed.

(** Recorded distances differ by at most one along an edge. *)
Lemma exact_edge g u v :
  exact_dist g → reached g u → open_edge g0 u v → reached g v →
  dist_of g v ≤ dist_of g u + 1.
Proof.
  intros He Hu (Hadj & Hin & Hw) Hv.
  destruct (He u _ (reached_dist g u Hu)) as [Hwu _].
  destruct (He v _ (reached_dist g v Hv)) as [_ Hmin].
  pose proof (Hmin (S (dist_of g u)) (walk_step _ _ _ _ _ Hwu Hadj Hin Hw)). lia.
Qed.

(** A walk that ends outside the reached nodes passes a pending node. *)
Lemma walk_crossing g k v :
  ginv g → walk g0 startNode k v → distance (getNode g v) = Infinity →
  ∃ w, pending g w ∧ dist_of g w < k.
Proof.
  intros H Hw. induction Hw as [|k u v Hw IH Hadj Hin Hwall]; intros Hv.
  { destruct (bi_start _ _ _ (gi_binv _ H)) as (_ & E & _). congruence. }
  destruct (distance (getNode g u)) as [j|] eqn:Hu.
  - exists u. destruct (gi_exact _ H u j Hu) as [_ Hmin].
    pose proof (Hmin k Hw). unfold dist_of. rewrite Hu. split; [|lia].
    destruct (walk_open _ _ Hw) as [Hinu Hwu]. split.
    + split_and!; [done|by rewrite ginv_wall|by exists j].
    + by exists v.
  - destruct (IH eq_refl) as (w & Hp & Hlt). exists w. split; [done|lia].
Qed.

(** The guarded write of a relaxation, from a node that may relax. *)
Lemma write_exact g u v :
  ginv g → good g0 g u → open_edge g0 u v → safe g u →
  num_leb (num_add (distance (getNode g u)) (Fin 1)) (distance (getNode g v)) = true →
  let g' := BMSSP.writeDistance g u v in
  ginv g' ∧ keeps g g' ∧
  distance (getNode g' v) = Fin (dist_of g u + 1) ∧
  (∀ x, x ≠ v → getNode g' x = getNode g x) ∧
  (∀ x, isVisited (getNode g' x) = isVisited (getNode g x)).
Proof.
  intros H Hu He Hsafe Hle g'.
  pose proof (ginv_shape g H) as Hshape.
  destruct He as (Hadj & Hin & Hw).
  assert (isWall (getNode g v) = false) as Hw' by (by rewrite ginv_wall).
  assert (inGrid g v) as Hin'.
  { destruct Hshape as (_ & Hr & Hc & _). unfold inGrid in *. by rewrite Hr, Hc. }
  pose proof (good_dist g u Hu) as Hdu. rewrite Hdu in Hle.
  change (num_add (Fin (dist_of g u)) (Fin 1)) with (Fin (dist_of g u + 1)) in Hle.
  assert (getNode g' v =
          set_previousNode (Some u) (set_distance (Fin (dist_of g u + 1)) (getNode g v)))
    as Hv.
  { unfold g', BMSSP.writeDistance. rewrite getNode_updNode_eq; [|apply Hshape|done].
    by rewrite Hdu. }
  assert (∀ x, x ≠ v → getNode g' x = getNode g x) as Hne.
  { intros x Hx. unfold g', BMSSP.writeDistance. by rewrite getNode_updNode_ne. }
  assert (distance (getNode g' v) = Fin (dist_of g u + 1)) as Hdv by (by rewrite Hv).
  assert (binv g0 startNode g') as Hb.
  { eapply binv_step; [apply H|]. apply bs_write; try done. by rewrite Hdu. }
  assert (∀ x, isVisited (getNode g' x) = isVisited (getNode g x)) as Hvis.
  { intros x. destruct (decide (x = v)) as [->|Hx]; [by rewrite Hv|by rewrite Hne]. }
  destruct (distance (getNode g v)) as [dv|] eqn:Hdv0.
  - assert (dv = dist_of g u + 1) as ->.
    { apply num_leb_le in Hle.
      pose proof (exact_edge g u v (gi_exact _ H)) as Hedge.
      unfold dist_of at 1 in Hedge. rewrite Hdv0 in Hedge.
      assert (reached g v) as Hrv by (by exists dv).
      specialize (Hedge (proj2 (proj2 Hu)) (conj Hadj (conj Hin Hw)) Hrv). lia. }
    assert (∀ x, distance (getNode g' x) = distance (getNode g x)) as Hsame.
    { intros x. destruct (decide (x = v)) as [->|Hx]; [by rewrite Hdv|by rewrite Hne]. }
    split_and!; try done.
    + split; [done|]. intros x k Hk. rewrite Hsame in Hk. by apply H.
    + intros x _. apply Hsame.
  - assert (pending g u) as Hpu.
    { split; [done|]. exists v. by split_and!. }
    split_and!; try done.
    + split; [done|]. intros x k Hk. destruct (decide (x = v)) as [->|Hx].
      * rewrite Hdv in Hk. injection Hk as <-.
        destruct (gi_exact _ H u _ Hdu) as [Hwu _]. split.
        -- rewrite Nat.add_1_r. by eapply walk_step.
        -- intros k' Hk'.
           destruct (walk_crossing g k' v H Hk' Hdv0) as (w & Hpw & Hlt).
           pose proof (Hsafe Hpu w Hpw). lia.
      * rewrite Hne in Hk by done. by apply H.
    + intros x [k Hk]. destruct (decide (x = v)) as [->|Hx]; [congruence|].
      by rewrite Hne.
Qed.


Record D_ok (g : Grid) (D : BMSSP.StructureD) : Prop := mkDok {
  dk_sorted : StronglySorted vle (BMSSP.items D);
  dk_nodup : NoDup (BMSSP.items D).*1;
  dk_vals : Forall (λ e, good g0 g e.1 ∧ e.2 = distance (getNode g e.1) ∧
                         num_leb e.2 (BMSSP.dB D) = true) (BMSSP.items D);
  dk_M : 0 < BMSSP.dM D;
}.

Lemma D_initialize_ok g M B : 0 < M → D_ok g (BMSSP.D_initialize M B).
Proof. intros HM. split; simpl; [constructor|constructor|constructor|done]. Qed.

(** [insert] of a node with its recorded distance: the node is added if it
    is not there, and nothing else changes. *)
Lemma D_insert_spec g D v :
  D_ok g D → good g0 g v →
  num_leb (distance (getNode g v)) (BMSSP.dB D) = true →
  let D' := BMSSP.D_insert D v (distance (getNode g v)) in
  D_ok g D' ∧ BMSSP.dM D' = BMSSP.dM D ∧ BMSSP.dB D' = BMSSP.dB D ∧
  ((v ∈ (BMSSP.items D).*1 ∧ D' = D) ∨
   ((v ∉ (BMSSP.items D).*1) ∧
    BMSSP.items D' ≡ₚ (v, distance (getNode g v)) :: BMSSP.items D)).
Proof.
  intros HD Hv HB D'. subst D'. unfold BMSSP.D_insert.
  destruct (BMSSP.findIndex _ _) as [idx|] eqn:Hfi.
  - apply findIndex_Some in Hfi as (e & He & Hev).
    apply bool_decide_eq_true in Hev. rewrite He. simpl.
    pose proof (dk_vals _ _ HD) as Hvals. rewrite Forall_forall in Hvals.
    destruct (Hvals e) as (_ & Heq & _); [by eapply list_elem_of_lookup_2|].
    rewrite Heq, Hev, num_ltb_irrefl. split_and!; [done..|]. left. split; [|done].
    apply list_elem_of_fmap. exists e. split; [done|]. by eapply list_elem_of_lookup_2.
  - apply findIndex_None in Hfi.
    assert (v ∉ (BMSSP.items D).*1) as Hnin.
    { intros (e & -> & He)%list_elem_of_fmap. rewrite Forall_forall in Hfi.
      specialize (Hfi e He). by apply bool_decide_eq_false in Hfi. }
    set (val := distance (getNode g v)) in *.
    destruct (bsearch_spec (BMSSP.items D) val (S (length (BMSSP.items D))) 0
                (length (BMSSP.items D))) as (Hr & Hlo & Hhi); [lia|lia|lia|done| |].
    { intros e He. apply lookup_lt_Some in He. lia. }
    set (r := BMSSP.bsearch _ _ _ _ _) in *.
    pose proof (splice_in_perm r (v, val) (BMSSP.items D)) as Hperm.
    split_and!; [|done|done|right; by split].
    split; simpl.
    + apply splice_in_sorted; [apply HD|done|done|done].
    + rewrite Hperm. simpl. constructor; [done|apply HD].
    + rewrite Hperm. constructor; [by split_and!|apply HD].
    + apply HD.
Qed.

Lemma D_insert_nodes g D v y :
  D_ok g D → good g0 g v →
  num_leb (distance (getNode g v)) (BMSSP.dB D) = true →
  y ∈ (BMSSP.items (BMSSP.D_insert D v (distance (getNode g v)))).*1 ↔
  y = v ∨ y ∈ (BMSSP.items D).*1.
Proof.
  intros HD Hv HB.
  destruct (D_insert_spec g D v HD Hv HB) as (_ & _ & _ & [[Hin ->]|[Hnin Hp]]).
  - split; [by right|]. by intros [->|?].
  - rewrite Hp. simpl. apply elem_of_cons.
Qed.

(** Nodes in the order of their recorded distance. *)
Definition dle (g : Grid) (a b : NodeRef) : Prop := dist_of g a ≤ dist_of g b.

Lemma D_nodes_sorted g its :
  Forall (λ e : NodeRef * num, good g0 g e.1 ∧ e.2 = distance (getNode g e.1)) its →
  StronglySorted vle its → StronglySorted (dle g) its.*1.
Proof.
  intros Hv Hs. induction Hs as [|e l Hs IH He]; simpl; [constructor|].
  inversion Hv as [|? ? [Hge Hve] Hvl]; subst. constructor; [by apply IH|].
  apply Forall_fmap, Forall_forall. intros e' He'. simpl.
  rewrite Forall_forall in He, Hvl. specialize (He e' He').
  destruct (Hvl e' He') as [Hge' Hve']. unfold vle in He. rewrite Hve, Hve' in He.
  rewrite (good_dist g e.1), (good_dist g e'.1) in He by done.
  unfold dle. by apply num_leb_le in He.
Qed.

Lemma D_ok_app g its1 its2 M B :
  D_ok g (BMSSP.mkD (its1 ++ its2) M B) → D_ok g (BMSSP.mkD its2 M B).
Proof.
  intros [Hs Hn Hv HM]. simpl in *. split; simpl; [| | |done].
  - by apply StronglySorted_app in Hs as (_ & _ & ?).
  - rewrite fmap_app in Hn. by apply NoDup_app in Hn as (_ & _ & ?).
  - by apply Forall_app in Hv as [_ ?].
Qed.

Lemma D_ok_keeps g g' D :
  ginv g → ginv g' → keeps g g' → D_ok g D → D_ok g' D.
Proof.
  intros Hg Hg' Hk [Hs Hn Hv HM]. split; [done..| |done].
  eapply Forall_impl; [done|]. intros e (He & Hval & HB). split_and!; [| |done].
  - by apply (good_keeps g).
  - rewrite Hk; [done|apply He].
Qed.

(** [pull] takes a prefix of the items, at most [M] of them, and reports the
    value of the first item it leaves, or the outer bound. *)
Lemma D_pull_spec g D :
  D_ok g D → BMSSP.items D ≠ [] →
  ∃ pre rest, BMSSP.items D = pre ++ rest ∧ pre ≠ [] ∧ length pre ≤ BMSSP.dM D ∧
    BMSSP.D_pull D =
      (BMSSP.mkD rest (BMSSP.dM D) (BMSSP.dB D),
       match rest with [] => BMSSP.dB D | i :: _ => i.2 end, pre.*1).
Proof.
  intros HD Hne. unfold BMSSP.D_pull.
  destruct (BMSSP.items D) as [|e its] eqn:Hits; [done|].
  set (count := Nat.min _ _).
  exists (take count (e :: its)), (drop count (e :: its)).
  pose proof (dk_M _ _ HD) as HM.
  assert (0 < count) as Hc by (subst count; cbn [length]; lia).
  split_and!.
  - by rewrite take_drop.
  - destruct count; [lia|done].
  - rewrite length_take. subst count. lia.
  - done.
Qed.
(** *** The tree of the discoveries *)

(** [b] is one step farther than [a] along an open edge. *)
Definition tree_edge (g : Grid) (a b : NodeRef) : Prop :=
  good g0 g a ∧ open_edge g0 a b ∧ distance (getNode g b) = Fin (dist_of g a + 1).

(** [y] is reached from a node of [Z] along such edges. *)
Definition descends (g : Grid) (Z : list NodeRef) (y : NodeRef) : Prop :=
  ∃ z, z ∈ Z ∧ good g0 g z ∧ rtc (tree_edge g) z y.

(** What a sequence of relaxations does to the distances: it keeps the
    recorded ones, and a node it discovers hangs below a node that was
    pending. *)
Definition evolves (g g' : Grid) : Prop :=
  keeps g g' ∧
  ∀ v, distance (getNode g v) = Infinity → reached g' v →
       ∃ w c, pending g w ∧ tree_edge g' w c ∧ rtc (tree_edge g') c v.

(** Every pending node is at distance [b] at least. *)
Definition front (g : Grid) (b : nat) : Prop :=
  ∀ w, pending g w → b ≤ dist_of g w.

Lemma open_edge_good g a b :
  ginv g → open_edge g0 a b → reached g b → good g0 g b.
Proof.
  intros Hg (_ & Hin & Hw) Hr. split_and!; [done| |done]. by rewrite ginv_wall.
Qed.

Lemma tree_edge_good_l g a b : tree_edge g a b → good g0 g a.
Proof. by intros [? _]. Qed.

Lemma tree_edge_good_r g a b : ginv g → tree_edge g a b → good g0 g b.
Proof. intros Hg (_ & He & Hd). eapply open_edge_good; [done..|]. by eexists. Qed.

Lemma tree_edge_dist g a b : tree_edge g a b → dist_of g b = dist_of g a + 1.
Proof. intros (_ & _ & Hd). unfold dist_of at 1. by rewrite Hd. Qed.

Lemma rtc_tree_good g a b : ginv g → good g0 g a → rtc (tree_edge g) a b → good g0 g b.
Proof.
  intros Hg Ha Hr. induction Hr as [|x y z Hxy _ IH]; [done|].
  apply IH. by eapply tree_edge_good_r.
Qed.

Lemma rtc_tree_dist g a b : rtc (tree_edge g) a b → dist_of g a ≤ dist_of g b.
Proof.
  induction 1 as [|x y z Hxy _ IH]; [done|]. apply tree_edge_dist in Hxy. lia.
Qed.

Lemma rtc_tree_inv g a b :
  rtc (tree_edge g) a b → a = b ∨ dist_of g a < dist_of g b.
Proof.
  intros Hr. destruct Hr as [|x y z Hxy Hyz]; [by left|right].
  apply tree_edge_dist in Hxy. apply rtc_tree_dist in Hyz. lia.
Qed.

Lemma tree_edge_keeps g g' a b :
  ginv g → ginv g' → keeps g g' → tree_edge g a b → tree_edge g' a b.
Proof.
  intros Hg Hg' Hk Hab. pose proof (tree_edge_good_r g a b Hg Hab) as Hb.
  destruct Hab as (Ha & He & Hd). split_and!; [by apply (good_keeps g)|done|].
  rewrite Hk by apply Hb. rewrite (keeps_dist_of g g'); [done..|apply Ha].
Qed.

Lemma rtc_tree_keeps g g' a b :
  ginv g → ginv g' → keeps g g' → rtc (tree_edge g) a b → rtc (tree_edge g') a b.
Proof.
  intros Hg Hg' Hk. induction 1 as [|x y z Hxy _ IH]; [done|].
  eapply rtc_l; [by apply (tree_edge_keeps g)|done].
Qed.

Lemma descends_good g Z y : ginv g → descends g Z y → good g0 g y.
Proof. intros Hg (z & _ & Hz & Hr). by eapply rtc_tree_good. Qed.

Lemma descends_keeps g g' Z y :
  ginv g → ginv g' → keeps g g' → descends g Z y → descends g' Z y.
Proof.
  intros Hg Hg' Hk (z & Hz & Hgz & Hr). exists z.
  split_and!; [done|by apply (good_keeps g)|by apply (rtc_tree_keeps g)].
Qed.

Lemma descends_self g Z z : z ∈ Z → good g0 g z → descends g Z z.
Proof. intros. by exists z. Qed.

Lemma descends_mono g Z Z' y : Z ⊆ Z' → descends g Z y → descends g Z' y.
Proof. intros HZ (z & Hz & ?). exists z. split; [by apply HZ|done]. Qed.

Lemma descends_step g Z a b : descends g Z a → tree_edge g a b → descends g Z b.
Proof.
  intros (z & Hz & Hgz & Hr) Hab. exists z. split_and!; [done..|].
  eapply rtc_r; done.
Qed.

Lemma descends_rtc g Z a b : descends g Z a → rtc (tree_edge g) a b → descends g Z b.
Proof.
  intros (z & Hz & Hgz & Hr) Hab. exists z. split_and!; [done..|]. by etrans.
Qed.

Lemma descends_trans g Z Z' y :
  (∀ z, z ∈ Z → descends g Z' z) → descends g Z y → descends g Z' y.
Proof. intros HZ (z & Hz & _ & Hr). eapply descends_rtc; [by apply HZ|done]. Qed.

Lemma pending_good g w : pending g w → good g0 g w.
Proof. by intros [? _]. Qed.

(** A node that was reached and is pending now was pending before. *)
Lemma pending_anti g g' w :
  ginv g → ginv g' → keeps g g' → reached g w → pending g' w → pending g w.
Proof.
  intros Hg Hg' Hk Hw ((Hin & Hwall & _) & v & He & Hv). split.
  - split_and!; [done| |done]. by rewrite ginv_wall, <- (ginv_wall g').
  - exists v. split; [done|]. destruct (distance (getNode g v)) as [k|] eqn:E; [|done].
    rewrite Hk in Hv by (by exists k). congruence.
Qed.

Lemma evolves_refl g : evolves g g.
Proof.
  split; [apply keeps_refl|]. intros v Hv [k Hk]. congruence.
Qed.

Lemma evolves_keeps g g' : evolves g g' → keeps g g'.
Proof. by intros [? _]. Qed.

Lemma evolves_trans g1 g2 g3 :
  ginv g1 → ginv g2 → ginv g3 → evolves g1 g2 → evolves g2 g3 → evolves g1 g3.
Proof.
  intros H1 H2 H3 [K12 F12] [K23 F23]. split; [by eapply keeps_trans|].
  intros v Hv Hv3.
  destruct (distance (getNode g2 v)) as [k|] eqn:E2.
  - destruct (F12 v Hv) as (w & c & Hw & Hwc & Hcv); [by exists k|].
    exists w, c.
    split_and!; [done|by apply (tree_edge_keeps g2)|by apply (rtc_tree_keeps g2)].
  - destruct (F23 v E2 Hv3) as (w & c & Hw & Hwc & Hcv).
    destruct (distance (getNode g1 w)) as [k|] eqn:E1.
    + exists w, c. split_and!; [|done..].
      apply (pending_anti g1 g2); [done..|by exists k|done].
    + destruct (F12 w E1) as (w' & c' & Hw' & Hwc' & Hcw); [apply Hw|].
      exists w', c'. split_and!; [done|by apply (tree_edge_keeps g2)|].
      etrans; [by apply (rtc_tree_keeps g2)|]. eapply rtc_l; done.
Qed.

(** A discovered node is farther than some node that was pending. *)
Lemma evolves_fresh g g' v :
  ginv g → ginv g' → evolves g g' → distance (getNode g v) = Infinity → reached g' v →
  ∃ w, pending g w ∧ dist_of g w < dist_of g' v.
Proof.
  intros Hg Hg' [Hk Hf] Hv Hv'. destruct (Hf v Hv Hv') as (w & c & Hw & Hwc & Hcv).
  exists w. split; [done|]. apply tree_edge_dist in Hwc. apply rtc_tree_dist in Hcv.
  rewrite (keeps_dist_of g g' w) in Hwc; [lia|done|apply Hw].
Qed.

Lemma front_evolves g g' b :
  ginv g → ginv g' → evolves g g' → front g b → front g' b.
Proof.
  intros Hg Hg' He Hf w Hw.
  destruct (distance (getNode g w)) as [k|] eqn:E.
  - rewrite (keeps_dist_of g g'); [|apply He|by exists k].
    apply Hf. apply (pending_anti g g'); [done|done|apply He|by exists k|done].
  - destruct (evolves_fresh g g' w) as (w' & Hw' & Hlt); [done..|apply Hw|].
    specialize (Hf w' Hw'). lia.
Qed.

(** A node that may relax may still relax later. *)
Lemma safe_evolves g g' u :
  ginv g → ginv g' → evolves g g' → reached g u → safe g u → safe g' u.
Proof.
  intros Hg Hg' He Hu Hs Hpu w Hw.
  assert (pending g u) as Hpu0.
  { apply (pending_anti g g'); [done|done|apply He|done..]. }
  rewrite (keeps_dist_of g g' u); [|apply He|done].
  apply (front_evolves g g'); [done..| |done]. intros w'. by apply Hs.
Qed.

Lemma safe_front g u b : front g b → dist_of g u ≤ b → safe g u.
Proof. intros Hf Hu _ w Hw. specialize (Hf w Hw). lia. Qed.

Lemma safe_idle g u : ¬ pending g u → safe g u.
Proof. by intros Hn Hp. Qed.
(** *** States: every grid the run has shown records shortest distances *)

Definition points_ok (st : BMSSP.State) : Prop := Forall ginv (BMSSP.points st).

(** [st'] comes later in a run than [st]. *)
Definition advances (st st' : BMSSP.State) : Prop :=
  points_ok st' ∧ evolves (BMSSP.gridRef st) (BMSSP.gridRef st').

Lemma points_ok_ginv st : points_ok st → ginv (BMSSP.gridRef st).
Proof. intros H. by inversion H. Qed.

Lemma advances_refl st : points_ok st → advances st st.
Proof. intros H. split; [done|apply evolves_refl]. Qed.

Lemma advances_trans st1 st2 st3 :
  points_ok st1 → advances st1 st2 → advances st2 st3 → advances st1 st3.
Proof.
  intros H1 [H2 E12] [H3 E23]. split; [done|].
  apply (evolves_trans _ (BMSSP.gridRef st2)); auto using points_ok_ginv.
Qed.

Lemma advances_ginv st st' : advances st st' → ginv (BMSSP.gridRef st').
Proof. intros [H _]. by apply points_ok_ginv. Qed.

Lemma advances_store st g' tr :
  points_ok st → ginv g' → evolves (BMSSP.gridRef st) g' →
  advances st (BMSSP.store st g' tr).
Proof. intros H Hg He. split; [by constructor|done]. Qed.

Lemma getNeighbors_iff g u v :
  same_shape g0 g → inGrid g0 u →
  v ∈ BMSSP.getNeighbors u g ↔ open_edge g0 u v.
Proof.
  intros (Hrect & Hr & Hc & Hw) Hin. unfold BMSSP.getNeighbors, open_edge.
  rewrite list_elem_of_filter, gridNeighbors_spec, Hw
    by (unfold inGrid in *; by rewrite Hr, Hc).
  unfold inGrid. rewrite Hr, Hc. tauto.
Qed.

Lemma ginv_mark g u :
  ginv g → good g0 g u → isVisited (getNode g u) = false →
  let g' := updNode g u (set_isVisited true) in
  ginv g' ∧ ∀ x, distance (getNode g' x) = distance (getNode g x).
Proof.
  intros Hg Hu Hv g'.
  assert (∀ x, distance (getNode g' x) = distance (getNode g x)) as Hd.
  { intros x. unfold g'.
    destruct (getNode_updNode_cases g u x (set_isVisited true)) as [->|[_ ->]]; done. }
  split; [|done]. split.
  - eapply binv_step; [apply Hg|]. by constructor.
  - intros x k Hk. rewrite Hd in Hk. by apply Hg.
Qed.

Lemma same_dist_evolves g g' :
  (∀ x, distance (getNode g' x) = distance (getNode g x)) → evolves g g'.
Proof.
  intros Hd. split; [by intros x _|]. intros v Hv [k Hk]. rewrite Hd in Hk. congruence.
Qed.

Lemma markVisited_adv st u :
  points_ok st → good g0 (BMSSP.gridRef st) u →
  advances st (BMSSP.markVisited st u).
Proof.
  intros Hst Hu. unfold BMSSP.markVisited.
  destruct (isVisited _) eqn:Hv; [by apply advances_refl|].
  destruct (ginv_mark (BMSSP.gridRef st) u) as [Hg Hd];
    [by apply points_ok_ginv|done..|].
  apply advances_store; [done..|]. by apply same_dist_evolves.
Qed.

(** The write of a relaxation that passes its test. *)
Lemma write_adv st u v tr :
  points_ok st → good g0 (BMSSP.gridRef st) u → open_edge g0 u v →
  safe (BMSSP.gridRef st) u →
  num_leb (num_add (distance (getNode (BMSSP.gridRef st) u)) (Fin 1))
          (distance (getNode (BMSSP.gridRef st) v)) = true →
  let st' := BMSSP.store st (BMSSP.writeDistance (BMSSP.gridRef st) u v) tr in
  advances st st' ∧ tree_edge (BMSSP.gridRef st') u v.
Proof.
  intros Hst Hu He Hs Hle st'. pose proof (points_ok_ginv st Hst) as Hg.
  destruct (write_exact _ u v Hg Hu He Hs Hle) as (Hg' & Hk & Hdv & Hne & _).
  assert (tree_edge (BMSSP.gridRef st') u v) as Ht.
  { split_and!; [by apply (good_keeps (BMSSP.gridRef st))|done|].
    simpl. rewrite Hdv. f_equal. f_equal. symmetry.
    apply keeps_dist_of; [done|apply Hu]. }
  split; [|done]. apply advances_store; [done..|]. split; [done|].
  intros x Hx Hx'. destruct (decide (x = v)) as [->|Hxv].
  - exists u, v. split_and!; [|done..]. split; [done|]. by exists v.
  - destruct Hx' as [k Hk']. subst st'. cbn [BMSSP.gridRef BMSSP.store] in Hk'.
    rewrite Hne in Hk' by done. congruence.
Qed.

(** A test that fails tells that the neighbour is reached. *)
Lemma guard_false g u v :
  num_leb (num_add (distance (getNode g u)) (Fin 1)) (distance (getNode g v)) = false →
  reached g v.
Proof.
  destruct (distance (getNode g v)) as [k|] eqn:E; [by exists k|].
  unfold num_leb, num_add. by repeat case_match.
Qed.

(** A test that passes on a reached neighbour: the neighbour is one step
    farther. *)
Lemma guard_true g u v :
  ginv g → good g0 g u → open_edge g0 u v → reached g v →
  num_leb (num_add (distance (getNode g u)) (Fin 1)) (distance (getNode g v)) = true →
  tree_edge g u v.
Proof.
  intros Hg Hu He Hv Hle. split_and!; [done..|].
  pose proof (exact_edge g u v (gi_exact _ Hg) (proj2 (proj2 Hu)) He Hv) as Hle'.
  rewrite (good_dist g u Hu), (reached_dist g v Hv) in Hle.
  change (num_add (Fin (dist_of g u)) (Fin 1)) with (Fin (dist_of g u + 1)) in Hle.
  apply num_leb_le in Hle. rewrite (reached_dist g v Hv). f_equal. lia.
Qed.

Lemma tree_edge_guard g u v :
  tree_edge g u v →
  num_leb (num_add (distance (getNode g u)) (Fin 1)) (distance (getNode g v)) = true.
Proof.
  intros (Hu & _ & Hd). rewrite (good_dist g u Hu), Hd.
  change (num_add (Fin (dist_of g u)) (Fin 1)) with (Fin (dist_of g u + 1)).
  by apply num_leb_le.
Qed.
(** *** Covers: where the pending nodes are *)

(** Every pending node is at distance [B] at least or below a node of [Z]. *)
Definition cover (g : Grid) (B : num) (Z : list NodeRef) : Prop :=
  ∀ w, pending g w → num_leb B (Fin (dist_of g w)) = true ∨ descends g Z w.

Lemma cover_evolves g g' B Z :
  ginv g → ginv g' → evolves g g' → cover g B Z → cover g' B Z.
Proof.
  intros Hg Hg' He Hc w Hw.
  destruct (distance (getNode g w)) as [k|] eqn:E.
  - assert (reached g w) as Hr by (by exists k).
    destruct (Hc w) as [HB|Hd].
    + apply (pending_anti g g'); [done|done|apply He|done..].
    + left. by rewrite (keeps_dist_of g g'); [|apply He|].
    + right. apply (descends_keeps g); [done..|apply He|done].
  - destruct He as [Hk Hf].
    destruct (Hf w E) as (w0 & c & Hw0 & Hwc & Hcw); [apply Hw|].
    assert (dist_of g w0 ≤ dist_of g' w) as Hle.
    { rewrite <- (keeps_dist_of g g' w0); [|done|apply Hw0].
      apply tree_edge_dist in Hwc. apply rtc_tree_dist in Hcw. lia. }
    destruct (Hc w0 Hw0) as [HB|Hd].
    + left. eapply num_leb_trans; [done|]. by apply num_leb_le.
    + right. eapply descends_rtc; [by apply (descends_keeps g)|].
      eapply rtc_l; done.
Qed.

Lemma cover_mono g B Z Z' :
  (∀ z, z ∈ Z → descends g Z' z) → cover g B Z → cover g B Z'.
Proof.
  intros HZ Hc w Hw. destruct (Hc w Hw) as [?|Hd]; [by left|right].
  by eapply descends_trans.
Qed.

(** A node that is not pending may leave a cover once its children are
    in it. *)
Lemma cover_drop g B u Z Z' :
  ginv g → ¬ pending g u →
  (∀ c, tree_edge g u c →
        num_leb B (distance (getNode g c)) = true ∨ descends g Z' c) →
  (∀ z, z ∈ Z → descends g Z' z) →
  cover g B (u :: Z) → cover g B Z'.
Proof.
  intros Hg Hu Hch HZ Hc w Hw. destruct (Hc w Hw) as [?|Hd]; [by left|].
  destruct Hd as (z & [->|Hz]%elem_of_cons & Hgz & Hr).
  - destruct Hr as [|x c y Hxc Hcy]; [done|].
    destruct (Hch c Hxc) as [HB|Hd].
    + left. eapply num_leb_trans; [done|].
      rewrite (good_dist g c) by (by eapply tree_edge_good_r).
      apply num_leb_le. by apply rtc_tree_dist.
    + right. by eapply descends_rtc.
  - right. eapply descends_rtc; [by apply HZ|done].
Qed.

Lemma tree_edge_back g g' a b :
  keeps g g' → good g0 g a → reached g b → tree_edge g' a b → tree_edge g a b.
Proof.
  intros Hk Ha Hb (_ & He & Hd). split_and!; [done..|].
  rewrite <- (Hk b Hb), Hd. by rewrite (keeps_dist_of g g'); [|done|apply Ha].
Qed.
(** *** The relaxation of the edges out of one node

    The three sites differ in the test they add to [<=] and in what they
    record of a neighbour that passes.  What they have in common: the
    neighbours that pass are the children of the node in the tree of the
    grid they leave, and the node is not pending afterwards. *)
Section RelaxFold.
Context {X A : Type} (mk : BMSSP.State → A → X) (f : X → NodeRef → X).
Context (h : A → NodeRef → num → A) (u : NodeRef).

Definition relax_site : Prop :=
  ∀ st acc v, good g0 (BMSSP.gridRef st) u →
    let g := BMSSP.gridRef st in
    let nd := num_add (distance (getNode g u)) (Fin 1) in
    (num_leb nd (distance (getNode g v)) = true →
     ∃ tr, f (mk st acc) v = mk (BMSSP.store st (BMSSP.writeDistance g u v) tr)
                                (h acc v nd)) ∧
    (num_leb nd (distance (getNode g v)) = false → f (mk st acc) v = mk st acc).

Hypothesis f_site : relax_site.

Lemma relax_fold_list N : ∀ st acc,
  points_ok st → good g0 (BMSSP.gridRef st) u → safe (BMSSP.gridRef st) u →
  (∀ v, v ∈ N → open_edge g0 u v) →
  ∃ st' cs,
    foldl f (mk st acc) N =
      mk st' (foldl (λ a c, h a c (Fin (dist_of (BMSSP.gridRef st) u + 1))) acc cs) ∧
    advances st st' ∧
    (∀ v, v ∈ N → reached (BMSSP.gridRef st') v) ∧
    (∀ c, c ∈ cs ↔ c ∈ N ∧ tree_edge (BMSSP.gridRef st') u c).
Proof.
  induction N as [|v N IH]; intros st acc Hst Hu Hsafe HN.
  { exists st, []. split_and!; [done|by apply advances_refl| |].
    - by intros v ?%elem_of_nil.
    - intros c. rewrite !elem_of_nil. tauto. }
  pose proof (points_ok_ginv st Hst) as Hg.
  assert (open_edge g0 u v) as He by (apply HN; by left).
  destruct (f_site st acc v Hu) as [Hyes Hno]. cbn zeta in Hyes, Hno. simpl.
  destruct (num_leb _ (distance (getNode (BMSSP.gridRef st) v))) eqn:Hle.
  - destruct (Hyes eq_refl) as [tr ->].
    destruct (write_adv st u v tr Hst Hu He Hsafe Hle) as [Hadv Ht].
    set (st1 := BMSSP.store st _ tr) in *.
    pose proof (advances_ginv _ _ Hadv) as Hg1.
    assert (good g0 (BMSSP.gridRef st1) u) as Hu1 by apply Ht.
    destruct (IH st1 (h acc v (num_add (distance (getNode (BMSSP.gridRef st) u)) (Fin 1))))
      as (st' & cs & Heq & Hadv' & Hre & Hcs).
    { apply Hadv. }
    { done. }
    { apply (safe_evolves (BMSSP.gridRef st)); [done|done|apply Hadv|apply Hu|done]. }
    { intros x Hx. apply HN. by right. }
    pose proof (advances_ginv _ _ Hadv') as Hg'.
    assert (dist_of (BMSSP.gridRef st1) u = dist_of (BMSSP.gridRef st) u) as Hdu.
    { apply keeps_dist_of; [apply Hadv|apply Hu]. }
    exists st', (v :: cs). split_and!.
    + rewrite Heq, Hdu. simpl. by rewrite (good_dist _ u Hu).
    + by apply (advances_trans st st1).
    + intros x [->|Hx]%elem_of_cons; [|by apply Hre].
      eapply keeps_reached; [apply Hadv'|]. by eapply tree_edge_good_r.
    + intros c. rewrite !elem_of_cons, Hcs. split.
      * intros [->|[? ?]]; [|by auto].
        split; [by left|]. apply (tree_edge_keeps (BMSSP.gridRef st1)); [done..|apply Hadv'|done].
      * intros [[->|?] ?]; auto.
  - rewrite (Hno eq_refl).
    destruct (IH st acc Hst Hu Hsafe) as (st' & cs & Heq & Hadv' & Hre & Hcs).
    { intros x Hx. apply HN. by right. }
    pose proof (guard_false _ u v Hle) as Hv.
    exists st', cs. split_and!; [done|done| |].
    + intros x [->|Hx]%elem_of_cons; [|by apply Hre].
      eapply keeps_reached; [apply Hadv'|done].
    + intros c. rewrite elem_of_cons, Hcs. split; [by intros [? ?]; auto|].
      intros [[->|?] Ht]; [|done]. exfalso.
      apply (tree_edge_back (BMSSP.gridRef st)) in Ht; [|apply Hadv'|done..].
      apply tree_edge_guard in Ht. congruence.
Qed.

Lemma relax_fold st acc :
  points_ok st → good g0 (BMSSP.gridRef st) u → safe (BMSSP.gridRef st) u →
  ∃ st' cs,
    foldl f (mk st acc) (BMSSP.getNeighbors u (BMSSP.gridRef st)) =
      mk st' (foldl (λ a c, h a c (Fin (dist_of (BMSSP.gridRef st) u + 1))) acc cs) ∧
    advances st st' ∧ ¬ pending (BMSSP.gridRef st') u ∧
    (∀ c, c ∈ cs ↔ tree_edge (BMSSP.gridRef st') u c).
Proof.
  intros Hst Hu Hsafe. pose proof (points_ok_ginv st Hst) as Hg.
  pose proof (ginv_shape _ Hg) as Hshape.
  destruct (relax_fold_list (BMSSP.getNeighbors u (BMSSP.gridRef st)) st acc Hst Hu Hsafe)
    as (st' & cs & Heq & Hadv & Hre & Hcs).
  { intros v Hv. apply (getNeighbors_iff (BMSSP.gridRef st)); [done|apply Hu|done]. }
  exists st', cs. split_and!; [done..| |].
  - intros (_ & v & He & Hv). destruct (Hre v) as [k Hk]; [|congruence].
    apply getNeighbors_iff; [done|apply Hu|done].
  - intros c. rewrite Hcs. split; [by intros [_ ?]|]. intros Ht. split; [|done].
    apply getNeighbors_iff; [done|apply Hu|apply Ht].
Qed.
End RelaxFold.
(** *** [findPivots] *)

(** A list of reached nodes in the order of their distances, which span
    two layers at most and do not exceed [B]. *)
Record level_list (g : Grid) (B : num) (A : list NodeRef) : Prop := mkLevel {
  ll_good : Forall (good g0 g) A;
  ll_sorted : StronglySorted (dle g) A;
  ll_span : ∀ a a', a ∈ A → a' ∈ A → dist_of g a' ≤ dist_of g a + 1;
  ll_bound : ∀ a, a ∈ A → num_leb (distance (getNode g a)) B = true;
}.

Lemma goods_keeps g g' A :
  ginv g → ginv g' → keeps g g' → Forall (good g0 g) A → Forall (good g0 g') A.
Proof.
  intros Hg Hg' Hk HA. eapply Forall_impl; [done|]. intros x. by apply good_keeps.
Qed.

Lemma sorted_keeps g g' A :
  keeps g g' → Forall (good g0 g) A →
  StronglySorted (dle g) A → StronglySorted (dle g') A.
Proof.
  intros Hk HA Hs. induction Hs as [|a l Hs IH Ha]; [constructor|].
  inversion HA as [|? ? Hga Hgl]; subst. constructor; [by apply IH|].
  rewrite Forall_forall in Ha, Hgl |- *. intros y Hy. unfold dle.
  rewrite !(keeps_dist_of g g'); [by apply Ha|done|apply (Hgl y Hy)|done|apply Hga].
Qed.

Lemma level_list_keeps g g' B A :
  ginv g → ginv g' → keeps g g' → level_list g B A → level_list g' B A.
Proof.
  intros Hg Hg' Hk [H1 H2 H3 H4]. rewrite Forall_forall in H1. split.
  - apply (goods_keeps g); [done..|]. by apply Forall_forall.
  - apply (sorted_keeps g); [done| |done]. by apply Forall_forall.
  - intros a a' Ha Ha'.
    rewrite !(keeps_dist_of g g'); [by apply H3|done|apply (H1 a Ha)|done|apply (H1 a' Ha')].
  - intros a Ha. rewrite Hk; [by apply H4|apply (H1 a Ha)].
Qed.

Lemma fp_relax_site B u :
  relax_site (λ st Wc, (st, Wc)) (BMSSP.fp_relax B u)
             (λ Wc v nd, if num_ltb nd B then BMSSP.set_add v Wc else Wc) u.
Proof.
  intros st Wc v Hu g nd. unfold BMSSP.fp_relax. fold g. fold nd. split; intros ->; [|done].
  by eexists.
Qed.
(** What a round has recorded once it is through the nodes [pre]: they are
    not pending any more, and [Wc] lists children of theirs, in the order of
    the distances. *)
Record wave (B : num) (pre : list NodeRef) (g : Grid) (Wc : list NodeRef)
  : Prop := mkWave {
  wv_idle : Forall (λ a, ¬ pending g a) pre;
  wv_nodup : NoDup Wc;
  wv_child : Forall (λ c, ∃ a, a ∈ pre ∧ tree_edge g a c ∧
                          num_ltb (distance (getNode g c)) B = true) Wc;
  wv_sorted : StronglySorted (dle g) Wc;
}.

Lemma wave_keeps B pre g g' Wc :
  ginv g → ginv g' → keeps g g' → Forall (good g0 g) pre →
  wave B pre g Wc → wave B pre g' Wc.
Proof.
  intros Hg Hg' Hk Hpre [H1 H2 H3 H4].
  assert (Forall (good g0 g) Wc) as HWc.
  { eapply Forall_impl; [done|]. intros c (a & _ & Ht & _). by eapply tree_edge_good_r. }
  split; [|done| |by apply (sorted_keeps g)].
  - rewrite Forall_forall in H1, Hpre |- *. intros a Ha Hp.
    apply (H1 a Ha), (pending_anti g g'); [done..|apply (Hpre a Ha)|done].
  - rewrite Forall_forall in H3, HWc |- *. intros c Hc.
    destruct (H3 c Hc) as (a & Ha & Ht & HB). exists a.
    split_and!; [done|by apply (tree_edge_keeps g)|].
    rewrite Hk; [done|apply (HWc c Hc)].
Qed.

Lemma fp_wave B suf : ∀ pre st Wc,
  points_ok st → level_list (BMSSP.gridRef st) B (pre ++ suf) →
  wave B pre (BMSSP.gridRef st) Wc → cover (BMSSP.gridRef st) B (suf ++ Wc) →
  ∃ st' Wc',
    foldl (λ acc u, foldl (BMSSP.fp_relax B u) acc
                          (BMSSP.getNeighbors u (BMSSP.gridRef acc.1)))
          (st, Wc) suf = (st', Wc') ∧
    advances st st' ∧ wave B (pre ++ suf) (BMSSP.gridRef st') Wc' ∧
    cover (BMSSP.gridRef st') B Wc'.
Proof.
  induction suf as [|u suf IH]; intros pre st Wc Hst HA Hw Hc.
  { exists st, Wc. rewrite app_nil_r. split_and!; [done|by apply advances_refl|done..]. }
  pose proof (points_ok_ginv st Hst) as Hg.
  set (g := BMSSP.gridRef st) in *.
  assert (good g0 g u) as Hu.
  { pose proof (ll_good _ _ _ HA) as H. rewrite Forall_forall in H. apply H.
    apply elem_of_app. right. by left. }
  assert (∀ a, a ∈ pre → dist_of g a ≤ dist_of g u) as Hpre_u.
  { intros a Ha. pose proof (ll_sorted _ _ _ HA) as H.
    apply StronglySorted_app in H as (H & _ & _). apply H; [done|by left]. }
  assert (∀ c, c ∈ Wc → good g0 g c ∧ dist_of g c ≤ dist_of g u + 1 ∧
                         dist_of g u ≤ dist_of g c) as HWc.
  { intros c Hcin. pose proof (wv_child _ _ _ _ Hw) as H. rewrite Forall_forall in H.
    destruct (H c Hcin) as (a & Ha & Ht & _).
    split; [by eapply tree_edge_good_r|]. apply tree_edge_dist in Ht.
    pose proof (Hpre_u a Ha).
    pose proof (ll_span _ _ _ HA a u) as Hsp. rewrite !elem_of_app in Hsp.
    specialize (Hsp (or_introl Ha) (or_intror (list_elem_of_here _ _))). lia. }
  assert (safe g u) as Hsafe.
  { intros _ w Hpw. destruct (Hc w Hpw) as [HB|(z & Hz & Hgz & Hr)].
    - pose proof (ll_bound _ _ _ HA u) as Hb. rewrite elem_of_app in Hb.
      specialize (Hb (or_intror (list_elem_of_here _ _))).
      rewrite (good_dist g u Hu) in Hb. apply num_leb_le.
      by eapply num_leb_trans.
    - apply rtc_tree_dist in Hr.
      apply elem_of_app in Hz as [[->|Hz]%elem_of_cons|Hz].
      + done.
      + pose proof (ll_sorted _ _ _ HA) as H.
        apply StronglySorted_app in H as (_ & _ & H). inversion H as [|? ? _ H']; subst.
        rewrite Forall_forall in H'. specialize (H' z Hz). unfold dle in H'. lia.
      + destruct (HWc z Hz) as (_ & _ & ?). lia. }
  destruct (relax_fold (λ st Wc, (st, Wc)) (BMSSP.fp_relax B u) _ u (fp_relax_site B u)
              st Wc Hst Hu Hsafe) as (st1 & cs & Heq & Hadv & Hidle & Hcs).
  fold g in Heq. rewrite foldl_if_const in Heq.
  set (Wc1 := if num_ltb _ B then _ else Wc) in Heq.
  pose proof (advances_ginv _ _ Hadv) as Hg1.
  pose proof (evolves_keeps _ _ (proj2 Hadv)) as Hk. fold g in Hk.
  set (g1 := BMSSP.gridRef st1) in *.
  assert (dist_of g1 u = dist_of g u) as Hdu by (apply keeps_dist_of; [done|apply Hu]).
  assert (∀ c, c ∈ cs → good g0 g1 c ∧ distance (getNode g1 c) = Fin (dist_of g u + 1)) as Hcs'.
  { intros c Ht%Hcs. split; [by eapply tree_edge_good_r|].
    destruct Ht as (_ & _ & ->). by rewrite Hdu. }
  pose proof (level_list_keeps g g1 B _ Hg Hg1 Hk HA) as HA1.
  assert (Forall (good g0 g) pre) as Hgpre.
  { pose proof (ll_good _ _ _ HA) as H. by apply Forall_app in H as [? _]. }
  assert (wave B (pre ++ [u]) g1 Wc) as Hw1.
  { destruct (wave_keeps B pre g g1 Wc Hg Hg1 Hk Hgpre Hw) as [H1 H2 H3 H4].
    split; [|done| |done].
    - rewrite Forall_app. split; [done|by repeat constructor].
    - eapply Forall_impl; [done|]. intros c (a & Ha & ?). exists a.
      split; [|done]. apply elem_of_app. by left. }
  assert (wave B (pre ++ [u]) g1 Wc1 ∧ (∀ z, z ∈ Wc → z ∈ Wc1) ∧
          (∀ c, c ∈ cs → num_ltb (Fin (dist_of g u + 1)) B = true → c ∈ Wc1) ∧
          (∀ c, c ∈ Wc1 → good g0 g1 c)) as (Hw1' & HWsub & Hcsin & HgW).
  { subst Wc1. destruct (num_ltb (Fin (dist_of g u + 1)) B) eqn:Hb; cycle 1.
    { split_and!; [done|done|done|].
      intros c Hcin. apply (good_keeps g); [done..|]. by apply HWc. }
    destruct (set_add_fold_app Wc cs) as (new & Hnew & Hin).
    split_and!.
    - destruct Hw1 as [H1 H2 H3 H4]. split.
      + done.
      + by apply set_add_fold_nodup.
      + rewrite Hnew. apply Forall_app. split; [done|].
        apply Forall_forall. intros c Hcn. destruct (Hin c Hcn) as [Hccs _].
        exists u. split_and!; [apply elem_of_app; right; by left|by apply Hcs|].
        by rewrite (proj2 (Hcs' c Hccs)).
      + rewrite Hnew. apply StronglySorted_app. split_and!; [|done|].
        * intros x1 x2 Hx1 Hx2. unfold dle.
          destruct (HWc x1 Hx1) as (Hgx1 & Hle & _).
          rewrite (keeps_dist_of g g1 x1) by (done || apply Hgx1).
          destruct (Hcs' x2) as [_ Hd2]; [by apply Hin|].
          unfold dist_of at 2. by rewrite Hd2.
        * apply StronglySorted_flat. intros x y Hx Hy. unfold dle, dist_of.
          destruct (Hcs' x) as [_ ->]; [by apply Hin|].
          by destruct (Hcs' y) as [_ ->]; [by apply Hin|].
    - intros z Hz. apply set_add_fold_elem. by left.
    - intros c Hcin _. apply set_add_fold_elem. by right.
    - intros c [Hcin|Hcin]%set_add_fold_elem; [|by apply Hcs'].
      apply (good_keeps g); [done..|]. by apply HWc. }
  assert (cover g1 B (suf ++ Wc1)) as Hc1.
  { apply (cover_drop g1 B u (suf ++ Wc)); [done|done| | |].
    - intros c Ht. pose proof (proj2 (Hcs c) Ht) as Hccs.
      destruct (Hcs' c Hccs) as [Hgc Hdc]. rewrite Hdc.
      destruct (num_ltb (Fin (dist_of g u + 1)) B) eqn:Hb.
      + right. apply descends_self; [|done]. apply elem_of_app. right. by apply Hcsin.
      + left. by apply num_ltb_false.
    - intros z [Hz|Hz]%elem_of_app.
      + apply descends_self; [apply elem_of_app; by left|].
        pose proof (ll_good _ _ _ HA1) as H. rewrite Forall_forall in H. apply H.
        apply elem_of_app. right. by right.
      + apply descends_self; [apply elem_of_app; right; by apply HWsub|].
        apply HgW. by apply HWsub.
    - apply (cover_evolves g); [done..|apply Hadv|done]. }
  destruct (IH (pre ++ [u]) st1 Wc1) as (st' & Wc' & Heq' & Hadv' & Hw' & Hc').
  { apply Hadv. }
  { by rewrite <- app_assoc. }
  { done. }
  { done. }
  exists st', Wc'. split_and!.
  - cbn [foldl fst]. fold g. rewrite Heq. done.
  - by apply (advances_trans st st1).
  - by rewrite <- app_assoc in Hw'.
  - done.
Qed.
Lemma fp_merge_elem W Wl Wc y :
  y ∈ (BMSSP.fp_merge W Wl Wc).2 → y ∈ Wl ∨ y ∈ Wc.
Proof.
  unfold BMSSP.fp_merge.
  apply (foldl_inv _ (λ a : list NodeRef * list NodeRef, y ∈ a.2 → y ∈ Wl ∨ y ∈ Wc));
    [by left|].
  intros [W' Wl'] x Hx IH. destruct (includes x W'); [done|]. simpl in *.
  intros [?| ->%list_elem_of_singleton]%elem_of_app; auto.
Qed.

Lemma wave_level g B A Wc :
  ginv g → level_list g B A → wave B A g Wc → level_list g B Wc.
Proof.
  intros Hg HA [_ _ Hch Hs]. rewrite Forall_forall in Hch. split; [|done|..].
  - apply Forall_forall. intros c Hc. destruct (Hch c Hc) as (a & _ & Ht & _).
    by eapply tree_edge_good_r.
  - intros c c' Hc Hc'.
    destruct (Hch c Hc) as (a & Ha & Ht%tree_edge_dist & _).
    destruct (Hch c' Hc') as (a' & Ha' & Ht'%tree_edge_dist & _).
    pose proof (ll_span _ _ _ HA a a' Ha Ha'). lia.
  - intros c Hc. destruct (Hch c Hc) as (_ & _ & _ & HB). by apply num_ltb_leb.
Qed.

Lemma wave_descends g B A Wc S c :
  wave B A g Wc → Forall (descends g S) A → c ∈ Wc → descends g S c.
Proof.
  intros [_ _ Hch _] HA Hc. rewrite Forall_forall in Hch, HA.
  destruct (Hch c Hc) as (a & Ha & Ht & _). eapply descends_step; [by apply HA|done].
Qed.

Lemma fp_rounds_spec P B S rounds : ∀ st W A Wl,
  points_ok st → level_list (BMSSP.gridRef st) B A → cover (BMSSP.gridRef st) B A →
  Forall (descends (BMSSP.gridRef st) S) A →
  Forall (descends (BMSSP.gridRef st) S) Wl →
  ∃ st' Wl',
    BMSSP.fp_rounds P rounds B S st W A Wl = (st', Wl') ∧ advances st st' ∧
    Forall (descends (BMSSP.gridRef st') S) Wl' ∧ cover (BMSSP.gridRef st') B S ∧
    (0 < rounds → Forall (λ a, ¬ pending (BMSSP.gridRef st') a) A).
Proof.
  induction rounds as [|rounds IH]; intros st W A Wl Hst HA Hc HAS HWl.
  { exists st, Wl. split_and!; [done|by apply advances_refl|done| |lia].
    apply (cover_mono _ _ A); [|done]. by apply Forall_forall. }
  pose proof (points_ok_ginv st Hst) as Hg.
  destruct (fp_wave B A [] st []) as (st1 & Wc & Heq & Hadv & Hw & Hc1);
    [done|done| |by rewrite app_nil_r|].
  { split; constructor. }
  simpl in Hw. cbn [BMSSP.fp_rounds]. unfold BMSSP.fp_round. rewrite Heq.
  pose proof (advances_ginv _ _ Hadv) as Hg1.
  pose proof (evolves_keeps _ _ (proj2 Hadv)) as Hk.
  pose proof (level_list_keeps _ _ B A Hg Hg1 Hk HA) as HA1.
  assert (Forall (descends (BMSSP.gridRef st1) S) A) as HAS1.
  { eapply Forall_impl; [done|]. intros x. by apply descends_keeps. }
  assert (Forall (descends (BMSSP.gridRef st1) S) Wc) as HWcS.
  { apply Forall_forall. intros c. by eapply wave_descends. }
  destruct (BMSSP.fp_merge W Wl Wc) as [W' Wl'] eqn:Hm.
  assert (Forall (descends (BMSSP.gridRef st1) S) Wl') as HWl'.
  { apply Forall_forall. intros y Hy.
    pose proof (fp_merge_elem W Wl Wc y) as Hin. rewrite Hm in Hin.
    destruct (Hin Hy) as [H|H].
    - rewrite Forall_forall in HWl. apply (descends_keeps (BMSSP.gridRef st)); auto.
    - rewrite Forall_forall in HWcS. auto. }
  assert (cover (BMSSP.gridRef st1) B S) as HcS.
  { apply (cover_mono _ _ Wc); [|done]. by apply Forall_forall. }
  assert (∃ st' Wl'0, (st1, Wl') = (st', Wl'0) ∧ advances st st' ∧
            Forall (descends (BMSSP.gridRef st') S) Wl'0 ∧
            cover (BMSSP.gridRef st') B S ∧
            (0 < Datatypes.S rounds → Forall (λ a, ¬ pending (BMSSP.gridRef st') a) A))
    as Hexit.
  { exists st1, Wl'. split_and!; [done..|]. intros _. apply Hw. }
  destruct (_ <? _); [done|]. destruct (_ =? _); [done|].
  destruct (IH st1 W' Wc Wl') as (st' & Wl'' & Heq' & Hadv' & HWl'' & Hc' & _);
    [apply Hadv|by eapply wave_level|done..|].
  exists st', Wl''. split_and!; [done|by apply (advances_trans st st1)|done..|].
  intros _. pose proof (wv_idle _ _ _ _ Hw) as Hidle.
  rewrite Forall_forall in Hidle |- *. intros a Ha Hp. apply (Hidle a Ha).
  apply (pending_anti _ (BMSSP.gridRef st')); [done|by eapply advances_ginv|apply Hadv'| |done].
  pose proof (ll_good _ _ _ HA1) as H. rewrite Forall_forall in H. apply (H a Ha).
Qed.

(** [findPivots]: the sources are not pending afterwards, the nodes it
    returns hang below them, and so does every pending node nearer
    than [B]. *)
Lemma findPivots_spec P B S st :
  0 < BMSSP.k_param P → points_ok st → level_list (BMSSP.gridRef st) B S →
  NoDup S → cover (BMSSP.gridRef st) B S →
  ∃ st' W,
    BMSSP.findPivots P B S st = (st', S, W) ∧ advances st st' ∧
    Forall (λ a, ¬ pending (BMSSP.gridRef st') a) S ∧
    Forall (descends (BMSSP.gridRef st') S) W ∧ cover (BMSSP.gridRef st') B S.
Proof.
  intros Hk Hst HS Hnd Hc. unfold BMSSP.findPivots. rewrite set_of_NoDup by done.
  assert (Forall (descends (BMSSP.gridRef st) S) S) as HSS.
  { pose proof (ll_good _ _ _ HS) as H. rewrite Forall_forall in H |- *.
    intros x Hx. apply descends_self; auto. }
  destruct (fp_rounds_spec P B S (BMSSP.k_param P) st S S S)
    as (st' & W & -> & Hadv & HW & Hc' & Hidle); [done..|].
  exists st', W. split_and!; [done..|by apply Hidle|done|done].
Qed.
(** *** [baseCase] *)

Lemma NoDup_inGrid_length l :
  NoDup l → Forall (inGrid g0) l → length l ≤ rows g0 * cols g0.
Proof.
  intros Hnd Hin. rewrite <- length_cells.
  apply submseteq_length, NoDup_submseteq; [done|].
  intros x Hx. apply elem_of_cells. rewrite Forall_forall in Hin. by apply Hin.
Qed.

Lemma descends_cons_inv g u Z b :
  descends g (u :: Z) b →
  b = u ∨ (∃ c, tree_edge g u c ∧ rtc (tree_edge g) c b) ∨ descends g Z b.
Proof.
  intros (z & [->|Hz]%elem_of_cons & Hgz & Hr).
  - destruct Hr as [|x c y Hxc Hcy]; [by left|right; left]. by exists c.
  - right. right. by exists z.
Qed.

Lemma heap_ok_app (els new : BMSSP.Heap) nd :
  heap_ok els → Forall (λ e : NodeRef * num, num_leb e.2 nd = true) els →
  Forall (λ e : NodeRef * num, e.2 = nd) new → heap_ok (els ++ new).
Proof.
  revert els. induction new as [|e new IH]; intros els Hh Hle Hnew.
  { by rewrite app_nil_r. }
  inversion Hnew as [|? ? He Hnew']; subst.
  rewrite cons_middle, (assoc_L (++)). apply IH; [| |done].
  - by apply heap_ok_snoc.
  - apply Forall_app. split; [done|]. constructor; [|done]. apply num_leb_refl.
Qed.

(** What [baseCase] does with a neighbour that passes the test. *)
Definition bc_record (heap : BMSSP.Heap) (v : NodeRef) (nd : num) : BMSSP.Heap :=
  if BMSSP.heap_contains heap v then BMSSP.heap_decreaseKey heap v nd
  else BMSSP.heap_push heap v nd.

Lemma bc_relax_site u :
  relax_site (λ st heap, (st, heap)) (BMSSP.bc_relax Infinity u) bc_record u.
Proof.
  intros st heap v Hu g nd. unfold BMSSP.bc_relax. fold g.
  assert (num_ltb nd Infinity = true) as Hlt.
  { subst nd. by rewrite (good_dist g u Hu). }
  fold nd. rewrite Hlt, andb_true_r. split; intros ->; [|done]. by eexists.
Qed.

(** The children of the popped node go to the end of the heap, once each. *)
Lemma bc_record_fold nd cs : ∀ heap : BMSSP.Heap,
  Forall (λ e : NodeRef * num, num_leb e.2 nd = true) heap →
  (∀ e, e ∈ heap → e.1 ∈ cs → e.2 = nd) →
  ∃ new, foldl (λ a c, bc_record a c nd) heap cs = heap ++ new ∧
         Forall (λ e : NodeRef * num, e.2 = nd ∧ e.1 ∈ cs) new ∧
         ∀ c, c ∈ cs → c ∈ (heap ++ new).*1.
Proof.
  induction cs as [|c cs IH]; intros heap Hle Hkey; simpl.
  { exists []. rewrite app_nil_r. split_and!; [done|constructor|].
    by intros c ?%elem_of_nil. }
  unfold bc_record at 2. destruct (BMSSP.heap_contains heap c) eqn:Hc.
  - rewrite heap_decreaseKey_same.
    2:{ apply Forall_forall. intros e He <-. apply Hkey; [done|by left]. }
    destruct (IH heap Hle) as (new & -> & Hnew & Hin).
    { intros e He Hecs. apply Hkey; [done|by right]. }
    exists new. split_and!; [done| |].
    + eapply Forall_impl; [done|]. intros e [? ?]. split; [done|by right].
    + intros c' [->|Hc']%elem_of_cons; [|by apply Hin].
      rewrite fmap_app, elem_of_app. left. by apply heap_contains_elem.
  - rewrite heap_push_last by done.
    destruct (IH (heap ++ [(c, nd)])) as (new & -> & Hnew & Hin).
    { apply Forall_app. split; [done|]. constructor; [apply num_leb_refl|done]. }
    { intros e [He| ->%list_elem_of_singleton]%elem_of_app Hecs; [|done].
      apply Hkey; [done|by right]. }
    exists ((c, nd) :: new). rewrite <- (assoc_L (++)). split_and!; [done| |].
    + constructor; [split; [done|by left]|].
      eapply Forall_impl; [done|]. intros e [? ?]. split; [done|by right].
    + intros c' [->|Hc']%elem_of_cons.
      * rewrite fmap_app, elem_of_app. right. by left.
      * specialize (Hin c' Hc'). by rewrite <- (assoc_L (++)) in Hin.
Qed.
(** The loop of [baseCase] from the single source [x], without a bound:
    the heap holds the frontier of the search, ordered as a heap, over two
    layers at most. *)
Record bc_inv (x : NodeRef) (g : Grid) (U0 : list NodeRef) (heap : BMSSP.Heap)
  : Prop := mkBc {
  bc_heap_ok : heap_ok heap;
  bc_keys : Forall (λ e : NodeRef * num,
                      good g0 g e.1 ∧ e.2 = distance (getNode g e.1)) heap;
  bc_span : ∀ e e', e ∈ heap → e' ∈ heap → dist_of g e'.1 ≤ dist_of g e.1 + 1;
  bc_cover : cover g Infinity heap.*1;
  bc_child : ∀ a b, a ∈ U0 → tree_edge g a b → b ∈ U0 ∨ descends g heap.*1 b;
  bc_U0 : ∀ a, a ∈ U0 →
            descends g [x] a ∧ (a ∈ heap.*1 ∨ ¬ pending g a) ∧
            ∀ e, e ∈ heap → dist_of g a ≤ dist_of g e.1;
  bc_nodup : NoDup U0;
  bc_x : x ∈ U0;
  bc_heap_desc : ∀ e, e ∈ heap → descends g [x] e.1;
}.

Lemma bc_step x st U0 heap u dist heap' :
  points_ok st → bc_inv x (BMSSP.gridRef st) U0 heap →
  BMSSP.heap_pop heap = Some ((u, dist), heap') →
  let st1 := BMSSP.markVisited st u in
  let r := foldl (BMSSP.bc_relax Infinity u) (st1, heap')
                 (BMSSP.getNeighbors u (BMSSP.gridRef st1)) in
  num_geb dist Infinity = false ∧ advances st r.1 ∧
  bc_inv x (BMSSP.gridRef r.1) (BMSSP.set_add u U0) r.2.
Proof.
  intros Hst [Hok Hkeys Hspan Hcov Hchild HU0 Hnd Hx Hdesc] Hpop st1 r.
  pose proof (points_ok_ginv st Hst) as Hg. set (g := BMSSP.gridRef st) in *.
  assert (heap ≠ []) as Hne by (by intros ->).
  destruct (heap_pop_ok heap Hok Hne) as (m & els' & Hpop' & Hperm & Hok' & Hmin).
  rewrite Hpop in Hpop'. symmetry in Hpop'. simplify_eq.
  rewrite Forall_forall in Hkeys, Hmin.
  assert ((u, dist) ∈ heap) as Huin by (rewrite <- Hperm; by left).
  assert (∀ e, e ∈ heap' → e ∈ heap) as Hsub by (intros e He; rewrite <- Hperm; by right).
  destruct (Hkeys _ Huin) as [Hu Hdist]. simpl in Hu, Hdist.
  rewrite (good_dist g u Hu) in Hdist.
  assert (∀ e, e ∈ heap → good g0 g e.1 ∧ e.2 = Fin (dist_of g e.1) ∧
                          dist_of g u ≤ dist_of g e.1 ≤ dist_of g u + 1) as Hrange.
  { intros e He. destruct (Hkeys e He) as [Hge Hke]. rewrite (good_dist g _ Hge) in Hke.
    split_and!; [done..| |by apply (Hspan (u, dist) e)].
    specialize (Hmin e He). simpl in Hmin. rewrite Hdist, Hke in Hmin.
    by apply num_leb_le. }
  assert (safe g u) as Hsafe.
  { intros _ w Hw. destruct (Hcov w Hw) as [?|(z & Hz & _ & Hr)]; [done|].
    apply list_elem_of_fmap in Hz as (e & -> & He). apply rtc_tree_dist in Hr.
    destruct (Hrange e He) as (_ & _ & ? & _). lia. }
  split; [by rewrite Hdist|].
  pose proof (markVisited_adv st u Hst Hu) as Hadv1. fold st1 in Hadv1.
  pose proof (advances_ginv _ _ Hadv1) as Hg1.
  assert (good g0 (BMSSP.gridRef st1) u) as Hu1.
  { apply (good_keeps g); [done..|apply Hadv1|done]. }
  assert (safe (BMSSP.gridRef st1) u) as Hsafe1.
  { apply (safe_evolves g); [done..|apply Hadv1|apply Hu|done]. }
  destruct (relax_fold (λ st heap, (st, heap)) (BMSSP.bc_relax Infinity u) bc_record u
              (bc_relax_site u) st1 heap' (proj1 Hadv1) Hu1 Hsafe1)
    as (st2 & cs & Heq & Hadv12 & Hidle & Hcs).
  subst r. rewrite Heq. cbn [fst snd].
  pose proof (advances_trans st st1 st2 Hst Hadv1 Hadv12) as Hadv.
  split; [done|].
  pose proof (advances_ginv _ _ Hadv) as Hg2.
  pose proof (evolves_keeps _ _ (proj2 Hadv)) as Hk. fold g in Hk.
  set (g2 := BMSSP.gridRef st2) in *.
  assert (dist_of (BMSSP.gridRef st1) u = dist_of g u) as Hdu1
    by (apply keeps_dist_of; [apply Hadv1|apply Hu]).
  assert (dist_of g2 u = dist_of g u) as Hdu2
    by (apply keeps_dist_of; [done|apply Hu]).
  rewrite Hdu1 in *. set (nd := Fin (dist_of g u + 1)) in *.
  assert (∀ c, c ∈ cs → good g0 g2 c ∧ distance (getNode g2 c) = nd) as Hcs'.
  { intros c Ht%Hcs. split; [by eapply tree_edge_good_r|].
    destruct Ht as (_ & _ & ->). by rewrite Hdu2. }
  assert (∀ e, e ∈ heap → good g0 g2 e.1 ∧ dist_of g2 e.1 = dist_of g e.1 ∧
                          distance (getNode g2 e.1) = e.2) as Hold.
  { intros e He. destruct (Hrange e He) as (Hge & Hke & _).
    split_and!; [by apply (good_keeps g)|apply keeps_dist_of; [done|apply Hge]|].
    rewrite Hk by apply Hge. by rewrite (good_dist g _ Hge). }
  destruct (bc_record_fold nd cs heap') as (new & -> & Hnew & Hin).
  { apply Forall_forall. intros e He%Hsub. destruct (Hrange e He) as (_ & -> & _ & ?).
    by apply num_leb_le. }
  { intros e He%Hsub Hecs. destruct (Hold e He) as (_ & _ & <-). by apply Hcs'. }
  rewrite Forall_forall in Hnew.
  assert (∀ e, e ∈ heap' ++ new →
               good g0 g2 e.1 ∧ e.2 = distance (getNode g2 e.1) ∧
               dist_of g u ≤ dist_of g2 e.1 ≤ dist_of g u + 1 ∧
               descends g2 [x] e.1) as Hall.
  { intros e [He%Hsub|He]%elem_of_app.
    - destruct (Hold e He) as (? & -> & ?), (Hrange e He) as (_ & _ & ?).
      split_and!; [done|done|lia|lia|].
      apply (descends_keeps g); [done..|]. by apply Hdesc.
    - destruct (Hnew e He) as [Hk2 Hc]. destruct (Hcs' _ Hc) as [? Hd].
      assert (dist_of g2 e.1 = dist_of g u + 1) as Hde
        by (unfold dist_of at 1; by rewrite Hd).
      split_and!; [done|congruence|lia|lia|].
      eapply descends_step; [|by apply Hcs].
      apply (descends_keeps g); [done..|]. by apply (Hdesc (u, dist)). }
  assert (∀ c, tree_edge g2 u c → descends g2 (heap' ++ new).*1 c) as Hkids.
  { intros c Ht. pose proof (proj2 (Hcs c) Ht) as Hc.
    apply descends_self; [by apply Hin|by apply Hcs']. }
  assert (∀ z, z ∈ heap'.*1 → descends g2 (heap' ++ new).*1 z) as Hrest.
  { intros z Hz. apply list_elem_of_fmap in Hz as (e & -> & He).
    apply descends_self; [|apply Hall; apply elem_of_app; by left].
    apply list_elem_of_fmap. exists e. split; [done|]. apply elem_of_app. by left. }
  assert (∀ b, descends g2 heap.*1 b →
               b = u ∨ descends g2 (heap' ++ new).*1 b) as Hpopped.
  { intros b Hb.
    assert (heap.*1 ⊆ u :: heap'.*1) as Hsubs
      by (intros z Hz; by rewrite <- Hperm in Hz).
    apply (descends_mono _ _ _ _ Hsubs) in Hb.
    apply descends_cons_inv in Hb as [->|[(c & Hc & Hr)|Hd]]; [by left|right..].
    - eapply descends_rtc; [by apply Hkids|done].
    - by eapply descends_trans. }
  split.
  - eapply heap_ok_app; [done| |].
    + apply Forall_forall. intros e He%Hsub. destruct (Hrange e He) as (_ & -> & _ & ?).
      by apply num_leb_le.
    + apply Forall_forall. intros e He. by apply Hnew.
  - apply Forall_forall. intros e He. destruct (Hall e He) as (? & ? & _). done.
  - intros e e' He He'. destruct (Hall e He) as (_ & _ & ? & _).
    destruct (Hall e' He') as (_ & _ & ? & _). lia.
  - apply (cover_drop g2 Infinity u heap'.*1); [done|done| |done|].
    + intros c Ht. right. by apply Hkids.
    + apply (cover_mono _ _ heap.*1).
      * intros z Hz. rewrite <- Hperm in Hz. simpl in Hz.
        apply descends_self; [done|].
        apply elem_of_cons in Hz as [->|Hz]; [by apply (good_keeps g)|].
        apply list_elem_of_fmap in Hz as (e & -> & He). apply Hold. by apply Hsub.
      * apply (cover_evolves g); [done..|apply Hadv|done].
  - intros a b [->|Ha]%elem_of_set_add Ht.
    { right. by apply Hkids. }
    destruct (HU0 a Ha) as (Hda & Hpa & _).
    destruct (distance (getNode g b)) as [k|] eqn:Eb.
    + assert (tree_edge g a b) as Ht0.
      { apply (tree_edge_back g g2); [done| |by exists k|done].
        by eapply descends_good. }
      destruct (Hchild a b Ha Ht0) as [Hb|Hb].
      * left. apply elem_of_set_add. by right.
      * apply (descends_keeps g g2) in Hb; [|done..].
        destruct (Hpopped b Hb) as [->|?]; [|by right].
        left. apply elem_of_set_add. by left.
    + destruct Hpa as [Hah|Hnp].
      * assert (descends g2 heap.*1 a) as Hah'.
        { apply list_elem_of_fmap in Hah as (e & -> & He).
          apply descends_self; [|by apply Hold].
          apply list_elem_of_fmap. by exists e. }
        destruct (Hpopped a Hah') as [->|Hd]; right; [by apply Hkids|].
        by eapply descends_step.
      * exfalso. apply Hnp. split; [by eapply descends_good|].
        exists b. split; [apply Ht|done].
  - intros a [->|Ha]%elem_of_set_add.
    + split_and!.
      * apply (descends_keeps g); [done..|]. by apply (Hdesc (u, dist)).
      * by right.
      * intros e He. destruct (Hall e He) as (_ & _ & ? & _). lia.
    + destruct (HU0 a Ha) as (Hda & Hpa & Hle).
      assert (good g0 g a) as Hga by (by eapply descends_good).
      split_and!.
      * by apply (descends_keeps g).
      * destruct Hpa as [Hah|Hnp].
        -- rewrite <- Hperm in Hah. simpl in Hah.
           apply elem_of_cons in Hah as [->|Hah]; [by right|left].
           rewrite fmap_app, elem_of_app. by left.
        -- right. intros Hp. apply Hnp.
           apply (pending_anti g g2); [done..|apply Hga|done].
      * intros e He. destruct (Hall e He) as (_ & _ & ? & _).
        rewrite (keeps_dist_of g g2 a) by (done || apply Hga).
        specialize (Hle (u, dist) Huin). simpl in Hle. lia.
  - by apply NoDup_set_add.
  - apply elem_of_set_add. by right.
  - intros e He. by apply Hall.
Qed.
Context (P : BMSSP.Params).
Hypothesis k_pos : 1 ≤ BMSSP.k_param P.

Lemma bc_loop_mono B n : ∀ m st U0 heap r,
  BMSSP.bc_loop P n B st U0 heap = Some r → n ≤ m →
  BMSSP.bc_loop P m B st U0 heap = Some r.
Proof.
  induction n as [|n IH]; intros m st U0 heap r H Hle.
  - destruct m as [|m]; [done|]. rewrite bc_loop_unfold. cbn [BMSSP.bc_loop] in H.
    destruct (BMSSP.heap_pop heap) as [[[u d] h']|]; [|done].
    by destruct (_ <? _).
  - destruct m as [|m]; [lia|]. rewrite bc_loop_unfold in H |- *.
    destruct (BMSSP.heap_pop heap) as [[[u d] h']|]; [|done].
    destruct (_ <? _); [|done]. destruct (num_geb d B); [done|].
    cbn zeta in H |- *. apply IH; [done|lia].
Qed.

Lemma heap_pop_None (heap : BMSSP.Heap) : BMSSP.heap_pop heap = None → heap = [].
Proof. destruct heap; [done|]. unfold BMSSP.heap_pop. by repeat case_match. Qed.

Lemma bc_loop_inf x fuel : ∀ st U0 heap st' U0',
  points_ok st → bc_inv x (BMSSP.gridRef st) U0 heap →
  BMSSP.bc_loop P fuel Infinity st U0 heap = Some (st', U0') →
  advances st st' ∧
  ∃ heap', bc_inv x (BMSSP.gridRef st') U0' heap' ∧
           (heap' = [] ∨ BMSSP.k_param P + 1 ≤ length U0').
Proof.
  induction fuel as [|fuel IH]; intros st U0 heap st' U0' Hst Hinv Hloop.
  - cbn [BMSSP.bc_loop] in Hloop.
    destruct (BMSSP.heap_pop heap) as [[[u d] h']|] eqn:Hpop.
    + destruct (_ <? _) eqn:Hlt; [done|]. apply Nat.ltb_ge in Hlt. simplify_eq.
      split; [by apply advances_refl|]. exists heap. split; [done|by right].
    + simplify_eq. split; [by apply advances_refl|]. exists heap.
      split; [done|left; by apply heap_pop_None].
  - rewrite bc_loop_unfold in Hloop.
    destruct (BMSSP.heap_pop heap) as [[[u d] h']|] eqn:Hpop.
    + destruct (_ <? _) eqn:Hlt.
      * destruct (bc_step x st U0 heap u d h' Hst Hinv Hpop) as (Hge & Hadv & Hinv').
        cbn zeta in Hadv, Hinv', Hloop. rewrite Hge in Hloop.
        destruct (IH _ _ _ _ _ (proj1 Hadv) Hinv' Hloop) as (Hadv' & heap' & ? & ?).
        split; [by eapply advances_trans|]. by exists heap'.
      * apply Nat.ltb_ge in Hlt. simplify_eq.
        split; [by apply advances_refl|]. exists heap. split; [done|by right].
    + simplify_eq. split; [by apply advances_refl|]. exists heap.
      split; [done|left; by apply heap_pop_None].
Qed.

(** What a call without a bound guarantees, at level [l] and from the
    sources [S]: it returns a boundary above the nearest source; the set [U]
    it returns is what hangs below [S] nearer than the boundary, and is not
    pending; what is still pending hangs below [S]. *)
Record post_inf (l : nat) (S : list NodeRef) (st st' : BMSSP.State)
    (B' : num) (U : list NodeRef) : Prop := mkPostInf {
  pi_adv : advances st st';
  pi_progress : ∀ x, head S = Some x →
                     num_ltb (distance (getNode (BMSSP.gridRef st') x)) B' = true;
  pi_nodup : NoDup U;
  pi_idle : Forall (λ u, ¬ pending (BMSSP.gridRef st') u) U;
  pi_desc : Forall (descends (BMSSP.gridRef st') S) U;
  pi_bound : Forall (λ u, num_ltb (distance (getNode (BMSSP.gridRef st') u)) B' = true) U;
  pi_exhaust : B' = Infinity → ∀ w, ¬ pending (BMSSP.gridRef st') w;
  pi_closure : ∀ y, descends (BMSSP.gridRef st') S y →
                    num_ltb (distance (getNode (BMSSP.gridRef st') y)) B' = true →
                    y ∈ U;
  pi_cover : cover (BMSSP.gridRef st') Infinity S;
  pi_done : (∀ w, ¬ pending (BMSSP.gridRef st') w) ∨
            BMSSP.k_param P * 2 ^ (l * BMSSP.t_param P) ≤ rows g0 * cols g0;
}.
Lemma bc_inv_init x g :
  ginv g → good g0 g x → cover g Infinity [x] →
  bc_inv x g [x] [(x, distance (getNode g x))].
Proof.
  intros Hg Hx Hc. split.
  - intros i e p Hi He. destruct i; [lia|done].
  - constructor; [by split|constructor].
  - intros e e' ->%list_elem_of_singleton ->%list_elem_of_singleton. lia.
  - done.
  - intros a b ->%list_elem_of_singleton Ht. right.
    eapply descends_step; [|done]. apply descends_self; [by left|done].
  - intros a ->%list_elem_of_singleton. split_and!.
    + apply descends_self; [by left|done].
    + left. by left.
    + by intros e ->%list_elem_of_singleton.
  - apply NoDup_singleton.
  - by left.
  - intros e ->%list_elem_of_singleton. apply descends_self; [by left|done].
Qed.

Lemma num_leb_Infinity a : num_leb a Infinity = true.
Proof. by destruct a. Qed.

(** [baseCase] without a bound, from one source. *)
Lemma baseCase_inf x st :
  points_ok st → level_list (BMSSP.gridRef st) Infinity [x] →
  cover (BMSSP.gridRef st) Infinity [x] →
  ∃ st' B' U,
    post_inf 0 [x] st st' B' U ∧
    ∃ N, ∀ fuel, N ≤ fuel → BMSSP.baseCase P fuel Infinity [x] st = Some (st', B', U).
Proof.
  intros Hst HS Hc. pose proof (points_ok_ginv st Hst) as Hg.
  set (g := BMSSP.gridRef st) in *.
  assert (good g0 g x) as Hx.
  { pose proof (ll_good _ _ _ HS) as H. by inversion H. }
  pose proof (bc_inv_init x g Hg Hx Hc) as Hinv.
  set (heap := [(x, distance (getNode g x))]) in *.
  assert (∀ fuel, BMSSP.baseCase P fuel Infinity [x] st =
            '(st', U0) ← BMSSP.bc_loop P fuel Infinity st [x] heap;
            if length U0 <=? BMSSP.k_param P then Some (st', Infinity, U0)
            else Some (st', Fin (max_finite_distance (BMSSP.gridRef st') U0),
                       filter (λ n, num_ltb (distance (getNode (BMSSP.gridRef st') n))
                                            (Fin (max_finite_distance (BMSSP.gridRef st') U0))
                                    = true) U0)) as Hbase.
  { intros fuel. unfold BMSSP.baseCase. cbn [foldl]. rewrite heap_push_last by constructor.
    rewrite set_of_NoDup by apply NoDup_singleton. fold g. cbn [app]. fold heap.
    destruct (BMSSP.bc_loop _ _ _ _ _ _) as [[st' U0]|]; [|done]. cbn.
    by rewrite maxFiniteDistance_max. }
  assert (dims g0 g) as Hdims.
  { destruct (ginv_shape _ Hg) as (? & ? & ? & _). by split_and!. }
  assert (Forall (inGrid g0) heap.*1) as Hheapin.
  { constructor; [apply Hx|constructor]. }
  destruct (bc_loop_total P Infinity g0 _ _ _ st [x] heap Hdims Hheapin
              eq_refl eq_refl eq_refl) as [N HN].
  destruct (HN N (le_n _)) as (st' & U0 & HloopN).
  assert (∀ fuel, N ≤ fuel → BMSSP.bc_loop P fuel Infinity st [x] heap = Some (st', U0))
    as Hloop by (intros fuel Hf; by eapply bc_loop_mono).
  destruct (bc_loop_inf x N st [x] heap st' U0 Hst Hinv HloopN)
    as (Hadv & heap' & Hinv' & Hexit).
  pose proof (advances_ginv _ _ Hadv) as Hg'.
  set (g' := BMSSP.gridRef st') in *.
  destruct Hinv' as [Hok Hkeys Hspan Hcov Hchild HU0 Hnd HxU Hdesc].
  assert (good g0 g' x) as Hx'.
  { apply (good_keeps g); [done..|apply Hadv|done]. }
  assert (Forall (descends g' [x]) U0) as HUd.
  { apply Forall_forall. intros a Ha. by apply HU0. }
  assert (cover g' Infinity [x]) as Hcx.
  { apply (cover_mono _ _ heap'.*1); [|done].
    intros z (e & -> & He)%list_elem_of_fmap. by apply Hdesc. }
  destruct (length U0 <=? BMSSP.k_param P) eqn:Hlen.
  - apply Nat.leb_le in Hlen. destruct Hexit as [->|?]; [|lia].
    exists st', Infinity, U0. split.
    2:{ exists N. intros fuel Hf. rewrite Hbase, (Hloop fuel Hf). cbn.
        apply Nat.leb_le in Hlen. by rewrite Hlen. }
    assert (∀ b, ¬ descends g' [] b) as Hnil.
    { by intros b (z & ?%elem_of_nil & _). }
    split; fold g'; [done| |done| |done| | | |done|].
    + intros ? [= <-]. by rewrite (good_dist g' x Hx').
    + apply Forall_forall. intros a Ha. destruct (HU0 a Ha) as (_ & [?%elem_of_nil|?] & _); done.
    + apply Forall_forall. intros a Ha.
      assert (good g0 g' a) as Hga.
      { eapply descends_good; [done|]. by apply HU0. }
      by rewrite (good_dist g' a Hga).
    + intros _ w Hw. destruct (Hcov w Hw) as [?|?%Hnil]; done.
    + intros y (z & ->%list_elem_of_singleton & _ & Hr) _. revert y Hr.
      apply (rtc_ind_r (λ y, y ∈ U0) x); [done|]. intros a b Hxa Hab IH.
      destruct (Hchild a b IH Hab) as [?|?%Hnil]; done.
    + left. intros w Hw. destruct (Hcov w Hw) as [?|?%Hnil]; done.
  - apply Nat.leb_gt in Hlen.
    set (m := max_finite_distance g' U0).
    exists st', (Fin m), (filter (λ n, num_ltb (distance (getNode g' n)) (Fin m) = true) U0).
    split.
    2:{ exists N. intros fuel Hf. rewrite Hbase, (Hloop fuel Hf). cbn.
        apply Nat.leb_gt in Hlen. by rewrite Hlen. }
    destruct (max_finite_distance_spec g' U0) as [Hmax Hwit]. fold m in Hmax, Hwit.
    assert (∀ a, a ∈ U0 → good g0 g' a ∧ dist_of g' a ≤ m) as HUm.
    { intros a Ha. assert (good g0 g' a) as Hga.
      { eapply descends_good; [done|]. by apply HU0. }
      split; [done|]. apply (Hmax a); [done|]. by apply good_dist. }
    assert (dist_of g' x < m) as Hxm.
    { assert (∃ a, a ∈ U0 ∧ a ≠ x) as (a & Ha & Hax).
      { destruct U0 as [|a1 [|a2 U0]]; simpl in Hlen; [lia..|].
        apply NoDup_cons in Hnd as [Hn1 _].
        destruct (decide (a1 = x)) as [->|?].
        - exists a2. split; [by right; left|]. intros ->. apply Hn1. by left.
        - exists a1. split; [by left|done]. }
      destruct (HU0 a Ha) as ((z & ->%list_elem_of_singleton & _ & Hr) & _).
      apply rtc_tree_inv in Hr as [?|?]; [done|].
      destruct (HUm a Ha). lia. }
    destruct Hwit as [?|(am & Ham & Hdm)]; [lia|].
    assert (∀ e, e ∈ heap' → m ≤ dist_of g' e.1) as Hheap.
    { intros e He. destruct (HU0 am Ham) as (_ & _ & Hle). specialize (Hle e He).
      unfold dist_of in Hle at 1. by rewrite Hdm in Hle. }
    assert (∀ y, rtc (tree_edge g') x y → dist_of g' y < m → y ∈ U0) as Hclos.
    { apply (rtc_ind_r (λ y, dist_of g' y < m → y ∈ U0) x); [done|].
      intros a b Hxa Hab IH Hb. pose proof (tree_edge_dist _ _ _ Hab).
      destruct (Hchild a b (IH ltac:(lia)) Hab) as [?|(z & Hz & _ & Hr)]; [done|].
      apply list_elem_of_fmap in Hz as (e & -> & He). apply rtc_tree_dist in Hr.
      specialize (Hheap e He). lia. }
    split; fold g'; [done| |by apply NoDup_filter| | | |done| |done|].
    + intros ? [= <-]. rewrite (good_dist g' x Hx'). by apply num_ltb_lt.
    + apply Forall_forall. intros a [Hlt Ha]%list_elem_of_filter.
      destruct (HUm a Ha) as [Hga _]. rewrite (good_dist g' a Hga) in Hlt.
      apply num_ltb_lt in Hlt.
      destruct (HU0 a Ha) as (_ & [(e & -> & He)%list_elem_of_fmap|?] & _); [|done].
      specialize (Hheap e He). lia.
    + apply Forall_forall. intros a [_ Ha]%list_elem_of_filter. by apply HU0.
    + apply Forall_forall. by intros a [Hlt Ha]%list_elem_of_filter.
    + intros y Hy Hlt. apply list_elem_of_filter. split; [done|].
      pose proof (descends_good _ _ _ Hg' Hy) as Hgy.
      destruct Hy as (z & ->%list_elem_of_singleton & _ & Hr).
      apply Hclos; [done|]. rewrite (good_dist g' y Hgy) in Hlt. by apply num_ltb_lt.
    + right. rewrite Nat.mul_0_l, Nat.pow_0_r, Nat.mul_1_r.
      assert (length U0 ≤ rows g0 * cols g0); [|lia].
      apply NoDup_inGrid_length; [done|]. apply Forall_forall.
      intros a Ha. apply HUm. done.
Qed.
(** What a call with the bound [Fin b] guarantees when its sources are at
    distance [b - 1] or [b]: it returns the bound and the sources. *)
Record post_fin (b : nat) (S : list NodeRef) (st st' : BMSSP.State)
    (B' : num) (U : list NodeRef) : Prop := mkPostFin {
  pf_adv : advances st st';
  pf_bound : B' = Fin b;
  pf_perm : U ≡ₚ S;
  pf_safe : Forall (safe (BMSSP.gridRef st')) U;
}.

Lemma foldl_fixed {A B} (f : A → B → A) a l : (∀ x, f a x = a) → foldl f a l = a.
Proof. intros H. induction l as [|x l IH]; simpl; [done|]. by rewrite H. Qed.

Lemma cover_safe g B S x :
  level_list g B S → cover g B S → x ∈ S →
  (∀ y, y ∈ S → dist_of g x ≤ dist_of g y) → safe g x.
Proof.
  intros HS Hc Hx Hmin _ w Hw.
  pose proof (ll_good _ _ _ HS) as Hgood. rewrite Forall_forall in Hgood.
  destruct (Hc w Hw) as [HB|(z & Hz & _ & Hr)].
  - pose proof (ll_bound _ _ _ HS x Hx) as Hb.
    rewrite (good_dist g x (Hgood x Hx)) in Hb.
    apply num_leb_le. by eapply num_leb_trans.
  - apply rtc_tree_dist in Hr. specialize (Hmin z Hz). lia.
Qed.

(** [baseCase] with a bound, from one source. *)
Lemma baseCase_fin b x st :
  points_ok st → level_list (BMSSP.gridRef st) (Fin b) [x] →
  cover (BMSSP.gridRef st) (Fin b) [x] → b ≤ dist_of (BMSSP.gridRef st) x + 1 →
  ∃ st', post_fin b [x] st st' (Fin b) [x] ∧
         ∀ fuel, 1 ≤ fuel →
                 BMSSP.baseCase P fuel (Fin b) [x] st = Some (st', Fin b, [x]).
Proof.
  intros Hst HS Hc Hb. pose proof (points_ok_ginv st Hst) as Hg.
  set (g := BMSSP.gridRef st) in *.
  assert (good g0 g x) as Hx.
  { pose proof (ll_good _ _ _ HS) as H. by inversion H. }
  assert (dist_of g x ≤ b) as Hxb.
  { pose proof (ll_bound _ _ _ HS x ltac:(by left)) as H.
    rewrite (good_dist g x Hx) in H. by apply num_leb_le. }
  assert (safe g x) as Hsafe.
  { apply (cover_safe g (Fin b) [x]); [done|done|by left|].
    by intros y ->%list_elem_of_singleton. }
  assert ((length [x] <? BMSSP.k_param P + 1) = true) as Hk1
    by (apply Nat.ltb_lt; simpl; lia).
  assert ((length [x] <=? BMSSP.k_param P) = true) as Hk2
    by (apply Nat.leb_le; simpl; lia).
  assert (∀ fuel, BMSSP.baseCase P fuel (Fin b) [x] st =
            '(st', U0) ← BMSSP.bc_loop P fuel (Fin b) st [x] [(x, Fin (dist_of g x))];
            if length U0 <=? BMSSP.k_param P then Some (st', Fin b, U0)
            else Some (st', Fin (BMSSP.maxFiniteDistance (BMSSP.gridRef st') U0),
                       filter (λ n, num_ltb (distance (getNode (BMSSP.gridRef st') n))
                                            (Fin (BMSSP.maxFiniteDistance (BMSSP.gridRef st') U0))
                                    = true) U0)) as Hbase.
  { intros fuel. unfold BMSSP.baseCase. cbn [foldl]. rewrite heap_push_last by constructor.
    rewrite set_of_NoDup by apply NoDup_singleton. fold g. cbn [app].
    by rewrite (good_dist g x Hx). }
  assert (BMSSP.heap_pop [(x, Fin (dist_of g x))] = Some ((x, Fin (dist_of g x)), []))
    as Hpop by done.
  destruct (decide (dist_of g x = b)) as [Heq|Hne].
  - exists st. split.
    + split; [by apply advances_refl|done|done|by repeat constructor].
    + intros [|fuel] Hf; [lia|]. rewrite Hbase, bc_loop_unfold, Hpop, Hk1.
      unfold num_geb. rewrite (proj2 (num_leb_le b (dist_of g x))) by lia.
      cbn [mbind option_bind]. by rewrite Hk2.
  - set (st1 := BMSSP.markVisited st x).
    pose proof (markVisited_adv st x Hst Hx) as Hadv. fold st1 in Hadv.
    exists st1. split.
    + split; [done|done|done|]. constructor; [|constructor].
      apply (safe_evolves g); [done|by eapply advances_ginv|apply Hadv|apply Hx|done].
    + intros [|fuel] Hf; [lia|]. rewrite Hbase, bc_loop_unfold, Hpop, Hk1.
      unfold num_geb. destruct (num_leb (Fin b) (Fin (dist_of g x))) eqn:E.
      { apply num_leb_le in E. lia. }
      cbn zeta. fold st1.
      assert (good g0 (BMSSP.gridRef st1) x) as Hx1.
      { apply (good_keeps g); [done|by eapply advances_ginv|apply Hadv|done]. }
      assert (dist_of (BMSSP.gridRef st1) x = dist_of g x) as Hd1.
      { apply keeps_dist_of; [apply Hadv|apply Hx]. }
      rewrite foldl_fixed.
      2:{ intros v. unfold BMSSP.bc_relax. rewrite (good_dist _ x Hx1), Hd1.
          change (num_add (Fin (dist_of g x)) (Fin 1)) with (Fin (dist_of g x + 1)).
          replace (num_ltb (Fin (dist_of g x + 1)) (Fin b)) with false.
          - by rewrite andb_false_r.
          - symmetry. apply num_ltb_false, num_leb_le. lia. }
      cbn [fst snd]. rewrite set_add_elem by (by left).
      assert (BMSSP.bc_loop P fuel (Fin b) st1 [x] [] = Some (st1, [x])) as ->
        by (by destruct fuel).
      cbn [mbind option_bind]. by rewrite Hk2.
Qed.
End BmsspExact.

(** ** [StructureD]: the sorted list of [bmsspRecursive] *)

(** Where [insert] puts an entry: after the entries of lower value and
    before the others. *)
Lemma D_place_spec (its : list (NodeRef * num)) node val :
  StronglySorted vle its →
  let r := BMSSP.bsearch (S (length its)) its val 0 (length its) in
  r ≤ length its ∧
  Forall (λ e : NodeRef * num, num_ltb e.2 val = true) (take r its) ∧
  Forall (λ e : NodeRef * num, num_leb val e.2 = true) (drop r its) ∧
  StronglySorted vle (BMSSP.splice_in r (node, val) its).
Proof.
  intros Hs r.
  destruct (bsearch_spec its val (S (length its)) 0 (length its))
    as (Hr & Hlo & Hhi); [lia|lia|lia|done| |].
  { intros e He. apply lookup_lt_Some in He. lia. }
  fold r in Hr, Hlo, Hhi. split_and!; [done| | |by apply splice_in_sorted].
  - apply Forall_forall. intros e [j Hj]%list_elem_of_lookup.
    pose proof (lookup_lt_Some _ _ _ Hj) as Hlt. rewrite length_take in Hlt.
    rewrite lookup_take_lt in Hj by lia.
    destruct (its !! (r - 1)) as [e'|] eqn:He'.
    2:{ apply lookup_ge_None in He'. lia. }
    eapply num_leb_ltb_trans; [|apply (Hlo e'); [lia|done]].
    eapply (StronglySorted_lookup vle its j (r - 1)); [done..|lia].
  - apply Forall_forall. intros e [j Hj]%list_elem_of_lookup.
    rewrite lookup_drop in Hj.
    destruct (its !! r) as [e'|] eqn:He'.
    2:{ apply lookup_ge_None in He'. apply lookup_lt_Some in Hj. lia. }
    eapply num_leb_trans; [by apply Hhi|].
    eapply (StronglySorted_lookup vle its r (r + j)); [done..|lia].
Qed.

Lemma splice_out_perm {A} i (x : A) l :
  l !! i = Some x → x :: BMSSP.splice_out i l ≡ₚ l.
Proof.
  intros Hx. unfold BMSSP.splice_out. rewrite Permutation_middle.
  by rewrite take_drop_middle.
Qed.

Lemma splice_out_sorted (its : list (NodeRef * num)) i :
  StronglySorted vle its → StronglySorted vle (BMSSP.splice_out i its).
Proof.
  intros Hs. unfold BMSSP.splice_out.
  destruct (its !! i) as [x|] eqn:Hx.
  - rewrite <- (take_drop_middle its i x Hx) in Hs.
    apply StronglySorted_app in Hs as (Hc & H1 & H2).
    apply StronglySorted_app. split_and!; [|done|by inversion H2].
    intros a b Ha Hb. apply Hc; [done|by right].
  - apply lookup_ge_None in Hx.
    rewrite take_ge, drop_ge, app_nil_r by lia. done.
Qed.

(** The three cases of [insert]. *)
Lemma D_insert_cases d node val :
  NoDup (BMSSP.items d).*1 →
  let place its :=
    BMSSP.mkD (BMSSP.splice_in (BMSSP.bsearch (S (length its)) its val 0 (length its))
                               (node, val) its) (BMSSP.dM d) (BMSSP.dB d) in
  (node ∉ (BMSSP.items d).*1 ∧ BMSSP.D_insert d node val = place (BMSSP.items d)) ∨
  (∃ idx old, BMSSP.items d !! idx = Some (node, old) ∧
     (∀ k, (node, k) ∈ BMSSP.items d → k = old) ∧
     BMSSP.D_insert d node val =
       if num_ltb val old then place (BMSSP.splice_out idx (BMSSP.items d)) else d).
Proof.
  intros Hnd place. unfold BMSSP.D_insert. fold place.
  destruct (BMSSP.findIndex _ _) as [idx|] eqn:Hfi.
  - right. apply findIndex_Some in Hfi as ([n old] & He & Hev).
    apply bool_decide_eq_true in Hev. simpl in Hev. subst n.
    exists idx, old. rewrite He. split_and!; [done| |done].
    intros k [j Hj]%list_elem_of_lookup.
    assert (j = idx) as ->; [|congruence].
    eapply NoDup_lookup; [done| |]; by rewrite list_lookup_fmap, ?Hj, ?He.
  - left. split; [|done]. apply findIndex_None in Hfi.
    intros (e & -> & He)%list_elem_of_fmap. rewrite Forall_forall in Hfi.
    specialize (Hfi e He). by apply bool_decide_eq_false in Hfi.
Qed.

Lemma D_insert_inv d node val :
  StronglySorted vle (BMSSP.items d) → NoDup (BMSSP.items d).*1 →
  let d' := BMSSP.D_insert d node val in
  StronglySorted vle (BMSSP.items d') ∧ NoDup (BMSSP.items d').*1 ∧
  (BMSSP.items d').*1 ≡ₚ
    (if bool_decide (node ∈ (BMSSP.items d).*1) then (BMSSP.items d).*1
     else node :: (BMSSP.items d).*1) ∧
  BMSSP.dM d' = BMSSP.dM d ∧ BMSSP.dB d' = BMSSP.dB d.
Proof.
  intros Hs Hnd d'. subst d'.
  destruct (D_insert_cases d node val Hnd) as [[Hn ->]|(idx & old & Hi & _ & ->)].
  - destruct (D_place_spec (BMSSP.items d) node val Hs) as (_ & _ & _ & Hs').
    rewrite bool_decide_eq_false_2 by done. cbn [BMSSP.items BMSSP.dM BMSSP.dB].
    split_and!; [done| | |done..].
    + rewrite splice_in_perm. simpl. by constructor.
    + by rewrite splice_in_perm.
  - assert (node ∈ (BMSSP.items d).*1) as Hin.
    { apply list_elem_of_fmap. exists (node, old). split; [done|].
      by eapply list_elem_of_lookup_2. }
    rewrite bool_decide_eq_true_2 by done.
    destruct (num_ltb val old); [|done].
    pose proof (splice_out_sorted _ idx Hs) as Hs1.
    destruct (D_place_spec (BMSSP.splice_out idx (BMSSP.items d)) node val Hs1)
      as (_ & _ & _ & Hs').
    cbn [BMSSP.items BMSSP.dM BMSSP.dB].
    pose proof (splice_out_perm idx _ _ Hi) as Hp.
    assert (node :: (BMSSP.splice_out idx (BMSSP.items d)).*1 ≡ₚ (BMSSP.items d).*1)
      as Hp' by (apply (fmap_Permutation fst) in Hp; done).
    split_and!; [done| | |done..].
    + rewrite splice_in_perm. simpl. by rewrite Hp'.
    + rewrite splice_in_perm. simpl. by rewrite Hp'.
Qed.

(** A structure of three entries for the examples. *)
Definition d3 : BMSSP.StructureD :=
  BMSSP.mkD [((0, 0), Fin 1); ((0, 1), Fin 2); ((1, 0), Fin 2)] 2 (Fin 5).

Lemma d3_sorted : StronglySorted vle (BMSSP.items d3).
Proof. repeat (apply SSorted_cons; [|repeat (apply Forall_cons_2; [done|]); apply Forall_nil_2]). apply SSorted_nil. Qed.

Lemma d3_nodup : NoDup (BMSSP.items d3).*1.
Proof. compute_done. Qed.

(** X4.  [StructureD.insert] keeps the items sorted by value and their
    nodes distinct; the structure holds the nodes it held and the inserted
    one, and keeps [M] and [B]. *)
Theorem D_insert_keeps d node val :
  StronglySorted vle (BMSSP.items d) → NoDup (BMSSP.items d).*1 →
  let d' := BMSSP.D_insert d node val in
  StronglySorted vle (BMSSP.items d') ∧ NoDup (BMSSP.items d').*1 ∧
  (∀ y, y ∈ (BMSSP.items d').*1 ↔ y = node ∨ y ∈ (BMSSP.items d).*1) ∧
  BMSSP.dM d' = BMSSP.dM d ∧ BMSSP.dB d' = BMSSP.dB d.
Proof.
  intros Hs Hnd d'. destruct (D_insert_inv d node val Hs Hnd) as (? & ? & Hp & ? & ?).
  fold d' in Hp. split_and!; [done..| |done|done].
  intros y. rewrite Hp. case_bool_decide as Hin.
  - split; [by right|]. by intros [->|?].
  - apply elem_of_cons.
Qed.

Lemma D_insert_keeps_witness :
  let d' := BMSSP.D_insert d3 (1, 1) (Fin 2) in
  StronglySorted vle (BMSSP.items d') ∧ NoDup (BMSSP.items d').*1 ∧
  (∀ y, y ∈ (BMSSP.items d').*1 ↔ y = (1, 1) ∨ y ∈ (BMSSP.items d3).*1) ∧
  BMSSP.dM d' = BMSSP.dM d3 ∧ BMSSP.dB d' = BMSSP.dB d3.
Proof. apply D_insert_keeps; [apply d3_sorted|apply d3_nodup]. Defined.

Lemma NoDup_fst_inj (l : list (NodeRef * num)) n k k' :
  NoDup l.*1 → (n, k) ∈ l → (n, k') ∈ l → k = k'.
Proof.
  intros Hnd [i Hi]%list_elem_of_lookup [j Hj]%list_elem_of_lookup.
  assert (i = j) as ->; [|congruence].
  eapply NoDup_lookup; [done| |]; by rewrite list_lookup_fmap, ?Hi, ?Hj.
Qed.

(** The entries after [insert]. *)
Lemma D_insert_mem d node val :
  NoDup (BMSSP.items d).*1 →
  let d' := BMSSP.D_insert d node val in
  (∀ e, e.1 ≠ node → e ∈ BMSSP.items d' ↔ e ∈ BMSSP.items d) ∧
  (node ∉ (BMSSP.items d).*1 → ∀ k, (node, k) ∈ BMSSP.items d' ↔ k = val) ∧
  (∀ old, (node, old) ∈ BMSSP.items d →
          ∀ k, (node, k) ∈ BMSSP.items d' ↔ k = if num_ltb val old then val else old).
Proof.
  intros Hnd d'. subst d'.
  destruct (D_insert_cases d node val Hnd) as [[Hn ->]|(idx & old & Hi & Hold & ->)];
    cbn [BMSSP.items].
  - split_and!.
    + intros e He. rewrite splice_in_perm, elem_of_cons. split; [|by right].
      intros [->|?]; [done|done].
    + intros _ k. rewrite splice_in_perm, elem_of_cons. split; [|intros ->; by left].
      intros [[= ->]|Hk]; [done|]. destruct Hn. apply list_elem_of_fmap.
      by exists (node, k).
    + intros old Hold. destruct Hn. apply list_elem_of_fmap. by exists (node, old).
  - pose proof (splice_out_perm idx _ _ Hi) as Hp.
    assert (NoDup ((node, old) :: BMSSP.splice_out idx (BMSSP.items d))) as Hnd'.
    { rewrite Hp. by eapply NoDup_fmap_1. }
    apply NoDup_cons in Hnd' as [Hnot _].
    assert (∀ e, e ∈ BMSSP.items d ↔
                 e = (node, old) ∨ e ∈ BMSSP.splice_out idx (BMSSP.items d)) as Hmem.
    { intros e. pose proof (elem_of_Permutation_proper e _ _ Hp) as He.
      rewrite elem_of_cons in He. by symmetry. }
    assert (∀ k, (node, k) ∉ BMSSP.splice_out idx (BMSSP.items d)) as Hgone.
    { intros k Hk. assert (k = old) as -> by (apply Hold, Hmem; by right). done. }
    split_and!.
    + intros e He. destruct (num_ltb val old); [|done]. cbn [BMSSP.items].
      rewrite splice_in_perm, elem_of_cons, Hmem. split.
      * intros [->|?]; [done|by right].
      * intros [->|?]; [done|by right].
    + intros Hn. destruct Hn. apply list_elem_of_fmap. exists (node, old).
      split; [done|]. by eapply list_elem_of_lookup_2.
    + intros old' Hold' k. apply Hold in Hold' as ->.
      destruct (num_ltb val old); cbn [BMSSP.items].
      * rewrite splice_in_perm, elem_of_cons. split; [|intros ->; by left].
        intros [[= ->]|Hk]; [done|]. by destruct (Hgone k).
      * split; [apply Hold|]. intros ->. by eapply list_elem_of_lookup_2.
Qed.

(** X5.  After [StructureD.insert] the value recorded for the node is the
    given one when the node is new, and the smaller of the given and the
    recorded one when it is not; the entries of the other nodes are
    untouched. *)
Theorem D_insert_records_least d node val :
  NoDup (BMSSP.items d).*1 →
  let d' := BMSSP.D_insert d node val in
  (∀ e, e.1 ≠ node → e ∈ BMSSP.items d' ↔ e ∈ BMSSP.items d) ∧
  (node ∉ (BMSSP.items d).*1 → ∀ k, (node, k) ∈ BMSSP.items d' ↔ k = val) ∧
  (∀ old, (node, old) ∈ BMSSP.items d →
          ∀ k, (node, k) ∈ BMSSP.items d' ↔ k = if num_ltb val old then val else old).
Proof. apply D_insert_mem. Qed.

Lemma D_insert_records_least_witness :
  let d' := BMSSP.D_insert d3 (0, 1) (Fin 0) in
  (∀ e, e.1 ≠ (0, 1) → e ∈ BMSSP.items d' ↔ e ∈ BMSSP.items d3) ∧
  ((0, 1) ∉ (BMSSP.items d3).*1 → ∀ k, ((0, 1), k) ∈ BMSSP.items d' ↔ k = Fin 0) ∧
  (∀ old, ((0, 1), old) ∈ BMSSP.items d3 →
          ∀ k, ((0, 1), k) ∈ BMSSP.items d' ↔
               k = if num_ltb (Fin 0) old then Fin 0 else old).
Proof. apply D_insert_records_least, d3_nodup. Defined.

(** X6.  Where [StructureD.insert] places an entry: its binary search
    finds the first position whose value is not below the given one, so
    the placed entry comes after every entry of lower value and before
    every entry of equal or higher value. *)
Theorem D_insert_position d node val :
  StronglySorted vle (BMSSP.items d) → NoDup (BMSSP.items d).*1 →
  (∀ old, (node, old) ∈ BMSSP.items d → num_ltb val old = true) →
  ∃ pre suf,
    BMSSP.items (BMSSP.D_insert d node val) = pre ++ (node, val) :: suf ∧
    Forall (λ e, num_ltb e.2 val = true) pre ∧
    Forall (λ e, num_leb val e.2 = true) suf.
Proof.
  intros Hs Hnd Hlow.
  destruct (D_insert_cases d node val Hnd) as [[Hn ->]|(idx & old & Hi & Hold & ->)].
  - destruct (D_place_spec (BMSSP.items d) node val Hs) as (_ & H1 & H2 & _).
    by eexists _, _.
  - rewrite Hlow by (by eapply list_elem_of_lookup_2).
    pose proof (splice_out_sorted _ idx Hs) as Hs1.
    destruct (D_place_spec (BMSSP.splice_out idx (BMSSP.items d)) node val Hs1)
      as (_ & H1 & H2 & _).
    by eexists _, _.
Qed.

Lemma D_insert_position_witness :
  ∃ pre suf,
    BMSSP.items (BMSSP.D_insert d3 (1, 1) (Fin 2)) = pre ++ ((1, 1), Fin 2) :: suf ∧
    Forall (λ e, num_ltb e.2 (Fin 2) = true) pre ∧
    Forall (λ e, num_leb (Fin 2) e.2 = true) suf.
Proof.
  apply D_insert_position; [apply d3_sorted|apply d3_nodup|].
  intros old Hold. exfalso. revert Hold. unfold d3. cbn [BMSSP.items].
  rewrite !elem_of_cons, elem_of_nil.
  intros [?|[?|[?|?]]]; done.
Defined.

(** X7.  [StructureD.pull] takes the first [min(length, M)] items, the ones
    of least value; the bound [Bi] it returns is the outer bound [B] when
    nothing is left, and otherwise separates the values taken from the
    values left. *)
Theorem D_pull_separates d :
  StronglySorted vle (BMSSP.items d) →
  ∃ pre,
    BMSSP.items d = pre ++ BMSSP.items (BMSSP.D_pull d).1.1 ∧
    (BMSSP.D_pull d).2 = pre.*1 ∧
    length pre = length (BMSSP.items d) `min` BMSSP.dM d ∧
    BMSSP.dM (BMSSP.D_pull d).1.1 = BMSSP.dM d ∧
    BMSSP.dB (BMSSP.D_pull d).1.1 = BMSSP.dB d ∧
    Forall (λ e, num_leb (BMSSP.D_pull d).1.2 e.2 = true)
           (BMSSP.items (BMSSP.D_pull d).1.1) ∧
    if BMSSP.D_isEmpty (BMSSP.D_pull d).1.1
    then (BMSSP.D_pull d).1.2 = BMSSP.dB d
    else Forall (λ e, num_leb e.2 (BMSSP.D_pull d).1.2 = true) pre.
Proof.
  intros Hs. unfold BMSSP.D_pull, BMSSP.D_isEmpty.
  destruct (BMSSP.items d) as [|e its] eqn:Hits.
  { exists []. cbn [fst snd]. rewrite Hits. by split_and!. }
  set (count := length (e :: its) `min` BMSSP.dM d).
  exists (take count (e :: its)). cbn [fst snd BMSSP.items BMSSP.dM BMSSP.dB].
  rewrite <- (take_drop count (e :: its)) in Hs.
  apply StronglySorted_app in Hs as (Hcross & _ & Hs2).
  split_and!; [by rewrite take_drop|done| |done|done| |].
  - rewrite length_take. subst count. lia.
  - destruct (drop count (e :: its)) as [|i rest]; [constructor|].
    apply StronglySorted_inv in Hs2 as [_ Hle].
    constructor; [apply num_leb_refl|done].
  - destruct (drop count (e :: its)) as [|i rest]; [done|].
    apply Forall_forall. intros x Hx. apply (Hcross x i Hx). by left.
Qed.

Lemma D_pull_separates_witness :
  ∃ pre,
    BMSSP.items d3 = pre ++ BMSSP.items (BMSSP.D_pull d3).1.1 ∧
    (BMSSP.D_pull d3).2 = pre.*1 ∧
    length pre = length (BMSSP.items d3) `min` BMSSP.dM d3 ∧
    BMSSP.dM (BMSSP.D_pull d3).1.1 = BMSSP.dM d3 ∧
    BMSSP.dB (BMSSP.D_pull d3).1.1 = BMSSP.dB d3 ∧
    Forall (λ e, num_leb (BMSSP.D_pull d3).1.2 e.2 = true)
           (BMSSP.items (BMSSP.D_pull d3).1.1) ∧
    if BMSSP.D_isEmpty (BMSSP.D_pull d3).1.1
    then (BMSSP.D_pull d3).1.2 = BMSSP.dB d3
    else Forall (λ e, num_leb e.2 (BMSSP.D_pull d3).1.2 = true) pre.
Proof. apply D_pull_separates, d3_sorted. Defined.

(** A recorded value only goes down at an [insert], and the inserted
    value bounds the one recorded for its node. *)
Lemma D_insert_lower d node val n k :
  NoDup (BMSSP.items d).*1 →
  (n, k) ∈ BMSSP.items d ∨ (n, k) = (node, val) →
  ∃ k', (n, k') ∈ BMSSP.items (BMSSP.D_insert d node val) ∧ num_leb k' k = true.
Proof.
  intros Hnd Hin.
  destruct (D_insert_mem d node val Hnd) as (Hoth & Hnew & Hold).
  destruct (decide (n = node)) as [->|Hne].
  - destruct (decide (node ∈ (BMSSP.items d).*1)) as [Hmem|Hmem].
    + apply list_elem_of_fmap in Hmem as ([n' old] & -> & Hmem). cbn [fst] in *.
      specialize (Hold old Hmem).
      exists (if num_ltb val old then val else old). split; [by apply Hold|].
      destruct Hin as [Hin|[= ->]].
      * rewrite (NoDup_fst_inj _ _ _ _ Hnd Hin Hmem).
        destruct (num_ltb val old) eqn:E; [by apply num_ltb_leb|apply num_leb_refl].
      * destruct (num_ltb val old) eqn:E; [apply num_leb_refl|by apply num_ltb_false].
    + exists val. split; [by apply Hnew|].
      destruct Hin as [Hin|[= ->]]; [|apply num_leb_refl].
      destruct Hmem. apply list_elem_of_fmap. by exists (node, k).
  - destruct Hin as [Hin|[= ? ?]]; [|done].
    exists k. split; [by apply (Hoth (n, k))|apply num_leb_refl].
Qed.

(** X8.  [StructureD.batchPrepend] inserts the items one by one: the
    structure stays sorted with distinct nodes, holds the nodes it held
    and the given ones, records for each a value no greater than any
    value given or held for it, and keeps [M] and [B]. *)
Theorem D_batchPrepend_keeps d its :
  StronglySorted vle (BMSSP.items d) → NoDup (BMSSP.items d).*1 →
  let d' := BMSSP.D_batchPrepend d its in
  StronglySorted vle (BMSSP.items d') ∧ NoDup (BMSSP.items d').*1 ∧
  (∀ y, y ∈ (BMSSP.items d').*1 ↔ y ∈ its.*1 ∨ y ∈ (BMSSP.items d).*1) ∧
  (∀ n k, (n, k) ∈ its ∨ (n, k) ∈ BMSSP.items d →
          ∃ k', (n, k') ∈ BMSSP.items d' ∧ num_leb k' k = true) ∧
  BMSSP.dM d' = BMSSP.dM d ∧ BMSSP.dB d' = BMSSP.dB d.
Proof.
  revert d. unfold BMSSP.D_batchPrepend.
  induction its as [|[node val] its IH]; intros d Hs Hnd; cbn [foldl fst snd].
  - split_and!; [done|done| | |done|done].
    + intros y. rewrite fmap_nil, elem_of_nil. tauto.
    + intros n k [[]%elem_of_nil|Hin]. exists k. split; [done|apply num_leb_refl].
  - destruct (D_insert_inv d node val Hs Hnd) as (Hs1 & Hnd1 & Hp & HM & HB).
    destruct (IH _ Hs1 Hnd1) as (Hs2 & Hnd2 & Hn2 & Hv2 & HM2 & HB2).
    split_and!; [done|done| | |congruence|congruence].
    + intros y. rewrite Hn2, Hp, fmap_cons, elem_of_cons. cbn [fst].
      case_bool_decide as Hin; [|rewrite elem_of_cons; tauto].
      split; [tauto|]. intros [[->|?]|?]; tauto.
    + intros n k Hin.
      assert ((n, k) ∈ its ∨
              ∃ k1, (n, k1) ∈ BMSSP.items (BMSSP.D_insert d node val) ∧
                    num_leb k1 k = true) as [Hl|(k1 & Hk1 & Hle)].
      { destruct Hin as [[E|?]%elem_of_cons|?]; [|by left|].
        - right. apply D_insert_lower; [done|by right].
        - right. apply D_insert_lower; [done|by left]. }
      * apply Hv2. by left.
      * destruct (Hv2 n k1 (or_intror Hk1)) as (k' & ? & ?).
        exists k'. split; [done|]. by eapply num_leb_trans.
Qed.

Lemma D_batchPrepend_keeps_witness :
  let its := [((0, 1), Fin 0); ((1, 1), Fin 3); ((0, 1), Fin 4)] in
  let d' := BMSSP.D_batchPrepend d3 its in
  StronglySorted vle (BMSSP.items d') ∧ NoDup (BMSSP.items d').*1 ∧
  (∀ y, y ∈ (BMSSP.items d').*1 ↔ y ∈ its.*1 ∨ y ∈ (BMSSP.items d3).*1) ∧
  (∀ n k, (n, k) ∈ its ∨ (n, k) ∈ BMSSP.items d3 →
          ∃ k', (n, k') ∈ BMSSP.items d' ∧ num_leb k' k = true) ∧
  BMSSP.dM d' = BMSSP.dM d3 ∧ BMSSP.dB d' = BMSSP.dB d3.
Proof. apply D_batchPrepend_keeps; [apply d3_sorted|apply d3_nodup]. Defined.

(** ** The state in which [bmssp] makes its top-level call *)

Lemma bmssp_start_other g s x :
  x ≠ s → getNode (bmssp_start g s) x = BMSSP.resetNode (getNode g x).
Proof.
  intros Hx. unfold bmssp_start. rewrite getNode_updNode_ne by done.
  apply getNode_resetAll.
Qed.

Lemma bmssp_start_reached g s x : reached (bmssp_start g s) x → x = s.
Proof.
  intros [d Hd]. destruct (decide (x = s)) as [|Hx]; [done|].
  by rewrite bmssp_start_other in Hd.
Qed.

Lemma start_points_ok g s :
  rectangular g → inGrid g s → isWall (getNode g s) = false →
  points_ok g s (BMSSP.mkState (bmssp_start g s) [] []).
Proof.
  intros Hrect Hin Hw. constructor; [|constructor]. cbn [BMSSP.gridRef].
  split; [by apply binv_start|].
  intros x k Hk.
  assert (x = s) as -> by (apply (bmssp_start_reached g); by exists k).
  pose proof (binv_start g s Hrect Hin Hw) as Hb.
  destruct (bi_start _ _ _ Hb) as (_ & Hd & _).
  assert (k = 0) as -> by congruence.
  split; [constructor|]. intros; lia.
Qed.

Lemma start_level g s B :
  rectangular g → inGrid g s → isWall (getNode g s) = false →
  num_leb (Fin 0) B = true → level_list g (bmssp_start g s) B [s].
Proof.
  intros Hrect Hin Hw HB.
  pose proof (binv_start g s Hrect Hin Hw) as Hb.
  destruct (bi_start _ _ _ Hb) as (Hgood & Hd & _).
  split.
  - by constructor.
  - repeat constructor.
  - intros a a' ->%list_elem_of_singleton ->%list_elem_of_singleton. lia.
  - intros a ->%list_elem_of_singleton. by rewrite Hd.
Qed.

Lemma start_cover g s B :
  rectangular g → inGrid g s → isWall (getNode g s) = false →
  cover g (bmssp_start g s) B [s].
Proof.
  intros Hrect Hin Hw w [Hgood _]. right.
  assert (w = s) as -> by (apply (bmssp_start_reached g), Hgood).
  apply descends_self; [by left|done].
Qed.

Lemma grid_2x2_rect : rectangular grid_2x2.
Proof.
  apply (c_rect _ (0, 0) (1, 1)). apply makeGrid_contract; cbn; try lia; try done;
    apply not_elem_of_nil.
Qed.

(** X9.  [findPivots], called on a state whose recorded distances are all
    lengths of shortest walks, with sources [S] that are reached open cells
    in the order of their distances, spanning two layers at most and not
    above [B], such that every reached cell with an unreached open
    neighbour is at distance [B] at least or hangs below a source: it
    returns [S] itself as the pivots; every distance it records is again
    the length of a shortest walk and no recorded distance changes; no
    source is left with an unreached open neighbour; and every node of [W]
    hangs below a source. *)
Theorem findPivots_exact g0 startNode P B S st :
  inGrid g0 startNode → isWall (getNode g0 startNode) = false →
  0 < BMSSP.k_param P →
  points_ok g0 startNode st →
  level_list g0 (BMSSP.gridRef st) B S → NoDup S →
  cover g0 (BMSSP.gridRef st) B S →
  ∃ st' W,
    BMSSP.findPivots P B S st = (st', S, W) ∧
    points_ok g0 startNode st' ∧
    keeps (BMSSP.gridRef st) (BMSSP.gridRef st') ∧
    Forall (λ a, ¬ pending g0 (BMSSP.gridRef st') a) S ∧
    Forall (descends g0 (BMSSP.gridRef st') S) W ∧
    cover g0 (BMSSP.gridRef st') B S.
Proof.
  intros Hin Hw Hk Hst HS Hnd Hc.
  destruct (findPivots_spec g0 startNode Hin Hw P B S st Hk Hst HS Hnd Hc)
    as (st' & W & E & [Hst' [Hkeep _]] & H1 & H2 & H3).
  by exists st', W.
Qed.

Lemma findPivots_exact_witness :
  ∃ st' W,
    BMSSP.findPivots (BMSSP.mkParams 2 2) Infinity [(0, 0)]
      (BMSSP.mkState (bmssp_start grid_2x2 (0, 0)) [] []) = (st', [(0, 0)], W) ∧
    points_ok grid_2x2 (0, 0) st' ∧
    keeps (bmssp_start grid_2x2 (0, 0)) (BMSSP.gridRef st') ∧
    Forall (λ a, ¬ pending grid_2x2 (BMSSP.gridRef st') a) [(0, 0)] ∧
    Forall (descends grid_2x2 (BMSSP.gridRef st') [(0, 0)]) W ∧
    cover grid_2x2 (BMSSP.gridRef st') Infinity [(0, 0)].
Proof.
  apply (findPivots_exact grid_2x2 (0, 0) (BMSSP.mkParams 2 2) Infinity [(0, 0)]
           (BMSSP.mkState (bmssp_start grid_2x2 (0, 0)) [] [])).
  - split; cbn; lia.
  - reflexivity.
  - cbn. lia.
  - apply start_points_ok; [apply grid_2x2_rect|split; cbn; lia|reflexivity].
  - apply start_level; [apply grid_2x2_rect|split; cbn; lia|reflexivity|reflexivity].
  - apply NoDup_singleton.
  - apply start_cover; [apply grid_2x2_rect|split; cbn; lia|reflexivity].
Defined.

(** X10.  [baseCase] without a bound, from one source [x], on a state whose
    recorded distances are all lengths of shortest walks and in which every
    reached cell with an unreached open neighbour hangs below [x]: with
    enough fuel it returns, and the result satisfies [post_inf]: recorded
    distances are again exact, the boundary is above the distance of [x],
    and [U] lists without repetition exactly the nodes below [x] that are
    nearer than the boundary, none of which is left with an unreached open
    neighbour. *)
Theorem baseCase_unbounded g0 startNode P x st :
  inGrid g0 startNode → isWall (getNode g0 startNode) = false →
  1 ≤ BMSSP.k_param P →
  points_ok g0 startNode st →
  level_list g0 (BMSSP.gridRef st) Infinity [x] →
  cover g0 (BMSSP.gridRef st) Infinity [x] →
  ∃ st' B' U,
    post_inf g0 startNode P 0 [x] st st' B' U ∧
    ∃ N, ∀ fuel, N ≤ fuel →
                 BMSSP.baseCase P fuel Infinity [x] st = Some (st', B', U).
Proof. intros. by apply baseCase_inf. Qed.

Lemma baseCase_unbounded_witness :
  ∃ st' B' U,
    post_inf grid_2x2 (0, 0) (BMSSP.mkParams 2 2) 0 [(0, 0)]
      (BMSSP.mkState (bmssp_start grid_2x2 (0, 0)) [] []) st' B' U ∧
    ∃ N, ∀ fuel, N ≤ fuel →
                 BMSSP.baseCase (BMSSP.mkParams 2 2) fuel Infinity [(0, 0)]
                   (BMSSP.mkState (bmssp_start grid_2x2 (0, 0)) [] [])
                 = Some (st', B', U).
Proof.
  apply (baseCase_unbounded grid_2x2 (0, 0) (BMSSP.mkParams 2 2) (0, 0)
           (BMSSP.mkState (bmssp_start grid_2x2 (0, 0)) [] [])).
  - split; cbn; lia.
  - reflexivity.
  - cbn. lia.
  - apply start_points_ok; [apply grid_2x2_rect|split; cbn; lia|reflexivity].
  - apply start_level; [apply grid_2x2_rect|split; cbn; lia|reflexivity|reflexivity].
  - apply start_cover; [apply grid_2x2_rect|split; cbn; lia|reflexivity].
Defined.

Lemma distance_markVisited st u y :
  distance (getNode (BMSSP.gridRef (BMSSP.markVisited st u)) y) =
  distance (getNode (BMSSP.gridRef st) y).
Proof.
  unfold BMSSP.markVisited. destruct (isVisited _); [done|]. cbn [BMSSP.store BMSSP.gridRef].
  by destruct (getNode_updNode_cases (BMSSP.gridRef st) u y (set_isVisited true))
    as [->|[-> ->]].
Qed.

(** X11.  On a rectangular grid, [baseCase] with a bound [b] that is at
    most one above the distance of its single source [x], a cell of the
    grid, returns the bound and [x] alone, for every [k >= 1], and writes no
    distance: when the distance of [x] is [b] or more the loop breaks at
    the first pop and the state is unchanged; when it is [b - 1] the source
    is closed, and no relaxation passes the test against the bound. *)
Theorem baseCase_bounded P b x st fuel :
  rectangular (BMSSP.gridRef st) → inGrid (BMSSP.gridRef st) x →
  1 ≤ BMSSP.k_param P → 1 ≤ fuel →
  num_leb (Fin b) (num_add (distance (getNode (BMSSP.gridRef st) x)) (Fin 1)) = true →
  BMSSP.baseCase P fuel (Fin b) [x] st =
  Some (if num_geb (distance (getNode (BMSSP.gridRef st) x)) (Fin b)
        then st else BMSSP.markVisited st x,
        Fin b, [x]).
Proof.
  intros _ _ Hk Hf Hb. unfold BMSSP.baseCase. cbn [foldl].
  rewrite heap_push_last by constructor.
  rewrite set_of_NoDup by apply NoDup_singleton. cbn [app].
  destruct fuel as [|fuel]; [lia|]. rewrite bc_loop_unfold.
  change (BMSSP.heap_pop [(x, distance (getNode (BMSSP.gridRef st) x))])
    with (Some ((x, distance (getNode (BMSSP.gridRef st) x)),
                @nil (NodeRef * num))).
  assert ((length [x] <? BMSSP.k_param P + 1) = true) as ->
    by (apply Nat.ltb_lt; simpl; lia).
  assert ((length [x] <=? BMSSP.k_param P) = true) as Hk2
    by (apply Nat.leb_le; simpl; lia).
  destruct (num_geb _ _).
  { cbn [mbind option_bind]. by rewrite Hk2. }
  cbn zeta. rewrite foldl_fixed.
  2:{ intros v. unfold BMSSP.bc_relax. rewrite distance_markVisited.
      replace (num_ltb _ (Fin b)) with false; [by rewrite andb_false_r|].
      symmetry. by apply num_ltb_false. }
  cbn [fst snd]. rewrite set_add_elem by (by left).
  assert (BMSSP.bc_loop P fuel (Fin b) (BMSSP.markVisited st x) [x] []
          = Some (BMSSP.markVisited st x, [x])) as -> by (by destruct fuel).
  cbn [mbind option_bind]. by rewrite Hk2.
Qed.

Lemma baseCase_bounded_witness :
  BMSSP.baseCase (BMSSP.mkParams 2 2) 1 (Fin 1) [(0, 0)]
    (BMSSP.mkState (bmssp_start grid_2x2 (0, 0)) [] []) =
  Some (if num_geb (distance (getNode (bmssp_start grid_2x2 (0, 0)) (0, 0))) (Fin 1)
        then BMSSP.mkState (bmssp_start grid_2x2 (0, 0)) [] []
        else BMSSP.markVisited (BMSSP.mkState (bmssp_start grid_2x2 (0, 0)) [] []) (0, 0),
        Fin 1, [(0, 0)]).
Proof.
  apply (baseCase_bounded (BMSSP.mkParams 2 2) 1 (0, 0)
           (BMSSP.mkState (bmssp_start grid_2x2 (0, 0)) [] []) 1).
  - apply rectangular_updNode, rectangular_resetAll, grid_2x2_rect.
  - split; vm_compute; lia.
  - cbn; lia.
  - lia.
  - reflexivity.
Defined.

(** Without a pending node, every cell that a walk reaches is recorded. *)
Lemma idle_walk_reached g0 s g k x :
  ginv g0 s g → (∀ w, ¬ pending g0 g w) → walk g0 s k x → good g0 g x.
Proof.
  intros Hg Hidle. induction 1 as [|k u v Hw IH Hadj Hin Hwall].
  - apply (bi_start _ _ _ (gi_binv _ _ _ Hg)).
  - destruct (distance (getNode g v)) as [d|] eqn:Hd.
    + split_and!; [done| |by exists d]. by rewrite (ginv_wall g0 s).
    + destruct (Hidle u). split; [done|]. exists v. by split.
Qed.

Lemma grid_1x2_rect : rectangular grid_1x2.
Proof.
  apply (c_rect _ (0, 0) (0, 1)). apply makeGrid_contract; cbn; try lia; try done;
    apply not_elem_of_nil.
Qed.

Lemma bc_loop_fuel_mono P B n : ∀ m st U0 heap r,
  BMSSP.bc_loop P n B st U0 heap = Some r → n ≤ m →
  BMSSP.bc_loop P m B st U0 heap = Some r.
Proof.
  induction n as [|n IH]; intros m st U0 heap r H Hle.
  - destruct m as [|m]; [done|]. rewrite bc_loop_unfold. cbn [BMSSP.bc_loop] in H.
    destruct (BMSSP.heap_pop heap) as [[[u d] h']|]; [|done].
    by destruct (_ <? _).
  - destruct m as [|m]; [lia|]. rewrite bc_loop_unfold in H |- *.
    destruct (BMSSP.heap_pop heap) as [[[u d] h']|]; [|done].
    destruct (_ <? _); [|done]. destruct (num_geb d B); [done|].
    cbn zeta in H |- *. apply IH; [done|lia].
Qed.

Lemma baseCase_mono P B S st n m r :
  BMSSP.baseCase P n B S st = Some r → n ≤ m →
  BMSSP.baseCase P m B S st = Some r.
Proof.
  unfold BMSSP.baseCase. intros H Hle.
  destruct (BMSSP.bc_loop P n B st _ _) as [[st' U0]|] eqn:E; [|done].
  by rewrite (bc_loop_fuel_mono P B n m _ _ _ _ E Hle).
Qed.

(** The state in which [bmsspRecursive], entered by [bmssp] at a level
    above [0], reaches its first recursive call: the state [bmssp]
    initialises, after [findPivots] from the start node. *)
Definition bmssp_pivoted (P : BMSSP.Params) (g : Grid) (s : NodeRef) : BMSSP.State :=
  (BMSSP.findPivots P Infinity [s] (BMSSP.mkState (bmssp_start g s) [] [])).1.1.

Lemma bmssp_pivoted_ok P g s :
  rectangular g → inGrid g s → isWall (getNode g s) = false →
  0 < BMSSP.k_param P →
  points_ok g s (bmssp_pivoted P g s) ∧
  level_list g (BMSSP.gridRef (bmssp_pivoted P g s)) Infinity [s] ∧
  cover g (BMSSP.gridRef (bmssp_pivoted P g s)) Infinity [s].
Proof.
  intros Hrect Hin Hw Hk.
  pose proof (start_points_ok g s Hrect Hin Hw) as Hst.
  pose proof (start_level g s Infinity Hrect Hin Hw eq_refl) as HS.
  destruct (findPivots_spec g s Hin Hw P Infinity [s] _ Hk Hst HS
              (NoDup_singleton s) (start_cover g s Infinity Hrect Hin Hw))
    as (st' & W & E & [Hst' [Hkeep _]] & _ & _ & Hc).
  unfold bmssp_pivoted. rewrite E. cbn [fst]. split_and!; [done| |done].
  eapply level_list_keeps; [|by apply points_ok_ginv|done|done].
  by apply points_ok_ginv in Hst.
Qed.

(** X12.  [baseCase] without a bound from one source [x], on a state as in
    X10: when it returns the boundary [Infinity] (the closed set stayed at
    [k] members at most), the search is complete: a cell records the
    distance [d] exactly when the shortest walk of open cells from the
    start node to it has [d] steps. *)
Theorem baseCase_complete g0 startNode P x st fuel st' U :
  inGrid g0 startNode → isWall (getNode g0 startNode) = false →
  1 ≤ BMSSP.k_param P →
  points_ok g0 startNode st →
  level_list g0 (BMSSP.gridRef st) Infinity [x] →
  cover g0 (BMSSP.gridRef st) Infinity [x] →
  BMSSP.baseCase P fuel Infinity [x] st = Some (st', Infinity, U) →
  ∀ y d, distance (getNode (BMSSP.gridRef st') y) = Fin d ↔
         shortest g0 startNode y d.
Proof.
  intros Hin Hw Hk Hst HS Hc Hrun.
  destruct (baseCase_inf g0 startNode Hin Hw P Hk x st Hst HS Hc)
    as (st1 & B1 & U1 & Hpost & N & HN).
  pose proof (baseCase_mono _ _ _ _ _ (fuel `max` N) _ Hrun ltac:(lia)) as E.
  rewrite HN in E by lia. simplify_eq.
  destruct (pi_adv _ _ _ _ _ _ _ _ _ Hpost) as [Hst' _].
  pose proof (points_ok_ginv _ _ _ Hst') as Hg'.
  pose proof (pi_exhaust _ _ _ _ _ _ _ _ _ Hpost eq_refl) as Hidle.
  intros y d. split; [apply Hg'|].
  intros [Hwalk Hmin].
  destruct (idle_walk_reached g0 startNode _ d y Hg' Hidle Hwalk) as (_ & _ & [d' Hd']).
  rewrite Hd'. f_equal.
  destruct (gi_exact _ _ _ Hg' y d' Hd') as [Hwalk' Hmin'].
  specialize (Hmin _ Hwalk'). specialize (Hmin' _ Hwalk). lia.
Qed.

Lemma baseCase_complete_witness :
  ∃ st' U,
    BMSSP.baseCase (BMSSP.mkParams 2 2) 3 Infinity [(0, 0)]
      (bmssp_pivoted (BMSSP.mkParams 2 2) grid_1x2 (0, 0))
    = Some (st', Infinity, U) ∧
    ∀ y d, distance (getNode (BMSSP.gridRef st') y) = Fin d ↔
           shortest grid_1x2 (0, 0) y d.
Proof.
  eexists _, _. split; [vm_compute; reflexivity|].
  eapply (baseCase_complete grid_1x2 (0, 0) (BMSSP.mkParams 2 2) (0, 0)
            (bmssp_pivoted (BMSSP.mkParams 2 2) grid_1x2 (0, 0)) 3).
  - split; cbn; lia.
  - reflexivity.
  - cbn. lia.
  - apply bmssp_pivoted_ok; [apply grid_1x2_rect|split; cbn; lia|reflexivity|cbn; lia].
  - apply bmssp_pivoted_ok; [apply grid_1x2_rect|split; cbn; lia|reflexivity|cbn; lia].
  - apply bmssp_pivoted_ok; [apply grid_1x2_rect|split; cbn; lia|reflexivity|cbn; lia].
  - vm_compute. reflexivity.
Defined.

(** ** The closed set of [baseCase]

    The loop of [baseCase] is Dijkstra's, cut short by the bound and by the
    size of the closed set.  With sources that are pairwise distinct every
    node has one entry in the heap at most, the key of an entry is the
    distance its node records, and the keys popped never decrease: a node
    is closed once, in the order of the distances, and is not written
    afterwards. *)

Lemma getNeighbors_same g g' u :
  rows g' = rows g → cols g' = cols g →
  (∀ p, isWall (getNode g' p) = isWall (getNode g p)) →
  BMSSP.getNeighbors u g' = BMSSP.getNeighbors u g.
Proof.
  intros Hr Hc Hw. unfold BMSSP.getNeighbors.
  assert (gridNeighbors u g' = gridNeighbors u g) as ->.
  { destruct u. unfold gridNeighbors. by rewrite Hr, Hc. }
  apply list_filter_iff. intros x. by rewrite Hw.
Qed.

Lemma num_leb_antisym a b :
  num_leb a b = true → num_ltb a b = false → a = b.
Proof.
  destruct a as [x|], b as [y|]; simpl; try done.
  intros ?%Nat.leb_le ?%Nat.ltb_ge. f_equal. lia.
Qed.

Lemma num_ltb_succ a b :
  num_ltb a b = true → num_ltb a (num_add a (Fin 1)) = true.
Proof. destruct a as [x|]; [|done]. intros _. simpl. apply Nat.ltb_lt. lia. Qed.

(** The entries of the heap after [decreaseKey] with a key that is not
    above the one recorded. *)
Lemma heap_decreaseKey_elem (els : BMSSP.Heap) v nd :
  NoDup els.*1 → v ∈ els.*1 →
  (∀ κ, (v, κ) ∈ els → num_leb nd κ = true) →
  ∀ e, e ∈ BMSSP.heap_decreaseKey els v nd ↔ (e.1 ≠ v ∧ e ∈ els) ∨ e = (v, nd).
Proof.
  intros Hnd Hv Hle e. unfold BMSSP.heap_decreaseKey.
  destruct (BMSSP.findIndex _ _) as [idx|] eqn:Hidx.
  2:{ apply findIndex_None in Hidx. rewrite Forall_forall in Hidx.
      apply list_elem_of_fmap in Hv as (x & -> & Hx).
      specialize (Hidx x Hx). by rewrite bool_decide_eq_false in Hidx. }
  apply findIndex_Some in Hidx as (x & Hx & Hxv).
  apply bool_decide_eq_true in Hxv. rewrite Hx.
  assert (∀ j y, els !! j = Some y → y.1 = v → j = idx) as Huniq.
  { intros j y Hj Hy. apply (NoDup_lookup els.*1 j idx v Hnd).
    - by rewrite list_lookup_fmap, Hj, <- Hy.
    - by rewrite list_lookup_fmap, Hx, <- Hxv. }
  destruct x as [xv κ0]. simpl in Hxv. subst xv.
  pose proof (list_elem_of_lookup_2 _ _ _ Hx) as Hin.
  cbn [fst snd]. destruct (num_ltb nd κ0) eqn:Hlt.
  - rewrite (elem_of_Permutation_proper e _ _ (bubbleUpAt_perm _ idx)).
    rewrite list_elem_of_lookup. split.
    + intros [j Hj]. destruct (decide (j = idx)) as [->|Hne].
      * rewrite list_lookup_insert_eq in Hj by (by eapply lookup_lt_Some).
        right. congruence.
      * rewrite list_lookup_insert_ne in Hj by done. left. split.
        -- intros He. by apply Hne, (Huniq j e).
        -- by eapply list_elem_of_lookup_2.
    + intros [[He [j Hj]%list_elem_of_lookup]| ->].
      * exists j. rewrite list_lookup_insert_ne; [done|].
        intros <-. by simplify_eq.
      * exists idx. apply list_lookup_insert_eq. by eapply lookup_lt_Some.
  - assert (nd = κ0) as -> by (apply num_leb_antisym; [by apply Hle|done]).
    split.
    + intros He. destruct (decide (e.1 = v)) as [E|N]; [right|by left].
      apply list_elem_of_lookup in He as [j Hj].
      assert (j = idx) as -> by (by apply (Huniq j e)). congruence.
    + intros [[_ ?]| ->]; done.
Qed.

(** The heap after the push or the [decreaseKey] of a relaxation. *)
Lemma relax_heap (heap : BMSSP.Heap) v nd :
  heap_ok heap → NoDup heap.*1 →
  (∀ κ, (v, κ) ∈ heap → num_leb nd κ = true) →
  let heap' := if BMSSP.heap_contains heap v then BMSSP.heap_decreaseKey heap v nd
               else BMSSP.heap_push heap v nd in
  heap_ok heap' ∧ NoDup heap'.*1 ∧
  ∀ e, e ∈ heap' ↔ (e.1 ≠ v ∧ e ∈ heap) ∨ e = (v, nd).
Proof.
  intros Hok Hnd Hle. cbv zeta.
  destruct (BMSSP.heap_contains heap v) eqn:Hc.
  - apply heap_contains_elem in Hc. split_and!.
    + by apply heap_decreaseKey_ok.
    + by rewrite heap_decreaseKey_nodes.
    + by apply heap_decreaseKey_elem.
  - assert (v ∉ heap.*1) as Hv.
    { intros Hv%heap_contains_elem. congruence. }
    split_and!.
    + by apply heap_push_ok.
    + rewrite heap_push_perm. simpl. by apply NoDup_cons_2.
    + intros e. rewrite (elem_of_Permutation_proper e _ _ (heap_push_perm _ _ _)).
      rewrite elem_of_cons. split.
      * intros [->|He]; [by right|left]. split; [|done].
        intros <-. apply Hv, list_elem_of_fmap. by exists e.
      * intros [[_ ?]| ->]; [by right|by left].
Qed.

(** [p] is recorded no farther than [q]. *)
Definition dist_le (g : Grid) (p q : NodeRef) : Prop :=
  num_leb (distance (getNode g p)) (distance (getNode g q)) = true.

Lemma sorted_dist_le g g' l :
  (∀ p, p ∈ l → distance (getNode g' p) = distance (getNode g p)) →
  StronglySorted (dist_le g) l → StronglySorted (dist_le g') l.
Proof.
  intros Hl Hs. induction Hs as [|a l Hs IH Ha]; [constructor|].
  constructor.
  - apply IH. intros p Hp. apply Hl. by right.
  - rewrite Forall_forall in Ha |- *. intros y Hy. unfold dist_le.
    rewrite !Hl; [by apply Ha|by right|by left].
Qed.

(** What [markVisited] does on a cell of the grid. *)
Lemma markVisited_facts st u :
  rectangular (BMSSP.gridRef st) → inGrid (BMSSP.gridRef st) u →
  ∃ t1, BMSSP.trace (BMSSP.markVisited st u) = BMSSP.trace st ++ t1 ∧
        (∀ x, x ∈ t1 → x = u) ∧
        (∀ w, w ∉ t1 → getNode (BMSSP.gridRef (BMSSP.markVisited st u)) w
                        = getNode (BMSSP.gridRef st) w) ∧
        (∀ w, distance (getNode (BMSSP.gridRef (BMSSP.markVisited st u)) w)
              = distance (getNode (BMSSP.gridRef st) w) ∧
              isWall (getNode (BMSSP.gridRef (BMSSP.markVisited st u)) w)
              = isWall (getNode (BMSSP.gridRef st) w)) ∧
        (∀ w, isVisited (getNode (BMSSP.gridRef (BMSSP.markVisited st u)) w) = true ↔
              isVisited (getNode (BMSSP.gridRef st) w) = true ∨ w = u).
Proof.
  intros Hrect Hu. unfold BMSSP.markVisited.
  destruct (isVisited (getNode (BMSSP.gridRef st) u)) eqn:Hv.
  - exists []. rewrite app_nil_r. split_and!; [done|by intros x ?%elem_of_nil|done..|].
    intros w. split; [by left|]. by intros [?| ->].
  - exists [u]. cbn [BMSSP.store BMSSP.gridRef BMSSP.trace].
    split_and!; [done|by intros x ->%list_elem_of_singleton| | |].
    + intros w Hw. apply getNode_updNode_ne. intros ->. apply Hw. by left.
    + intros w.
      by destruct (getNode_updNode_cases (BMSSP.gridRef st) u w (set_isVisited true))
        as [->|[_ ->]].
    + intros w. destruct (decide (w = u)) as [->|Hne].
      * rewrite getNode_updNode_eq by done. simpl. split; [by right|done].
      * rewrite getNode_updNode_ne by done. split; [by left|]. by intros [?|?].
Qed.

Section BaseCaseClosed.
Context (P : BMSSP.Params) (B : num) (S : list NodeRef) (st0 : BMSSP.State).
Hypothesis st0_rect : rectangular (BMSSP.gridRef st0).
Hypothesis S_in : Forall (inGrid (BMSSP.gridRef st0)) S.

Local Abbreviation g0 := (BMSSP.gridRef st0).
Local Abbreviation dn g v := (distance (getNode g v)).

(** The loop of [baseCase] between two iterations, and inside the
    iteration that closes [u] while the neighbours [pend] of [u] are still
    to be relaxed: [popped] lists the nodes closed so far and [tr] what the
    call has appended to the trace. *)
Record bc_open (st : BMSSP.State) (heap : BMSSP.Heap) (popped tr : list NodeRef)
    (u : NodeRef) (pend : list NodeRef) : Prop := mkBcOpen {
  bo_trace : BMSSP.trace st = BMSSP.trace st0 ++ tr;
  bo_dims : dims g0 (BMSSP.gridRef st);
  bo_wall : ∀ p, isWall (getNode (BMSSP.gridRef st) p) = isWall (getNode g0 p);
  bo_le : ∀ v, num_leb (dn (BMSSP.gridRef st) v) (dn g0 v) = true;
  bo_same : ∀ v, v ∉ tr → getNode (BMSSP.gridRef st) v = getNode g0 v;
  bo_vis : ∀ v, isVisited (getNode (BMSSP.gridRef st) v) = true ↔
                isVisited (getNode g0 v) = true ∨ v ∈ popped;
  bo_heap : heap_ok heap;
  bo_hnodup : NoDup heap.*1;
  bo_keys : ∀ e, e ∈ heap →
                 e.2 = (dn (BMSSP.gridRef st) e.1) ∧ inGrid g0 e.1 ∧
                 (e.1 ∈ S ∨ e.1 ∈ tr);
  bo_pnodup : NoDup popped;
  bo_sorted : StronglySorted (dist_le (BMSSP.gridRef st)) popped;
  bo_low : ∀ p e, p ∈ popped → e ∈ heap →
                  num_leb (dn (BMSSP.gridRef st) p) e.2 = true;
  bo_popped : ∀ p, p ∈ popped →
                   (p ∉ heap.*1) ∧ num_ltb (dn (BMSSP.gridRef st) p) B = true ∧
                   inGrid g0 p ∧ (p ∈ S ∨ p ∈ tr);
  bo_seen : ∀ v, v ∈ S ∨ v ∈ tr → v ∈ popped ∨ v ∈ heap.*1;
  bo_relaxed : ∀ p w, p ∈ popped → w ∈ BMSSP.getNeighbors p (BMSSP.gridRef st) →
                      (p = u ∧ w ∈ pend) ∨
                      num_leb (dn (BMSSP.gridRef st) w)
                              (num_add (dn (BMSSP.gridRef st) p) (Fin 1)) = true ∨
                      num_leb B (num_add (dn (BMSSP.gridRef st) p) (Fin 1)) = true;
  bo_pend : ∀ v, v ∈ pend →
                 u ∈ popped ∧ v ∈ BMSSP.getNeighbors u (BMSSP.gridRef st) ∧
                 ∀ p, p ∈ popped → dist_le (BMSSP.gridRef st) p u;
}.

Lemma bc_relax_open st heap popped tr u v pend :
  bc_open st heap popped tr u (v :: pend) →
  ∃ tr', bc_open (BMSSP.bc_relax B u (st, heap) v).1
                 (BMSSP.bc_relax B u (st, heap) v).2 popped tr' u pend.
Proof.
  intros H. set (g := BMSSP.gridRef st).
  destruct (bo_pend _ _ _ _ _ _ H v ltac:(by left)) as (Hu & Hv & Hmax).
  destruct (bo_popped _ _ _ _ _ _ H u Hu) as (_ & HuB & Hug & _).
  fold g in Hv, Hmax, HuB.
  destruct (dn g u) as [k|] eqn:Hdu; [|done].
  pose proof (bo_dims _ _ _ _ _ _ H) as Hd. fold g in Hd.
  assert (inGrid g0 v) as Hvg.
  { pose proof (getNeighbors_inGrid g0 g u Hd Hug) as HN.
    rewrite Forall_forall in HN. by apply HN. }
  unfold BMSSP.bc_relax. fold g. rewrite Hdu. change (num_add (Fin k) (Fin 1)) with (Fin (k + 1)).
  destruct (num_leb (Fin (k + 1)) (dn g v) && num_ltb (Fin (k + 1)) B) eqn:T.
  - apply andb_prop in T as [T1 T2].
    assert (v ∉ popped) as Hvp.
    { intros Hvp. specialize (Hmax v Hvp). unfold dist_le in Hmax.
      rewrite Hdu in Hmax. destruct (dn g v) as [m|]; [|done].
      apply num_leb_le in T1, Hmax. lia. }
    set (g' := BMSSP.writeDistance g u v).
    assert (∀ w, w ≠ v → getNode g' w = getNode g w) as Hne.
    { intros w Hw. by apply getNode_updNode_ne. }
    assert (getNode g' v = set_previousNode (Some u)
                             (set_distance (Fin (k + 1)) (getNode g v))) as Hv'.
    { unfold g', BMSSP.writeDistance. rewrite getNode_updNode_eq.
      - by rewrite Hdu.
      - apply Hd.
      - by apply (dims_inGrid g0 g). }
    assert (∀ w, isWall (getNode g' w) = isWall (getNode g w) ∧
                 isVisited (getNode g' w) = isVisited (getNode g w) ∧
                 num_leb (dn g' w) (dn g w) = true) as Hall.
    { intros w. destruct (decide (w = v)) as [->|Hw].
      - rewrite Hv'. simpl. done.
      - rewrite Hne by done. split_and!; [done..|apply num_leb_refl]. }
    assert (∀ p, p ∈ popped → dn g' p = dn g p) as Hpop.
    { intros p Hp. rewrite Hne; [done|]. by intros ->. }
    assert (∀ p, BMSSP.getNeighbors p g' = BMSSP.getNeighbors p g) as Hnb.
    { intros p. apply getNeighbors_same.
      - apply rows_updNode.
      - apply cols_updNode.
      - intros w. apply Hall. }
    destruct (relax_heap heap v (Fin (k + 1)) (bo_heap _ _ _ _ _ _ H)
                (bo_hnodup _ _ _ _ _ _ H)) as (Hok' & Hnd' & Hel).
    { intros κ Hκ. destruct (bo_keys _ _ _ _ _ _ H _ Hκ) as [E _].
      simpl in E. by rewrite E. }
    set (heap' := if BMSSP.heap_contains heap v then _ else _) in *.
    assert (∀ w, w ∈ heap'.*1 ↔ w = v ∨ w ∈ heap.*1) as Hnodes.
    { intros w. rewrite !list_elem_of_fmap. split.
      - intros (e & -> & [[_ He]| ->]%Hel); [right; by exists e|by left].
      - intros [->|(e & -> & He)].
        + exists (v, Fin (k + 1)). split; [done|]. apply Hel. by right.
        + destruct (decide (e.1 = v)) as [E|N].
          * exists (v, Fin (k + 1)). split; [done|]. apply Hel. by right.
          * exists e. split; [done|]. apply Hel. by left. }
    exists (tr ++ [v]). cbn [fst snd BMSSP.store BMSSP.gridRef BMSSP.trace].
    split; cbn [BMSSP.store BMSSP.gridRef BMSSP.trace]; fold g'.
    + rewrite (bo_trace _ _ _ _ _ _ H). by rewrite app_assoc.
    + by apply dims_updNode.
    + intros p. rewrite <- (bo_wall _ _ _ _ _ _ H). apply Hall.
    + intros w. eapply num_leb_trans; [apply Hall|apply (bo_le _ _ _ _ _ _ H)].
    + intros w Hw. rewrite elem_of_app, list_elem_of_singleton in Hw.
      rewrite Hne by tauto. apply (bo_same _ _ _ _ _ _ H). tauto.
    + intros w. destruct (Hall w) as (_ & E & _). rewrite E.
      apply (bo_vis _ _ _ _ _ _ H).
    + done.
    + done.
    + intros e [[N He]| ->]%Hel.
      * destruct (bo_keys _ _ _ _ _ _ H e He) as (E & Hg & HS).
        rewrite Hne by done. split_and!; [done..|].
        rewrite elem_of_app. tauto.
      * simpl. rewrite Hv'. split_and!; [done|done|].
        right. apply elem_of_app. right. by left.
    + apply (bo_pnodup _ _ _ _ _ _ H).
    + apply (sorted_dist_le g); [done|apply (bo_sorted _ _ _ _ _ _ H)].
    + intros p e Hp [[N He]| ->]%Hel; rewrite Hpop by done.
      * by apply (bo_low _ _ _ _ _ _ H).
      * simpl. specialize (Hmax p Hp). unfold dist_le in Hmax. rewrite Hdu in Hmax.
        eapply num_leb_trans; [done|]. apply num_leb_le. lia.
    + intros p Hp. destruct (bo_popped _ _ _ _ _ _ H p Hp) as (H1 & H2 & H3 & H4).
      rewrite Hpop by done. split_and!; [|done|done|].
      * rewrite Hnodes. intros [->|?]; done.
      * rewrite elem_of_app. tauto.
    + intros w Hw. rewrite Hnodes. rewrite elem_of_app, list_elem_of_singleton in Hw.
      destruct (decide (w = v)) as [->|N]; [by right; left|].
      destruct (bo_seen _ _ _ _ _ _ H w) as [?|?]; [tauto|by left|by right; right].
    + intros p w Hp Hw. rewrite Hnb in Hw. rewrite (Hpop p Hp).
      destruct (bo_relaxed _ _ _ _ _ _ H p w Hp Hw) as [[-> Hin]|[Hle|HB]].
      * apply elem_of_cons in Hin as [->|Hin]; [|by left].
        right; left. rewrite Hv'. simpl. fold g. rewrite Hdu. apply num_leb_refl.
      * right; left. eapply num_leb_trans; [apply Hall|done].
      * by right; right.
    + intros w Hw.
      destruct (bo_pend _ _ _ _ _ _ H w ltac:(by right)) as (_ & Hwn & _).
      split_and!; [done|by rewrite Hnb|].
      intros p Hp. unfold dist_le. rewrite !Hpop by done. by apply Hmax.
  - exists tr. cbn [fst snd]. destruct H. split; try done.
    + intros p w Hp Hw.
      destruct (bo_relaxed0 p w Hp Hw) as [[-> Hin]|[Hle|HB]];
        [|by right; left|by right; right].
      apply elem_of_cons in Hin as [->|Hin]; [|by left]. right.
      fold g. rewrite Hdu. change (num_add (Fin k) (Fin 1)) with (Fin (k + 1)).
      apply andb_false_iff in T as [T|T].
      * left. apply num_ltb_leb. by apply num_leb_false.
      * right. by apply num_ltb_false.
    + intros w Hw. apply bo_pend0. by right.
Qed.

Lemma bc_fold_open popped u : ∀ pend st heap tr,
  bc_open st heap popped tr u pend →
  ∃ tr', bc_open (foldl (BMSSP.bc_relax B u) (st, heap) pend).1
                 (foldl (BMSSP.bc_relax B u) (st, heap) pend).2 popped tr' u [].
Proof.
  induction pend as [|v pend IH]; intros st heap tr H; cbn [foldl].
  - by exists tr.
  - destruct (bc_relax_open _ _ _ _ _ _ _ H) as [tr' H'].
    destruct (BMSSP.bc_relax B u (st, heap) v) as [st1 heap1]. by apply (IH _ _ tr').
Qed.

Lemma bc_pop_open st heap popped tr u0 u κ heap' :
  bc_open st heap popped tr u0 [] →
  BMSSP.heap_pop heap = Some ((u, κ), heap') → num_geb κ B = false →
  ∃ tr', bc_open (BMSSP.markVisited st u) heap' (popped ++ [u]) tr' u
                 (BMSSP.getNeighbors u (BMSSP.gridRef (BMSSP.markVisited st u))).
Proof.
  intros H Hpop HB. set (g := BMSSP.gridRef st).
  assert (heap ≠ []) as Hne by (by intros ->).
  destruct (heap_pop_ok heap (bo_heap _ _ _ _ _ _ H) Hne)
    as (m & els' & E & Hperm & Hok' & Hmin).
  rewrite Hpop in E.
  assert (m = (u, κ) ∧ els' = heap') as [-> ->] by (split; congruence). clear E.
  rewrite Forall_forall in Hmin. simpl in Hmin.
  assert ((u, κ) ∈ heap) as Hin.
  { rewrite <- (elem_of_Permutation_proper _ _ _ Hperm). by left. }
  destruct (bo_keys _ _ _ _ _ _ H _ Hin) as (Hκ & Hug & HuS). simpl in Hκ, Hug, HuS.
  fold g in Hκ.
  assert (∀ e, e ∈ heap' → e ∈ heap) as Hsub.
  { intros e He. rewrite <- (elem_of_Permutation_proper _ _ _ Hperm). by right. }
  assert (NoDup (u :: heap'.*1)) as Hnd.
  { change (NoDup ((u, κ) :: heap').*1). rewrite Hperm. apply (bo_hnodup _ _ _ _ _ _ H). }
  apply NoDup_cons in Hnd as [Hu' Hnd'].
  assert (∀ w, w ∈ heap.*1 ↔ w = u ∨ w ∈ heap'.*1) as Hnodes.
  { intros w. rewrite <- (elem_of_Permutation_proper w _ _ (fmap_Permutation fst _ _ Hperm)).
    simpl. apply elem_of_cons. }
  assert (u ∉ popped) as Hup.
  { intros Hp. destruct (bo_popped _ _ _ _ _ _ H u Hp) as [Hn _].
    apply Hn, Hnodes. by left. }
  assert (num_ltb κ B = true) as HκB by (by apply num_leb_false).
  pose proof (bo_dims _ _ _ _ _ _ H) as Hd. fold g in Hd.
  destruct (markVisited_facts st u) as (t1 & Ht & Ht1 & Hsame & Hdw & Hvis);
    [apply Hd|by apply (dims_inGrid g0 g)|].
  pose proof (markVisited_dims g0 st u Hd) as Hd1.
  set (g1 := BMSSP.gridRef (BMSSP.markVisited st u)) in *.
  assert (∀ w, dn g1 w = dn g w) as Hdist by (intros w; apply Hdw).
  assert (∀ p, BMSSP.getNeighbors p g1 = BMSSP.getNeighbors p g) as Hnb.
  { intros p. destruct Hd as (_ & Hr & Hc), Hd1 as (_ & Hr1 & Hc1).
    apply getNeighbors_same; [congruence..|]. intros w. apply Hdw. }
  assert (∀ p, p ∈ popped → dist_le g1 p u) as Hcross.
  { intros p Hp. unfold dist_le. rewrite !Hdist, <- Hκ.
    apply (bo_low _ _ _ _ _ _ H p (u, κ) Hp Hin). }
  exists (tr ++ t1). split; fold g1.
  - rewrite Ht, (bo_trace _ _ _ _ _ _ H). by rewrite app_assoc.
  - done.
  - intros p. rewrite (proj2 (Hdw p)). apply (bo_wall _ _ _ _ _ _ H).
  - intros v. rewrite Hdist. apply (bo_le _ _ _ _ _ _ H).
  - intros v Hv. rewrite elem_of_app in Hv. rewrite Hsame by tauto.
    apply (bo_same _ _ _ _ _ _ H). tauto.
  - intros v. rewrite Hvis, (bo_vis _ _ _ _ _ _ H v), elem_of_app, list_elem_of_singleton.
    tauto.
  - done.
  - done.
  - intros e He. destruct (bo_keys _ _ _ _ _ _ H e (Hsub e He)) as (E & Hg & HS).
    rewrite Hdist. split_and!; [done..|]. rewrite elem_of_app. tauto.
  - apply NoDup_app. split_and!; [apply (bo_pnodup _ _ _ _ _ _ H)| |apply NoDup_singleton].
    intros x Hx ->%list_elem_of_singleton. done.
  - apply StronglySorted_app. split_and!.
    + intros x1 x2 Hx1 ->%list_elem_of_singleton. by apply Hcross.
    + apply (sorted_dist_le g); [done|apply (bo_sorted _ _ _ _ _ _ H)].
    + repeat constructor.
  - intros p e [Hp| ->%list_elem_of_singleton]%elem_of_app He; rewrite Hdist.
    + apply (bo_low _ _ _ _ _ _ H); [done|by apply Hsub].
    + rewrite <- Hκ. apply (Hmin e). by apply Hsub.
  - intros p [Hp| ->%list_elem_of_singleton]%elem_of_app; rewrite Hdist.
    + destruct (bo_popped _ _ _ _ _ _ H p Hp) as (H1 & H2 & H3 & H4).
      split_and!; [|done|done|].
      * intros Hh. apply H1, Hnodes. by right.
      * rewrite elem_of_app. tauto.
    + split_and!; [done|by rewrite <- Hκ|done|]. rewrite elem_of_app. tauto.
  - intros v Hv. rewrite elem_of_app in Hv |- *. rewrite list_elem_of_singleton.
    destruct (decide (v = u)) as [->|N]; [left; by right|].
    assert (v ∈ S ∨ v ∈ tr) as Hv'.
    { destruct Hv as [?|[?|Hv]]; [tauto..|]. by apply Ht1 in Hv. }
    destruct (bo_seen _ _ _ _ _ _ H v Hv') as [?|[?|?]%Hnodes]; [tauto|done|tauto].
  - intros p w [Hp| ->%list_elem_of_singleton]%elem_of_app Hw.
    + rewrite Hnb in Hw. rewrite !Hdist.
      destruct (bo_relaxed _ _ _ _ _ _ H p w Hp Hw) as [[_ []%elem_of_nil]|?]. by right.
    + by left.
  - intros v Hv. split_and!; [apply elem_of_app; right; by left|done|].
    intros p [Hp| ->%list_elem_of_singleton]%elem_of_app; [by apply Hcross|].
    apply num_leb_refl.
Qed.

Lemma length_set_add x s : length (BMSSP.set_add x s) ≤ length s + 1.
Proof.
  unfold BMSSP.set_add. destruct (includes x s); [lia|].
  rewrite length_app. simpl. lia.
Qed.

(** The loop, from any iteration to its exit: what it closes in between
    extends [popped], and it stops with a closed set of more than [k] nodes
    or when no entry of the heap is below the bound. *)
Lemma bc_loop_open fuel : ∀ st U0 heap popped tr u st' U0',
  bc_open st heap popped tr u [] →
  BMSSP.bc_loop P fuel B st U0 heap = Some (st', U0') →
  ∃ heap' more tr' u',
    bc_open st' heap' (popped ++ more) tr' u' [] ∧
    U0' = foldl (λ s x, BMSSP.set_add x s) U0 more ∧
    (length U0' ≤ BMSSP.k_param P → ∀ e, e ∈ heap' → num_leb B e.2 = true) ∧
    length U0' ≤ Nat.max (length U0) (BMSSP.k_param P + 1).
Proof.
  induction fuel as [|fuel IH]; intros st U0 heap popped tr u st' U0' H Hloop.
  - cbn [BMSSP.bc_loop] in Hloop.
    destruct (BMSSP.heap_pop heap) as [[[u1 κ] h']|] eqn:Hpop.
    + destruct (_ <? _) eqn:Hlt; [done|]. apply Nat.ltb_ge in Hlt. simplify_eq.
      exists heap, [], tr, u. rewrite app_nil_r. split_and!; [done|done|lia|lia].
    + simplify_eq. apply heap_pop_None in Hpop as ->.
      exists [], [], tr, u. rewrite app_nil_r.
      split_and!; [done|done|by intros _ e ?%elem_of_nil|lia].
  - rewrite bc_loop_unfold in Hloop.
    destruct (BMSSP.heap_pop heap) as [[[u1 κ] h']|] eqn:Hpop.
    + destruct (_ <? _) eqn:Hlt;
        [apply Nat.ltb_lt in Hlt|apply Nat.ltb_ge in Hlt].
      * destruct (num_geb κ B) eqn:HB.
        -- simplify_eq. exists heap, [], tr, u. rewrite app_nil_r.
           split_and!; [done|done| |lia].
           intros _ e He.
           assert (heap ≠ []) as Hne by (by intros ->).
           destruct (heap_pop_ok heap (bo_heap _ _ _ _ _ _ H) Hne)
             as (m & els' & E & _ & _ & Hmin).
           rewrite Hpop in E.
           assert (m = (u1, κ)) as -> by congruence.
           rewrite Forall_forall in Hmin.
           eapply num_leb_trans; [exact HB|]. by apply (Hmin e).
        -- cbv zeta in Hloop.
           destruct (bc_pop_open _ _ _ _ _ _ _ _ H Hpop HB) as [tr1 H1].
           destruct (bc_fold_open _ _ _ _ _ _ H1) as [tr2 H2].
           destruct (IH _ _ _ _ _ _ _ _ H2 Hloop)
             as (heap' & more & tr' & u' & H3 & E & Hexit & Hlen).
           exists heap', (u1 :: more), tr', u'.
           rewrite (cons_middle u1), app_assoc. split_and!; [done|done|done|].
           pose proof (length_set_add u1 U0). lia.
      * simplify_eq. exists heap, [], tr, u. rewrite app_nil_r.
        split_and!; [done|done|lia|lia].
    + simplify_eq. apply heap_pop_None in Hpop as ->.
      exists [], [], tr, u. rewrite app_nil_r.
      split_and!; [done|done|by intros _ e ?%elem_of_nil|lia].
Qed.

Lemma bc_heap_nodes st l : ∀ h : BMSSP.Heap,
  (foldl (λ h node,
            BMSSP.heap_push h node (distance (getNode (BMSSP.gridRef st) node)))
         h l).*1 ≡ₚ l ++ h.*1.
Proof.
  induction l as [|x l IH]; intros h; simpl; [done|].
  rewrite IH, heap_push_perm. simpl. by rewrite Permutation_middle.
Qed.

Lemma bc_open_init : NoDup S → bc_open st0 (bc_heap st0 S) [] [] (0, 0) [].
Proof.
  intros Hnd.
  assert (∀ e, e ∈ bc_heap st0 S → e.2 = dn g0 (e.1) ∧ e.1 ∈ S) as Hkeys.
  { unfold bc_heap.
    apply (foldl_inv _ (λ h : BMSSP.Heap, ∀ e, e ∈ h → e.2 = dn g0 (e.1) ∧ e.1 ∈ S)).
    - by intros e ?%elem_of_nil.
    - intros h x Hx Hh e.
      rewrite (elem_of_Permutation_proper e _ _ (heap_push_perm _ _ _)).
      intros [->|He]%elem_of_cons; [done|by apply Hh]. }
  split.
  - by rewrite app_nil_r.
  - by split_and!.
  - done.
  - intros v. apply num_leb_refl.
  - done.
  - intros v. split; [by left|]. by intros [?|?%elem_of_nil].
  - unfold bc_heap. apply (foldl_inv _ heap_ok).
    + intros i e p _ ?. done.
    + intros h x _ Hh. by apply heap_push_ok.
  - unfold bc_heap. by rewrite bc_heap_nodes, app_nil_r.
  - intros e He. destruct (Hkeys e He) as [E HS]. split_and!; [done| |by left].
    rewrite Forall_forall in S_in. by apply S_in.
  - constructor.
  - constructor.
  - by intros p e ?%elem_of_nil.
  - by intros p ?%elem_of_nil.
  - intros v [Hv|?%elem_of_nil]; [|done]. right.
    unfold bc_heap. by rewrite bc_heap_nodes, app_nil_r.
  - by intros p w ?%elem_of_nil.
  - by intros v ?%elem_of_nil.
Qed.

End BaseCaseClosed.

(** What a call [baseCase(B, S)] that takes the state [st] to [st'] has
    closed: [popped] lists the nodes the loop has popped below the bound,
    in the order of the pops, [tr] is what the call has appended to the
    trace (a node when it is first marked visited, and a node at each write
    of its distance), and [U0] is the closed set. *)
Record bc_closed (P : BMSSP.Params) (B : num) (S : list NodeRef)
    (st st' : BMSSP.State) (popped tr U0 : list NodeRef) : Prop := mkBcClosed {
  (** the closed set is the sources, then the popped nodes that are not
      sources, and it stops growing at [k + 1] members *)
  cl_U0 : U0 = foldl (λ s x, BMSSP.set_add x s) S popped;
  cl_size : length U0 ≤ Nat.max (length S) (BMSSP.k_param P + 1);
  (** a node is popped once, and it is a source or was written before *)
  cl_nodup : NoDup popped;
  cl_from : ∀ p, p ∈ popped → p ∈ S ∨ p ∈ tr;
  (** the popped nodes are below the bound, were popped in the order of
      their distances, are marked visited, and every edge out of them is
      relaxed as far as the bound allows *)
  cl_below : ∀ p, p ∈ popped →
                  num_ltb (distance (getNode (BMSSP.gridRef st') p)) B = true;
  cl_sorted : StronglySorted (dist_le (BMSSP.gridRef st')) popped;
  cl_vis : ∀ v, isVisited (getNode (BMSSP.gridRef st') v) = true ↔
                isVisited (getNode (BMSSP.gridRef st) v) = true ∨ v ∈ popped;
  cl_relaxed : ∀ p w, p ∈ popped → w ∈ BMSSP.getNeighbors p (BMSSP.gridRef st') →
      num_leb (distance (getNode (BMSSP.gridRef st') w))
              (num_add (distance (getNode (BMSSP.gridRef st') p)) (Fin 1)) = true ∨
      num_leb B (num_add (distance (getNode (BMSSP.gridRef st') p)) (Fin 1)) = true;
  (** a source or written node that was not popped is no nearer than any
      popped node, and not below the bound when the loop has stopped with
      [k] nodes at most *)
  cl_first : ∀ p v, p ∈ popped → v ∈ S ∨ v ∈ tr → v ∉ popped →
                    dist_le (BMSSP.gridRef st') p v;
  cl_exit : length U0 ≤ BMSSP.k_param P →
            ∀ v, v ∈ S ∨ v ∈ tr → v ∉ popped →
                 num_leb B (distance (getNode (BMSSP.gridRef st') v)) = true;
  (** the rest of the state *)
  cl_trace : BMSSP.trace st' = BMSSP.trace st ++ tr;
  cl_same : ∀ v, v ∉ tr → getNode (BMSSP.gridRef st') v = getNode (BMSSP.gridRef st) v;
  cl_dist : ∀ v, num_leb (distance (getNode (BMSSP.gridRef st') v))
                         (distance (getNode (BMSSP.gridRef st) v)) = true;
  cl_wall : ∀ v, isWall (getNode (BMSSP.gridRef st') v)
                 = isWall (getNode (BMSSP.gridRef st) v);
  cl_dims : dims (BMSSP.gridRef st) (BMSSP.gridRef st');
}.

Lemma bc_loop_closed P B S st fuel st' U0 :
  rectangular (BMSSP.gridRef st) → Forall (inGrid (BMSSP.gridRef st)) S →
  NoDup S →
  BMSSP.bc_loop P fuel B st (BMSSP.set_of S) (bc_heap st S) = Some (st', U0) →
  ∃ popped tr, bc_closed P B S st st' popped tr U0.
Proof.
  intros Hrect HS Hnd Hloop.
  pose proof (bc_open_init B S st Hrect HS Hnd) as H0.
  destruct (bc_loop_open P B S st fuel _ _ _ _ _ _ _ _ H0 Hloop)
    as (heap' & popped & tr & u' & H & E & Hexit & Hlen).
  rewrite app_nil_l in H. rewrite set_of_NoDup in E, Hlen by done.
  assert (∀ v, v ∈ S ∨ v ∈ tr → v ∉ popped → ∃ e, e ∈ heap' ∧ e.1 = v) as Hopen.
  { intros v Hv Hn. destruct (bo_seen _ _ _ _ _ _ _ _ _ H v Hv) as [?|He]; [done|].
    apply list_elem_of_fmap in He as (e & -> & He). by exists e. }
  exists popped, tr. split.
  - done.
  - done.
  - apply (bo_pnodup _ _ _ _ _ _ _ _ _ H).
  - intros p Hp. apply (bo_popped _ _ _ _ _ _ _ _ _ H p Hp).
  - intros p Hp. apply (bo_popped _ _ _ _ _ _ _ _ _ H p Hp).
  - apply (bo_sorted _ _ _ _ _ _ _ _ _ H).
  - apply (bo_vis _ _ _ _ _ _ _ _ _ H).
  - intros p w Hp Hw.
    destruct (bo_relaxed _ _ _ _ _ _ _ _ _ H p w Hp Hw) as [[_ []%elem_of_nil]|?]. done.
  - intros p v Hp Hv Hn. destruct (Hopen v Hv Hn) as (e & He & <-).
    unfold dist_le. destruct (bo_keys _ _ _ _ _ _ _ _ _ H e He) as (<- & _).
    by apply (bo_low _ _ _ _ _ _ _ _ _ H).
  - intros Hk v Hv Hn. destruct (Hopen v Hv Hn) as (e & He & <-).
    destruct (bo_keys _ _ _ _ _ _ _ _ _ H e He) as (<- & _). by apply Hexit.
  - apply (bo_trace _ _ _ _ _ _ _ _ _ H).
  - apply (bo_same _ _ _ _ _ _ _ _ _ H).
  - apply (bo_le _ _ _ _ _ _ _ _ _ H).
  - apply (bo_wall _ _ _ _ _ _ _ _ _ H).
  - apply (bo_dims _ _ _ _ _ _ _ _ _ H).
Qed.

(** C9.  Entered with any bound [B], any list of sources [S] taken from a
    rectangular grid and any recorded distances, [baseCase] returns once it
    has fuel enough, and always the same: a state [st'], a boundary and a
    list [U].  With [U0] the closed set its loop ends with: when [U0]
    has at most [k] members it returns the boundary [B] and [U0] itself;
    otherwise it returns as boundary the maximum finite distance among the
    nodes of [U0] ([0] when none is finite), with exactly the nodes of [U0]
    whose distance is strictly below that boundary, in the order of [U0].
    For sources that are pairwise distinct the closed set is what a
    Dijkstra search from [S] closes before it stops: [U0] is [S] followed
    by the other nodes popped below [B], which were popped once each in the
    order of their distances, are marked visited and have every edge
    relaxed as far as [B] allows, while every source or written node left
    in the heap is no nearer than they are; the loop has stopped with more
    than [k] closed nodes ([k + 1] when [S] has [k] at most) or with no
    such node below [B]. *)
Theorem baseCase_returns P B S st :
  rectangular (BMSSP.gridRef st) → Forall (inGrid (BMSSP.gridRef st)) S →
  ∃ st' U0 boundary U,
    (∃ N, ∀ fuel, N ≤ fuel →
       BMSSP.bc_loop P fuel B st (BMSSP.set_of S) (bc_heap st S) = Some (st', U0) ∧
       BMSSP.baseCase P fuel B S st = Some (st', boundary, U)) ∧
    (NoDup S → ∃ popped tr, bc_closed P B S st st' popped tr U0) ∧
    (length U0 ≤ BMSSP.k_param P → boundary = B ∧ U = U0) ∧
    (BMSSP.k_param P < length U0 →
     let m := max_finite_distance (BMSSP.gridRef st') U0 in
     boundary = Fin m ∧
     (∀ x d, x ∈ U0 → distance (getNode (BMSSP.gridRef st') x) = Fin d → d ≤ m) ∧
     (m = 0 ∨ ∃ x, x ∈ U0 ∧ distance (getNode (BMSSP.gridRef st') x) = Fin m) ∧
     U = filter (λ n, num_ltb (distance (getNode (BMSSP.gridRef st') n)) (Fin m)
                      = true) U0).
Proof.
  intros Hrect HS.
  edestruct (bc_loop_total P B (BMSSP.gridRef st)) as [N HN];
    [by split_and!|by apply (bc_heap_inGrid _ st)|done..|].
  destruct (HN N (le_n N)) as (st' & U0 & Hloop).
  assert (∀ fuel, N ≤ fuel →
            BMSSP.bc_loop P fuel B st (BMSSP.set_of S) (bc_heap st S) = Some (st', U0))
    as Hrun by (intros fuel Hf; by apply (bc_loop_fuel_mono P B N)).
  assert (NoDup S → ∃ popped tr, bc_closed P B S st st' popped tr U0) as Hclosed
    by (intros Hnd; by apply (bc_loop_closed P B S st N)).
  destruct (length U0 <=? BMSSP.k_param P) eqn:Hk;
    [apply Nat.leb_le in Hk|apply Nat.leb_gt in Hk].
  - exists st', U0, B, U0. split_and!; [|done|done|lia].
    exists N. intros fuel Hf. split; [by apply Hrun|].
    unfold BMSSP.baseCase. fold (bc_heap st S). rewrite (Hrun fuel Hf). simpl.
    by apply Nat.leb_le in Hk as ->.
  - eexists st', U0, _, _. split_and!; [|done|lia|].
    + exists N. intros fuel Hf. split; [by apply Hrun|].
      unfold BMSSP.baseCase. fold (bc_heap st S). rewrite (Hrun fuel Hf). simpl.
      apply Nat.leb_gt in Hk as ->. reflexivity.
    + intros _. rewrite maxFiniteDistance_max.
      destruct (max_finite_distance_spec (BMSSP.gridRef st') U0) as [H1 H2].
      by split_and!.
Qed.

Lemma baseCase_returns_witness :
  ∃ st' U0 boundary U,
    (∃ N, ∀ fuel, N ≤ fuel →
       BMSSP.bc_loop (BMSSP.mkParams 2 2) fuel Infinity
         (BMSSP.mkState (updNode grid_2x2 (0, 0) (set_distance (Fin 0))) [] [])
         (BMSSP.set_of [(0, 0)])
         (bc_heap (BMSSP.mkState (updNode grid_2x2 (0, 0) (set_distance (Fin 0))) [] [])
                  [(0, 0)]) = Some (st', U0) ∧
       BMSSP.baseCase (BMSSP.mkParams 2 2) fuel Infinity [(0, 0)]
         (BMSSP.mkState (updNode grid_2x2 (0, 0) (set_distance (Fin 0))) [] [])
         = Some (st', boundary, U)) ∧
    (NoDup [(0, 0)] →
     ∃ popped tr,
       bc_closed (BMSSP.mkParams 2 2) Infinity [(0, 0)]
         (BMSSP.mkState (updNode grid_2x2 (0, 0) (set_distance (Fin 0))) [] [])
         st' popped tr U0) ∧
    (length U0 ≤ 2 → boundary = Infinity ∧ U = U0) ∧
    (2 < length U0 →
     let m := max_finite_distance (BMSSP.gridRef st') U0 in
     boundary = Fin m ∧
     (∀ x d, x ∈ U0 → distance (getNode (BMSSP.gridRef st') x) = Fin d → d ≤ m) ∧
     (m = 0 ∨ ∃ x, x ∈ U0 ∧ distance (getNode (BMSSP.gridRef st') x) = Fin m) ∧
     U = filter (λ n, num_ltb (distance (getNode (BMSSP.gridRef st') n)) (Fin m)
                      = true) U0).
Proof.
  apply (baseCase_returns (BMSSP.mkParams 2 2) Infinity [(0, 0)]
           (BMSSP.mkState (updNode grid_2x2 (0, 0) (set_distance (Fin 0))) [] [])).
  - vm_compute. split_and!; [lia|lia|].
    intros row Hrow. repeat (apply elem_of_cons in Hrow as [->|Hrow]; [done|]).
    by apply elem_of_nil in Hrow.
  - repeat constructor; vm_compute; lia.
Defined.

(** ** The helpers of [bmssp] *)

Lemma flat_map_map {A B C} (f : B → list C) (h : A → B) l :
  flat_map f (map h l) = flat_map (λ x, f (h x)) l.
Proof. induction l as [|x l IH]; simpl; [done|]. by rewrite IH. Qed.

Lemma getAllNodes_aux (h : nat → nat) (g : Grid) :
  flat_map (λ '(r, row), map (λ c, (r, c)) (seq 0 (length row)))
           (imap (λ i row, (h i, row)) g) =
  flat_map (λ i, map (λ c, (h i, c)) (seq 0 (length (default [] (g !! i)))))
           (seq 0 (length g)).
Proof.
  revert h. induction g as [|row g IH]; intros h; [done|].
  cbn [imap flat_map length seq]. f_equal.
  rewrite <- seq_shift, flat_map_map. apply (IH (h ∘ S)).
Qed.

Lemma getAllNodes_eq g :
  BMSSP.getAllNodes g =
  flat_map (λ i, map (λ c, (i, c)) (seq 0 (length (default [] (g !! i)))))
           (seq 0 (length g)).
Proof. exact (getAllNodes_aux id g). Qed.

Lemma getAllNodes_rect g :
  rectangular g → BMSSP.getAllNodes g = cells g.
Proof.
  intros (_ & _ & Hrow). rewrite getAllNodes_eq. unfold cells, rows.
  assert (∀ i, i ∈ seq 0 (length g) → length (default [] (g !! i)) = cols g) as Hlen.
  { intros i Hi. apply elem_of_seq in Hi.
    destruct (lookup_lt_is_Some_2 g i) as [row Hi']; [lia|].
    rewrite Hi'. apply Hrow. by eapply list_elem_of_lookup_2. }
  induction (seq 0 (length g)) as [|i l IH]; [done|].
  cbn [flat_map list_prod]. rewrite Hlen by (by left). f_equal.
  apply IH. intros j Hj. apply Hlen. by right.
Qed.

(** X13.  On a rectangular grid [getAllNodes] lists every cell exactly
    once, so the [N] of [bmssp] is the number of cells. *)
Theorem getAllNodes_enumerates g :
  rectangular g →
  NoDup (BMSSP.getAllNodes g) ∧
  (∀ p, p ∈ BMSSP.getAllNodes g ↔ inGrid g p) ∧
  length (BMSSP.getAllNodes g) = rows g * cols g.
Proof.
  intros Hrect. rewrite getAllNodes_rect by done. split_and!.
  - apply NoDup_cells.
  - intros p. apply elem_of_cells.
  - apply length_cells.
Qed.

Lemma getAllNodes_enumerates_witness :
  NoDup (BMSSP.getAllNodes grid_2x2) ∧
  (∀ p, p ∈ BMSSP.getAllNodes grid_2x2 ↔ inGrid grid_2x2 p) ∧
  length (BMSSP.getAllNodes grid_2x2) = rows grid_2x2 * cols grid_2x2.
Proof. apply getAllNodes_enumerates, grid_2x2_rect. Defined.

Lemma NoDup_gridNeighbors u g : NoDup (gridNeighbors u g).
Proof.
  destruct u as [r c]. unfold gridNeighbors.
  repeat case_match;
    repeat match goal with
           | H : (_ <? _) = true |- _ => apply Nat.ltb_lt in H
           | H : (_ <? _) = false |- _ => clear H
           end;
    cbn [app];
    repeat (apply NoDup_cons_2;
            [rewrite ?not_elem_of_cons; split_and?;
             try apply not_elem_of_nil; intros ?; simplify_eq; lia|]);
    apply NoDup_nil_2.
Qed.

Lemma length_gridNeighbors u g : length (gridNeighbors u g) ≤ 4.
Proof.
  destruct u as [r c]. unfold gridNeighbors.
  repeat case_match; cbn [app length]; lia.
Qed.

Lemma grid_1x3_wall_rect : rectangular grid_1x3_wall.
Proof.
  apply (c_rect _ (0, 0) (0, 2)). apply makeGrid_contract; cbn; try lia; try done.
  - rewrite list_elem_of_singleton. done.
  - rewrite list_elem_of_singleton. done.
Qed.

(** X14.  [getNeighbors] of [bmssp] yields, for a cell of a rectangular
    grid, exactly its 4-adjacent cells inside the grid that are not walls,
    each once. *)
Theorem getNeighbors_open_adjacent g u :
  rectangular g → inGrid g u →
  (∀ v, v ∈ BMSSP.getNeighbors u g ↔
        adjacent u v ∧ inGrid g v ∧ isWall (getNode g v) = false) ∧
  NoDup (BMSSP.getNeighbors u g) ∧ length (BMSSP.getNeighbors u g) ≤ 4.
Proof.
  intros _ Hin. unfold BMSSP.getNeighbors. split_and!.
  - intros v. rewrite list_elem_of_filter, gridNeighbors_spec by done. tauto.
  - apply NoDup_filter, NoDup_gridNeighbors.
  - etrans; [apply length_filter|apply length_gridNeighbors].
Qed.

Lemma getNeighbors_open_adjacent_witness :
  (∀ v, v ∈ BMSSP.getNeighbors (0, 0) grid_1x3_wall ↔
        adjacent (0, 0) v ∧ inGrid grid_1x3_wall v ∧
        isWall (getNode grid_1x3_wall v) = false) ∧
  NoDup (BMSSP.getNeighbors (0, 0) grid_1x3_wall) ∧
  length (BMSSP.getNeighbors (0, 0) grid_1x3_wall) ≤ 4.
Proof.
  apply getNeighbors_open_adjacent; [apply grid_1x3_wall_rect|split; cbn; lia].
Defined.

(** X15.  [getUnvisitedNeighbors] of [dijkstra], [astar] and [greedyBfs]
    yields, for a cell of a rectangular grid, exactly its 4-adjacent cells
    inside the grid that are not visited, each once; walls are not
    filtered out. *)
Theorem getUnvisitedNeighbors_adjacent g u :
  rectangular g → inGrid g u →
  (∀ v, v ∈ Dijkstra.getUnvisitedNeighbors u g ↔
        adjacent u v ∧ inGrid g v ∧ isVisited (getNode g v) = false) ∧
  NoDup (Dijkstra.getUnvisitedNeighbors u g) ∧
  AStar.getUnvisitedNeighbors u g = Dijkstra.getUnvisitedNeighbors u g ∧
  Greedy.getUnvisitedNeighbors u g = Dijkstra.getUnvisitedNeighbors u g.
Proof.
  intros _ Hin. unfold Dijkstra.getUnvisitedNeighbors. split_and!; [| |done|done].
  - intros v. rewrite list_elem_of_filter, gridNeighbors_spec by done. tauto.
  - apply NoDup_filter, NoDup_gridNeighbors.
Qed.

Lemma getUnvisitedNeighbors_adjacent_witness :
  (∀ v, v ∈ Dijkstra.getUnvisitedNeighbors (0, 0) grid_1x3_wall ↔
        adjacent (0, 0) v ∧ inGrid grid_1x3_wall v ∧
        isVisited (getNode grid_1x3_wall v) = false) ∧
  NoDup (Dijkstra.getUnvisitedNeighbors (0, 0) grid_1x3_wall) ∧
  AStar.getUnvisitedNeighbors (0, 0) grid_1x3_wall =
    Dijkstra.getUnvisitedNeighbors (0, 0) grid_1x3_wall ∧
  Greedy.getUnvisitedNeighbors (0, 0) grid_1x3_wall =
    Dijkstra.getUnvisitedNeighbors (0, 0) grid_1x3_wall.
Proof.
  apply getUnvisitedNeighbors_adjacent; [apply grid_1x3_wall_rect|split; cbn; lia].
Defined.

Lemma resetNode_idem n : BMSSP.resetNode (BMSSP.resetNode n) = BMSSP.resetNode n.
Proof. done. Qed.

Lemma resetAll_idem g : BMSSP.resetAll (BMSSP.resetAll g) = BMSSP.resetAll g.
Proof.
  unfold BMSSP.resetAll. rewrite map_map. apply map_ext. intros row.
  rewrite map_map. apply map_ext. intros n. apply resetNode_idem.
Qed.

Lemma getAllNodes_resetAll g :
  BMSSP.getAllNodes (BMSSP.resetAll g) = BMSSP.getAllNodes g.
Proof.
  rewrite !getAllNodes_eq. unfold BMSSP.resetAll. rewrite length_map.
  apply flat_map_ext. intros i. do 2 f_equal.
  rewrite list_lookup_fmap. destruct (g !! i); [|done]. cbn. apply length_map.
Qed.

(** X16.  [bmssp] overwrites [distance], [isVisited] and [previousNode] of
    every node before it searches, so stale values of these fields in its
    input have no effect: it computes the same result from a grid and from
    the grid with these fields reset. *)
Theorem bmssp_ignores_stale_fields fuel g startNode finishNode :
  BMSSP.bmssp fuel g startNode finishNode =
  BMSSP.bmssp fuel (BMSSP.resetAll g) startNode finishNode.
Proof.
  unfold BMSSP.bmssp, BMSSP.bmsspWith, BMSSP.bmsspSearch.
  by rewrite getAllNodes_resetAll, resetAll_idem.
Qed.

(** * What the single-frontier strategies return *)

(** A contiguous list of open cells that starts at the start node is a
    walk. *)
Lemma contiguous_walk g0 s p v :
  head p = Some s → last p = Some v → contiguous p →
  Forall (λ x, inGrid g0 x ∧ isWall (getNode g0 x) = false) p →
  walk g0 s (length p - 1) v.
Proof.
  revert v. induction p as [|y p IH] using rev_ind; intros v Hh Hl Hc Hall; [done|].
  rewrite last_snoc in Hl. simplify_eq.
  apply Forall_app in Hall as [Hall Hv]. apply Forall_singleton in Hv as [Hin Hw].
  destruct p as [|a p] using rev_ind.
  - cbn in Hh. simplify_eq. constructor.
  - clear IHp. rewrite !length_app. cbn [length].
    replace (length p + 1 + 1 - 1) with (S (length (p ++ [a]) - 1))
      by (rewrite length_app; simpl; lia).
    assert (contiguous (p ++ [a]) ∧ adjacent a v) as [Hc' Hadj].
    { clear -Hc. induction p as [|b [|b' p] IHp]; simpl in *; [tauto|tauto|].
      destruct Hc as [? Hc]. destruct (IHp Hc). tauto. }
    apply (walk_step _ _ _ a); [|done..].
    apply IH; [|apply last_snoc|done|done].
    destruct p; done.
Qed.

Section FrontierReach.
Context (lt : Grid → NodeRef → NodeRef → bool)
        (stopAtInfinity : bool)
        (cond : num → num → bool)
        (extra : NodeRef → num → NodeData → NodeData)
        (dedup : bool).
Context (g0 : Grid) (startNode finishNode : NodeRef).
Hypothesis cond_lt :
  ∀ nd old, cond (Fin nd) old = true → num_ltb (Fin nd) old = true.
Hypothesis cond_reach :
  ∀ nd old, cond (Fin nd) old = false → ∃ d, old = Fin d.
Hypothesis extra_frame :
  ∀ v nd n, isVisited (extra v nd n) = isVisited n ∧
            isWall (extra v nd n) = isWall n ∧
            distance (extra v nd n) = distance n ∧
            previousNode (extra v nd n) = previousNode n.
Hypothesis g0_contract : contract g0 startNode finishNode.

Local Abbreviation relax := (Frontier.relax cond extra dedup).
Local Abbreviation body := (Frontier.body lt stopAtInfinity cond extra dedup).
Local Abbreviation Inv := (finv g0 startNode).

(** The search loses no cell: every neighbour of a closed node is
    reached, and a reached open cell is closed or waits in the open set. *)
Record rinv (g : Grid) (openSet visited : list NodeRef) : Prop := mkRinv {
  ri_f : Inv g openSet visited;
  ri_exp : ∀ u v, u ∈ visited → adjacent u v → inGrid g0 v → reached g v;
  ri_cover : ∀ v, inGrid g0 v → isWall (getNode g0 v) = false → reached g v →
                  v ∈ visited ∨ v ∈ openSet;
  ri_first : (visited = [] ∧ openSet = [startNode]) ∨ head visited = Some startNode;
}.

Definition rloop (s : Loop) : Prop :=
  rinv (lgrid s) (lopen s) (lvisited s) ∧ finishNode ∉ lvisited s.

(** What a run returns. *)
Record run_outcome (g : Grid) (visited path : list NodeRef) : Prop := mkRunOutcome {
  out_inv : ∃ openSet, Inv g openSet visited;
  out_first : head visited = Some startNode;
  out_path :
    (path = [] ∧ finishNode ∉ visited ∧
     ∀ x k, walk g0 startNode k x → x ∈ visited) ∨
    (last visited = Some finishNode ∧
     head path = Some startNode ∧ last path = Some finishNode ∧
     contiguous path ∧ NoDup path ∧ Forall (λ x, x ∈ visited) path);
}.

Lemma chain_visited g openSet visited v p :
  Inv g openSet visited → chain_to g v p → v ∈ visited →
  Forall (λ x, x ∈ visited) p.
Proof.
  intros H. induction 1 as [r Hr|u v p Hch IH Hp]; intros Hv.
  - by constructor.
  - apply Forall_app. split; [|by constructor].
    apply IH. apply (fi_vis _ _ _ _ _ H).
    by destruct (fi_chain _ _ _ _ _ H _ _ Hp) as [? _].
Qed.

Lemma visited_open g openSet visited x :
  Inv g openSet visited → x ∈ visited →
  inGrid g0 x ∧ isWall (getNode g0 x) = false.
Proof.
  intros H Hx. destruct (fi_vis_good _ _ _ _ _ H x Hx) as (? & Hw & _).
  split; [done|]. by rewrite <- (fi_wall _ _ _ _ _ H).
Qed.

(** A closed node is joined to the start node by a walk of closed nodes. *)
Lemma visited_chain g openSet visited x :
  Inv g openSet visited → x ∈ visited →
  ∃ p, chain_to g x p ∧ head p = Some startNode ∧ last p = Some x ∧
       contiguous p ∧ NoDup p ∧ Forall (λ y, y ∈ visited) p ∧
       length p ≤ rows g0 * cols g0.
Proof.
  intros H Hx. destruct (fi_vis_good _ _ _ _ _ H x Hx) as (_ & _ & Hre).
  pose proof (finv_chained g0 startNode finishNode g0_contract _ _ _ H) as Hch.
  destruct (chained_chain _ _ _ _ Hch Hre) as [p Hp].
  destruct (chain_to_props _ _ _ _ _ Hch Hp Hre) as (Hhd & Hcont & Hall & Hnd & _).
  exists p. split_and!; try done.
  - by eapply chain_to_last.
  - by eapply chain_visited.
  - by apply inGrid_NoDup_length.
Qed.

Lemma visited_walk g openSet visited x :
  Inv g openSet visited → x ∈ visited → ∃ k, walk g0 startNode k x.
Proof.
  intros H Hx.
  destruct (visited_chain _ _ _ _ H Hx) as (p & _ & Hh & Hl & Hc & _ & Hall & _).
  exists (length p - 1). apply contiguous_walk; [done..|].
  eapply Forall_impl; [done|]. intros y Hy. by eapply visited_open.
Qed.

(** With an empty open set, every cell that a walk reaches is closed. *)
Lemma walk_visited g visited k x :
  rinv g [] visited → walk g0 startNode k x → x ∈ visited.
Proof.
  intros H. induction 1 as [|k u v Hw IH Hadj Hin Hwall].
  - destruct (ri_cover _ _ _ H startNode) as [?|[]%elem_of_nil]; [..|done].
    + apply g0_contract.
    + apply g0_contract.
    + exists 0. apply (fi_start _ _ _ _ _ (ri_f _ _ _ H)).
  - destruct (ri_cover _ _ _ H v Hin Hwall) as [?|[]%elem_of_nil]; [|done].
    by apply (ri_exp _ _ _ H u v).
Qed.

Lemma rinv_init (f : NodeData → NodeData) :
  (∀ n, distance (f n) = Fin 0 ∧ isVisited (f n) = isVisited n ∧
        isWall (f n) = isWall n ∧ previousNode (f n) = previousNode n) →
  rloop (mkLoop (updNode g0 startNode f) [startNode] []).
Proof.
  intros Hf. split; [|apply not_elem_of_nil]. cbn. split.
  - by eapply finv_init.
  - by intros u v ?%elem_of_nil.
  - intros v _ _ [d Hd]. right. apply list_elem_of_singleton.
    destruct (decide (v = startNode)) as [|Hne]; [done|].
    rewrite getNode_updNode_ne in Hd by done.
    destruct (c_reset _ _ _ g0_contract v) as [E _]. congruence.
  - by left.
Qed.

(** One relaxation: the open set only grows, the neighbour is reached
    afterwards, and a node it reaches is pushed. *)
Lemma relax_reach g openSet c dc v :
  rectangular g → inGrid g v → distance (getNode g c) = Fin dc →
  (∀ x, x ∈ openSet → x ∈ (relax c (g, openSet) v).2) ∧
  reached (relax c (g, openSet) v).1 v ∧
  (∀ x, reached (relax c (g, openSet) v).1 x →
        reached g x ∨ x ∈ (relax c (g, openSet) v).2).
Proof.
  intros Hrect Hin Hdc. unfold Frontier.relax. rewrite Hdc.
  change (num_add (Fin dc) (Fin 1)) with (Fin (dc + 1)).
  destruct (cond _ _) eqn:Hcond; cbn [fst snd].
  - assert (v ∈ (if dedup && includes v openSet then openSet else openSet ++ [v]))
      as Hv.
    { destruct (dedup && includes v openSet) eqn:E.
      - apply andb_true_iff in E as [_ E]. by apply bool_decide_eq_true in E.
      - apply elem_of_app. right. by left. }
    split_and!.
    + intros x Hx. destruct (dedup && includes v openSet); [done|].
      apply elem_of_app. by left.
    + exists (dc + 1). rewrite getNode_updNode_eq by done.
      destruct (extra_frame v (Fin (dc + 1))
                  (set_distance (Fin (dc + 1)) (getNode g v))) as (_ & _ & E & _).
      cbn. by rewrite E.
    + intros x Hx. destruct (decide (x = v)) as [->|Hne]; [by right|].
      destruct Hx as [d Hd]. left. exists d. by rewrite getNode_updNode_ne in Hd.
  - split_and!; [done| |by left].
    destruct (cond_reach _ _ Hcond) as [d Hd]. by exists d.
Qed.

Lemma monotone_reached g g' x : monotone_step g g' → reached g x → reached g' x.
Proof.
  intros Hm [d Hd]. destruct (Hm x) as (_ & Hle & _). rewrite Hd in Hle.
  destruct (distance (getNode g' x)) as [d'|] eqn:E; [by exists d'|done].
Qed.

(** The expansion of a closed node [c] reaches all its neighbours. *)
Lemma rinv_expand g openSet visited c :
  Inv g openSet (visited ++ [c]) →
  let r := foldl (relax c) (g, openSet) (Frontier.unvisitedNeighbors c g) in
  (∀ x, x ∈ openSet → x ∈ r.2) ∧
  (∀ x, reached r.1 x → reached g x ∨ x ∈ r.2) ∧
  (∀ v, adjacent c v → inGrid g0 v → reached r.1 v).
Proof.
  intros H r.
  assert (c ∈ visited ++ [c]) as Hc by (apply elem_of_app; right; by left).
  destruct (fi_vis_good _ _ _ _ _ H c Hc) as (Hin & Hw & dc & Hdc).
  set (K := λ (pre : list NodeRef) (acc : Grid * list NodeRef),
         Inv acc.1 acc.2 (visited ++ [c]) ∧
         (∀ x, isVisited (getNode acc.1 x) = isVisited (getNode g x)) ∧
         distance (getNode acc.1 c) = Fin dc ∧
         (∀ x, x ∈ openSet → x ∈ acc.2) ∧
         (∀ x, reached g x → reached acc.1 x) ∧
         (∀ x, reached acc.1 x → reached g x ∨ x ∈ acc.2) ∧
         (∀ x, x ∈ pre → reached acc.1 x)).
  assert (K (Frontier.unvisitedNeighbors c g) r) as (Hr & _ & _ & H1 & H2 & H3 & H4).
  { apply (foldl_inv_prefix (relax c) K).
    - split_and!; try done; [by left|by intros x ?%elem_of_nil].
    - intros pre v [g' open'] (HJ & Hvis & Hd & K1 & K2 & K3 & K4) Hv.
      cbn [fst snd] in *.
      apply list_elem_of_filter in Hv as [Hv Hnb].
      apply gridNeighbors_spec in Hnb as [Hadj Hin'];
        [|by eapply (finv_inGrid g0 startNode)].
      assert (inGrid g0 v) as Hin0.
      { unfold inGrid in *.
        by rewrite <- (fi_rows _ _ _ _ _ H), <- (fi_cols _ _ _ _ _ H). }
      assert (isVisited (getNode g' v) = false) as Hv' by (by rewrite Hvis).
      destruct (finv_relax cond extra dedup g0 startNode cond_lt extra_frame
                  g' open' (visited ++ [c]) c dc v HJ Hc Hd Hadj Hin0 Hv')
        as (J1 & J2 & J3).
      pose proof (relax_monotone cond extra dedup cond_lt extra_frame
                    g' open' c dc v Hd Hv') as Hm.
      destruct (relax_reach g' open' c dc v) as (R1 & R2 & R3);
        [apply HJ|by eapply (finv_inGrid g0 startNode)|done|].
      split_and!; [done| |done|auto| | |].
      + intros x. by rewrite J2.
      + intros x Hx. eapply monotone_reached; [done|]. by apply K2.
      + intros x Hx. destruct (R3 x Hx) as [Hx'|?]; [|by right].
        destruct (K3 x Hx') as [?|?]; [by left|right; by apply R1].
      + intros x [Hx| ->%list_elem_of_singleton]%elem_of_app; [|done].
        eapply monotone_reached; [done|]. by apply K4. }
  split_and!; [done|done|].
  intros v Hadj Hin0.
  destruct (isVisited (getNode g v)) eqn:Hv.
  - apply H2. apply (fi_vis _ _ _ _ _ H) in Hv.
    by destruct (fi_vis_good _ _ _ _ _ H v Hv) as (_ & _ & ?).
  - apply H4. apply list_elem_of_filter. split; [done|].
    apply gridNeighbors_spec; [by eapply (finv_inGrid g0 startNode)|].
    split; [done|]. by eapply (finv_inGrid g0 startNode).
Qed.

Lemma head_snoc_first (visited : list NodeRef) openSet c :
  (visited = [] ∧ openSet = [startNode]) ∨ head visited = Some startNode →
  c ∈ openSet → head (visited ++ [c]) = Some startNode.
Proof.
  intros [[-> ->]|Hh] Hc.
  - by apply list_elem_of_singleton in Hc as ->.
  - by destruct visited.
Qed.

Lemma rloop_body s fuel :
  rloop s → rows g0 * cols g0 ≤ fuel →
  match body finishNode fuel s with
  | Next s' => rloop s'
  | Done g' v p => ∃ path, p = Some path ∧ run_outcome g' v path
  end.
Proof.
  intros [Hr Hfin] Hfuel. pose proof (ri_f _ _ _ Hr) as Hf.
  unfold rloop, Frontier.body.
  destruct (stable_sort _ _) as [|c rest] eqn:Hsort.
  { apply stable_sort_nil in Hsort. rewrite Hsort in Hr.
    exists []. split; [done|]. split.
    - by exists (lopen s).
    - by destruct (ri_first _ _ _ Hr) as [[_ ?]|?].
    - left. split_and!; [done..|]. intros x k. by apply (walk_visited (lgrid s)). }
  pose proof (stable_sort_cons_elem _ _ _ _ Hsort) as (Hc & Hrest & _).
  destruct (fi_open _ _ _ _ _ Hf c Hc) as [Hin [dc Hdc]].
  assert (rinv (lgrid s) rest (lvisited s) ∨
          (isWall (getNode (lgrid s) c) = false ∧
           isVisited (getNode (lgrid s) c) = false)) as Hpop.
  { destruct (isWall (getNode (lgrid s) c)) eqn:Hw;
      [|destruct (isVisited (getNode (lgrid s) c)) eqn:Hv; [|by right]]; left.
    - split.
      + by eapply finv_open_sub.
      + apply Hr.
      + intros v Hv1 Hv2 Hv3. destruct (ri_cover _ _ _ Hr v Hv1 Hv2 Hv3) as [?|Hv];
          [by left|].
        destruct (stable_sort_cons_inv _ _ _ _ _ Hsort Hv) as [->|?]; [|by right].
        rewrite (fi_wall _ _ _ _ _ Hf) in Hw. congruence.
      + destruct (ri_first _ _ _ Hr) as [[_ E]|?]; [|by right].
        rewrite E in Hc. apply list_elem_of_singleton in Hc as ->.
        rewrite (fi_wall _ _ _ _ _ Hf), (c_start_open _ _ _ g0_contract) in Hw.
        done.
    - split.
      + by eapply finv_open_sub.
      + apply Hr.
      + intros v Hv1 Hv2 Hv3. destruct (ri_cover _ _ _ Hr v Hv1 Hv2 Hv3) as [?|Hv'];
          [by left|].
        destruct (stable_sort_cons_inv _ _ _ _ _ Hsort Hv') as [->|?]; [|by right].
        left. by apply (fi_vis _ _ _ _ _ Hf).
      + destruct (ri_first _ _ _ Hr) as [[E _]|?]; [|by right].
        apply (fi_vis _ _ _ _ _ Hf) in Hv. rewrite E in Hv.
        by apply elem_of_nil in Hv. }
  destruct (isWall (getNode (lgrid s) c)) eqn:Hw.
  { destruct Hpop as [?|[? _]]; [done|done]. }
  rewrite Hdc. cbn [is_infinity]. rewrite andb_false_r.
  destruct (isVisited (getNode (lgrid s) c)) eqn:Hv.
  { destruct Hpop as [?|[_ ?]]; [done|done]. }
  clear Hpop.
  assert (Inv (lgrid s) rest (lvisited s)) as Hf0 by (by eapply finv_open_sub).
  pose proof (finv_close lt g0 startNode _ _ _ c Hf0 Hin (ex_intro _ dc Hdc) Hw Hv)
    as H1.
  set (g1 := updNode (lgrid s) c (set_isVisited true)) in *.
  assert (∀ x, distance (getNode g1 x) = distance (getNode (lgrid s) x)) as Hdist.
  { intros x. unfold g1.
    by destruct (getNode_updNode_cases (lgrid s) c x (set_isVisited true))
      as [->|[-> ->]]. }
  assert (∀ x, reached g1 x ↔ reached (lgrid s) x) as Hre1.
  { intros x. unfold reached. by setoid_rewrite Hdist. }
  pose proof (head_snoc_first _ _ c (ri_first _ _ _ Hr) Hc) as Hhead.
  assert (c ∈ lvisited s ++ [c]) as Hmem by (apply elem_of_app; right; by left).
  case_bool_decide as Hcf.
  { subst c.
    destruct (visited_chain _ _ _ _ H1 Hmem)
      as (p & Hp & Hh & Hl & Hcont & Hnd & Hall & Hlen).
    exists p. split.
    - unfold getNodesInShortestPathOrder.
      rewrite (walkPrevious_chain _ _ _ Hp) by lia. by rewrite app_nil_r.
    - split; [by exists rest|done|]. right.
      split_and!; [apply last_snoc|done..]. }
  destruct (rinv_expand g1 rest (lvisited s) c H1) as (E1 & E2 & E3).
  destruct (finv_expand cond extra dedup g0 startNode cond_lt extra_frame
              g1 rest (lvisited s) c H1) as [H2 Hm2].
  destruct (foldl _ _ _) as [g2 open2]. cbn [fst snd lgrid lopen lvisited] in *.
  split.
  - split; [done| | |by right].
    + intros u v [Hu| ->%list_elem_of_singleton]%elem_of_app Hadj Hinv.
      * eapply monotone_reached; [done|]. apply Hre1.
        by apply (ri_exp _ _ _ Hr u v).
      * by apply E3.
    + intros v Hv1 Hv2 Hv3. destruct (E2 v Hv3) as [Hv4|?]; [|by right].
      apply Hre1 in Hv4.
      destruct (ri_cover _ _ _ Hr v Hv1 Hv2 Hv4) as [?|Hv5].
      * left. apply elem_of_app. by left.
      * destruct (stable_sort_cons_inv _ _ _ _ _ Hsort Hv5) as [->|?];
          [by left|right; by apply E1].
  - intros [?|?%list_elem_of_singleton]%elem_of_app; by simplify_eq.
Qed.

(** The loop stops, after at most as many iterations as its measure. *)
Lemma rloop_terminates fuel n :
  rows g0 * cols g0 ≤ fuel →
  ∀ s, rloop s → loop_measure g0 s ≤ n →
  ∃ m st g v path, m ≤ n ∧ iterate_loop (body finishNode fuel) m s = Some st ∧
                   body finishNode fuel st = Done g v (Some path) ∧
                   run_outcome g v path.
Proof.
  intros Hfuel. induction n as [|n IH]; intros s Hs Hm;
    pose proof (rloop_body s fuel Hs Hfuel) as Hb;
    pose proof (body_measure lt stopAtInfinity cond extra dedup g0 startNode
                  finishNode cond_lt extra_frame g0_contract s fuel) as Hlt;
    destruct (body finishNode fuel s) as [s'|g v p] eqn:Hbody.
  - specialize (Hlt s' (ri_f _ _ _ (proj1 Hs)) eq_refl). lia.
  - destruct Hb as (path & -> & Hout). exists 0, s, g, v, path. by split_and!.
  - specialize (Hlt s' (ri_f _ _ _ (proj1 Hs)) eq_refl).
    destruct (IH s' Hb) as (m & st & g & v & path & Hle & Hit & Hd & Hout); [lia|].
    exists (S m), st, g, v, path. split_and!; [lia| |done|done].
    simpl. by rewrite Hbody.
  - destruct Hb as (path & -> & Hout). exists 0, s, g, v, path.
    split_and!; [lia|done|done|done].
Qed.

Lemma rloop_result fuel (f : NodeData → NodeData) :
  (∀ n, distance (f n) = Fin 0 ∧ isVisited (f n) = isVisited n ∧
        isWall (f n) = isWall n ∧ previousNode (f n) = previousNode n) →
  search_fuel g0 ≤ fuel →
  ∃ g r, run_loop (body finishNode fuel) fuel
                  (mkLoop (updNode g0 startNode f) [startNode] []) = Some (g, r) ∧
         run_outcome g (visitedNodesInOrder r) (nodesInShortestPathOrder r).
Proof.
  intros Hf Hfuel.
  pose proof (init_measure g0 startNode finishNode f g0_contract
                (λ n, proj1 (Hf n))) as Hm.
  destruct (rloop_terminates fuel
              (loop_measure g0 (mkLoop (updNode g0 startNode f) [startNode] [])))
    with (s := mkLoop (updNode g0 startNode f) [startNode] [])
    as (m & st & g & v & path & Hle & Hit & Hd & Hout).
  - unfold search_fuel in Hfuel. nia.
  - by apply rinv_init.
  - done.
  - exists g, (mkResult v path). split; [|done].
    eapply iterate_loop_run; [exact Hit|exact Hd|lia].
Qed.
End FrontierReach.

(** The strategies with one open set. *)
Definition single_frontier (a : AlgorithmType) : bool :=
  match a with
  | algDijkstra | algAstar | algGreedyBfs => true
  | _ => false
  end.

Lemma ltb_cond_reach nd old : num_ltb (Fin nd) old = false → ∃ d, old = Fin d.
Proof. destruct old as [d|]; [by exists d|done]. Qed.

Lemma greedy_cond_reach (nd : nat) old : is_infinity old = false → ∃ d, old = Fin d.
Proof. destruct old as [d|]; [by exists d|done]. Qed.

Lemma strategy_outcome a fuel g0 startNode finishNode :
  single_frontier a = true →
  contract g0 startNode finishNode → search_fuel g0 ≤ fuel →
  ∃ g r, runStrategy a fuel g0 startNode finishNode = Some (g, r) ∧
         run_outcome g0 startNode finishNode g
                 (visitedNodesInOrder r) (nodesInShortestPathOrder r).
Proof.
  intros Ha Hc Hfuel. destruct a; try done.
  - exact (rloop_result dijkstra_lt true num_ltb (λ _ _ n, n) true g0 startNode
             finishNode ltb_cond_lt ltb_cond_reach id_extra_frame Hc fuel
             dijkstra_f dijkstra_f_init Hfuel).
  - exact (rloop_result astar_lt false num_ltb (astar_extra finishNode) true g0
             startNode finishNode ltb_cond_lt ltb_cond_reach
             (astar_extra_frame finishNode) Hc fuel
             (astar_f startNode finishNode) (astar_f_init _ _) Hfuel).
  - exact (rloop_result greedy_lt false (λ _ old, is_infinity old)
             (greedy_extra finishNode) false g0 startNode finishNode
             greedy_cond_lt greedy_cond_reach (greedy_extra_frame finishNode) Hc
             fuel (greedy_f startNode finishNode) (greedy_f_init _ _) Hfuel).
Qed.

Lemma grid_2x2_contract : contract grid_2x2 (0, 0) (1, 1).
Proof. apply makeGrid_contract; [simpl; lia..|done| |]; apply not_elem_of_nil. Qed.

(** X17.  On a grid that meets the contract, [dijkstra], [astar] and
    [greedyBfs] return, and the path they return is empty or leads from the
    start node to the finish node through 4-adjacent cells, none of them a
    wall, none repeated, all of them among the visited nodes. *)
Theorem frontier_path_contiguous a fuel g0 startNode finishNode :
  single_frontier a = true →
  contract g0 startNode finishNode → search_fuel g0 ≤ fuel →
  ∃ g r, runStrategy a fuel g0 startNode finishNode = Some (g, r) ∧
         (nodesInShortestPathOrder r = [] ∨
          (head (nodesInShortestPathOrder r) = Some startNode ∧
           last (nodesInShortestPathOrder r) = Some finishNode ∧
           contiguous (nodesInShortestPathOrder r) ∧
           NoDup (nodesInShortestPathOrder r) ∧
           Forall (λ x, inGrid g0 x ∧ isWall (getNode g0 x) = false ∧
                        x ∈ visitedNodesInOrder r)
                  (nodesInShortestPathOrder r))).
Proof.
  intros Ha Hc Hfuel.
  destruct (strategy_outcome a fuel g0 startNode finishNode Ha Hc Hfuel)
    as (g & r & Hrun & [[o Hinv] _ Hpath]).
  exists g, r. split; [done|].
  destruct Hpath as [[-> _]|(_ & Hh & Hl & Hcont & Hnd & Hall)]; [by left|right].
  split_and!; [done..|].
  eapply Forall_impl; [done|]. intros x Hx. cbn beta.
  destruct (visited_open g0 startNode g o _ x Hinv Hx). by split_and!.
Qed.

Lemma frontier_path_contiguous_witness :
  ∃ g r, runStrategy algGreedyBfs 34 grid_2x2 (0, 0) (1, 1) = Some (g, r) ∧
         (nodesInShortestPathOrder r = [] ∨
          (head (nodesInShortestPathOrder r) = Some (0, 0) ∧
           last (nodesInShortestPathOrder r) = Some (1, 1) ∧
           contiguous (nodesInShortestPathOrder r) ∧
           NoDup (nodesInShortestPathOrder r) ∧
           Forall (λ x, inGrid grid_2x2 x ∧ isWall (getNode grid_2x2 x) = false ∧
                        x ∈ visitedNodesInOrder r)
                  (nodesInShortestPathOrder r))).
Proof.
  apply frontier_path_contiguous; [reflexivity|apply grid_2x2_contract|].
  vm_compute. lia.
Defined.

(** X18.  [greedyBfs] finds a path exactly when one exists: on a grid that
    meets the contract it returns, its path is empty if and only if no
    walk of open cells joins the start node to the finish node, and a path
    it returns has at least as many nodes as a shortest one. *)
Theorem greedyBfs_finds_path fuel g0 startNode finishNode :
  contract g0 startNode finishNode → search_fuel g0 ≤ fuel →
  ∃ g r, Greedy.greedyBfs fuel g0 startNode finishNode = Some (g, r) ∧
         (nodesInShortestPathOrder r = [] ↔
          ∀ k, ¬ walk g0 startNode k finishNode) ∧
         (∀ d, shortest g0 startNode finishNode d →
               d + 1 ≤ length (nodesInShortestPathOrder r)).
Proof.
  intros Hc Hfuel.
  destruct (strategy_outcome algGreedyBfs fuel g0 startNode finishNode
              eq_refl Hc Hfuel) as (g & r & Hrun & [[o Hinv] _ Hpath]).
  exists g, r. split; [done|].
  destruct Hpath as [(-> & Hfin & Hall)|(Hlast & Hh & Hl & Hcont & Hnd & Hall)].
  - split.
    + split; [|done]. intros _ k Hw. by apply Hfin, (Hall _ k).
    + intros d [Hw _]. destruct Hfin. by apply (Hall _ d).
  - assert (walk g0 startNode (length (nodesInShortestPathOrder r) - 1) finishNode)
      as Hw.
    { apply contiguous_walk; [done..|].
      eapply Forall_impl; [done|]. intros x Hx.
      by eapply (visited_open g0 startNode g o). }
    assert (nodesInShortestPathOrder r ≠ []) as Hne
      by (intros E; by rewrite E in Hh).
    split.
    + split; [done|]. intros Hno. by destruct (Hno _ Hw).
    + intros d [_ Hmin]. specialize (Hmin _ Hw).
      destruct (nodesInShortestPathOrder r); [done|]. cbn [length] in *. lia.
Qed.

Lemma greedyBfs_finds_path_witness :
  ∃ g r, Greedy.greedyBfs 34 grid_2x2 (0, 0) (1, 1) = Some (g, r) ∧
         (nodesInShortestPathOrder r = [] ↔
          ∀ k, ¬ walk grid_2x2 (0, 0) k (1, 1)) ∧
         (∀ d, shortest grid_2x2 (0, 0) (1, 1) d →
               d + 1 ≤ length (nodesInShortestPathOrder r)).
Proof.
  apply greedyBfs_finds_path; [apply grid_2x2_contract|]. vm_compute. lia.
Defined.

(** X19.  The visited list that [dijkstra], [astar] and [greedyBfs] return
    on a grid that meets the contract: it starts with the start node and
    has no repetition; its nodes are exactly the nodes marked [isVisited]
    in the grid after the run; each is an open cell that a walk of open
    cells joins to the start node; when the path is empty the list holds
    every cell that such a walk reaches, and otherwise it ends with the
    finish node.  The grid keeps its shape and its walls. *)
Theorem frontier_visited a fuel g0 startNode finishNode :
  single_frontier a = true →
  contract g0 startNode finishNode → search_fuel g0 ≤ fuel →
  ∃ g r, runStrategy a fuel g0 startNode finishNode = Some (g, r) ∧
         NoDup (visitedNodesInOrder r) ∧
         head (visitedNodesInOrder r) = Some startNode ∧
         (∀ x, x ∈ visitedNodesInOrder r ↔ isVisited (getNode g x) = true) ∧
         (∀ x, x ∈ visitedNodesInOrder r →
               inGrid g0 x ∧ isWall (getNode g0 x) = false ∧
               ∃ k, walk g0 startNode k x) ∧
         (if nodesInShortestPathOrder r is [] then
            ∀ x k, walk g0 startNode k x → x ∈ visitedNodesInOrder r
          else last (visitedNodesInOrder r) = Some finishNode) ∧
         rows g = rows g0 ∧ cols g = cols g0 ∧
         ∀ p, isWall (getNode g p) = isWall (getNode g0 p).
Proof.
  intros Ha Hc Hfuel.
  destruct (strategy_outcome a fuel g0 startNode finishNode Ha Hc Hfuel)
    as (g & r & Hrun & [[o Hinv] Hfirst Hpath]).
  exists g, r. split_and!; [done|apply Hinv|done| | | |apply Hinv..].
  - intros x. symmetry. apply Hinv.
  - intros x Hx. destruct (visited_open g0 startNode g o _ x Hinv Hx).
    split_and!; [done..|]. by eapply (visited_walk g0 startNode finishNode).
  - destruct Hpath as [(-> & _ & Hall)|(Hlast & Hh & _)]; [done|].
    by destruct (nodesInShortestPathOrder r).
Qed.

Lemma frontier_visited_witness :
  ∃ g r, runStrategy algDijkstra 34 grid_2x2 (0, 0) (1, 1) = Some (g, r) ∧
         NoDup (visitedNodesInOrder r) ∧
         head (visitedNodesInOrder r) = Some (0, 0) ∧
         (∀ x, x ∈ visitedNodesInOrder r ↔ isVisited (getNode g x) = true) ∧
         (∀ x, x ∈ visitedNodesInOrder r →
               inGrid grid_2x2 x ∧ isWall (getNode grid_2x2 x) = false ∧
               ∃ k, walk grid_2x2 (0, 0) k x) ∧
         (if nodesInShortestPathOrder r is [] then
            ∀ x k, walk grid_2x2 (0, 0) k x → x ∈ visitedNodesInOrder r
          else last (visitedNodesInOrder r) = Some (1, 1)) ∧
         rows g = rows grid_2x2 ∧ cols g = cols grid_2x2 ∧
         ∀ p, isWall (getNode g p) = isWall (getNode grid_2x2 p).
Proof.
  apply frontier_visited; [reflexivity|apply grid_2x2_contract|].
  vm_compute. lia.
Defined.

(** * The node ids of [bidirectionalSwarm] *)

(** No character of the string is the separator of [getNodeId]. *)
Fixpoint no_dash (s : string) : bool :=
  match s with
  | EmptyString => true
  | String a s' => if decide (String a EmptyString = "-") then false else no_dash s'
  end.

Lemma pretty_N_go_no_dash x s :
  no_dash s = true → no_dash (pretty_N_go x s) = true.
Proof.
  revert s. induction (N.lt_wf_0 x) as [x _ IH]; intros s Hs.
  assert (x = 0 ∨ 0 < x)%N as [->|?] by lia.
  - by rewrite pretty_N_go_0.
  - rewrite pretty_N_go_step by done. apply IH.
    { by apply N.div_lt. }
    cbn [no_dash]. rewrite Hs.
    unfold pretty_N_char. by repeat case_match.
Qed.

Lemma pretty_nat_no_dash (n : nat) : no_dash (pretty n) = true.
Proof.
  unfold pretty, pretty_nat, pretty, pretty_N.
  case_decide; [done|]. by apply pretty_N_go_no_dash.
Qed.

Lemma dash_split a a' b b' :
  no_dash a = true → no_dash a' = true →
  a +:+ "-" +:+ b = a' +:+ "-" +:+ b' → a = a' ∧ b = b'.
Proof.
  revert a'. induction a as [|c a IH]; intros [|c' a'] Ha Ha' E; cbn in *.
  - by simplify_eq.
  - by simplify_eq.
  - by simplify_eq.
  - case_decide; [done|]. case_decide; [done|].
    injection E as -> E. destruct (IH a' Ha Ha' E) as [-> ->]. done.
Qed.

(** X20.  [getNodeId] gives distinct cells distinct ids, so the maps of
    [bidirectionalSwarm], which are keyed by id, never take one cell for
    another. *)
Theorem getNodeId_inj (a b : NodeRef) :
  Swarm.getNodeId a = Swarm.getNodeId b → a = b.
Proof.
  unfold Swarm.getNodeId. intros E.
  apply dash_split in E as [E1 E2]; [|apply pretty_nat_no_dash..].
  apply (inj pretty) in E1. apply (inj pretty) in E2.
  destruct a, b; simpl in *; congruence.
Qed.

Lemma getNodeId_inj_witness : (2, 13) = (2, 13).
Proof. apply getNodeId_inj. reflexivity. Defined.

(** * The grid helpers of the visualizer *)

(** ** [resetVisuals] *)

(** The node that the [grid.map] of [resetVisuals] builds: the search
    fields cleared, the other fields kept. *)
Definition resetVisualsNode (n : NodeData) : NodeData :=
  mkNodeData (isStart n) (isFinish n) Infinity false (isWall n) None
             Infinity Infinity.

(** The grid that [resetVisuals] returns.  The removal of the CSS classes
    and the call of the state setter are outside the model. *)
Definition resetVisuals (g : Grid) : Grid := map (map resetVisualsNode) g.

Lemma getNode_map (h : NodeData → NodeData) g p :
  h blankNode = blankNode → getNode (map (map h) g) p = h (getNode g p).
Proof.
  intros Hb. unfold getNode. rewrite list_lookup_fmap.
  destruct (g !! p.1) as [row|]; simpl; [|done].
  rewrite list_lookup_fmap. by destruct (row !! p.2).
Qed.

Lemma rows_map (h : NodeData → NodeData) g : rows (map (map h) g) = rows g.
Proof. unfold rows. by rewrite length_map. Qed.

Lemma cols_map (h : NodeData → NodeData) g : cols (map (map h) g) = cols g.
Proof.
  unfold cols. rewrite list_lookup_fmap.
  destruct (g !! 0); simpl; [by rewrite length_map|done].
Qed.

Lemma rectangular_map (h : NodeData → NodeData) g :
  rectangular g → rectangular (map (map h) g).
Proof.
  intros (Hr & Hc & Hrow). unfold rectangular.
  rewrite rows_map, cols_map. split_and!; [done..|].
  intros row Hin. apply list_elem_of_fmap in Hin as (row0 & -> & Hin).
  rewrite length_map. by apply Hrow.
Qed.

Lemma map_map_grid (h k : NodeData → NodeData) (g : Grid) :
  map (map h) (map (map k) g) = map (map (λ n, h (k n))) g.
Proof.
  rewrite map_map. apply map_ext. intros row. by rewrite map_map.
Qed.

(** X21.  [resetVisuals] clears every search field of every node, and
    keeps the walls, the start and finish marks and the shape of the grid;
    resetting twice is resetting once, and the reset at the head of [bmssp]
    changes nothing in a grid that [resetVisuals] returned. *)
Theorem resetVisuals_clears g :
  searchReset (resetVisuals g) ∧
  (∀ p, totalDistance (getNode (resetVisuals g) p) = Infinity ∧
        heuristicDistance (getNode (resetVisuals g) p) = Infinity ∧
        isWall (getNode (resetVisuals g) p) = isWall (getNode g p) ∧
        isStart (getNode (resetVisuals g) p) = isStart (getNode g p) ∧
        isFinish (getNode (resetVisuals g) p) = isFinish (getNode g p)) ∧
  rows (resetVisuals g) = rows g ∧ cols (resetVisuals g) = cols g ∧
  resetVisuals (resetVisuals g) = resetVisuals g ∧
  BMSSP.resetAll (resetVisuals g) = resetVisuals g.
Proof.
  unfold resetVisuals. split_and!.
  - intros p. by rewrite getNode_map.
  - intros p. by rewrite getNode_map.
  - apply rows_map.
  - apply cols_map.
  - by rewrite map_map_grid.
  - unfold BMSSP.resetAll. by rewrite map_map_grid.
Qed.

Lemma resetVisuals_meets_contract g startNode finishNode :
  rectangular g → inGrid g startNode → inGrid g finishNode →
  startNode ≠ finishNode →
  isWall (getNode g startNode) = false → isWall (getNode g finishNode) = false →
  contract (resetVisuals g) startNode finishNode.
Proof.
  intros Hrect Hs Hf Hne Hsw Hfw. unfold resetVisuals. split.
  - by apply rectangular_map.
  - unfold inGrid. by rewrite rows_map, cols_map.
  - unfold inGrid. by rewrite rows_map, cols_map.
  - done.
  - by rewrite getNode_map.
  - by rewrite getNode_map.
  - intros p. by rewrite getNode_map.
Qed.

(** X22.  The grid that [runAlgorithm] hands to a strategy: when the grid
    on display is rectangular and the start and finish positions are
    distinct cells of it that are not walls, the grid that [resetVisuals]
    returns meets the contract of the strategies, whatever an earlier run
    left in the search fields. *)
Theorem resetVisuals_contract g startNode finishNode :
  rectangular g → inGrid g startNode → inGrid g finishNode →
  startNode ≠ finishNode →
  isWall (getNode g startNode) = false → isWall (getNode g finishNode) = false →
  contract (resetVisuals g) startNode finishNode.
Proof. apply resetVisuals_meets_contract. Qed.

(** A grid as a run leaves it: the 2 x 2 grid after [dijkstra]. *)
Definition grid_2x2_used : Grid :=
  match Dijkstra.dijkstra 34 grid_2x2 (0, 0) (1, 1) with
  | Some (g, _) => g
  | None => grid_2x2
  end.

Lemma resetVisuals_contract_witness :
  contract (resetVisuals grid_2x2_used) (0, 0) (1, 1).
Proof.
  apply resetVisuals_contract.
  - vm_compute. split_and!; [lia|lia|].
    intros row Hrow. repeat (apply elem_of_cons in Hrow as [->|Hrow]; [done|]).
    by apply elem_of_nil in Hrow.
  - split; vm_compute; lia.
  - split; vm_compute; lia.
  - done.
  - reflexivity.
  - reflexivity.
Defined.

(** ** The ground-truth check of [runAlgorithm] *)

(** The positions of the walls of the grid on display. *)
Definition wallsOf (g : Grid) : list NodeRef :=
  filter (λ p, isWall (getNode g p) = true) (cells g).

(** [verifyGrid]: [getInitialGrid] with the walls of the grid on display
    copied onto it.  The grid on display has [GRID_ROWS] rows and
    [GRID_COLS] columns; the model reads both numbers off the grid. *)
Definition verifyGrid (g : Grid) (startNodePos finishNodePos : NodeRef) : Grid :=
  makeGrid (rows g) (cols g) (wallsOf g) startNodePos finishNodePos.

(** The flag [isOptimal] that [runAlgorithm] computes: the selected
    strategy runs on the grid that [resetVisuals] returns, [dijkstra] on
    [verifyGrid], and the lengths of the two paths are compared. *)
Definition isOptimal (a : AlgorithmType) (fuel : nat) (g : Grid)
    (startNodePos finishNodePos : NodeRef) : option bool :=
  '(_, result) ← runStrategy a fuel (resetVisuals g) startNodePos finishNodePos;
  '(_, groundTruth) ← Dijkstra.dijkstra fuel (verifyGrid g startNodePos finishNodePos)
                                        startNodePos finishNodePos;
  let foundPathLength := length (nodesInShortestPathOrder result) in
  let optimalPathLength := length (nodesInShortestPathOrder groundTruth) in
  Some (bool_decide (foundPathLength = optimalPathLength) ||
        (bool_decide (foundPathLength = 0) && bool_decide (optimalPathLength = 0))).

Lemma walk_same_walls g0 g1 s k x :
  rows g1 = rows g0 → cols g1 = cols g0 →
  (∀ p, inGrid g0 p → isWall (getNode g1 p) = isWall (getNode g0 p)) →
  walk g0 s k x → walk g1 s k x.
Proof.
  intros Hr Hc Hw. induction 1 as [|k u v Hwalk IH Hadj Hin Hwall]; [constructor|].
  econstructor; [done|done| |].
  - unfold inGrid in *. by rewrite Hr, Hc.
  - by rewrite Hw.
Qed.

Lemma shortest_outcome_same_walls g0 g1 s f path :
  rows g1 = rows g0 → cols g1 = cols g0 →
  (∀ p, inGrid g0 p → isWall (getNode g1 p) = isWall (getNode g0 p)) →
  shortest_outcome g0 s f path → shortest_outcome g1 s f path.
Proof.
  intros Hr Hc Hw.
  assert (∀ k x, walk g1 s k x → walk g0 s k x) as Hback.
  { intros k x. apply walk_same_walls; [done|done|].
    intros p Hp. symmetry. apply Hw. unfold inGrid in *. by rewrite <- Hr, <- Hc. }
  intros [[-> Hno]|(d & Hlen & Hwalk & Hmin)].
  - left. split; [done|]. intros k Hk. by apply (Hno k), Hback.
  - right. exists d. split; [done|]. split.
    + by apply (walk_same_walls g0).
    + intros k Hk. by apply Hmin, Hback.
Qed.

Lemma verifyGrid_walls g s f p :
  inGrid g p → isWall (getNode (verifyGrid g s f) p) = isWall (getNode g p).
Proof.
  intros [Hr Hc]. unfold verifyGrid. rewrite getNode_makeGrid.
  rewrite decide_True by done. cbn. unfold wallsOf.
  destruct (isWall (getNode g p)) eqn:E.
  - apply bool_decide_eq_true. apply list_elem_of_filter. split; [done|].
    by apply elem_of_cells.
  - apply bool_decide_eq_false. intros [? _]%list_elem_of_filter. congruence.
Qed.

Lemma verifyGrid_contract g s f :
  rectangular g → inGrid g s → inGrid g f → s ≠ f →
  isWall (getNode g s) = false → isWall (getNode g f) = false →
  contract (verifyGrid g s f) s f.
Proof.
  intros Hrect [? ?] [? ?] Hne Hs Hf. apply makeGrid_contract; try done.
  - unfold wallsOf. intros [? _]%list_elem_of_filter. congruence.
  - unfold wallsOf. intros [? _]%list_elem_of_filter. congruence.
Qed.

(** X23.  The ground-truth check of [runAlgorithm] never fails for
    [dijkstra] and [astar]: on a rectangular grid with distinct start and
    finish cells that are not walls, both runs return and the flag
    [isOptimal] is [true], whatever an earlier run left in the search
    fields of the grid on display. *)
Theorem dijkstra_astar_isOptimal a fuel g startNode finishNode :
  a = algDijkstra ∨ a = algAstar →
  rectangular g → inGrid g startNode → inGrid g finishNode →
  startNode ≠ finishNode →
  isWall (getNode g startNode) = false → isWall (getNode g finishNode) = false →
  search_fuel g ≤ fuel →
  isOptimal a fuel g startNode finishNode = Some true.
Proof.
  intros Ha Hrect Hs Hf Hne Hsw Hfw Hfuel.
  pose proof (resetVisuals_meets_contract g _ _ Hrect Hs Hf Hne Hsw Hfw) as Hc1.
  pose proof (verifyGrid_contract g _ _ Hrect Hs Hf Hne Hsw Hfw) as Hc2.
  assert (rows (verifyGrid g startNode finishNode) = rows g) as Hr2
    by apply rows_makeGrid.
  assert (cols (verifyGrid g startNode finishNode) = cols g) as Hcl2
    by (apply cols_makeGrid, Hrect).
  assert (search_fuel (resetVisuals g) = search_fuel g) as Hf1.
  { unfold search_fuel, resetVisuals. by rewrite rows_map, cols_map. }
  assert (search_fuel (verifyGrid g startNode finishNode) = search_fuel g) as Hf2.
  { unfold search_fuel. by rewrite Hr2, Hcl2. }
  destruct (dijkstra_shortest _ _ _ fuel Hc2 ltac:(lia)) as (gd & rd & Hd & Hod).
  assert (∃ ga ra, runStrategy a fuel (resetVisuals g) startNode finishNode
                   = Some (ga, ra) ∧
                   shortest_outcome (resetVisuals g) startNode finishNode
                                    (nodesInShortestPathOrder ra))
    as (ga & ra & Hrun & Hoa).
  { destruct Ha as [-> | ->].
    - apply dijkstra_shortest; [done|lia].
    - apply astar_shortest; [done|lia]. }
  unfold isOptimal. rewrite Hrun. cbn [mbind option_bind]. rewrite Hd.
  cbn [mbind option_bind]. f_equal.
  apply orb_true_iff. left. apply bool_decide_eq_true.
  apply (shortest_outcome_length (resetVisuals g) startNode finishNode); [done|].
  apply (shortest_outcome_same_walls (verifyGrid g startNode finishNode));
    [unfold resetVisuals; by rewrite rows_map|
     unfold resetVisuals; by rewrite cols_map| |done].
  intros p Hp. unfold resetVisuals. rewrite getNode_map by done. cbn.
  symmetry. apply verifyGrid_walls. unfold inGrid in *. by rewrite <- Hr2, <- Hcl2.
Qed.

Lemma grid_2x2_used_rect : rectangular grid_2x2_used.
Proof.
  vm_compute. split_and!; [lia|lia|].
  intros row Hrow. repeat (apply elem_of_cons in Hrow as [->|Hrow]; [done|]).
  by apply elem_of_nil in Hrow.
Qed.

Lemma dijkstra_astar_isOptimal_witness :
  isOptimal algAstar 34 grid_2x2_used (0, 0) (1, 1) = Some true.
Proof.
  apply dijkstra_astar_isOptimal.
  - by right.
  - apply grid_2x2_used_rect.
  - split; vm_compute; lia.
  - split; vm_compute; lia.
  - done.
  - reflexivity.
  - reflexivity.
  - vm_compute. lia.
Defined.

(** ** The random maze ([generateRandomMaze]) *)

(** The node that the [grid.map] of [generateRandomMaze] builds: the walls
    and the search fields cleared. *)
Definition mazeClear (n : NodeData) : NodeData :=
  mkNodeData (isStart n) (isFinish n) Infinity false false None Infinity Infinity.

(** One pass through the body of the inner loop, at the cell [p].
    [draws k] is the outcome of the test [Math.random() < WALL_DENSITY] at
    the call number [k] of [Math.random]; the state carries the grid and
    the number of calls made so far.  [None] is the [TypeError] of reading
    [isStart] of [undefined], in a row shorter than the first one. *)
Definition mazeCell (draws : nat → bool) (p : NodeRef) (st : Grid * nat)
  : option (Grid * nat) :=
  node ← st.1 !! p.1 ≫= (λ r, r !! p.2);
  if isStart node || isFinish node then Some st
  else Some (if draws st.2 then updNode st.1 p (set_isWall true) else st.1,
             S st.2).

Fixpoint mazeLoop (draws : nat → bool) (ps : list NodeRef) (st : Grid * nat)
  : option (Grid * nat) :=
  match ps with
  | [] => Some st
  | p :: ps' => st' ← mazeCell draws p st; mazeLoop draws ps' st'
  end.

(** The two loops run over the rows of the new grid and the columns of its
    first row, in row-major order.  The result is the new grid, together
    with the number of calls of [Math.random]. *)
Definition generateRandomMaze (draws : nat → bool) (grid : Grid)
  : option (Grid * nat) :=
  let newGrid := map (map mazeClear) grid in
  mazeLoop draws (cells newGrid) (newGrid, 0).

(** A cell that is neither the start nor the finish node. *)
Definition freeCell (g : Grid) (p : NodeRef) : bool :=
  negb (isStart (getNode g p) || isFinish (getNode g p)).

Lemma lookup_getNode g p :
  rectangular g → inGrid g p →
  g !! p.1 ≫= (λ r, r !! p.2) = Some (getNode g p).
Proof.
  intros (_ & _ & Hrow) [Hr Hc]. unfold getNode.
  destruct (lookup_lt_is_Some_2 g p.1 Hr) as [row Hrow'].
  rewrite Hrow'. cbn [mbind option_bind].
  destruct (lookup_lt_is_Some_2 row p.2) as [n Hn].
  { rewrite (Hrow row) by (by eapply list_elem_of_lookup_2). done. }
  by rewrite Hn.
Qed.

Definition mazeInv (g0 g' : Grid) : Prop :=
  rectangular g' ∧ rows g' = rows g0 ∧ cols g' = cols g0 ∧
  ∀ p, getNode g' p = getNode g0 p ∨
       (inGrid g0 p ∧ freeCell g0 p = true ∧
        getNode g' p = set_isWall true (getNode g0 p)).

Lemma mazeLoop_spec draws g0 ps :
  Forall (inGrid g0) ps →
  ∀ g' k, mazeInv g0 g' →
    ∃ g'', mazeLoop draws ps (g', k) =
             Some (g'', k + length (filter (λ p, freeCell g0 p = true) ps)) ∧
           mazeInv g0 g''.
Proof.
  induction 1 as [|p ps Hp _ IH]; intros g' k Hinv.
  { exists g'. cbn. by rewrite Nat.add_0_r. }
  destruct Hinv as (Hrect & Hr & Hc & Hnodes).
  assert (inGrid g' p) as Hp' by (unfold inGrid in *; by rewrite Hr, Hc).
  assert (isStart (getNode g' p) = isStart (getNode g0 p) ∧
          isFinish (getNode g' p) = isFinish (getNode g0 p)) as [Es Ef].
  { by destruct (Hnodes p) as [->|(_ & _ & ->)]. }
  cbn [mazeLoop]. unfold mazeCell. cbn [fst snd].
  rewrite lookup_getNode by done. cbn [mbind option_bind]. rewrite Es, Ef.
  rewrite filter_cons.
  assert (freeCell g0 p = negb (isStart (getNode g0 p) || isFinish (getNode g0 p)))
    as Efree by done.
  destruct (isStart (getNode g0 p) || isFinish (getNode g0 p)) eqn:Eflag;
    cbn [negb] in Efree.
  - rewrite decide_False by (by rewrite Efree). cbn [mbind option_bind].
    apply IH. by split_and!.
  - rewrite decide_True by done. cbn [mbind option_bind length].
    replace (k + S (length (filter (λ p0, freeCell g0 p0 = true) ps)))
      with (S k + length (filter (λ p0, freeCell g0 p0 = true) ps)) by lia.
    apply IH. destruct (draws k); [|by split_and!].
    split_and!.
    + by apply rectangular_updNode.
    + by rewrite rows_updNode.
    + by rewrite cols_updNode.
    + intros q.
      destruct (getNode_updNode_cases g' p q (set_isWall true)) as [->|[-> ->]];
        [done|].
      right. split_and!; [done|done|].
      by destruct (Hnodes p) as [->|(_ & _ & ->)].
Qed.

(** X24.  [generateRandomMaze], whatever [Math.random] returns: on a
    rectangular grid it returns a grid of the same shape with every search
    field cleared and the start and finish marks kept; a wall is only ever
    put on a cell of the grid that is neither the start nor the finish
    node; [Math.random] is called once for each such cell. *)
Theorem generateRandomMaze_spares_ends draws g :
  rectangular g →
  ∃ g',
    generateRandomMaze draws g =
      Some (g', length (filter (λ p, freeCell g p = true) (cells g))) ∧
    searchReset g' ∧ rows g' = rows g ∧ cols g' = cols g ∧
    (∀ p, totalDistance (getNode g' p) = Infinity ∧
          heuristicDistance (getNode g' p) = Infinity ∧
          isStart (getNode g' p) = isStart (getNode g p) ∧
          isFinish (getNode g' p) = isFinish (getNode g p)) ∧
    (∀ p, isWall (getNode g' p) = true → inGrid g p ∧ freeCell g p = true).
Proof.
  intros Hrect. unfold generateRandomMaze.
  set (g0 := map (map mazeClear) g).
  assert (∀ p, getNode g0 p = mazeClear (getNode g p)) as Hg0
    by (intros p; by apply getNode_map).
  assert (cells g0 = cells g) as Hcells
    by (unfold cells, g0; by rewrite rows_map, cols_map).
  assert (∀ p, freeCell g0 p = freeCell g p) as Hfree
    by (intros p; unfold freeCell; by rewrite Hg0).
  assert (∀ p, inGrid g0 p ↔ inGrid g p) as Hin
    by (intros p; unfold inGrid, g0; by rewrite rows_map, cols_map).
  destruct (mazeLoop_spec draws g0 (cells g0)) with (g' := g0) (k := 0)
    as (g' & Hrun & Hrect' & Hr & Hc & Hnodes).
  { apply Forall_forall. intros p. apply elem_of_cells. }
  { split_and!; [by apply rectangular_map|done|done|by left]. }
  exists g'. split_and!.
  - rewrite Hrun. cbn [Nat.add]. do 3 f_equal. rewrite Hcells.
    apply list_filter_iff. intros p. by rewrite Hfree.
  - intros p. destruct (Hnodes p) as [->|(_ & _ & ->)]; by rewrite Hg0.
  - rewrite Hr. apply rows_map.
  - rewrite Hc. apply cols_map.
  - intros p. destruct (Hnodes p) as [->|(_ & _ & ->)]; by rewrite Hg0.
  - intros p Hw. destruct (Hnodes p) as [E|(Hp & Hf & _)].
    + rewrite E, Hg0 in Hw. done.
    + split; [by apply Hin|by rewrite <- Hfree].
Qed.

Lemma generateRandomMaze_spares_ends_witness :
  ∃ g',
    generateRandomMaze (λ _, true) grid_2x2 =
      Some (g', length (filter (λ p, freeCell grid_2x2 p = true) (cells grid_2x2))) ∧
    searchReset g' ∧ rows g' = rows grid_2x2 ∧ cols g' = cols grid_2x2 ∧
    (∀ p, totalDistance (getNode g' p) = Infinity ∧
          heuristicDistance (getNode g' p) = Infinity ∧
          isStart (getNode g' p) = isStart (getNode grid_2x2 p) ∧
          isFinish (getNode g' p) = isFinish (getNode grid_2x2 p)) ∧
    (∀ p, isWall (getNode g' p) = true →
          inGrid grid_2x2 p ∧ freeCell grid_2x2 p = true).
Proof. apply generateRandomMaze_spares_ends, grid_2x2_rect. Defined.

(** X25.  [generateRandomMaze] starts from a grid without walls: the walls
    of the grid it is given have no effect on the maze it returns. *)
Theorem generateRandomMaze_drops_walls draws g :
  generateRandomMaze draws g =
  generateRandomMaze draws (map (map (set_isWall false)) g).
Proof. unfold generateRandomMaze. by rewrite map_map_grid. Qed.

(** ** [toggleWall] *)

(** The grid that [toggleWall] returns.  [None] stands for the
    [TypeError] of a missing row and, for a column outside the row, for a
    row that is extended by an object that is not a node.  The copy that the
    function makes of the grid is shallow, so the write also shows in
    the grid it was given; the model is of the value returned. *)
Definition toggleWall (currentGrid : Grid) (row col : nat) : option Grid :=
  node ← currentGrid !! row ≫= (λ r, r !! col);
  Some (updNode currentGrid (row, col)
          (λ _, set_isWall (negb (isWall node)) node)).

(** X26.  [toggleWall] on a cell of the grid flips [isWall] of that cell
    and changes nothing else: every other node, the other fields of the
    cell and the shape of the grid are kept, and toggling the same cell
    again gives back the grid. *)
Theorem toggleWall_twice g row col :
  is_Some (g !! row ≫= (λ r, r !! col)) →
  ∃ g', toggleWall g row col = Some g' ∧
        toggleWall g' row col = Some g ∧
        isWall (getNode g' (row, col)) = negb (isWall (getNode g (row, col))) ∧
        set_isWall (isWall (getNode g (row, col))) (getNode g' (row, col))
          = getNode g (row, col) ∧
        (∀ p, p ≠ (row, col) → getNode g' p = getNode g p) ∧
        rows g' = rows g ∧ cols g' = cols g.
Proof.
  intros [n Hn]. unfold toggleWall. rewrite Hn. cbn [mbind option_bind].
  set (n' := set_isWall (negb (isWall n)) n).
  destruct (g !! row) as [r|] eqn:Hr; [|done]. cbn [mbind option_bind] in Hn.
  assert (getNode g (row, col) = n) as Hg.
  { unfold getNode. cbn [fst snd]. rewrite Hr. cbn [mbind option_bind]. by rewrite Hn. }
  assert (updNode g (row, col) (λ _, n') !! row ≫= (λ r, r !! col) = Some n') as Hn'.
  { unfold updNode. cbn [fst snd]. rewrite list_lookup_alter_eq, Hr.
    cbn [fmap option_fmap option_map mbind option_bind].
    by rewrite list_lookup_alter_eq, Hn. }
  assert (getNode (updNode g (row, col) (λ _, n')) (row, col) = n') as Hg'.
  { unfold getNode. cbn [fst snd]. by rewrite Hn'. }
  eexists. split; [done|]. rewrite Hn'. cbn [mbind option_bind].
  split_and!.
  - f_equal. unfold updNode. cbn [fst snd]. rewrite list_alter_alter_eq.
    rewrite <- (list_alter_id id g row) at 2 by done.
    apply list_alter_ext; [|done]. intros r' Hr'.
    assert (r' = r) as -> by congruence. cbn [compose id].
    rewrite list_alter_alter_eq.
    rewrite <- (list_alter_id id r col) at 2 by done.
    apply list_alter_ext; [|done]. intros n0 Hn0.
    assert (n0 = n) as -> by congruence. cbn [compose id].
    unfold n'. destruct n. cbn. by rewrite negb_involutive.
  - by rewrite Hg', Hg.
  - rewrite Hg', Hg. unfold n'. by destruct n.
  - intros p Hp. by apply getNode_updNode_ne.
  - apply rows_updNode.
  - apply cols_updNode.
Qed.

Lemma toggleWall_twice_witness :
  ∃ g', toggleWall grid_1x3_wall 0 1 = Some g' ∧
        toggleWall g' 0 1 = Some grid_1x3_wall ∧
        isWall (getNode g' (0, 1)) = negb (isWall (getNode grid_1x3_wall (0, 1))) ∧
        set_isWall (isWall (getNode grid_1x3_wall (0, 1))) (getNode g' (0, 1))
          = getNode grid_1x3_wall (0, 1) ∧
        (∀ p, p ≠ (0, 1) → getNode g' p = getNode grid_1x3_wall p) ∧
        rows g' = rows grid_1x3_wall ∧ cols g' = cols grid_1x3_wall.
Proof. apply toggleWall_twice. vm_compute. by eexists. Defined.
